(** * SyncFolders: one-way folder synchronisation (sync_folders.py)

    A shallow embedding of [calculate_md5] and [sync_folders] and the
    properties of the reconciliation pass.

    Layout:
    - [MD5]: the hash object of [hashlib.md5] (RFC 1321), streaming;
    - the file system: two directory trees, addressed by relative paths;
    - a state-and-exception monad for Python's effects;
    - [calculate_md5], [sync_folders];
    - the process around them: [setup_logging], the loop of [main], and
      the closing [print] of [sync_folders];
    - facts, the claims of the specification, and further properties of
      the code. *)

From Stdlib Require Import String Ascii Strings.Byte List ZArith NArith Arith Bool Lia.
Import ListNotations.

Set Warnings "-register-all".

(** Bytes of a file. *)
Definition bytes := list byte.

(* ------------------------------------------------------------------ *)
(** * hashlib.md5 *)
(* ------------------------------------------------------------------ *)

Module MD5.

Local Open Scope Z_scope.

(** 32-bit words are [Z] in [0, 2^32), the wrap-around is explicit. *)
Definition wrap (x : Z) : Z := x mod 4294967296.

Definition add32 (x y : Z) : Z := wrap (x + y).

Definition not32 (x : Z) : Z := 4294967295 - x.

Definition rotl (x : Z) (c : Z) : Z :=
  Z.lor (wrap (Z.shiftl x c)) (Z.shiftr x (32 - c)).

(** Per-round shift amounts. *)
Definition shifts : list Z :=
  [ 7; 12; 17; 22; 7; 12; 17; 22; 7; 12; 17; 22; 7; 12; 17; 22;
    5;  9; 14; 20; 5;  9; 14; 20; 5;  9; 14; 20; 5;  9; 14; 20;
    4; 11; 16; 23; 4; 11; 16; 23; 4; 11; 16; 23; 4; 11; 16; 23;
    6; 10; 15; 21; 6; 10; 15; 21; 6; 10; 15; 21; 6; 10; 15; 21 ].

(** [floor (2^32 * abs (sin (i + 1)))]. *)
Definition sines : list Z :=
  [ 0xd76aa478; 0xe8c7b756; 0x242070db; 0xc1bdceee;
    0xf57c0faf; 0x4787c62a; 0xa8304613; 0xfd469501;
    0x698098d8; 0x8b44f7af; 0xffff5bb1; 0x895cd7be;
    0x6b901122; 0xfd987193; 0xa679438e; 0x49b40821;
    0xf61e2562; 0xc040b340; 0x265e5a51; 0xe9b6c7aa;
    0xd62f105d; 0x02441453; 0xd8a1e681; 0xe7d3fbc8;
    0x21e1cde6; 0xc33707d6; 0xf4d50d87; 0x455a14ed;
    0xa9e3e905; 0xfcefa3f8; 0x676f02d9; 0x8d2a4c8a;
    0xfffa3942; 0x8771f681; 0x6d9d6122; 0xfde5380c;
    0xa4beea44; 0x4bdecfa9; 0xf6bb4b60; 0xbebfbc70;
    0x289b7ec6; 0xeaa127fa; 0xd4ef3085; 0x04881d05;
    0xd9d4d039; 0xe6db99e5; 0x1fa27cf8; 0xc4ac5665;
    0xf4292244; 0x432aff97; 0xab9423a7; 0xfc93a039;
    0x655b59c3; 0x8f0ccc92; 0xffeff47d; 0x85845dd1;
    0x6fa87e4f; 0xfe2ce6e0; 0xa3014314; 0x4e0811a1;
    0xf7537e82; 0xbd3af235; 0x2ad7d2bb; 0xeb86d391 ].

(** The chaining value A, B, C, D. *)
Record chain := Chain { cA : Z; cB : Z; cC : Z; cD : Z }.

Definition chain0 : chain :=
  Chain 0x67452301 0xefcdab89 0x98badcfe 0x10325476.

Definition byteZ (b : byte) : Z := Z.of_N (Byte.to_N b).

(** Little-endian decoding of the sixteen 32-bit words of a block. *)
Fixpoint words_le (bs : bytes) (n : nat) : list Z :=
  match n with
  | O => []
  | S n' =>
      match bs with
      | b0 :: b1 :: b2 :: b3 :: rest =>
          (byteZ b0 + 256 * (byteZ b1 + 256 * (byteZ b2 + 256 * byteZ b3)))
            :: words_le rest n'
      | _ => []
      end
  end.

(** One of the 64 steps on block [m]. *)
Definition step (m : list Z) (i : nat) (c : chain) : chain :=
  let '(Chain a b c' d) := c in
  let '(f, g) :=
    match Nat.div i 16 with
    | 0%nat => (Z.lor (Z.land b c') (Z.land (not32 b) d), i)
    | 1%nat => (Z.lor (Z.land d b) (Z.land (not32 d) c'),
                Nat.modulo (5 * i + 1) 16)
    | 2%nat => (Z.lxor (Z.lxor b c') d, Nat.modulo (3 * i + 5) 16)
    | _ => (Z.lxor c' (Z.lor b (not32 d)), Nat.modulo (7 * i) 16)
    end in
  let f' := add32 (add32 (add32 f a) (nth i sines 0)) (nth g m 0) in
  Chain d (add32 b (rotl f' (nth i shifts 0))) b c'.

(** The compression function: absorb one 64-byte block. *)
Definition compress (c : chain) (block : bytes) : chain :=
  let m := words_le block 16 in
  let r := fold_left (fun acc i => step m i acc) (seq 0 64) c in
  Chain (add32 (cA c) (cA r)) (add32 (cB c) (cB r))
        (add32 (cC c) (cC r)) (add32 (cD c) (cD r)).

(** Absorb every complete block of [data]; what is left is shorter than a
    block. [fuel] bounds the number of blocks. *)
Fixpoint absorb (fuel : nat) (c : chain) (data : bytes) : chain * bytes :=
  match fuel with
  | O => (c, data)
  | S fuel' =>
      if (length data <? 64)%nat then (c, data)
      else absorb fuel' (compress c (firstn 64 data)) (skipn 64 data)
  end.

(** The hash object: chaining value, pending bytes (fewer than 64) and the
    number of bytes fed so far. *)
Record t := Hash { chaining : chain; pending : bytes; fed : nat }.

(** [hashlib.md5()] *)
Definition new : t := Hash chain0 [] 0.

(** [h.update(data)] *)
Definition update (h : t) (data : bytes) : t :=
  let buf := pending h ++ data in
  let '(c, rest) := absorb (length buf) (chaining h) buf in
  Hash c rest (fed h + length data).

Definition le_bytes (n : nat) (x : Z) : bytes :=
  map (fun i => match Byte.of_N (Z.to_N ((Z.shiftr x (8 * Z.of_nat i)) mod 256)) with
                | Some b => b
                | None => x00
                end) (seq 0 n).

(** The final padding: 0x80, zeros up to 56 mod 64, the bit length on 64
    bits, little-endian. *)
Definition padding (pend total : nat) : bytes :=
  let zeros := ((64 + 55 - Nat.modulo pend 64) mod 64)%nat in
  x80 :: repeat x00 zeros ++ le_bytes 8 ((8 * Z.of_nat total) mod 2 ^ 64).

(** [h.digest()] *)
Definition digest (h : t) : bytes :=
  let buf := pending h ++ padding (length (pending h)) (fed h) in
  let c := fst (absorb (length buf) (chaining h) buf) in
  le_bytes 4 (cA c) ++ le_bytes 4 (cB c) ++ le_bytes 4 (cC c) ++ le_bytes 4 (cD c).

Definition hex_digit (n : N) : ascii :=
  match n with
  | 0 => "0" | 1 => "1" | 2 => "2" | 3 => "3" | 4 => "4" | 5 => "5"
  | 6 => "6" | 7 => "7" | 8 => "8" | 9 => "9" | 10 => "a" | 11 => "b"
  | 12 => "c" | 13 => "d" | 14 => "e" | _ => "f"
  end%N%char.

Fixpoint hex (bs : bytes) : string :=
  match bs with
  | [] => EmptyString
  | b :: rest =>
      let n := Byte.to_N b in
      String (hex_digit (N.div n 16)) (String (hex_digit (N.modulo n 16)) (hex rest))
  end.

(** [h.hexdigest()] *)
Definition hexdigest (h : t) : string := hex (digest h).

End MD5.

(* ------------------------------------------------------------------ *)
(** * The file system *)
(* ------------------------------------------------------------------ *)

(** A directory entry is a file with its bytes or a directory with its
    named children, in the order [os.scandir] lists them. Names are looked
    up first match. *)
Definition name := string.

Inductive node :=
| File (data : bytes)
| Dir (entries : list (name * node)).

(** What [os.stat] tells about a path. *)
Inductive kind :=
| KFile (data : bytes)
| KDir.

(** There are two trees of files and directories, no symbolic links. A
    path names a tree and the components below its root; the empty
    component list is the root itself (what [os.path.relpath] prints as
    '.'). Where [sync_folders] is called with [source_root] and
    [replica_root], the two folders are the roots of the two trees, and
    so apart. Folders with directories above them are paths with
    components, and two folders in one tree (side by side, or one inside
    the other) are two paths of that tree: [sync_folders] takes any two
    paths. *)
Inductive side := Source | Replica.

Record path := Path { base : side; rel : list name }.

Definition side_eqb (a b : side) : bool :=
  match a, b with
  | Source, Source | Replica, Replica => true
  | _, _ => false
  end.

Fixpoint names_eqb (a b : list name) : bool :=
  match a, b with
  | [], [] => true
  | x :: a', y :: b' => String.eqb x y && names_eqb a' b'
  | _, _ => false
  end.

Definition path_eqb (p q : path) : bool :=
  side_eqb (base p) (base q) && names_eqb (rel p) (rel q).

(** [os.path.join(p, *cs)] *)
Definition join (p : path) (cs : list name) : path :=
  Path (base p) (rel p ++ cs).

(** [os.path.relpath(p, start)], for [p] at or below [start]. *)
Definition relpath (p start : path) : list name :=
  skipn (length (rel start)) (rel p).

(** [os.path.basename(p)] *)
Definition basename (p : path) : list name :=
  match rev (rel p) with
  | [] => []
  | x :: _ => [x]
  end.

(** [os.path.dirname(p)] *)
Definition dirname (p : path) : path := Path (base p) (removelast (rel p)).

(** ** Directories as association lists *)

Fixpoint assoc (x : name) (es : list (name * node)) : option node :=
  match es with
  | [] => None
  | (y, c) :: es' => if String.eqb x y then Some c else assoc x es'
  end.

(** Replace the entry [x], or add it at the end. *)
Fixpoint put (x : name) (c : node) (es : list (name * node)) : list (name * node) :=
  match es with
  | [] => [(x, c)]
  | (y, d) :: es' =>
      if String.eqb x y then (x, c) :: es' else (y, d) :: put x c es'
  end.

Definition del (x : name) (es : list (name * node)) : list (name * node) :=
  filter (fun e => negb (String.eqb x (fst e))) es.

(** ** Trees *)

Fixpoint lookup (n : node) (p : list name) : option node :=
  match p with
  | [] => Some n
  | x :: p' =>
      match n with
      | Dir es =>
          match assoc x es with
          | Some c => lookup c p'
          | None => None
          end
      | File _ => None
      end
  end.

(** Set ([Some c]) or clear ([None]) the entry at the non-empty path [p],
    whose parent is a directory of [n]. *)
Fixpoint write (n : node) (p : list name) (c : option node) : node :=
  match n, p with
  | Dir es, [x] =>
      Dir (match c with Some c' => put x c' es | None => del x es end)
  | Dir es, x :: p' =>
      match assoc x es with
      | Some d => Dir (put x (write d p' c) es)
      | None => n
      end
  | _, _ => n
  end.

(** A fresh chain of directories [x1/x2/.../xn]. *)
Fixpoint mkchain (p : list name) : node :=
  match p with
  | [] => Dir []
  | x :: p' => Dir [(x, mkchain p')]
  end.

(** The exceptions the calls of the program raise. Each is an [OSError]
    ([shutil.SameFileError] too), so the handlers [except OSError] and
    [except Exception] catch every one of them. *)
Inductive exn :=
| FileNotFoundError
| FileExistsError
| IsADirectoryError
| NotADirectoryError
| PermissionError
| SameFileError
| OSError (errno : nat).

(** [os.makedirs(p, exist_ok=True)] below [n]: every missing directory on
    the way is created; a file on the way is an error. *)
Fixpoint mkdirs (n : node) (p : list name) : exn + node :=
  match n, p with
  | Dir _, [] => inr n
  | File _, [] => inl FileExistsError
  | File _, _ :: _ => inl NotADirectoryError
  | Dir es, x :: p' =>
      match assoc x es with
      | Some c =>
          match mkdirs c p' with
          | inl e => inl e
          | inr c' => inr (Dir (put x c' es))
          end
      | None => inr (Dir (put x (mkchain p') es))
      end
  end.

Fixpoint height (n : node) : nat :=
  match n with
  | File _ => 0
  | Dir es =>
      S ((fix deepest (l : list (name * node)) : nat :=
            match l with
            | [] => 0
            | (_, c) :: l' => Nat.max (height c) (deepest l')
            end) es)
  end.

Definition is_dir (n : node) : bool :=
  match n with Dir _ => true | File _ => false end.

(** ** The two roots, each present or not *)

Definition vlookup (o : option node) (p : list name) : option node :=
  match o with
  | Some n => lookup n p
  | None => None
  end.

Definition vwrite (o : option node) (p : list name) (c : option node) : option node :=
  match p with
  | [] => c
  | _ :: _ => option_map (fun n => write n p c) o
  end.

Definition vmkdirs (o : option node) (p : list name) : exn + node :=
  match o with
  | Some n => mkdirs n p
  | None => inr (mkchain p)
  end.

Definition kind_of (n : node) : kind :=
  match n with
  | File data => KFile data
  | Dir _ => KDir
  end.

(** The error of opening a path that is not there: the first component
    that cannot be entered is missing, or is a regular file. *)
Fixpoint missing_error (n : node) (p : list name) : exn :=
  match n, p with
  | File _, _ :: _ => NotADirectoryError
  | Dir es, x :: p' =>
      match assoc x es with
      | Some c => missing_error c p'
      | None => FileNotFoundError
      end
  | _, [] => FileNotFoundError
  end.

Definition vmissing_error (o : option node) (p : list name) : exn :=
  match o with
  | Some n => missing_error n p
  | None => FileNotFoundError
  end.

(* ------------------------------------------------------------------ *)
(** * State and effects *)
(* ------------------------------------------------------------------ *)

(** The records of the [logging] module, by level and message. *)
Inductive message :=
| Starting_synchronization
| Created_directory (which : string) (folder : path)
| Copied_updated_file (source_file replica_file : path)
| Deleted_directory (replica_path : path)
| Deleted_file (replica_path : path)
| No_changes_made
| Synchronization_completed
| Failed_to_calculate_md5 (file_path : path) (e : exn)
| Failed_to_create_directories (replica source : path) (e : exn)
| Failed_to_create_directory (replica_root : path) (dir_name : name) (e : exn)
| Failed_to_delete (replica_path : path) (e : exn)
| Error_during_synchronization (e : exn).

Inductive record :=
| INFO (m : message)
| ERROR (m : message).

(** What a successful call of the operating system changed. *)
Inductive mutation :=
| Mkdir (p : path)
| WriteFile (p : path) (data : bytes)
| Rmtree (p : path)
| Unlink (p : path).

Definition target (m : mutation) : path :=
  match m with
  | Mkdir p | WriteFile p _ | Rmtree p | Unlink p => p
  end.

(** The calls that can fail for reasons outside the two trees (permissions,
    a device error): an oracle says which do, and with what. *)
Inductive op :=
| OpMakedirs (p : path)
| OpOpen (p : path)
| OpRead (p : path) (offset : nat)
| OpCopy (src dst : path)
| OpRmtree (p : path)
| OpRemove (p : path)
| OpScandir (p : path).

(** The state a call of [sync_folders] runs in: the two trees, the log,
    the journal of mutations, and the local variable [changes_made]. *)
Record state := State {
  source_tree : option node;
  replica_tree : option node;
  log : list record;
  journal : list mutation;
  changes_made : bool
}.

Definition tree (w : state) (s : side) : option node :=
  match s with
  | Source => source_tree w
  | Replica => replica_tree w
  end.

Definition set_tree (w : state) (s : side) (o : option node) : state :=
  match s with
  | Source => State o (replica_tree w) (log w) (journal w) (changes_made w)
  | Replica => State (source_tree w) o (log w) (journal w) (changes_made w)
  end.

Definition add_journal (w : state) (m : mutation) : state :=
  State (source_tree w) (replica_tree w) (log w) (journal w ++ [m]) (changes_made w).

Definition find (w : state) (p : path) : option node :=
  vlookup (tree w (base p)) (rel p).

Definition stat (w : state) (p : path) : option kind :=
  option_map kind_of (find w p).

(** A computation runs from a state, ends in a state, and returns a value
    or raises. *)
Definition M (A : Type) : Type := state -> (exn + A) * state.

Definition ret {A} (a : A) : M A := fun w => (inr a, w).

Definition raise {A} (e : exn) : M A := fun w => (inl e, w).

Definition bind {A B} (c : M A) (k : A -> M B) : M B :=
  fun w =>
    match c w with
    | (inr a, w') => k a w'
    | (inl e, w') => (inl e, w')
    end.

(** [try: c except Exception as e: h e] *)
Definition try_except {A} (c : M A) (h : exn -> M A) : M A :=
  fun w =>
    match c w with
    | (inr a, w') => (inr a, w')
    | (inl e, w') => h e w'
    end.

Declare Scope monad_scope.
Delimit Scope monad_scope with monad.
Notation "x <- c ;; k" := (bind c (fun x => k))
  (at level 61, c at next level, right associativity) : monad_scope.
Notation "c ;; k" := (bind c (fun _ => k))
  (at level 61, right associativity) : monad_scope.
Local Open Scope monad_scope.

(** [for x in xs: body x] *)
Fixpoint for_each {A} (xs : list A) (body : A -> M unit) : M unit :=
  match xs with
  | [] => ret tt
  | x :: xs' => body x ;; for_each xs' body
  end.

Definition gets {A} (f : state -> A) : M A := fun w => (inr (f w), w).

Definition log_info (m : message) : M unit :=
  fun w => (inr tt, State (source_tree w) (replica_tree w) (log w ++ [INFO m])
                          (journal w) (changes_made w)).

Definition log_error (m : message) : M unit :=
  fun w => (inr tt, State (source_tree w) (replica_tree w) (log w ++ [ERROR m])
                          (journal w) (changes_made w)).

Definition set_changes_made (b : bool) : M unit :=
  fun w => (inr tt, State (source_tree w) (replica_tree w) (log w) (journal w) b).

(** What Python returns: [None] or a [bool]. *)
Inductive pyval :=
| PyNone
| PyBool (b : bool).

Definition opt_string_eqb (a b : option string) : bool :=
  match a, b with
  | None, None => true
  | Some x, Some y => String.eqb x y
  | _, _ => false
  end.

Section Program.

(** The calls that fail for outside reasons, and how. *)
Variable faulty : op -> option exn.

Definition fault (o : op) : M unit :=
  match faulty o with
  | Some e => raise e
  | None => ret tt
  end.

(** ** The operating system *)

(** [os.path.exists(p)]. The real call answers [False] also when
    [os.stat] fails on a path that is there (a directory above it that
    cannot be searched); here [os.stat] does not fail, and the answer is
    what the tree holds. *)
Definition path_exists (p : path) : M bool :=
  gets (fun w => match find w p with Some _ => true | None => false end).

(** [os.path.isdir(p)], with an [os.stat] that does not fail, as for
    [path_exists]. *)
Definition path_isdir (p : path) : M bool :=
  gets (fun w => match find w p with Some (Dir _) => true | _ => false end).

(** [os.makedirs(p, exist_ok=True)] *)
Definition makedirs (p : path) : M unit :=
  fault (OpMakedirs p) ;;
  fun w =>
    match vmkdirs (tree w (base p)) (rel p) with
    | inl e => (inl e, w)
    | inr n' =>
        match find w p with
        | Some _ => (inr tt, w)
        | None => (inr tt, add_journal (set_tree w (base p) (Some n')) (Mkdir p))
        end
    end.

(** The parent directory of [p] must be there for an entry to be created,
    replaced or removed at [p]. *)
Definition parent_check (p : path) : M unit :=
  match rel p with
  | [] => ret tt
  | _ :: _ =>
      fun w =>
        match find w (dirname p) with
        | Some (Dir _) => (inr tt, w)
        | Some (File _) => (inl NotADirectoryError, w)
        | None => (inl FileNotFoundError, w)
        end
  end.

(** [shutil.copy2(src, dst)]: into [dst] when it is a directory; the source
    is opened for reading and the target for writing. A call that fails
    leaves the target as it was: so it is when the source or the target
    cannot be opened; a copy that breaks off after that is the matter of
    [copies_whole] below. *)
Definition copy2 (src dst : path) : M unit :=
  fault (OpCopy src dst) ;;
  isd <- path_isdir dst ;;
  let dst := if isd then join dst (basename src) else dst in
  (if path_eqb src dst then raise SameFileError else ret tt) ;;
  fun w =>
    match find w src with
    | None => (inl FileNotFoundError, w)
    | Some (Dir _) => (inl IsADirectoryError, w)
    | Some (File data) =>
        (parent_check dst ;;
         fun w =>
           match find w dst with
           | Some (Dir _) => (inl IsADirectoryError, w)
           | _ =>
               (inr tt,
                add_journal
                  (set_tree w (base dst)
                     (vwrite (tree w (base dst)) (rel dst) (Some (File data))))
                  (WriteFile dst data))
           end) w
    end.

(** [os.remove(p)] *)
Definition remove (p : path) : M unit :=
  fault (OpRemove p) ;;
  fun w =>
    match find w p with
    | None => (inl FileNotFoundError, w)
    | Some (Dir _) => (inl IsADirectoryError, w)
    | Some (File _) =>
        (inr tt,
         add_journal
           (set_tree w (base p) (vwrite (tree w (base p)) (rel p) None))
           (Unlink p))
    end.

(** [shutil.rmtree(p)]. A call that fails removes nothing; a removal
    that breaks off halfway is the matter of [removes_whole] below. *)
Definition rmtree (p : path) : M unit :=
  fault (OpRmtree p) ;;
  fun w =>
    match find w p with
    | None => (inl FileNotFoundError, w)
    | Some (File _) => (inl NotADirectoryError, w)
    | Some (Dir _) =>
        (inr tt,
         add_journal
           (set_tree w (base p) (vwrite (tree w (base p)) (rel p) None))
           (Rmtree p))
    end.

(** The names [os.scandir] lists under [top], directories and others
    apart, as [os.walk] sorts them; [None] when the listing fails. *)
Definition scandir (top : path) (w : state) : option (list name * list name) :=
  match faulty (OpScandir top) with
  | Some _ => None
  | None =>
      match find w top with
      | Some (Dir es) =>
          let is_d x := match assoc x es with Some (Dir _) => true | _ => false end in
          let names := map fst es in
          Some (filter is_d names, filter (fun x => negb (is_d x)) names)
      | _ => None
      end
  end.

(** [for root, dirs, files in os.walk(top): body root dirs files], top
    down: the directory is listed, the body runs, then each of [dirs] is
    walked in turn. A directory that cannot be listed (any more) is passed
    over, as [onerror] is [None]. [fuel] bounds the depth. *)
Fixpoint walk (fuel : nat) (top : path)
    (body : path -> list name -> list name -> M unit) : M unit :=
  match fuel with
  | O => ret tt
  | S fuel' =>
      listing <- gets (scandir top) ;;
      match listing with
      | None => ret tt
      | Some (dirs, files) =>
          body top dirs files ;;
          for_each dirs (fun d => walk fuel' (join top [d]) body)
      end
  end.

(** No walk goes deeper than the tree is high, as long as the walk does
    not write into the directory it walks: so it is when neither folder
    of a call lies inside the other. *)
Definition walk_fuel (top : path) (w : state) : nat :=
  match tree w (base top) with
  | Some n => S (height n)
  | None => 1
  end.

Definition os_walk (top : path)
    (body : path -> list name -> list name -> M unit) : M unit :=
  fuel <- gets (walk_fuel top) ;;
  walk fuel top body.

(** ** calculate_md5 *)

(** [open(file_path, "rb")]: the bytes to read. A path that is not there
    gives [NotADirectoryError] when a regular file stands on the way, and
    [FileNotFoundError] else. *)
Definition open_rb (file_path : path) : M bytes :=
  fault (OpOpen file_path) ;;
  fun w =>
    match find w file_path with
    | Some (File data) => (inr data, w)
    | Some (Dir _) => (inl IsADirectoryError, w)
    | None => (inl (vmissing_error (tree w (base file_path)) (rel file_path)), w)
    end.

(** The chunk size of [f.read(4096)]. *)
Definition chunk_size : nat := 4096.

(** [f.read(size)] at offset [pos] of the open file. *)
Definition read (file_path : path) (data : bytes) (pos size : nat) : M bytes :=
  fault (OpRead file_path pos) ;;
  ret (firstn size (skipn pos data)).

(** [for chunk in iter(lambda: f.read(4096), b""): hash_md5.update(chunk)] *)
Fixpoint read_chunks (fuel : nat) (file_path : path) (data : bytes) (pos : nat)
    (hash_md5 : MD5.t) : M MD5.t :=
  match fuel with
  | O => ret hash_md5
  | S fuel' =>
      chunk <- read file_path data pos chunk_size ;;
      match chunk with
      | [] => ret hash_md5
      | _ :: _ =>
          read_chunks fuel' file_path data (pos + length chunk)
            (MD5.update hash_md5 chunk)
      end
  end.

Definition calculate_md5 (file_path : path) : M (option string) :=
  try_except
    (let hash_md5 := MD5.new in
     data <- open_rb file_path ;;
     hash_md5 <- read_chunks (S (length data)) file_path data 0 hash_md5 ;;
     ret (Some (MD5.hexdigest hash_md5)))
    (fun e =>
       log_error (Failed_to_calculate_md5 file_path e) ;;
       ret None).

(** ** sync_folders *)

(** The body of the first loop: source to replica. *)
Definition propagate (source replica : path)
    (root : path) (dirs files : list name) : M unit :=
  let relative_path := relpath root source in
  let replica_root := join replica relative_path in
  for_each dirs (fun dir_name =>
    try_except
      (makedirs (join replica_root [dir_name]))
      (fun e => log_error (Failed_to_create_directory replica_root dir_name e))) ;;
  for_each files (fun file_name =>
    let source_file := join root [file_name] in
    let replica_file := join replica_root [file_name] in
    there <- path_exists replica_file ;;
    differs <-
      (if negb there then ret true
       else
         a <- calculate_md5 source_file ;;
         b <- calculate_md5 replica_file ;;
         ret (negb (opt_string_eqb a b))) ;;
    if (differs : bool) then
      copy2 source_file replica_file ;;
      log_info (Copied_updated_file source_file replica_file) ;;
      set_changes_made true
    else ret tt).

(** The body of the second loop: what the source does not have goes. *)
Definition prune (source replica : path)
    (root : path) (dirs files : list name) : M unit :=
  let source_root := join source (relpath root replica) in
  for_each (files ++ dirs) (fun name =>
    let replica_path := join root [name] in
    let source_path := join source_root [name] in
    try_except
      (there <- path_exists source_path ;;
       if negb there then
         isd <- path_isdir replica_path ;;
         (if (isd : bool) then
            rmtree replica_path ;;
            log_info (Deleted_directory replica_path)
          else
            remove replica_path ;;
            log_info (Deleted_file replica_path)) ;;
         set_changes_made true
       else ret tt)
      (fun e => log_error (Failed_to_delete replica_path e))).

(** [sync_folders(source, replica)], up to its last statement. The first
    [try] returns [changes_made] from its handler; the end of the
    function returns nothing, which is [None]. The closing [print], which
    stands after both [try] blocks and can raise, is the step that
    [sync_folders_printing] adds below. *)
Definition sync_folders (source replica : path) : M pyval :=
  log_info Starting_synchronization ;;
  set_changes_made false ;;
  returned <-
    try_except
      (for_each [(source, "source"%string); (replica, "replica"%string)]
         (fun '(folder, which) =>
            there <- path_exists folder ;;
            if negb there then
              makedirs folder ;;
              log_info (Created_directory which folder) ;;
              set_changes_made true
            else ret tt) ;;
       ret None)
      (fun e =>
         log_error (Failed_to_create_directories replica source e) ;;
         flag <- gets changes_made ;;
         ret (Some (PyBool flag))) ;;
  match returned with
  | Some v => ret v
  | None =>
      try_except
        (os_walk source (propagate source replica) ;;
         os_walk replica (prune source replica))
        (fun e => log_error (Error_during_synchronization e)) ;;
      flag <- gets changes_made ;;
      (if negb flag then log_info No_changes_made else ret tt) ;;
      log_info Synchronization_completed ;;
      ret PyNone
  end.

End Program.

(** The two arguments of a call. *)
Definition source_root : path := Path Source [].
Definition replica_root : path := Path Replica [].

Definition no_faults : op -> option exn := fun _ => None.

Definition bytes_of (s : string) : bytes := list_byte_of_string s.

Definition initial (src rep : option node) : state :=
  State src rep [] [] false.

(** [hashlib.md5(data).hexdigest()]: the digest of the whole content in
    one step. *)
Definition md5_hex (data : bytes) : string :=
  MD5.hexdigest (MD5.update MD5.new data).

(** A file that can be opened and read to its end. *)
Definition readable (faulty : op -> option exn) (w : state) (p : path)
    (data : bytes) : Prop :=
  find w p = Some (File data) /\
  faulty (OpOpen p) = None /\
  forall pos, faulty (OpRead p pos) = None.

(** [p] is [q] or above it. *)
Fixpoint prefixb (p q : list name) : bool :=
  match p, q with
  | [], _ => true
  | x :: p', y :: q' => String.eqb x y && prefixb p' q'
  | _ :: _, [] => false
  end.

(** What [os.stat] tells about the components [p] below the node [n]. *)
Definition nstat (n : node) (p : list name) : option kind :=
  option_map kind_of (lookup n p).

Definition vstat (o : option node) (p : list name) : option kind :=
  option_map kind_of (vlookup o p).

Definition is_error (r : record) : bool :=
  match r with
  | ERROR _ => true
  | INFO _ => false
  end.

(** The error records of the log. *)
Definition errors (w : state) : list record := filter is_error (log w).

(** The number of error records logged so far. *)
Definition nerr (w : state) : nat := length (errors w).

(** A run that returns (raises nothing) and logs no error. *)
Definition quiet {A} (m : M A) (w : state) (a : A) (w' : state) : Prop :=
  m w = (inr a, w') /\ nerr w' <= nerr w.

(** What may change from [w] to [w'] in a call of [sync_folders]: records
    are added to the log; every mutation is under the replica root, or
    makes the source root that was not there; the source tree is as it
    was, or was missing and is an empty directory now. *)
Definition allowed (w : state) (m : mutation) : Prop :=
  base (target m) = Replica \/
  (m = Mkdir source_root /\ source_tree w = None).

Definition frame (w w' : state) : Prop :=
  (source_tree w' = source_tree w \/
   (source_tree w = None /\ source_tree w' = Some (Dir []))) /\
  (exists l, log w' = log w ++ l) /\
  (exists j, journal w' = journal w ++ j /\ Forall (allowed w) j).

(** Every run of [m] relates its two states by [R]. *)
Definition keeps (R : state -> state -> Prop) {A} (m : M A) : Prop :=
  forall w r w', m w = (r, w') -> R w w'.

(** ** Notions used to state the facts *)

(** What the loop has fed when it ends without an error: everything from
    [pos] on. *)
Definition fed_from (data : bytes) (pos : nat) (h : MD5.t) : MD5.t :=
  match skipn pos data with
  | [] => h
  | rest => MD5.update h rest
  end.

(** The one place [calculate_md5] leaves a trace: the error record. *)
Definition md5_failed (p : path) (e : exn) (w : state) : state :=
  State (source_tree w) (replica_tree w)
        (log w ++ [ERROR (Failed_to_calculate_md5 p e)])
        (journal w) (changes_made w).

Definition created (p : path) (w w' : state) : Prop :=
  forall q,
    stat w' q =
    match stat w q with
    | Some k => Some k
    | None =>
        if side_eqb (base p) (base q) && prefixb (rel q) (rel p)
        then Some KDir else None
    end.

Definition written (p : path) (data : bytes) (w w' : state) : Prop :=
  stat w' p = Some (KFile data) /\
  forall q, q <> p -> stat w' q = stat w q.

Definition removed (p : path) (w w' : state) : Prop :=
  forall q,
    stat w' q =
    if side_eqb (base p) (base q) && prefixb (rel p) (rel q)
    then None else stat w q.

Definition same_locals (w w' : state) : Prop :=
  log w' = log w /\ changes_made w' = changes_made w.

(** Where [shutil.copy2] writes. *)
Definition copy_target (w : state) (src dst : path) : path :=
  match find w dst with
  | Some (Dir _) => join dst (basename src)
  | _ => dst
  end.

Definition grows (w w' : state) : Prop := nerr w <= nerr w'.

Definition same_trees (w w' : state) : Prop :=
  source_tree w' = source_tree w /\ replica_tree w' = replica_tree w.

(** The steps of the two loops at the directory [r] below the roots. *)
Definition propagate_dir_step (faulty : op -> option exn) (r : list name)
    (dir_name : name) : M unit :=
  try_except
    (makedirs faulty (Path Replica (r ++ [dir_name])))
    (fun e => log_error (Failed_to_create_directory (Path Replica r) dir_name e)).

Definition propagate_copy_step (faulty : op -> option exn) (r : list name)
    (file_name : name) : M unit :=
  (copy2 faulty (Path Source (r ++ [file_name])) (Path Replica (r ++ [file_name])) ;;
   log_info (Copied_updated_file (Path Source (r ++ [file_name]))
                                 (Path Replica (r ++ [file_name]))) ;;
   set_changes_made true)%monad.

Definition propagate_file_step (faulty : op -> option exn) (r : list name)
    (file_name : name) : M unit :=
  (there <- path_exists (Path Replica (r ++ [file_name])) ;;
   differs <-
     (if negb there then ret true
      else
        a <- calculate_md5 faulty (Path Source (r ++ [file_name])) ;;
        b <- calculate_md5 faulty (Path Replica (r ++ [file_name])) ;;
        ret (negb (opt_string_eqb a b))) ;;
   if (differs : bool) then propagate_copy_step faulty r file_name
   else ret tt)%monad.

Definition prune_delete_step (faulty : op -> option exn) (r : list name)
    (name : name) : M unit :=
  (there <- path_exists (Path Source (r ++ [name])) ;;
   if negb there then
     isd <- path_isdir (Path Replica (r ++ [name])) ;;
     (if (isd : bool) then
        rmtree faulty (Path Replica (r ++ [name])) ;;
        log_info (Deleted_directory (Path Replica (r ++ [name])))
      else
        remove faulty (Path Replica (r ++ [name])) ;;
        log_info (Deleted_file (Path Replica (r ++ [name])))) ;;
     set_changes_made true
   else ret tt)%monad.

Definition prune_step (faulty : op -> option exn) (r : list name)
    (name : name) : M unit :=
  try_except (prune_delete_step faulty r name)
    (fun e => log_error (Failed_to_delete (Path Replica (r ++ [name])) e)).

(** The parts of [sync_folders]: making one root, the two loops, and the
    end of the function. *)
Definition ensure_root (faulty : op -> option exn) (folder : path)
    (which : string) : M unit :=
  (there <- path_exists folder ;;
   if negb there then
     makedirs faulty folder ;;
     log_info (Created_directory which folder) ;;
     set_changes_made true
   else ret tt)%monad.

Definition both_loops (faulty : op -> option exn) : M unit :=
  (os_walk faulty source_root (propagate faulty source_root replica_root) ;;
   os_walk faulty replica_root (prune faulty source_root replica_root))%monad.

Definition finish (faulty : op -> option exn) : M pyval :=
  (try_except (both_loops faulty)
     (fun e => log_error (Error_during_synchronization e)) ;;
   flag <- gets changes_made ;;
   (if negb flag then log_info No_changes_made else ret tt) ;;
   log_info Synchronization_completed ;;
   ret PyNone)%monad.

(** The state after a root that was missing has been made. *)
Definition root_made (s : side) (which : string) (w : state) : state :=
  State (match s with Source => Some (Dir []) | Replica => source_tree w end)
        (match s with Replica => Some (Dir []) | Source => replica_tree w end)
        (log w ++ [INFO (Created_directory which (Path s []))])
        (journal w ++ [Mkdir (Path s [])])
        true.

(** The state after [ensure_root] has returned. *)
Definition with_root (s : side) (which : string) (w : state) : state :=
  match tree w s with
  | None => root_made s which w
  | Some _ => w
  end.

(** The state when the two roots have been seen to: the log has its first
    record, [changes_made] tells whether a root was made. *)
Definition started (w : state) : state :=
  State (source_tree w) (replica_tree w)
        (log w ++ [INFO Starting_synchronization]) (journal w) false.

Definition with_roots (w : state) : state :=
  with_root Replica "replica" (with_root Source "source" (started w)).

(** A missing root becomes an empty directory. *)
Definition or_empty (o : option node) : option node :=
  match o with
  | None => Some (Dir [])
  | Some n => Some n
  end.

(** The state in which [sync_folders] returns early: the error record
    is the last of the log. *)
Definition roots_failed (e : exn) (w : state) : state :=
  State (source_tree w) (replica_tree w)
        (log w ++ [ERROR (Failed_to_create_directories replica_root source_root e)])
        (journal w) (changes_made w).

(** The state in which [sync_folders] ends, from the state [w] the loops
    left. *)
Definition finished (w : state) : state :=
  State (source_tree w) (replica_tree w)
        (log w ++ (if changes_made w then [] else [INFO No_changes_made])
               ++ [INFO Synchronization_completed])
        (journal w) (changes_made w).

(** The flag, once set, stays set. *)
Definition flag_kept (w w' : state) : Prop :=
  changes_made w = true -> changes_made w' = true.

(** The source and the replica side of a relative path. *)
Definition src_stat (w : state) (q : list name) : option kind :=
  stat w (Path Source q).

Definition rep_stat (w : state) (q : list name) : option kind :=
  stat w (Path Replica q).

(** The entry of the replica at [q] is what the first pass wants: a
    directory for a directory, a file with the same digest for a file. *)
Definition settled (w : state) (q : list name) : Prop :=
  match src_stat w q with
  | None => True
  | Some KDir => rep_stat w q = Some KDir
  | Some (KFile data) =>
      exists data', rep_stat w q = Some (KFile data') /\
                    md5_hex data' = md5_hex data
  end.

(** What the first pass may do to a replica path: nothing, make the
    directory the source has, or write the file the source has. *)
Definition propagated (w w' : state) : Prop :=
  (forall q, src_stat w' q = src_stat w q) /\
  forall q,
    rep_stat w' q = rep_stat w q \/
    (rep_stat w q = None /\ rep_stat w' q = Some KDir /\
     src_stat w q = Some KDir) \/
    (exists data, src_stat w q = Some (KFile data) /\
                  rep_stat w' q = Some (KFile data)).

(** What the second pass may do to a replica path: nothing, or remove it
    with an entry above it (or itself) that the source does not have. *)
Definition pruned (w w' : state) : Prop :=
  (forall q, src_stat w' q = src_stat w q) /\
  forall q,
    rep_stat w' q = rep_stat w q \/
    (rep_stat w' q = None /\
     exists q1, prefixb q1 q = true /\ src_stat w q1 = None).

(** Below [r], the replica has nothing the source lacks. *)
Definition clean (w : state) (r : list name) : Prop :=
  forall q, q <> [] -> rep_stat w (r ++ q) <> None -> src_stat w (r ++ q) <> None.

(** Two entries match: both missing, both directories, or files with the
    same digest. *)
Definition same_entry (a b : option kind) : Prop :=
  match a, b with
  | None, None => True
  | Some KDir, Some KDir => True
  | Some (KFile x), Some (KFile y) => md5_hex x = md5_hex y
  | _, _ => False
  end.

(** The replica mirrors the source, files compared by digest. *)
Definition in_sync (w : state) : Prop :=
  forall q, same_entry (src_stat w q) (rep_stat w q).

(** The replica mirrors the source, files compared byte by byte. *)
Definition identical (w : state) : Prop :=
  forall q, rep_stat w q = src_stat w q.

(** No two files at the same place differ and have the same digest. *)
Definition collision_free (w : state) : Prop :=
  forall q a b,
    src_stat w q = Some (KFile a) -> rep_stat w q = Some (KFile b) ->
    md5_hex a = md5_hex b -> a = b.

(** A root is a directory, or is not there. *)
Definition dir_or_missing (o : option node) : Prop :=
  match o with
  | Some (File _) => False
  | _ => True
  end.

(** No listing of a directory fails for outside reasons. *)
Definition listable (faulty : op -> option exn) : Prop :=
  forall p, faulty (OpScandir p) = None.

(** The replica has nothing the source lacks. *)
Definition covered (w : state) : Prop :=
  forall q, rep_stat w q <> None -> src_stat w q <> None.

(** Every entry of the replica is an entry of the source, files with the
    same bytes. *)
Definition within (w : state) : Prop :=
  forall q k, rep_stat w q = Some k -> src_stat w q = Some k.

(** A step of the first loop that logs nothing and keeps the replica
    within the source. *)
Definition copied (w w' : state) : Prop :=
  propagated w w' /\ nerr w' = nerr w /\ flag_kept w w' /\ (within w -> within w').

(** A step of the second loop: entries go, the flag stays. *)
Definition cleared (w w' : state) : Prop :=
  pruned w w' /\ flag_kept w w'.

(** The replica only loses entries. *)
Definition shrinks (w w' : state) : Prop :=
  forall q, rep_stat w' q <> None -> rep_stat w q <> None.

(** The state after the handler of the two loops has logged [e]. *)
Definition loops_failed (e : exn) (w : state) : state :=
  State (source_tree w) (replica_tree w)
        (log w ++ [ERROR (Error_during_synchronization e)])
        (journal w) (changes_made w).

(** No name twice in a listing. *)
Fixpoint distinct (l : list name) : bool :=
  match l with
  | [] => true
  | x :: l' => negb (existsb (String.eqb x) l') && distinct l'
  end.

(** In every directory at or below [n], no two entries have one name. *)
Fixpoint unique (n : node) : bool :=
  match n with
  | File _ => true
  | Dir es =>
      distinct (map fst es) &&
      (fix all (l : list (name * node)) : bool :=
         match l with
         | [] => true
         | (_, c) :: l' => unique c && all l'
         end) es
  end.

Definition unique_root (o : option node) : Prop :=
  match o with
  | Some n => unique n = true
  | None => True
  end.

(** The directories of the replica list every name once. *)
Definition tidy (w : state) : Prop := unique_root (replica_tree w).

Definition tidy_kept (w w' : state) : Prop := tidy w -> tidy w'.

(** No path is a file on one side and a directory on the other. *)
Definition compatible (w : state) : Prop :=
  forall q,
    match src_stat w q, rep_stat w q with
    | Some KDir, Some (KFile _) | Some (KFile _), Some KDir => False
    | _, _ => True
    end.

(** A step of the second loop that logs nothing. *)
Definition swept (w w' : state) : Prop :=
  nerr w' = nerr w /\ tidy_kept w w'.


(** ** What a call accounts for *)

(** The actions that [changes_made] counts and the log announces: a root
    made, a file copied, an entry of the replica removed. *)
Inductive action :=
| MadeRoot (folder : path)
| CopiedFile
| RemovedTree (replica_path : path)
| RemovedFile (replica_path : path).

(** A directory made below a root is the one mutation that is no action. *)
Definition action_of_mutation (m : mutation) : option action :=
  match m with
  | Mkdir p => match rel p with [] => Some (MadeRoot p) | _ :: _ => None end
  | WriteFile _ _ => Some CopiedFile
  | Rmtree p => Some (RemovedTree p)
  | Unlink p => Some (RemovedFile p)
  end.

Definition action_of_record (r : record) : option action :=
  match r with
  | INFO (Created_directory _ folder) => Some (MadeRoot folder)
  | INFO (Copied_updated_file _ _) => Some CopiedFile
  | INFO (Deleted_directory replica_path) => Some (RemovedTree replica_path)
  | INFO (Deleted_file replica_path) => Some (RemovedFile replica_path)
  | _ => None
  end.

Fixpoint pick {A B} (f : A -> option B) (l : list A) : list B :=
  match l with
  | [] => []
  | x :: l' =>
      match f x with
      | Some y => y :: pick f l'
      | None => pick f l'
      end
  end.

(** The actions a journal holds, and the actions a log tells of. *)
Definition performed (j : list mutation) : list action := pick action_of_mutation j.

Definition told (l : list record) : list action := pick action_of_record l.

Definition counted (m : mutation) : bool :=
  match action_of_mutation m with
  | Some _ => true
  | None => false
  end.

(** From [w] to [w'] the log tells the actions performed, in their order,
    and [changes_made] is set when there is one. *)
Definition accounted (w w' : state) : Prop :=
  exists l j,
    log w' = log w ++ l /\ journal w' = journal w ++ j /\
    told l = performed j /\
    changes_made w' = changes_made w || existsb counted j.

(** ** What a call never removes *)

Definition entry_type (o : option kind) : option bool :=
  match o with
  | Some KDir => Some true
  | Some (KFile _) => Some false
  | None => None
  end.

(** The entries of the source stay, and so does, with its type, every
    entry of the replica at the place of one. *)
Definition guarded (w w' : state) : Prop :=
  forall q,
    src_stat w q <> None ->
    src_stat w' q <> None /\
    (rep_stat w q <> None ->
     entry_type (rep_stat w' q) = entry_type (rep_stat w q)).


(** The same for any two folders: the entries below the source folder
    stay, and so does, with its type, every entry below the replica
    folder at the place of one. *)
Definition kept (w w' : state) : Prop :=
  forall p, stat w p <> None -> entry_type (stat w' p) = entry_type (stat w p).

Definition guarded_at (source replica : path) (w w' : state) : Prop :=
  forall q,
    stat w (join source q) <> None ->
    stat w' (join source q) <> None /\
    (stat w (join replica q) <> None ->
     entry_type (stat w' (join replica q)) = entry_type (stat w (join replica q))).

(** Nothing has changed but entries at or below [p], which are no more. *)
Definition gone (p : path) (w w' : state) : Prop :=
  forall q,
    stat w' q = stat w q \/
    (stat w' q = None /\ base q = base p /\ prefixb (rel p) (rel q) = true).


(** The source has no entry below its root: it is missing, an empty
    directory, or no directory at all. *)
Definition bare_source (w : state) : Prop :=
  forall q, q <> [] -> src_stat w q = None.

(** The replica has no entry below its root. *)
Definition empty_replica (w : state) : Prop :=
  forall q, q <> [] -> rep_stat w q = None.


(** ** Where the bytes of the replica come from *)

(** Every file of the replica holds the bytes it held, or the bytes of the
    source file at its place; or it is the copy that [shutil.copy2] puts
    into a directory standing where the source has the file [f], under
    the name [f]. *)
Definition sourced (w w' : state) : Prop :=
  (forall q data, src_stat w' q = Some (KFile data) ->
                  src_stat w q = Some (KFile data)) /\
  forall q data,
    rep_stat w' q = Some (KFile data) ->
    rep_stat w q = Some (KFile data) \/
    src_stat w q = Some (KFile data) \/
    exists r f, q = r ++ [f; f] /\ src_stat w (r ++ [f]) = Some (KFile data).


(* ------------------------------------------------------------------ *)
(** * The process: setup_logging and main *)
(* ------------------------------------------------------------------ *)

(** The log file lives in a tree of its own, apart from the two folders;
    its path is the list of its components, the last one the file. The
    root logger has a handler once [logging.basicConfig] has given it
    one. *)
Record host := Host {
  disk : node;
  handler : option (list name)
}.

(** The calls of [setup_logging] that can fail for outside reasons. *)
Inductive host_op :=
| HostMakedirs (p : list name)
| HostOpen (p : list name).

(** What ends [main]: [exit(1)], an exception of [int] or [time.sleep],
    or an [OSError] out of [setup_logging]. *)
Inductive stop :=
| SystemExit (code : Z)
| ValueError
| OverflowError
| Uncaught (e : exn).

(** The state [main] runs in: the state of [sync_folders], the tree of
    the log file, the argument of each [print], and the seconds of each
    sleep taken. *)
Record process := Process {
  world : state;
  machine : host;
  stdout : list string;
  naps : list Z
}.

Definition P (A : Type) : Type := process -> (stop + A) * process.

Definition halt {A} (s : stop) : P A := fun p => (inl s, p).

Definition and_then {A B} (c : P A) (k : A -> P B) : P B :=
  fun p =>
    match c p with
    | (inr a, p') => k a p'
    | (inl s, p') => (inl s, p')
    end.

Definition print (line : string) : P unit :=
  fun p => (inr tt, Process (world p) (machine p) (stdout p ++ [line]) (naps p)).

Section Process.

Variable faulty : op -> option exn.
Variable host_faulty : host_op -> option exn.

(** [int(s)]: the integer a string denotes, or [ValueError]. *)
Variable int : string -> option Z.

(** How the operating system splits the path of the log file into its
    components. *)
Variable components : string -> list name.

(** Whether [time.sleep] can hold a number of seconds in its clock type;
    it raises [OverflowError] when it cannot. *)
Variable representable : Z -> bool.

(** [os.makedirs(p)], with [exist_ok] left [False]. *)
Definition host_makedirs (p : list name) (h : host) : (exn + unit) * host :=
  match host_faulty (HostMakedirs p) with
  | Some e => (inl e, h)
  | None =>
      match lookup (disk h) p with
      | Some _ => (inl FileExistsError, h)
      | None =>
          match mkdirs (disk h) p with
          | inl e => (inl e, h)
          | inr n' => (inr tt, Host n' (handler h))
          end
      end
  end.

(** [logging.basicConfig(filename=log_file, level=logging.INFO, ...)]:
    nothing when the root logger has a handler already; else the file is
    opened for appending, and made when it is not there. The file name
    has a component at least: with an empty name [basicConfig] would log
    to the standard error, which is not modelled. *)
Definition basicConfig (log_file : list name) (h : host) : (exn + unit) * host :=
  match handler h with
  | Some _ => (inr tt, h)
  | None =>
      match host_faulty (HostOpen log_file) with
      | Some e => (inl e, h)
      | None =>
          match lookup (disk h) log_file with
          | Some (File _) => (inr tt, Host (disk h) (Some log_file))
          | Some (Dir _) => (inl IsADirectoryError, h)
          | None =>
              match lookup (disk h) (removelast log_file) with
              | Some (Dir _) =>
                  (inr tt, Host (write (disk h) log_file (Some (File [])))
                                (Some log_file))
              | Some (File _) => (inl NotADirectoryError, h)
              | None => (inl FileNotFoundError, h)
              end
          end
      end
  end.

(** [setup_logging(log_file)]. The directory name is empty, or names the
    root, when the path has one component. *)
Definition setup_logging (log_file : list name) (h : host) : (exn + unit) * host :=
  let log_dir := removelast log_file in
  let made :=
    match log_dir, lookup (disk h) log_dir with
    | _ :: _, None => host_makedirs log_dir h
    | _, _ => (inr tt, h)
    end in
  match made with
  | (inl e, h') => (inl e, h')
  | (inr _, h') => basicConfig log_file h'
  end.

Definition usage : string :=
  "Usage: python sync_folders.py <source> <replica> <interval> <log_file>".

(** What [sync_folders] prints at its end. *)
Definition completed : string :=
  String.append "Synchronization completed."
    (String "010" (String.append "Awaiting interval..." (String "010" EmptyString))).

(** One round of the loop but for the sleep: the call of [sync_folders]
    in its [try]. The call prints when it reaches its end, where it
    returns [None]. *)
Definition one_pass : P unit :=
  fun p =>
    match sync_folders faulty source_root replica_root (world p) with
    | (inr PyNone, w') =>
        (inr tt, Process w' (machine p) (stdout p ++ [completed]) (naps p))
    | (inr (PyBool _), w') =>
        (inr tt, Process w' (machine p) (stdout p) (naps p))
    | (inl e, w') =>
        (inr tt, Process (snd (log_error (Error_during_synchronization e) w'))
                         (machine p) (stdout p) (naps p))
    end.

(** [time.sleep(secs)] *)
Definition sleep (secs : Z) : P unit :=
  if negb (representable secs) then halt OverflowError
  else if (secs <? 0)%Z then halt ValueError
  else fun p => (inr tt, Process (world p) (machine p) (stdout p) (naps p ++ [secs])).

(** The first [rounds] rounds of [while True]. *)
Fixpoint loop (rounds : nat) (sync_interval : Z) : P unit :=
  match rounds with
  | O => fun p => (inr tt, p)
  | S rounds' =>
      and_then one_pass (fun _ =>
      and_then (sleep sync_interval) (fun _ =>
      loop rounds' sync_interval))
  end.

(** [main()], with [sys.argv] and the number of rounds to run. The first
    two arguments name the roots of the two trees. *)
Definition main (argv : list string) (rounds : nat) : P unit :=
  if (length argv <? 5)%nat then
    and_then (print usage) (fun _ => halt (SystemExit 1))
  else
    match int (nth 3 argv EmptyString) with
    | None => halt ValueError
    | Some sync_interval =>
        let log_file := components (nth 4 argv EmptyString) in
        and_then
          (fun p =>
             match setup_logging log_file (machine p) with
             | (inl e, h) => (inl (Uncaught e), Process (world p) h (stdout p) (naps p))
             | (inr _, h) => (inr tt, Process (world p) h (stdout p) (naps p))
             end)
          (fun _ => loop rounds sync_interval)
    end.

End Process.

(** ** The closing print of sync_folders *)

(** The last statement of [sync_folders], the [print] of "Synchronization
    completed.", stands after both [try] blocks. Writing to the standard
    output can fail (the stream is closed, the pipe is broken): an oracle
    says with what, if it does. [sync_folders_printing] is [sync_folders]
    with that last statement; it is reached where [sync_folders] returns
    [None], not where the handler of the first [try] returns. *)
Definition sync_folders_printing (faulty : op -> option exn)
    (out_faulty : string -> option stop) (source replica : path) : P pyval :=
  fun p =>
    match sync_folders faulty source replica (world p) with
    | (inr PyNone, w') =>
        match out_faulty completed with
        | Some s => (inl s, Process w' (machine p) (stdout p) (naps p))
        | None =>
            (inr PyNone, Process w' (machine p) (stdout p ++ [completed]) (naps p))
        end
    | (inr (PyBool b), w') =>
        (inr (PyBool b), Process w' (machine p) (stdout p) (naps p))
    | (inl e, w') => (inl (Uncaught e), Process w' (machine p) (stdout p) (naps p))
    end.


(** No regular file stands at [p] or above it. *)
Definition clear_way (n : node) (p : list name) : Prop :=
  forall q data, prefixb q p = true -> nstat n q <> Some (KFile data).

Definition no_host_faults : host_op -> option exn := fun _ => None.


(** ** Removals that fail *)

Definition is_removal (o : op) : bool :=
  match o with
  | OpRemove _ | OpRmtree _ => true
  | _ => false
  end.

(** No call fails for outside reasons but [os.remove] and
    [shutil.rmtree]. *)
Definition only_removals_fail (faulty : op -> option exn) : Prop :=
  forall o, is_removal o = false -> faulty o = None.

Definition is_failed_removal (r : record) : bool :=
  match r with
  | ERROR (Failed_to_delete _ _) => true
  | _ => false
  end.

(** From [w] to [w'] the log gets no error record but of removals that
    failed. *)
Definition removal_errors (w w' : state) : Prop :=
  exists l,
    log w' = log w ++ l /\
    forall r, In r l -> is_error r = true -> is_failed_removal r = true.


(** ** Folders anywhere in the file system *)

(** [p] is [a] or lies below it. *)
Definition under (a p : path) : bool :=
  side_eqb (base a) (base p) && prefixb (rel a) (rel p).

(** Neither folder is the other, nor lies inside it. *)
Definition apart (a b : path) : Prop :=
  under a b = false /\ under b a = false.

(** What a call on the folders [source] and [replica] may do from [w]:
    mutate at or below the replica folder, or make the source folder
    that is missing. *)
Definition permitted (source replica : path) (w : state) (m : mutation) : Prop :=
  under replica (target m) = true \/ (m = Mkdir source /\ stat w source = None).

(** From [w] to [w'], outside the replica folder: every path is as it
    was, or was missing and is a directory now, at or above one of the
    two folders; and the journal has grown by permitted mutations. *)
Definition fenced (source replica : path) (w w' : state) : Prop :=
  (forall p, under replica p = false ->
     stat w' p = stat w p \/
     (stat w p = None /\ stat w' p = Some KDir /\
      (under p source = true \/ under p replica = true))) /\
  (exists j, journal w' = journal w ++ j /\ Forall (permitted source replica w) j).


(** ** Folders with parents above them *)

(** A folder of a call is a path in its tree, with parents above it when
    the path has components. For the source folder [ps] of the source
    tree and the replica folder [pr] of the replica tree, [lift] gives in
    full the path that [p] names from the folders. *)
Definition lift (ps pr : list name) (p : path) : path :=
  Path (base p) ((match base p with Source => ps | Replica => pr end) ++ rel p).

(** [v] holds what [u] holds at and below the two folders, each folder
    the root of its tree. *)
Definition seen (ps pr : list name) (u v : state) : Prop :=
  source_tree v <> None /\ replica_tree v <> None /\
  find u (Path Source ps) = source_tree v /\
  find u (Path Replica pr) = replica_tree v.

(** What a state holds at and below the two folders. *)
Definition zoom (ps pr : list name) (u : state) : state :=
  State (find u (Path Source ps)) (find u (Path Replica pr))
        (log u) (journal u) (changes_made u).

(** Two computations, one on the trees and one on the folders as roots,
    that return alike and keep the states in step. *)
Definition alike (ps pr : list name) {A} (c c' : M A) : Prop :=
  forall u v, seen ps pr u v ->
    fst (c u) = fst (c' v) /\ seen ps pr (snd (c u)) (snd (c' v)).

(** The two loops of [sync_folders], on any two folders. *)
Definition loops (faulty : op -> option exn) (source replica : path) : M unit :=
  (os_walk faulty source (propagate faulty source replica) ;;
   os_walk faulty replica (prune faulty source replica))%monad.

(** No regular file stands at [p] or above it: [os.makedirs] can make
    [p]. *)
Definition passable (w : state) (p : path) : Prop :=
  forall q data, prefixb q (rel p) = true ->
                 stat w (Path (base p) q) <> Some (KFile data).


(** ** Calls that fail halfway *)

(** [shutil.copy2] and [shutil.rmtree] are no single steps of the
    operating system: when one of them fails for a reason outside the
    trees, it may have written part of the file, or removed part of the
    directory, before it raises. In this model a call that fails changes
    nothing, which is right for the failures that the trees explain (they
    are found before anything is written or removed) and for the other
    calls; the facts that depend on it are stated for oracles under which
    these two calls do not fail. *)
Definition copies_whole (faulty : op -> option exn) : Prop :=
  forall src dst, faulty (OpCopy src dst) = None.

Definition removes_whole (faulty : op -> option exn) : Prop :=
  forall p, faulty (OpRmtree p) = None.

(* ------------------------------------------------------------------ *)
(** * Example trees *)
(* ------------------------------------------------------------------ *)

Local Open Scope string_scope.

(** A source with a newer [a.txt]; a replica with the older one and with
    entries the source does not have. *)
Definition ex_update : state :=
  initial
    (Some (Dir [("a.txt", File (bytes_of "v2"))]))
    (Some (Dir [("a.txt", File (bytes_of "v1"));
                ("b.txt", File (bytes_of "old"));
                ("subdir", Dir [("c.txt", File (bytes_of "c"))])])).

Definition ex_update_after : state :=
  Eval vm_compute in snd (sync_folders no_faults source_root replica_root ex_update).

(** Two different contents of 128 bytes with one MD5 digest. *)
Definition collide_a : bytes :=
  [
    xd1; x31; xdd; x02; xc5; xe6; xee; xc4; x69; x3d; x9a; x06; x98; xaf; xf9; x5c;
    x2f; xca; xb5; x87; x12; x46; x7e; xab; x40; x04; x58; x3e; xb8; xfb; x7f; x89;
    x55; xad; x34; x06; x09; xf4; xb3; x02; x83; xe4; x88; x83; x25; x71; x41; x5a;
    x08; x51; x25; xe8; xf7; xcd; xc9; x9f; xd9; x1d; xbd; xf2; x80; x37; x3c; x5b;
    xd8; x82; x3e; x31; x56; x34; x8f; x5b; xae; x6d; xac; xd4; x36; xc9; x19; xc6;
    xdd; x53; xe2; xb4; x87; xda; x03; xfd; x02; x39; x63; x06; xd2; x48; xcd; xa0;
    xe9; x9f; x33; x42; x0f; x57; x7e; xe8; xce; x54; xb6; x70; x80; xa8; x0d; x1e;
    xc6; x98; x21; xbc; xb6; xa8; x83; x93; x96; xf9; x65; x2b; x6f; xf7; x2a; x70 ]%byte.

Definition collide_b : bytes :=
  [
    xd1; x31; xdd; x02; xc5; xe6; xee; xc4; x69; x3d; x9a; x06; x98; xaf; xf9; x5c;
    x2f; xca; xb5; x07; x12; x46; x7e; xab; x40; x04; x58; x3e; xb8; xfb; x7f; x89;
    x55; xad; x34; x06; x09; xf4; xb3; x02; x83; xe4; x88; x83; x25; xf1; x41; x5a;
    x08; x51; x25; xe8; xf7; xcd; xc9; x9f; xd9; x1d; xbd; x72; x80; x37; x3c; x5b;
    xd8; x82; x3e; x31; x56; x34; x8f; x5b; xae; x6d; xac; xd4; x36; xc9; x19; xc6;
    xdd; x53; xe2; x34; x87; xda; x03; xfd; x02; x39; x63; x06; xd2; x48; xcd; xa0;
    xe9; x9f; x33; x42; x0f; x57; x7e; xe8; xce; x54; xb6; x70; x80; x28; x0d; x1e;
    xc6; x98; x21; xbc; xb6; xa8; x83; x93; x96; xf9; x65; xab; x6f; xf7; x2a; x70 ]%byte.

Definition ex_collision : state :=
  initial (Some (Dir [("f", File collide_a)])) (Some (Dir [("f", File collide_b)])).

Definition ex_collision_after : state :=
  Eval vm_compute in snd (sync_folders no_faults source_root replica_root ex_collision).

(** A file in the source where the replica has a directory. *)
Definition ex_conflict : state :=
  initial (Some (Dir [("a", File (bytes_of "x"))])) (Some (Dir [("a", Dir [])])).

Definition ex_conflict_once : state :=
  Eval vm_compute in snd (sync_folders no_faults source_root replica_root ex_conflict).

Definition ex_conflict_twice : state :=
  Eval vm_compute in
    snd (sync_folders no_faults source_root replica_root ex_conflict_once).

(** Files that cannot be opened, nor copied from. *)
Definition unreadable (ps : list path) : op -> option exn :=
  fun o =>
    match o with
    | OpOpen p | OpCopy p _ =>
        if existsb (path_eqb p) ps then Some PermissionError else None
    | _ => None
    end.

(** The same file, changed in the source, unreadable on both sides. *)
Definition ex_both_unreadable : state :=
  initial (Some (Dir [("a.txt", File (bytes_of "new"))]))
          (Some (Dir [("a.txt", File (bytes_of "old"))])).

Definition both_unreadable : op -> option exn :=
  unreadable [Path Source ["a.txt"]; Path Replica ["a.txt"]].

(** One unreadable file in a source with more to copy, and a replica with
    a file to remove. *)
Definition ex_one_unreadable : state :=
  initial
    (Some (Dir [("a.txt", File (bytes_of "a"));
                ("sub", Dir [("b.txt", File (bytes_of "b"))])]))
    (Some (Dir [("stale.txt", File (bytes_of "s"))])).

Definition one_unreadable : op -> option exn :=
  unreadable [Path Source ["a.txt"]].

(** Two trees in step. *)
Definition ex_in_step : state :=
  initial (Some (Dir [("a.txt", File (bytes_of "v2"))]))
          (Some (Dir [("a.txt", File (bytes_of "v2"))])).

(** A new empty directory in the source. *)
Definition ex_new_dir : state :=
  initial (Some (Dir [("d", Dir [])])) (Some (Dir [])).

(** No root at all, and a replica root that cannot be made. *)
Definition ex_no_roots : state := initial None None.

Definition replica_root_fails : op -> option exn :=
  fun o =>
    match o with
    | OpMakedirs p => if path_eqb p replica_root then Some PermissionError else None
    | _ => None
    end.

(** A source to copy to a replica that is not there. *)
Definition ex_no_replica : state :=
  initial
    (Some (Dir [("a.txt", File (bytes_of "a"));
                ("sub", Dir [("b.txt", File (bytes_of "b"))])]))
    None.

Definition ex_no_replica_after : state :=
  Eval vm_compute in snd (sync_folders no_faults source_root replica_root ex_no_replica).

(** A file of two chunks. *)
Definition ex_long_file : state :=
  initial (Some (Dir [("long", File (repeat "A"%byte 5000))])) None.

(** A regular file given as the source, and a replica with entries. *)
Definition ex_source_is_file : state :=
  initial
    (Some (File (bytes_of "not a folder")))
    (Some (Dir [("keep.txt", File (bytes_of "k"));
                ("photos", Dir [("one.jpg", File (bytes_of "1"))])])).

(** No directory can be listed. *)
Definition unlistable : op -> option exn :=
  fun o =>
    match o with
    | OpScandir _ => Some PermissionError
    | _ => None
    end.

(** A machine where the directory of the log file is still to be made. *)
Definition ex_host : host := Host (Dir [("var", Dir [])]) None.

Definition ex_log_file : list name := ["var"; "log"; "sync.log"].

(** A regular file where the directory of the log file should be. *)
Definition ex_host_blocked : host :=
  Host (Dir [("var", File (bytes_of "not a folder"))]) None.

(** A machine with nothing on it, and the arguments of a run. *)
Definition ex_blank_host : host := Host (Dir []) None.

Definition ex_argv : list string :=
  ["sync_folders.py"; "source"; "replica"; "60"; "logs/sync.log"].

(** Decimal numerals, with a sign or none. *)
Fixpoint ex_digits (s : string) (acc : Z) : option Z :=
  match s with
  | EmptyString => Some acc
  | String c s' =>
      let n := nat_of_ascii c in
      if (48 <=? n)%nat && (n <=? 57)%nat
      then ex_digits s' (10 * acc + Z.of_nat (n - 48))%Z
      else None
  end.

Definition ex_int (s : string) : option Z :=
  match s with
  | EmptyString => None
  | String "-" EmptyString => None
  | String "-" s' => option_map Z.opp (ex_digits s' 0%Z)
  | _ => ex_digits s 0%Z
  end.

(** The components between the slashes. *)
Fixpoint ex_split (s : string) (current : string) : list name :=
  match s with
  | EmptyString =>
      match current with
      | EmptyString => []
      | _ => [current]
      end
  | String c s' =>
      if Ascii.eqb c "/" then
        match current with
        | EmptyString => ex_split s' EmptyString
        | _ => current :: ex_split s' EmptyString
        end
      else ex_split s' (String.append current (String c EmptyString))
  end.

Definition ex_components (s : string) : list name := ex_split s EmptyString.

(** Seconds that fit a clock of 64 bits counting nanoseconds. *)
Definition ex_representable (secs : Z) : bool :=
  ((-9223372036 <=? secs) && (secs <=? 9223372036))%Z.

Definition ex_process : process := Process ex_no_replica ex_blank_host [] [].

(** No entry of the replica can be removed. *)
Definition undeletable : op -> option exn :=
  fun o => if is_removal o then Some PermissionError else None.

(** One tree that holds both folders, [data] and [backup], side by
    side. *)
Definition ex_one_volume : state :=
  initial None
    (Some (Dir [("data", Dir [("a.txt", File (bytes_of "a"))]);
                ("backup", Dir [("old.txt", File (bytes_of "o"))])])).

(** One tree in which the source folder [src] lies inside the replica
    folder, the root. *)
Definition ex_nested : state :=
  initial None (Some (Dir [("src", Dir [("a.txt", File (bytes_of "a"))])])).

(** A source folder two levels down its tree, and a replica folder to be
    made three levels down, below a directory [backup] that is missing
    too. *)
Definition ex_deep : state :=
  initial
    (Some (Dir [("home",
                 Dir [("docs",
                       Dir [("a.txt", File (bytes_of "a"));
                            ("sub", Dir [("b.txt", File (bytes_of "b"))])])])]))
    (Some (Dir [("mnt", Dir [])])).

(** When making a root fails: the root that is missing and cannot be made. *)
Definition root_creation_fails (faulty : op -> option exn) (w : state) (e : exn) : Prop :=
  (source_tree w = None /\ faulty (OpMakedirs source_root) = Some e) \/
  ((source_tree w <> None \/ faulty (OpMakedirs source_root) = None) /\
   replica_tree w = None /\ faulty (OpMakedirs replica_root) = Some e).

(** Whether the call made the source root. *)
Definition source_root_made (faulty : op -> option exn) (w : state) : bool :=
  match source_tree w, faulty (OpMakedirs source_root) with
  | None, None => true
  | _, _ => false
  end.

Local Close Scope string_scope.

(* ------------------------------------------------------------------ *)
(** * Facts *)
(* ------------------------------------------------------------------ *)

Example md5_empty :
  MD5.hexdigest MD5.new = "d41d8cd98f00b204e9800998ecf8427e"%string.
Proof. vm_compute. reflexivity. Qed.

Example md5_abc :
  MD5.hexdigest (MD5.update MD5.new (bytes_of "abc")) =
  "900150983cd24fb0d6963f7d28e17f72"%string.
Proof. vm_compute. reflexivity. Qed.

Example md5_long :
  MD5.hexdigest (MD5.update MD5.new (bytes_of
    "12345678901234567890123456789012345678901234567890123456789012345678901234567890")) =
  "57edf4a22be3c955ac49da2e2107b67a"%string.
Proof. vm_compute. reflexivity. Qed.

(** ** The hash object *)

Module MD5Facts.
Import MD5.

Lemma absorb_short fuel c data :
  length data < 64 -> absorb fuel c data = (c, data).
Proof.
  intros H. destruct fuel as [|fuel]; cbn [absorb]; [reflexivity|].
  apply Nat.ltb_lt in H. now rewrite H.
Qed.

Lemma absorb_fuel f1 : forall f2 c data,
  length data <= f1 -> length data <= f2 ->
  absorb f1 c data = absorb f2 c data.
Proof.
  induction f1 as [|f1 IH]; intros f2 c data H1 H2.
  - destruct data; [|simpl in H1; lia].
    now rewrite (absorb_short f2 c []) by (simpl; lia).
  - destruct f2 as [|f2].
    + destruct data; [|simpl in H2; lia].
      now rewrite (absorb_short (S f1) c []) by (simpl; lia).
    + cbn [absorb]. destruct (length data <? 64) eqn:E; [reflexivity|].
      apply Nat.ltb_ge in E.
      apply IH; rewrite length_skipn; lia.
Qed.

(** Absorbing [x ++ y] is absorbing [x], then what [x] left and [y]. *)
Lemma absorb_app fuel : forall c x y,
  length x <= fuel ->
  absorb (length (x ++ y)) c (x ++ y) =
  absorb (length (snd (absorb (length x) c x) ++ y))
         (fst (absorb (length x) c x))
         (snd (absorb (length x) c x) ++ y).
Proof.
  induction fuel as [|fuel IH]; intros c x y Hx.
  - destruct x; [reflexivity|simpl in Hx; lia].
  - destruct (Nat.lt_ge_cases (length x) 64) as [Hs|Hl].
    + now rewrite (absorb_short (length x) c x Hs).
    + assert (Hxy : 64 <= length (x ++ y)) by (rewrite length_app; lia).
      destruct (length (x ++ y)) as [|n] eqn:En; [lia|].
      destruct (length x) as [|m] eqn:Em; [lia|].
      cbn [absorb].
      replace (length (x ++ y) <? 64) with false
        by (symmetry; apply Nat.ltb_ge; lia).
      replace (length x <? 64) with false
        by (symmetry; apply Nat.ltb_ge; lia).
      assert (Hf : firstn 64 (x ++ y) = firstn 64 x).
      { rewrite firstn_app. replace (64 - length x) with 0 by lia.
        simpl. apply app_nil_r. }
      assert (Hsk : skipn 64 (x ++ y) = skipn 64 x ++ y).
      { rewrite skipn_app. replace (64 - length x) with 0 by lia.
        reflexivity. }
      rewrite Hf, Hsk.
      rewrite (absorb_fuel n (length (skipn 64 x ++ y)))
        by (rewrite <- Hsk, length_skipn; lia).
      rewrite (absorb_fuel m (length (skipn 64 x)) _ (skipn 64 x))
        by (rewrite length_skipn; lia).
      apply IH. rewrite length_skipn. lia.
Qed.

(** Feeding [a] then [b] is feeding [a ++ b]. *)
Lemma update_app h a b :
  update (update h a) b = update h (a ++ b).
Proof.
  unfold update.
  destruct (absorb (length (pending h ++ a)) (chaining h) (pending h ++ a))
    as [c1 r1] eqn:E1.
  cbn [chaining pending fed].
  pose proof (absorb_app (length (pending h ++ a)) (chaining h)
                (pending h ++ a) b (Nat.le_refl _)) as H.
  rewrite E1 in H. cbn [fst snd] in H.
  rewrite <- app_assoc in H. rewrite H.
  destruct (absorb (length (r1 ++ b)) c1 (r1 ++ b)) as [c2 r2].
  f_equal. rewrite length_app. lia.
Qed.

Lemma hex_length bs : String.length (hex bs) = 2 * length bs.
Proof. induction bs as [|b bs IH]; simpl; [reflexivity|]. rewrite IH. lia. Qed.

Lemma le_bytes_length n x : length (le_bytes n x) = n.
Proof. unfold le_bytes. now rewrite length_map, length_seq. Qed.

(** A hex digest has 32 characters. *)
Lemma hexdigest_length h : String.length (hexdigest h) = 32.
Proof.
  unfold hexdigest, digest. rewrite hex_length.
  rewrite !length_app, !le_bytes_length. reflexivity.
Qed.

End MD5Facts.

Arguments MD5.update : simpl never.
Arguments MD5.hexdigest : simpl never.
Arguments MD5.new : simpl never.
Arguments md5_hex : simpl never.

(** ** Running computations *)

Lemma bind_inr {A B} (c : M A) (k : A -> M B) w a w' :
  c w = (inr a, w') -> bind c k w = k a w'.
Proof. unfold bind. now intros ->. Qed.

Lemma bind_inl {A B} (c : M A) (k : A -> M B) w e w' :
  c w = (inl e, w') -> bind c k w = (inl e, w').
Proof. unfold bind. now intros ->. Qed.

Lemma bind_ret_l {A B} (a : A) (k : A -> M B) w : bind (ret a) k w = k a w.
Proof. reflexivity. Qed.

Lemma bind_gets {A B} (f : state -> A) (k : A -> M B) w :
  bind (gets f) k w = k (f w) w.
Proof. reflexivity. Qed.

Lemma try_inr {A} (c : M A) h w a w' :
  c w = (inr a, w') -> try_except c h w = (inr a, w').
Proof. unfold try_except. now intros ->. Qed.

Lemma try_inl {A} (c : M A) h w e w' :
  c w = (inl e, w') -> try_except c h w = h e w'.
Proof. unfold try_except. now intros ->. Qed.

(** ** calculate_md5 *)

Section Fingerprint.

Variable faulty : op -> option exn.

Lemma chunk_size_pos : 0 < chunk_size.
Proof. unfold chunk_size. lia. Qed.

Lemma firstn_skipn_length {A} n (l : list A) :
  firstn n l ++ skipn (length (firstn n l)) l = l.
Proof.
  rewrite length_firstn.
  destruct (Nat.le_ge_cases n (length l)) as [H|H].
  - rewrite Nat.min_l by exact H. apply firstn_skipn.
  - rewrite Nat.min_r by exact H. rewrite skipn_all, firstn_all2 by exact H.
    apply app_nil_r.
Qed.

Lemma firstn_nil_inv {A} n (l : list A) : 0 < n -> firstn n l = [] -> l = [].
Proof. destruct n, l; simpl; intros; (lia || congruence || reflexivity). Qed.

Lemma read_chunks_spec p data :
  forall fuel pos h w,
    length (skipn pos data) < fuel ->
    read_chunks faulty fuel p data pos h w = (inr (fed_from data pos h), w) \/
    exists e off,
      faulty (OpRead p off) = Some e /\
      read_chunks faulty fuel p data pos h w = (inl e, w).
Proof.
  induction fuel as [|fuel IH]; intros pos h w Hlen; [lia|].
  cbn [read_chunks]. unfold bind at 1, read, fault.
  destruct (faulty (OpRead p pos)) as [e|] eqn:Ef.
  { right. exists e, pos. split; [exact Ef|reflexivity]. }
  unfold bind at 1, ret at 1. cbn beta iota.
  unfold ret at 1. cbn beta iota.
  destruct (firstn chunk_size (skipn pos data)) as [|b chunk] eqn:Ec.
  - left. unfold ret, fed_from.
    now rewrite (firstn_nil_inv _ _ chunk_size_pos Ec).
  - pose proof (firstn_skipn_length chunk_size (skipn pos data)) as Hsplit.
    rewrite Ec in Hsplit. rewrite skipn_skipn in Hsplit.
    assert (Hlen' : length (skipn (pos + length (b :: chunk)) data) < fuel).
    { rewrite <- Hsplit in Hlen. rewrite length_app in Hlen.
      rewrite (Nat.add_comm pos). cbn [length] in *. lia. }
    destruct (IH (pos + length (b :: chunk)) (MD5.update h (b :: chunk)) w Hlen')
      as [Hok|Hbad]; [left|right; exact Hbad].
    rewrite Hok. f_equal. f_equal. unfold fed_from.
    rewrite (Nat.add_comm pos).
    destruct (skipn (length (b :: chunk) + pos) data) as [|b' rest'] eqn:Er.
    + rewrite app_nil_r in Hsplit. now rewrite <- Hsplit.
    + rewrite MD5Facts.update_app, Hsplit.
      destruct (skipn pos data); [discriminate Hsplit|reflexivity].
Qed.

Lemma fed_from_start data : MD5.hexdigest (fed_from data 0 MD5.new) = md5_hex data.
Proof. unfold fed_from, md5_hex. simpl skipn. now destruct data. Qed.

Lemma open_rb_spec p w :
  (exists data, find w p = Some (File data) /\ faulty (OpOpen p) = None /\
                open_rb faulty p w = (inr data, w)) \/
  (exists e, open_rb faulty p w = (inl e, w)).
Proof.
  unfold open_rb, fault.
  destruct (faulty (OpOpen p)) as [e|] eqn:Eo.
  { right. exists e. reflexivity. }
  rewrite bind_ret_l.
  destruct (find w p) as [[data|es]|] eqn:Ef.
  - left. exists data. auto.
  - right. exists IsADirectoryError. reflexivity.
  - right. eexists. reflexivity.
Qed.

(** Every run of [calculate_md5]: the digest of the whole file and nothing
    else, or [None] and one error record. *)
Lemma calculate_md5_spec p w :
  (exists data,
      find w p = Some (File data) /\
      calculate_md5 faulty p w = (inr (Some (md5_hex data)), w)) \/
  (exists e, calculate_md5 faulty p w = (inr None, md5_failed p e w)).
Proof.
  unfold calculate_md5.
  destruct (open_rb_spec p w) as [(data & Hf & _ & Ho)|(e & Ho)].
  - destruct (read_chunks_spec p data (S (length data)) 0 MD5.new w) as [H|H].
    + simpl skipn. lia.
    + left. exists data. split; [exact Hf|].
      erewrite try_inr; [reflexivity|].
      erewrite bind_inr by exact Ho. erewrite bind_inr by exact H.
      unfold ret. now rewrite fed_from_start.
    + right. destruct H as (e & off & _ & H). exists e.
      erewrite try_inl; [reflexivity|].
      erewrite bind_inr by exact Ho. erewrite bind_inl by exact H. reflexivity.
  - right. exists e. erewrite try_inl; [reflexivity|].
    erewrite bind_inl by exact Ho. reflexivity.
Qed.

Lemma calculate_md5_readable p w data :
  readable faulty w p data ->
  calculate_md5 faulty p w = (inr (Some (md5_hex data)), w).
Proof.
  intros (Hf & Ho & Hr).
  assert (Hopen : open_rb faulty p w = (inr data, w)).
  { unfold open_rb, fault. now rewrite Ho, bind_ret_l, Hf. }
  unfold calculate_md5.
  destruct (read_chunks_spec p data (S (length data)) 0 MD5.new w) as [H|H].
  - simpl skipn. lia.
  - erewrite try_inr; [reflexivity|].
    erewrite bind_inr by exact Hopen. erewrite bind_inr by exact H.
    unfold ret. now rewrite fed_from_start.
  - destruct H as (e & off & He & _). rewrite Hr in He. discriminate.
Qed.

End Fingerprint.

(** ** Directories and trees *)

Section Trees.

Lemma assoc_put_eq x c es : assoc x (put x c es) = Some c.
Proof.
  induction es as [|[y d] es IH]; simpl.
  - now rewrite String.eqb_refl.
  - destruct (String.eqb x y) eqn:E; simpl.
    + now rewrite String.eqb_refl.
    + now rewrite E.
Qed.

Lemma assoc_put_ne x y c es : x <> y -> assoc y (put x c es) = assoc y es.
Proof.
  intros Hne. induction es as [|[z d] es IH]; simpl.
  - destruct (String.eqb_spec y x); congruence.
  - destruct (String.eqb_spec x z) as [->|Hxz]; simpl.
    + destruct (String.eqb_spec y z); congruence.
    + now rewrite IH.
Qed.

Lemma assoc_del_eq x es : assoc x (del x es) = None.
Proof.
  unfold del. induction es as [|[y d] es IH]; simpl; [reflexivity|].
  destruct (String.eqb x y) eqn:E; simpl; [exact IH|].
  now rewrite E.
Qed.

Lemma assoc_del_ne x y es : x <> y -> assoc y (del x es) = assoc y es.
Proof.
  intros Hne. unfold del. induction es as [|[z d] es IH]; simpl; [reflexivity|].
  destruct (String.eqb_spec x z) as [->|Hxz]; simpl.
  - destruct (String.eqb_spec y z); congruence.
  - now rewrite IH.
Qed.

Lemma assoc_In x es c : assoc x es = Some c -> In x (map fst es).
Proof.
  induction es as [|[y d] es IH]; simpl; [discriminate|].
  destruct (String.eqb_spec x y) as [->|Hne]; auto.
Qed.

Lemma In_assoc x es : In x (map fst es) -> exists c, assoc x es = Some c.
Proof.
  induction es as [|[y d] es IH]; simpl; [tauto|].
  intros [->|H].
  - rewrite String.eqb_refl. eauto.
  - destruct (String.eqb x y); eauto.
Qed.

Lemma prefixb_refl p : prefixb p p = true.
Proof. induction p; simpl; [reflexivity|]. now rewrite String.eqb_refl. Qed.

Lemma prefixb_app p r : prefixb p (p ++ r) = true.
Proof. induction p; simpl; [reflexivity|]. now rewrite String.eqb_refl. Qed.

Lemma prefixb_true p q : prefixb p q = true -> exists r, q = p ++ r.
Proof.
  revert q. induction p as [|x p IH]; intros q H; simpl in *.
  - now exists q.
  - destruct q as [|y q]; [discriminate|].
    apply andb_true_iff in H as [Hxy Hp].
    apply String.eqb_eq in Hxy as ->.
    destruct (IH _ Hp) as [r ->]. now exists r.
Qed.

Lemma prefixb_false_app p r : prefixb p (p ++ r) = false -> False.
Proof. rewrite prefixb_app. discriminate. Qed.

Lemma lookup_File data p c : lookup (File data) p = Some c -> p = [].
Proof. destruct p; [reflexivity|discriminate]. Qed.

Lemma lookup_app n : forall p q,
  lookup n (p ++ q) =
  match lookup n p with
  | Some c => lookup c q
  | None => None
  end.
Proof.
  intros p. revert n. induction p as [|x p IH]; intros n q; [reflexivity|].
  simpl. destruct n as [|es]; [reflexivity|].
  destruct (assoc x es); [apply IH|reflexivity].
Qed.

(** Below a file and below nothing there is nothing. *)
Lemma nstat_app_None n p q :
  nstat n p = None -> nstat n (p ++ q) = None.
Proof.
  unfold nstat. rewrite lookup_app. now destruct (lookup n p).
Qed.

Lemma nstat_app_File n p q data :
  nstat n p = Some (KFile data) -> q <> [] -> nstat n (p ++ q) = None.
Proof.
  unfold nstat. rewrite lookup_app.
  destruct (lookup n p) as [[d|es]|]; simpl; try discriminate.
  intros _ Hq. destruct q; [congruence|reflexivity].
Qed.

(** What is there has a directory above it. *)
Lemma nstat_parent n p q :
  nstat n (p ++ q) <> None -> q <> [] -> nstat n p = Some KDir.
Proof.
  intros H Hq. destruct (nstat n p) as [[data|]|] eqn:E.
  - now rewrite (nstat_app_File _ _ q _ E Hq) in H.
  - reflexivity.
  - now rewrite (nstat_app_None _ _ q E) in H.
Qed.

Lemma write_cons_cons es x y p c :
  write (Dir es) (x :: y :: p) c =
  match assoc x es with
  | Some d => Dir (put x (write d (y :: p) c) es)
  | None => Dir es
  end.
Proof. reflexivity. Qed.

Lemma kind_of_write n p c : p <> [] -> kind_of (write n p c) = kind_of n.
Proof.
  destruct n as [data|es]; destruct p as [|x [|y p]]; intros H;
    try congruence; try reflexivity.
  rewrite write_cons_cons. now destruct (assoc x es).
Qed.

(** Writing at [p] leaves alone what is not at or below [p]. *)
Lemma nstat_write_other p : forall n c q,
  p <> [] -> prefixb p q = false ->
  nstat (write n p c) q = nstat n q.
Proof.
  induction p as [|x p IH]; intros n c q Hp Hq; [congruence|].
  destruct q as [|y q].
  { unfold nstat. cbn [lookup option_map]. now rewrite kind_of_write. }
  destruct n as [data|es]; [now destruct p|].
  simpl in Hq. destruct p as [|z p].
  - simpl in Hq. rewrite andb_true_r in Hq.
    apply String.eqb_neq in Hq.
    unfold nstat. simpl.
    destruct c; [rewrite assoc_put_ne|rewrite assoc_del_ne]; auto.
  - rewrite write_cons_cons.
    destruct (assoc x es) as [d|] eqn:Ex; [|reflexivity].
    unfold nstat. cbn [lookup].
    destruct (String.eqb_spec x y) as [->|Hne].
    + rewrite assoc_put_eq, Ex. simpl in Hq.
      apply (IH d c q); [discriminate|exact Hq].
    + now rewrite assoc_put_ne.
Qed.

(** Writing at [p], under a directory, puts the new entry there. *)
Lemma lookup_write p : forall n c r,
  p <> [] -> nstat n (removelast p) = Some KDir ->
  lookup (write n p c) (p ++ r) =
  match c with
  | Some c' => lookup c' r
  | None => None
  end.
Proof.
  induction p as [|x p IH]; intros n c r Hp Hpar; [congruence|].
  destruct n as [data|es].
  { unfold nstat in Hpar. destruct p; simpl in Hpar; discriminate. }
  destruct p as [|z p].
  - simpl. destruct c.
    + now rewrite assoc_put_eq.
    + now rewrite assoc_del_eq.
  - rewrite write_cons_cons.
    change (removelast (x :: z :: p)) with (x :: removelast (z :: p)) in Hpar.
    unfold nstat in Hpar. cbn [lookup] in Hpar.
    destruct (assoc x es) as [d|] eqn:Ex; [|discriminate].
    change ((x :: z :: p) ++ r) with (x :: (z :: p) ++ r).
    cbn [lookup]. rewrite assoc_put_eq.
    apply IH; [discriminate|exact Hpar].
Qed.

Lemma nstat_mkchain p : forall q,
  nstat (mkchain p) q = if prefixb q p then Some KDir else None.
Proof.
  induction p as [|x p IH]; intros [|y q]; try reflexivity.
  unfold nstat. simpl.
  destruct (String.eqb_spec y x) as [->|Hne]; [apply IH|reflexivity].
Qed.

(** [os.makedirs] adds the missing directories down to [p], and nothing
    else changes. *)
Lemma nstat_mkdirs p : forall n n' q,
  mkdirs n p = inr n' ->
  nstat n' q =
  match nstat n q with
  | Some k => Some k
  | None => if prefixb q p then Some KDir else None
  end.
Proof.
  induction p as [|x p IH]; intros n n' q H.
  - destruct n as [data|es]; simpl in H; inversion H; subst.
    destruct (nstat (Dir es) q) eqn:E; [reflexivity|].
    destruct q; [discriminate E|reflexivity].
  - destruct n as [data|es]; [discriminate H|].
    simpl in H. destruct q as [|y q].
    { destruct (assoc x es) as [c|]; [destruct (mkdirs c p)|];
        inversion H; reflexivity. }
    unfold nstat. cbn [lookup prefixb].
    destruct (assoc x es) as [c|] eqn:Ex.
    + destruct (mkdirs c p) as [e|c'] eqn:Ec; inversion H; subst.
      destruct (String.eqb_spec y x) as [->|Hne].
      * rewrite assoc_put_eq, Ex. simpl. apply (IH c c' q Ec).
      * rewrite assoc_put_ne by congruence. simpl.
        now destruct (assoc y es) as [d|]; [destruct (lookup d q)|].
    + inversion H; subst.
      destruct (String.eqb_spec y x) as [->|Hne].
      * rewrite assoc_put_eq, Ex. simpl. apply nstat_mkchain.
      * rewrite assoc_put_ne by congruence. simpl.
        now destruct (assoc y es) as [d|]; [destruct (lookup d q)|].
Qed.

Lemma mkdirs_not_file p : forall n n' data,
  mkdirs n p = inr n' -> nstat n p <> Some (KFile data).
Proof.
  induction p as [|x p IH]; intros n n' data H.
  - destruct n; [discriminate H|discriminate].
  - destruct n as [d|es]; [discriminate H|].
    simpl in H. unfold nstat. cbn [lookup].
    destruct (assoc x es) as [c|]; [|discriminate].
    destruct (mkdirs c p) as [e|c'] eqn:Ec; [discriminate H|].
    apply (IH c c' data Ec).
Qed.

Lemma mkdirs_done p n n' : mkdirs n p = inr n' -> nstat n' p = Some KDir.
Proof.
  intros H. rewrite (nstat_mkdirs p n n' p H), prefixb_refl.
  destruct (nstat n p) as [[data|]|] eqn:E; try reflexivity.
  now apply mkdirs_not_file with (data := data) in H.
Qed.

(** A directory that is there is made again without an error. *)
Lemma mkdirs_present p : forall n,
  nstat n p = Some KDir -> exists n', mkdirs n p = inr n'.
Proof.
  induction p as [|x p IH]; intros n H.
  - destruct n; [discriminate H|]. simpl. eauto.
  - destruct n as [d|es]; [discriminate H|].
    unfold nstat in H. cbn [lookup] in H. simpl.
    destruct (assoc x es) as [c|]; [|discriminate].
    destruct (IH c H) as [c' ->]. eauto.
Qed.

(** A file on the way, and only that, stops [os.makedirs]. *)
Lemma mkdirs_error p : forall n e,
  mkdirs n p = inl e ->
  exists q data, prefixb q p = true /\ nstat n q = Some (KFile data).
Proof.
  induction p as [|x p IH]; intros n e H.
  - destruct n as [data|es]; [|discriminate H]. exists [], data. auto.
  - destruct n as [data|es]; [exists [], data; auto|].
    simpl in H. destruct (assoc x es) as [c|] eqn:Ex; [|discriminate].
    destruct (mkdirs c p) as [e'|c'] eqn:Ec; [|discriminate].
    destruct (IH c e' Ec) as (q & data & Hq & Hs).
    exists (x :: q), data. simpl. rewrite String.eqb_refl, Hq.
    unfold nstat in *. cbn [lookup]. now rewrite Ex.
Qed.

Lemma height_child es x c : assoc x es = Some c -> height c < height (Dir es).
Proof.
  simpl. induction es as [|[y d] es IH]; simpl; [discriminate|].
  destruct (String.eqb x y); intros H.
  - inversion H; subst. lia.
  - specialize (IH H). lia.
Qed.

(** Nothing lies deeper than the height. *)
Lemma height_bound p : forall n, lookup n p <> None -> length p <= height n.
Proof.
  induction p as [|x p IH]; intros n H; [simpl; lia|].
  destruct n as [d|es]; [now contradiction H|].
  cbn [lookup] in H. destruct (assoc x es) as [c|] eqn:Ex; [|now contradiction H].
  pose proof (height_child es x c Ex). specialize (IH c H). simpl length. lia.
Qed.

End Trees.

(** ** The operating system calls *)

Section Calls.

Variable faulty : op -> option exn.

Lemma stat_vstat w p : stat w p = vstat (tree w (base p)) (rel p).
Proof. reflexivity. Qed.

Lemma side_eqb_spec a b : reflect (a = b) (side_eqb a b).
Proof. destruct a, b; constructor; congruence. Qed.

Lemma tree_set_tree w s o s' :
  tree (set_tree w s o) s' = if side_eqb s s' then o else tree w s'.
Proof. now destruct s, s'. Qed.

Lemma tree_add_journal w m s : tree (add_journal w m) s = tree w s.
Proof. now destruct s. Qed.

Lemma vstat_parent o p q :
  vstat o (p ++ q) <> None -> q <> [] -> vstat o p = Some KDir.
Proof. destruct o as [n|]; [apply nstat_parent|intros H; now contradiction H]. Qed.

Lemma vstat_removelast o p :
  vstat o p <> None -> p <> [] -> vstat o (removelast p) = Some KDir.
Proof.
  intros H Hp. rewrite (app_removelast_last EmptyString Hp) in H.
  apply vstat_parent in H; [exact H|discriminate].
Qed.

Lemma prefixb_skipn p q : prefixb p q = true -> q = p ++ skipn (length p) q.
Proof.
  intros H. destruct (prefixb_true _ _ H) as [r ->].
  now rewrite skipn_app, Nat.sub_diag, skipn_all.
Qed.

(** Setting or clearing the entry at [p]: what is at or below [p] is the
    new entry, the rest is as before. *)
Lemma vstat_vwrite o p c q :
  p = [] \/ vstat o (removelast p) = Some KDir ->
  vstat (vwrite o p c) q =
  if prefixb p q then
    match c with
    | Some c' => nstat c' (skipn (length p) q)
    | None => None
    end
  else vstat o q.
Proof.
  intros Hpar. destruct p as [|x p].
  { simpl. now destruct c. }
  destruct Hpar as [Hpar|Hpar]; [discriminate|].
  destruct o as [n|]; [|discriminate Hpar].
  cbn [vwrite option_map]. unfold vstat, vlookup.
  destruct (prefixb (x :: p) q) eqn:E.
  - rewrite (prefixb_skipn _ _ E) at 1.
    rewrite lookup_write by (discriminate || exact Hpar).
    now destruct c.
  - apply nstat_write_other; [discriminate|exact E].
Qed.

(** A failed call changes nothing. *)
Lemma fault_run o w r w' :
  fault faulty o w = (r, w') ->
  w' = w /\ (r = inr tt /\ faulty o = None \/ exists e, r = inl e /\ faulty o = Some e).
Proof.
  unfold fault. destruct (faulty o) as [e|]; intros H; inversion H; subst; eauto.
Qed.

Lemma path_eta p : Path (base p) (rel p) = p.
Proof. now destruct p. Qed.

Lemma makedirs_run p w r w' :
  makedirs faulty p w = (r, w') ->
  (exists e, r = inl e /\ w' = w) \/
  (r = inr tt /\ same_locals w w' /\ created p w w' /\
   stat w' p = Some KDir /\
   (w' = w \/
    stat w p = None /\ journal w' = journal w ++ [Mkdir p] /\
    tree w' (base p) <> None /\
    forall s, s <> base p -> tree w' s = tree w s)).
Proof.
  unfold makedirs. intros H.
  destruct (fault faulty (OpMakedirs p) w) as [[e|[]] w1] eqn:Ef;
    apply fault_run in Ef as [-> Hf].
  { left. exists e. unfold bind in H. 
    destruct Hf as [[Hf _]|(e' & He & Hf)]; [discriminate|].
    unfold fault in H. rewrite Hf in H. now inversion H. }
  unfold bind, fault in H.
  destruct Hf as [[_ Hf]|(e' & He & _)]; [|discriminate].
  rewrite Hf in H. unfold ret in H.
  destruct (vmkdirs (tree w (base p)) (rel p)) as [e|n'] eqn:Em.
  { left. exists e. now inversion H. }
  assert (Hcreated : forall q,
    vstat (Some n') q =
    match vstat (tree w (base p)) q with
    | Some k => Some k
    | None => if prefixb q (rel p) then Some KDir else None
    end).
  { intros q. destruct (tree w (base p)) as [n|]; simpl in Em.
    - apply (nstat_mkdirs _ _ _ q Em).
    - inversion Em; subst. apply nstat_mkchain. }
  assert (Hdone : vstat (Some n') (rel p) = Some KDir).
  { destruct (tree w (base p)) as [n|]; simpl in Em.
    - apply (mkdirs_done _ _ _ Em).
    - inversion Em; subst. unfold vstat, vlookup.
      fold (nstat (mkchain (rel p)) (rel p)).
      now rewrite nstat_mkchain, prefixb_refl. }
  right. destruct (find w p) as [c|] eqn:Efind; inversion H; subst.
  - assert (Hp : stat w' p = Some KDir).
    { specialize (Hcreated (rel p)). rewrite Hdone in Hcreated.
      unfold stat. rewrite Efind. simpl.
      unfold find in Efind. unfold vstat in Hcreated.
      rewrite Efind in Hcreated. simpl in Hcreated. congruence. }
    repeat split; auto.
    intros q. destruct (stat w' q) as [k|] eqn:Eq; [reflexivity|].
    destruct (side_eqb_spec (base p) (base q)) as [Hs|Hs]; [|reflexivity].
    destruct (prefixb (rel q) (rel p)) eqn:Epre; [|reflexivity].
    exfalso. rewrite stat_vstat in Hp, Eq. rewrite <- Hs in Eq.
    rewrite (prefixb_skipn _ _ Epre) in Hp.
    assert (Hne : vstat (tree w' (base p)) (rel q ++ skipn (length (rel q)) (rel p)) <> None)
      by congruence.
    destruct (skipn (length (rel q)) (rel p)) eqn:Esk.
    + rewrite app_nil_r in Hne. congruence.
    + apply vstat_parent in Hne; [congruence|discriminate].
  - split; [reflexivity|]. split; [split; now destruct (base p)|].
    split; [|split].
    + intros q. rewrite !stat_vstat, tree_add_journal, tree_set_tree.
      destruct (side_eqb_spec (base p) (base q)) as [Hs|Hs].
      * rewrite <- Hs. apply Hcreated.
      * simpl. now destruct (vstat (tree w (base q)) (rel q)).
    + rewrite stat_vstat, tree_add_journal, tree_set_tree.
      destruct (side_eqb_spec (base p) (base p)); [exact Hdone|congruence].
    + right. split; [|split; [|split]].
      * unfold stat. now rewrite Efind.
      * now destruct (base p).
      * rewrite tree_add_journal, tree_set_tree.
        destruct (side_eqb_spec (base p) (base p)); congruence.
      * intros s Hs. rewrite tree_add_journal, tree_set_tree.
        destruct (side_eqb_spec (base p) s); congruence.
Qed.

Lemma parent_check_run p w r w' :
  parent_check p w = (r, w') ->
  w' = w /\
  (r = inr tt /\ (rel p = [] \/ vstat (tree w (base p)) (removelast (rel p)) = Some KDir) \/
   exists e, r = inl e).
Proof.
  unfold parent_check. destruct (rel p) as [|x l] eqn:E.
  - intros H; inversion H; auto.
  - unfold find, dirname. cbn [base rel]. rewrite E.
    unfold vstat.
    destruct (vlookup (tree w (base p)) (removelast (x :: l))) as [[d|es]|];
      intros H; inversion H; subst; simpl; eauto.
Qed.

Lemma stat_find_dir w p : stat w p = Some KDir <-> exists es, find w p = Some (Dir es).
Proof.
  unfold stat. destruct (find w p) as [[d|es]|]; simpl; split;
    try discriminate; eauto; intros [es' H]; discriminate.
Qed.

Lemma stat_find_file w p data : stat w p = Some (KFile data) <-> find w p = Some (File data).
Proof.
  unfold stat. destruct (find w p) as [[d|es]|]; simpl; split;
    try discriminate; intros H; inversion H; reflexivity.
Qed.

Lemma stat_find_none w p : stat w p = None <-> find w p = None.
Proof. unfold stat. destruct (find w p); simpl; split; congruence. Qed.

Lemma write_run w p c (w' : state) m :
  w' = add_journal (set_tree w (base p) (vwrite (tree w (base p)) (rel p) c)) m ->
  rel p = [] \/ vstat (tree w (base p)) (removelast (rel p)) = Some KDir ->
  same_locals w w' /\
  journal w' = journal w ++ [m] /\
  (forall s, s <> base p -> tree w' s = tree w s) /\
  forall q,
    stat w' q =
    if side_eqb (base p) (base q) && prefixb (rel p) (rel q) then
      match c with
      | Some c' => nstat c' (skipn (length (rel p)) (rel q))
      | None => None
      end
    else stat w q.
Proof.
  intros -> Hpar. split; [split; now destruct (base p)|].
  split; [now destruct (base p)|]. split.
  - intros s Hs. rewrite tree_add_journal, tree_set_tree.
    destruct (side_eqb_spec (base p) s); congruence.
  - intros q. rewrite !stat_vstat, tree_add_journal, tree_set_tree.
    destruct (side_eqb_spec (base p) (base q)) as [Hs|Hs]; [|reflexivity].
    rewrite <- Hs. cbn [andb]. now apply vstat_vwrite.
Qed.

Lemma path_neq_cases (p q : path) :
  q <> p -> base p <> base q \/ base p = base q /\ rel p <> rel q.
Proof.
  intros H. destruct p as [s l], q as [s' l']. simpl.
  destruct (side_eqb_spec s s') as [->|Hs]; [right|left; exact Hs].
  split; [reflexivity|]. congruence.
Qed.

Lemma copy2_run src dst w r w' :
  copy2 faulty src dst w = (r, w') ->
  (exists e, r = inl e /\ w' = w) \/
  (r = inr tt /\ same_locals w w' /\
   exists data,
     stat w src = Some (KFile data) /\
     stat w (copy_target w src dst) <> Some KDir /\
     written (copy_target w src dst) data w w' /\
     journal w' = journal w ++ [WriteFile (copy_target w src dst) data] /\
     forall s, s <> base dst -> tree w' s = tree w s).
Proof.
  unfold copy2. intros H.
  destruct (fault faulty (OpCopy src dst) w) as [[e|[]] w1] eqn:Ef;
    pose proof (fault_run _ _ _ _ Ef) as [-> _].
  { erewrite bind_inl in H by exact Ef. left. exists e. now inversion H. }
  erewrite bind_inr in H by exact Ef.
  unfold path_isdir in H. rewrite bind_gets in H.
  assert (Htarget : (if match find w dst with Some (Dir _) => true | _ => false end
                     then join dst (basename src) else dst) = copy_target w src dst).
  { unfold copy_target. now destruct (find w dst) as [[?|?]|]. }
  rewrite Htarget in H. clear Htarget.
  assert (Hbase : base (copy_target w src dst) = base dst).
  { unfold copy_target. now destruct (find w dst) as [[?|?]|]. }
  set (d := copy_target w src dst) in *.
  destruct (path_eqb src d).
  { left. exists SameFileError. now inversion H. }
  rewrite bind_ret_l in H.
  destruct (find w src) as [[data|es]|] eqn:Esrc;
    [|left; exists IsADirectoryError; now inversion H
     |left; exists FileNotFoundError; now inversion H].
  destruct (parent_check d w) as [rp wp] eqn:Epar.
  pose proof (parent_check_run _ _ _ _ Epar) as [-> Hpar].
  destruct Hpar as [[-> Hpar]|[e ->]].
  2:{ erewrite bind_inl in H by exact Epar. left. exists e. now inversion H. }
  erewrite bind_inr in H by exact Epar.
  destruct (stat w d) as [[olddata|]|] eqn:Ed.
  - apply stat_find_file in Ed as Ed'. rewrite Ed' in H.
    inversion H; subst r w'. clear H. right.
    split; [reflexivity|].
    destruct (write_run w d (Some (File data)) _ (WriteFile d data) eq_refl Hpar)
      as (Hl & Hj & Ht & Hs).
    split; [exact Hl|]. exists data.
    split; [now apply stat_find_file|]. split; [discriminate|].
    split; [split|split; [exact Hj|now rewrite <- Hbase]].
    + rewrite Hs. destruct (side_eqb_spec (base d) (base d)); [|congruence].
      rewrite prefixb_refl. cbn [andb]. now rewrite skipn_all.
    + intros q Hq. rewrite Hs.
      destruct (path_neq_cases _ _ Hq) as [Hb|[Hb Hr]].
      * destruct (side_eqb_spec (base d) (base q)); [congruence|reflexivity].
      * destruct (side_eqb_spec (base d) (base q)); [|congruence].
        cbn [andb]. destruct (prefixb (rel d) (rel q)) eqn:Epre; [|reflexivity].
        pose proof (prefixb_skipn _ _ Epre) as Hq'.
        destruct (skipn (length (rel d)) (rel q)) as [|y l'] eqn:Esk.
        { rewrite app_nil_r in Hq'. congruence. }
        unfold nstat. cbn [lookup option_map].
        symmetry. rewrite stat_vstat, Hq', <- e.
        rewrite stat_vstat in Ed.
        unfold vstat, vlookup in *.
        destruct (tree w (base d)) as [n|]; [|reflexivity].
        apply (nstat_app_File n (rel d) (y :: l') olddata Ed). discriminate.
  - apply stat_find_dir in Ed as [es Ed]. rewrite Ed in H.
    left. exists IsADirectoryError. now inversion H.
  - apply stat_find_none in Ed as Ed'. rewrite Ed' in H.
    inversion H; subst r w'. clear H. right.
    split; [reflexivity|].
    destruct (write_run w d (Some (File data)) _ (WriteFile d data) eq_refl Hpar)
      as (Hl & Hj & Ht & Hs).
    split; [exact Hl|]. exists data.
    split; [now apply stat_find_file|]. split; [discriminate|].
    split; [split|split; [exact Hj|now rewrite <- Hbase]].
    + rewrite Hs. destruct (side_eqb_spec (base d) (base d)); [|congruence].
      rewrite prefixb_refl. cbn [andb]. now rewrite skipn_all.
    + intros q Hq. rewrite Hs.
      destruct (path_neq_cases _ _ Hq) as [Hb|[Hb Hr]].
      * destruct (side_eqb_spec (base d) (base q)); [congruence|reflexivity].
      * destruct (side_eqb_spec (base d) (base q)); [|congruence].
        cbn [andb]. destruct (prefixb (rel d) (rel q)) eqn:Epre; [|reflexivity].
        pose proof (prefixb_skipn _ _ Epre) as Hq'.
        destruct (skipn (length (rel d)) (rel q)) as [|y l'] eqn:Esk.
        { rewrite app_nil_r in Hq'. congruence. }
        unfold nstat. cbn [lookup option_map].
        symmetry. rewrite stat_vstat, Hq', <- e.
        rewrite stat_vstat in Ed.
        unfold vstat, vlookup in *.
        destruct (tree w (base d)) as [n|]; [|reflexivity].
        apply (nstat_app_None n (rel d) (y :: l') Ed).
Qed.

Lemma remove_run p w r w' :
  remove faulty p w = (r, w') ->
  (exists e, r = inl e /\ w' = w) \/
  (r = inr tt /\ same_locals w w' /\ removed p w w' /\
   journal w' = journal w ++ [Unlink p] /\
   forall s, s <> base p -> tree w' s = tree w s).
Proof.
  unfold remove. intros H.
  destruct (fault faulty (OpRemove p) w) as [[e|[]] w1] eqn:Ef;
    pose proof (fault_run _ _ _ _ Ef) as [-> _].
  { erewrite bind_inl in H by exact Ef. left. exists e. now inversion H. }
  erewrite bind_inr in H by exact Ef.
  destruct (find w p) as [[data|es]|] eqn:Efind;
    [|left; exists IsADirectoryError; now inversion H
     |left; exists FileNotFoundError; now inversion H].
  inversion H; subst r w'. clear H. right. split; [reflexivity|].
  assert (Hpar : rel p = [] \/ vstat (tree w (base p)) (removelast (rel p)) = Some KDir).
  { destruct (rel p) as [|x l] eqn:E; [now left|right].
    apply vstat_removelast; [|discriminate].
    unfold find in Efind. rewrite E in Efind. unfold vstat. now rewrite Efind. }
  destruct (write_run w p None _ (Unlink p) eq_refl Hpar) as (Hl & Hj & Ht & Hs).
  auto.
Qed.

Lemma rmtree_run p w r w' :
  rmtree faulty p w = (r, w') ->
  (exists e, r = inl e /\ w' = w) \/
  (r = inr tt /\ same_locals w w' /\ removed p w w' /\
   journal w' = journal w ++ [Rmtree p] /\
   forall s, s <> base p -> tree w' s = tree w s).
Proof.
  unfold rmtree. intros H.
  destruct (fault faulty (OpRmtree p) w) as [[e|[]] w1] eqn:Ef;
    pose proof (fault_run _ _ _ _ Ef) as [-> _].
  { erewrite bind_inl in H by exact Ef. left. exists e. now inversion H. }
  erewrite bind_inr in H by exact Ef.
  destruct (find w p) as [[data|es]|] eqn:Efind;
    [left; exists NotADirectoryError; now inversion H| 
     |left; exists FileNotFoundError; now inversion H].
  inversion H; subst r w'. clear H. right. split; [reflexivity|].
  assert (Hpar : rel p = [] \/ vstat (tree w (base p)) (removelast (rel p)) = Some KDir).
  { destruct (rel p) as [|x l] eqn:E; [now left|right].
    apply vstat_removelast; [|discriminate].
    unfold find in Efind. rewrite E in Efind. unfold vstat. now rewrite Efind. }
  destruct (write_run w p None _ (Rmtree p) eq_refl Hpar) as (Hl & Hj & Ht & Hs).
  auto.
Qed.

End Calls.

(** ** Relations every run keeps *)

Section Keeps.

Variable R : state -> state -> Prop.
Hypothesis R_refl : forall w, R w w.
Hypothesis R_trans : forall a b c, R a b -> R b c -> R a c.

Lemma keeps_ret {A} (a : A) : keeps R (ret a).
Proof. intros w r w' H. inversion H. apply R_refl. Qed.

Lemma keeps_raise {A} e : keeps R (@raise A e).
Proof. intros w r w' H. inversion H. apply R_refl. Qed.

Lemma keeps_gets {A} (f : state -> A) : keeps R (gets f).
Proof. intros w r w' H. inversion H. apply R_refl. Qed.

Lemma keeps_bind {A B} (c : M A) (k : A -> M B) :
  keeps R c -> (forall a, keeps R (k a)) -> keeps R (bind c k).
Proof.
  intros Hc Hk w r w'. unfold bind.
  destruct (c w) as [[e|a] w1] eqn:E; intros H.
  - inversion H; subst. eapply Hc; eauto.
  - eapply R_trans; [eapply Hc|eapply Hk]; eauto.
Qed.

Lemma keeps_try {A} (c : M A) h :
  keeps R c -> (forall e, keeps R (h e)) -> keeps R (try_except c h).
Proof.
  intros Hc Hh w r w'. unfold try_except.
  destruct (c w) as [[e|a] w1] eqn:E; intros H.
  - eapply R_trans; [eapply Hc|eapply Hh]; eauto.
  - inversion H; subst. eapply Hc; eauto.
Qed.

Lemma keeps_for_each {A} (xs : list A) body :
  (forall x, In x xs -> keeps R (body x)) -> keeps R (for_each xs body).
Proof.
  induction xs as [|x xs IH]; intros H; simpl.
  - apply keeps_ret.
  - apply keeps_bind; [apply H; now left|].
    intros _. apply IH. intros y Hy. apply H. now right.
Qed.

Lemma keeps_fault faulty o : keeps R (fault faulty o).
Proof.
  intros w r w' H. apply fault_run in H as [-> _]. apply R_refl.
Qed.

Lemma keeps_walk faulty fuel : forall top body,
  (forall root dirs files, base root = base top -> keeps R (body root dirs files)) ->
  keeps R (walk faulty fuel top body).
Proof.
  induction fuel as [|fuel IH]; intros top body Hb; simpl.
  - apply keeps_ret.
  - apply keeps_bind; [apply keeps_gets|].
    intros [[dirs files]|]; [|apply keeps_ret].
    apply keeps_bind; [now apply Hb|].
    intros _. apply keeps_for_each. intros d _.
    apply IH. intros root ds fs Hroot. apply Hb. now rewrite Hroot.
Qed.

Lemma keeps_os_walk faulty top body :
  (forall root dirs files, base root = base top -> keeps R (body root dirs files)) ->
  keeps R (os_walk faulty top body).
Proof.
  intros Hb. unfold os_walk. apply keeps_bind; [apply keeps_gets|].
  intros fuel. now apply keeps_walk.
Qed.

End Keeps.

(** *** The error count never goes down *)

Lemma grows_refl w : grows w w.
Proof. unfold grows. lia. Qed.

Lemma grows_trans a b c : grows a b -> grows b c -> grows a c.
Proof. unfold grows. lia. Qed.

Lemma nerr_same_log w w' : log w' = log w -> nerr w' = nerr w.
Proof. unfold nerr, errors. now intros ->. Qed.

Lemma nerr_log_error m w r w' :
  log_error m w = (r, w') -> r = inr tt /\ nerr w' = S (nerr w).
Proof.
  unfold log_error. intros H. inversion H; subst. split; [reflexivity|].
  unfold nerr, errors. cbn [log]. rewrite filter_app, length_app. simpl. lia.
Qed.

Lemma nerr_log_info m w r w' :
  log_info m w = (r, w') -> r = inr tt /\ nerr w' = nerr w.
Proof.
  unfold log_info. intros H. inversion H; subst. split; [reflexivity|].
  unfold nerr, errors. cbn [log]. rewrite filter_app, length_app. simpl. lia.
Qed.

Section Grows.

Variable faulty : op -> option exn.

Lemma grows_log_info m : keeps grows (log_info m).
Proof. intros w r w' H. apply nerr_log_info in H as [_ H]. unfold grows. lia. Qed.

Lemma grows_log_error m : keeps grows (log_error m).
Proof. intros w r w' H. apply nerr_log_error in H as [_ H]. unfold grows. lia. Qed.

Lemma grows_set_changes_made b : keeps grows (set_changes_made b).
Proof. intros w r w' H. inversion H. unfold grows, nerr, errors. simpl. lia. Qed.

Lemma grows_same_locals w w' : same_locals w w' -> grows w w'.
Proof. intros [H _]. unfold grows. rewrite (nerr_same_log _ _ H). lia. Qed.

Lemma grows_makedirs p : keeps grows (makedirs faulty p).
Proof.
  intros w r w' H. apply makedirs_run in H as [(e & _ & ->)|(_ & H & _)].
  - apply grows_refl.
  - now apply grows_same_locals.
Qed.

Lemma grows_copy2 s d : keeps grows (copy2 faulty s d).
Proof.
  intros w r w' H. apply copy2_run in H as [(e & _ & ->)|(_ & H & _)].
  - apply grows_refl.
  - now apply grows_same_locals.
Qed.

Lemma grows_remove p : keeps grows (remove faulty p).
Proof.
  intros w r w' H. apply remove_run in H as [(e & _ & ->)|(_ & H & _)].
  - apply grows_refl.
  - now apply grows_same_locals.
Qed.

Lemma grows_rmtree p : keeps grows (rmtree faulty p).
Proof.
  intros w r w' H. apply rmtree_run in H as [(e & _ & ->)|(_ & H & _)].
  - apply grows_refl.
  - now apply grows_same_locals.
Qed.

Lemma grows_calculate_md5 p : keeps grows (calculate_md5 faulty p).
Proof.
  intros w r w' H.
  destruct (calculate_md5_spec faulty p w) as [(data & _ & E)|(e & E)];
    rewrite E in H; inversion H; subst.
  - apply grows_refl.
  - unfold grows, nerr, errors, md5_failed. cbn [log].
    rewrite filter_app, length_app. lia.
Qed.

End Grows.

Create HintDb keeps.

#[local] Hint Resolve grows_refl grows_trans : keeps.
#[local] Hint Resolve keeps_ret keeps_raise keeps_gets keeps_fault : keeps.
#[local] Hint Resolve grows_log_info grows_log_error grows_set_changes_made
  grows_makedirs grows_copy2 grows_remove grows_rmtree grows_calculate_md5 : keeps.

(** Take a computation apart along its structure. *)
Ltac keeps_tac :=
  cbv zeta;
  repeat first
    [ progress intros
    | solve [eauto with keeps]
    | apply keeps_bind
    | apply keeps_try
    | apply keeps_for_each
    | apply keeps_os_walk
    | apply keeps_walk
    | match goal with
      | |- keeps _ (if ?b then _ else _) => destruct b
      | |- keeps _ (match ?x with _ => _ end) => destruct x
      end ].

Section GrowsProgram.

Variable faulty : op -> option exn.

Lemma grows_propagate source replica root dirs files :
  keeps grows (propagate faulty source replica root dirs files).
Proof. unfold propagate, path_exists. keeps_tac. Qed.

Lemma grows_prune source replica root dirs files :
  keeps grows (prune faulty source replica root dirs files).
Proof. unfold prune, path_exists, path_isdir. keeps_tac. Qed.

Lemma grows_sync_folders source replica :
  keeps grows (sync_folders faulty source replica).
Proof.
  unfold sync_folders, path_exists.
  keeps_tac; try apply grows_propagate; try apply grows_prune.
Qed.

End GrowsProgram.

(** *** The frame: only the replica changes *)

Lemma frame_refl w : frame w w.
Proof.
  split; [now left|]. split.
  - exists []. now rewrite app_nil_r.
  - exists []. split; [now rewrite app_nil_r|constructor].
Qed.

Lemma frame_trans a b c : frame a b -> frame b c -> frame a c.
Proof.
  intros (Hs1 & (l1 & Hl1) & (j1 & Hj1 & Ha1)) (Hs2 & (l2 & Hl2) & (j2 & Hj2 & Ha2)).
  split; [|split].
  - destruct Hs1 as [Hs1|[Hs1 Hs1']], Hs2 as [Hs2|[Hs2 Hs2']];
      try (left; congruence); try (right; split; congruence).
  - exists (l1 ++ l2). now rewrite Hl2, Hl1, app_assoc.
  - exists (j1 ++ j2). split; [now rewrite Hj2, Hj1, app_assoc|].
    apply Forall_app. split; [exact Ha1|].
    eapply Forall_impl; [|exact Ha2].
    intros m [Hm|[Hm Hnone]]; [now left|right].
    split; [exact Hm|]. destruct Hs1 as [Hs1|[Hs1 Hs1']]; congruence.
Qed.

(** A step that leaves the source tree and the log alone and adds the
    mutations [j] is within the frame when [j] is. *)
Lemma frame_step w w' j :
  source_tree w' = source_tree w -> log w' = log w ->
  journal w' = journal w ++ j -> Forall (allowed w) j -> frame w w'.
Proof.
  intros Hs Hl Hj Ha. split; [now left|]. split.
  - exists []. now rewrite app_nil_r.
  - now exists j.
Qed.

Section Frame.

Variable faulty : op -> option exn.

Lemma frame_log_info m : keeps frame (log_info m).
Proof.
  intros w r w' H. inversion H; subst. split; [now left|]. split.
  - now exists [INFO m].
  - exists []. split; [simpl; now rewrite app_nil_r|constructor].
Qed.

Lemma frame_log_error m : keeps frame (log_error m).
Proof.
  intros w r w' H. inversion H; subst. split; [now left|]. split.
  - now exists [ERROR m].
  - exists []. split; [simpl; now rewrite app_nil_r|constructor].
Qed.

Lemma frame_set_changes_made b : keeps frame (set_changes_made b).
Proof.
  intros w r w' H. inversion H; subst.
  apply frame_step with (j := []); simpl; auto using app_nil_r.
Qed.

Lemma other_side_source p w w' :
  base p = Replica ->
  (forall s, s <> base p -> tree w' s = tree w s) ->
  source_tree w' = source_tree w.
Proof. intros Hp H. apply (H Source). rewrite Hp. discriminate. Qed.

Lemma frame_makedirs p : base p = Replica -> keeps frame (makedirs faulty p).
Proof.
  intros Hp w r w' H.
  apply makedirs_run in H as [(e & _ & ->)|(_ & [Hl _] & _ & _ & [->|(_ & Hj & _ & Ht)])];
    try apply frame_refl.
  apply frame_step with (j := [Mkdir p]); auto.
  - eapply other_side_source; eauto.
  - constructor; [now left|constructor].
Qed.

Lemma frame_copy2 s d : base d = Replica -> keeps frame (copy2 faulty s d).
Proof.
  intros Hd w r w' H.
  apply copy2_run in H as [(e & _ & ->)|(_ & [Hl _] & data & _ & _ & _ & Hj & Ht)];
    try apply frame_refl.
  apply frame_step with (j := [WriteFile (copy_target w s d) data]); auto.
  - eapply other_side_source; eauto.
  - constructor; [left|constructor]. simpl.
    unfold copy_target. now destruct (find w d) as [[?|?]|].
Qed.

Lemma frame_remove p : base p = Replica -> keeps frame (remove faulty p).
Proof.
  intros Hp w r w' H.
  apply remove_run in H as [(e & _ & ->)|(_ & [Hl _] & _ & Hj & Ht)];
    try apply frame_refl.
  apply frame_step with (j := [Unlink p]); auto.
  - eapply other_side_source; eauto.
  - constructor; [now left|constructor].
Qed.

Lemma frame_rmtree p : base p = Replica -> keeps frame (rmtree faulty p).
Proof.
  intros Hp w r w' H.
  apply rmtree_run in H as [(e & _ & ->)|(_ & [Hl _] & _ & Hj & Ht)];
    try apply frame_refl.
  apply frame_step with (j := [Rmtree p]); auto.
  - eapply other_side_source; eauto.
  - constructor; [now left|constructor].
Qed.

Lemma frame_calculate_md5 p : keeps frame (calculate_md5 faulty p).
Proof.
  intros w r w' H.
  destruct (calculate_md5_spec faulty p w) as [(data & _ & E)|(e & E)];
    rewrite E in H; inversion H; subst.
  - apply frame_refl.
  - split; [now left|]. split.
    + now exists [ERROR (Failed_to_calculate_md5 p e)].
    + exists []. split; [simpl; now rewrite app_nil_r|constructor].
Qed.

(** Making a root: nothing happens, or the root was missing and is an
    empty directory now. *)
Lemma makedirs_root_run s w r w' :
  makedirs faulty (Path s []) w = (r, w') ->
  w' = w \/
  (r = inr tt /\ tree w s = None /\
   w' = add_journal (set_tree w s (Some (Dir []))) (Mkdir (Path s []))).
Proof.
  unfold makedirs. intros H.
  destruct (fault faulty (OpMakedirs (Path s [])) w) as [[e|[]] w1] eqn:Ef;
    pose proof (fault_run _ _ _ _ _ Ef) as [-> _].
  { erewrite bind_inl in H by exact Ef. left. now inversion H. }
  erewrite bind_inr in H by exact Ef.
  unfold find in H. cbn [base rel] in H.
  destruct (tree w s) as [[d|es]|]; simpl in H; inversion H; auto.
Qed.

Lemma frame_makedirs_source : keeps frame (makedirs faulty source_root).
Proof.
  intros w r w' H. apply makedirs_root_run in H as [->|(_ & Hn & ->)].
  - apply frame_refl.
  - simpl in Hn. split; [now right|]. split.
    + exists []. simpl. now rewrite app_nil_r.
    + exists [Mkdir source_root]. split; [reflexivity|].
      constructor; [right; auto|constructor].
Qed.

End Frame.

#[local] Hint Resolve frame_refl frame_trans : keeps.
#[local] Hint Resolve frame_log_info frame_log_error frame_set_changes_made
  frame_makedirs frame_copy2 frame_remove frame_rmtree frame_calculate_md5
  frame_makedirs_source : keeps.
#[local] Hint Extern 1 (base _ = Replica) =>
  (simpl; first [assumption | reflexivity | congruence]) : keeps.

Section FrameProgram.

Variable faulty : op -> option exn.

Lemma frame_propagate source root dirs files :
  keeps frame (propagate faulty source replica_root root dirs files).
Proof. unfold propagate, path_exists. keeps_tac. Qed.

Lemma frame_prune source replica root dirs files :
  base root = Replica ->
  keeps frame (prune faulty source replica root dirs files).
Proof. intros Hroot. unfold prune, path_exists, path_isdir. keeps_tac. Qed.

(** Every run of [sync_folders] stays within the frame. *)
Lemma frame_sync_folders :
  keeps frame (sync_folders faulty source_root replica_root).
Proof.
  unfold sync_folders, path_exists.
  keeps_tac; try apply frame_propagate; try (apply frame_prune; congruence).
Qed.

End FrameProgram.

(** ** Quiet runs *)

Lemma quiet_bind {A B} (c : M A) (k : A -> M B) w b w'' :
  keeps grows c -> (forall a, keeps grows (k a)) ->
  quiet (bind c k) w b w'' ->
  exists a w', quiet c w a w' /\ quiet (k a) w' b w''.
Proof.
  intros Hc Hk [Hrun Herr]. unfold bind in Hrun.
  destruct (c w) as [[e|a] w'] eqn:E; [discriminate|].
  exists a, w'. pose proof (Hc _ _ _ E). pose proof (Hk _ _ _ _ Hrun).
  unfold grows in *. split; split; auto; lia.
Qed.

Lemma quiet_try {A} (c : M A) h w a w' :
  keeps grows c ->
  (forall e w r w', h e w = (r, w') -> nerr w < nerr w') ->
  quiet (try_except c h) w a w' -> quiet c w a w'.
Proof.
  intros Hc Hh [Hrun Herr]. unfold try_except in Hrun.
  destruct (c w) as [[e|a'] w1] eqn:E.
  - pose proof (Hc _ _ _ E). pose proof (Hh _ _ _ _ Hrun). unfold grows in *. lia.
  - inversion Hrun; subst. now split.
Qed.

Lemma quiet_ret {A} (a b : A) w w' : quiet (ret a) w b w' -> b = a /\ w' = w.
Proof. intros [H _]. now inversion H. Qed.

Lemma quiet_gets {A} (f : state -> A) b w w' :
  quiet (gets f) w b w' -> b = f w /\ w' = w.
Proof. intros [H _]. now inversion H. Qed.

Lemma loud_log_error (m : exn -> message) :
  forall e w r w', log_error (m e) w = (r, w') -> nerr w < nerr w'.
Proof. intros e w r w' H. apply nerr_log_error in H as [_ H]. lia. Qed.

(** A loop whose steps keep [R] and establish [Post], both stable. *)
Section Loops.

Context {A : Type}.
Variable R : state -> state -> Prop.
Variables Pre Post : A -> state -> Prop.
Variable body : A -> M unit.

Hypothesis R_refl : forall w, R w w.
Hypothesis R_trans : forall a b c, R a b -> R b c -> R a c.
Hypothesis Pre_stable : forall x w w', Pre x w -> R w w' -> Pre x w'.
Hypothesis Post_stable : forall x w w', Post x w -> R w w' -> Post x w'.
Hypothesis body_grows : forall x, keeps grows (body x).

Lemma for_each_quiet xs :
  (forall x w w', In x xs -> Pre x w -> quiet (body x) w tt w' -> R w w' /\ Post x w') ->
  forall w w',
    (forall x, In x xs -> Pre x w) ->
    quiet (for_each xs body) w tt w' ->
    R w w' /\ forall x, In x xs -> Post x w'.
Proof.
  induction xs as [|x xs IH]; intros Hstep w w' Hpre Hq.
  - apply quiet_ret in Hq as [_ ->]. split; [apply R_refl|intros x []].
  - simpl in Hq. apply quiet_bind in Hq as ([] & w1 & H1 & H2); [|keeps_tac..].
    destruct (Hstep x w w1 (or_introl eq_refl) (Hpre x (or_introl eq_refl)) H1)
      as [HR1 HP1].
    destruct (IH (fun y w w' Hy => Hstep y w w' (or_intror Hy)) w1 w') as [HR2 HP2].
    + intros y Hy. eapply Pre_stable; [apply Hpre; now right|exact HR1].
    + exact H2.
    + split; [eapply R_trans; eauto|].
      intros y [<-|Hy]; [eapply Post_stable; eauto|now apply HP2].
Qed.

End Loops.

(** ** The two passes *)

Lemma stat_same_trees w w' p : same_trees w w' -> stat w' p = stat w p.
Proof.
  intros [Hs Hr]. unfold stat, find. destruct p as [[] q]; simpl; congruence.
Qed.

Lemma same_trees_log_info m w r w' : log_info m w = (r, w') -> same_trees w w'.
Proof. intros H; inversion H; now split. Qed.

Lemma same_trees_set_changes_made b w r w' :
  set_changes_made b w = (r, w') -> same_trees w w'.
Proof. intros H; inversion H; now split. Qed.

Lemma propagated_refl w : propagated w w.
Proof. split; auto. Qed.

Lemma propagated_trans a b c : propagated a b -> propagated b c -> propagated a c.
Proof.
  intros [Hs1 Hr1] [Hs2 Hr2]. split.
  - intros q. now rewrite Hs2.
  - intros q.
    destruct (Hr1 q) as [H1|[(H1 & H1' & H1'')|(d1 & H1 & H1')]],
             (Hr2 q) as [H2|[(H2 & H2' & H2'')|(d2 & H2 & H2')]];
      rewrite ?Hs1 in *.
    + left. congruence.
    + right. left. rewrite <- H1. auto.
    + right. right. exists d2. auto.
    + right. left. rewrite H2. auto.
    + congruence.
    + congruence.
    + right. right. exists d1. rewrite H2. auto.
    + congruence.
    + right. right. exists d2. auto.
Qed.

Lemma propagated_same_trees w w' : same_trees w w' -> propagated w w'.
Proof.
  intros H. split; intros q; [|left]; apply stat_same_trees; exact H.
Qed.

Lemma settled_stable q w w' : settled w q -> propagated w w' -> settled w' q.
Proof.
  unfold settled. intros H [Hs Hr]. rewrite Hs.
  destruct (src_stat w q) as [[data|]|] eqn:E; [| |exact I].
  - destruct H as (data' & H & Hd).
    destruct (Hr q) as [H1|[(H1 & _)|(d1 & H1 & H1')]].
    + exists data'. split; congruence.
    + congruence.
    + exists d1. split; congruence.
  - destruct (Hr q) as [H1|[(H1 & H1' & _)|(d1 & H1 & _)]]; congruence.
Qed.

Lemma src_stat_parent w p q :
  src_stat w (p ++ q) <> None -> q <> [] -> src_stat w p = Some KDir.
Proof. apply vstat_parent. Qed.

Lemma rep_stat_parent w p q :
  rep_stat w (p ++ q) <> None -> q <> [] -> rep_stat w p = Some KDir.
Proof. apply vstat_parent. Qed.

Lemma src_stat_prefix w q1 q :
  prefixb q1 q = true -> src_stat w q <> None -> src_stat w q1 <> None.
Proof.
  intros Hp H. destruct (prefixb_true _ _ Hp) as [r ->].
  destruct r; [now rewrite app_nil_r in H|].
  rewrite (src_stat_parent w q1 (n :: r) H); discriminate.
Qed.

Section Passes.

Variable faulty : op -> option exn.

(** One directory of the first loop. *)
Lemma propagate_dir r d w w' :
  src_stat w (r ++ [d]) = Some KDir ->
  quiet (propagate_dir_step faulty r d) w tt w' ->
  propagated w w' /\ settled w' (r ++ [d]).
Proof.
  intros Hsrc Hq. unfold propagate_dir_step in Hq.
  apply quiet_try in Hq;
    [|apply grows_makedirs
     |apply (loud_log_error (Failed_to_create_directory (Path Replica r) d))].
  destruct Hq as [Hrun _].
  apply makedirs_run in Hrun as [(e & He & _)|(_ & _ & Hc & Hdone & _)];
    [discriminate|].
  assert (Hsame : forall q, src_stat w' q = src_stat w q).
  { intros q. unfold src_stat. rewrite (Hc (Path Source q)). simpl.
    now destruct (stat w (Path Source q)). }
  split; [split; [exact Hsame|]|].
  - intros q. unfold rep_stat. rewrite (Hc (Path Replica q)). cbn [base rel side_eqb andb].
    destruct (stat w (Path Replica q)) as [k|] eqn:E; [now left|].
    destruct (prefixb q (r ++ [d])) eqn:Ep; [|now left].
    right. left. repeat split.
    destruct (prefixb_true _ _ Ep) as [t Ht].
    destruct t as [|x t].
    + rewrite app_nil_r in Ht. congruence.
    + rewrite Ht in Hsrc. apply (src_stat_parent w q (x :: t)); congruence.
  - unfold settled. rewrite Hsame, Hsrc. exact Hdone.
Qed.

(** What a copy to a replica path that is not a directory does. *)
Lemma propagate_copy r f data w w' :
  src_stat w (r ++ [f]) = Some (KFile data) ->
  rep_stat w (r ++ [f]) <> Some KDir ->
  quiet (propagate_copy_step faulty r f) w tt w' ->
  propagated w w' /\ settled w' (r ++ [f]).
Proof.
  intros Hsrc Hrep Hq. unfold propagate_copy_step in Hq.
  apply quiet_bind in Hq as ([] & w1 & [H1 _] & Hq); [|keeps_tac..].
  apply quiet_bind in Hq as ([] & w2 & [H2 _] & [H3 _]); [|keeps_tac..].
  apply same_trees_log_info in H2. apply same_trees_set_changes_made in H3.
  apply copy2_run in H1 as [(e & He & _)|(_ & _ & data' & Hs & _ & [Hw Ho] & _)];
    [discriminate|].
  assert (Ht : copy_target w (Path Source (r ++ [f])) (Path Replica (r ++ [f]))
               = Path Replica (r ++ [f])).
  { unfold copy_target. unfold rep_stat, stat in Hrep.
    destruct (find w (Path Replica (r ++ [f]))) as [[?|?]|]; try reflexivity.
    now contradiction Hrep. }
  rewrite Ht in *. unfold src_stat in Hsrc. rewrite Hsrc in Hs.
  inversion Hs; subst data'. clear Hs.
  assert (Hstat : forall p, stat w' p = stat w1 p).
  { intros p. rewrite (stat_same_trees _ _ _ H3). apply stat_same_trees, H2. }
  assert (Hsame : forall q, src_stat w' q = src_stat w q).
  { intros q. unfold src_stat. rewrite Hstat. apply Ho. discriminate. }
  split; [split; [exact Hsame|]|].
  - intros q. unfold rep_stat. rewrite Hstat.
    destruct (list_eq_dec string_dec q (r ++ [f])) as [->|Hne].
    + right. right. exists data. auto.
    + left. apply Ho. congruence.
  - unfold settled. rewrite Hsame. unfold src_stat. rewrite Hsrc.
    exists data. unfold rep_stat. rewrite Hstat. auto.
Qed.

Lemma quiet_calculate_md5 p w a w' :
  quiet (calculate_md5 faulty p) w a w' ->
  exists data, find w p = Some (File data) /\ a = Some (md5_hex data) /\ w' = w.
Proof.
  intros [Hrun Herr].
  destruct (calculate_md5_spec faulty p w) as [(data & Hf & E)|(e & E)];
    rewrite E in Hrun; inversion Hrun; subst.
  - exists data. auto.
  - exfalso. revert Herr. unfold nerr, errors, md5_failed. cbn [log].
    rewrite filter_app, length_app. simpl. lia.
Qed.

Lemma grows_propagate_copy_step r f : keeps grows (propagate_copy_step faulty r f).
Proof. unfold propagate_copy_step. keeps_tac. Qed.

Lemma grows_propagate_file_step r f : keeps grows (propagate_file_step faulty r f).
Proof.
  unfold propagate_file_step, path_exists. keeps_tac.
Qed.

Lemma grows_propagate_dir_step r d : keeps grows (propagate_dir_step faulty r d).
Proof. unfold propagate_dir_step. keeps_tac. Qed.

(** One file of the first loop. *)
Lemma propagate_file r f data w w' :
  src_stat w (r ++ [f]) = Some (KFile data) ->
  quiet (propagate_file_step faulty r f) w tt w' ->
  propagated w w' /\ settled w' (r ++ [f]).
Proof.
  intros Hsrc Hq. unfold propagate_file_step in Hq.
  apply quiet_bind in Hq as (there & w0 & Hex & Hq);
    [|unfold path_exists; keeps_tac..].
  apply quiet_gets in Hex as [-> ->].
  apply quiet_bind in Hq as (differs & w1 & Hd & Hq);
    [|keeps_tac..].
  destruct (find w (Path Replica (r ++ [f]))) as [c|] eqn:Erep; cbn [negb] in Hd.
  - apply quiet_bind in Hd as (a & wa & Ha & Hd); [|keeps_tac..].
    apply quiet_bind in Hd as (b & wb & Hb & Hd); [|keeps_tac..].
    apply quiet_calculate_md5 in Ha as (da & Hfa & -> & ->).
    apply quiet_calculate_md5 in Hb as (db & Hfb & -> & ->).
    apply quiet_ret in Hd as [-> ->].
    assert (da = data) as ->.
    { unfold src_stat, stat in Hsrc. rewrite Hfa in Hsrc. now inversion Hsrc. }
    cbn [opt_string_eqb] in Hq.
    destruct (String.eqb_spec (md5_hex data) (md5_hex db)) as [Heq|Hne];
      cbn [negb] in Hq.
    + apply quiet_ret in Hq as [_ ->]. split; [apply propagated_refl|].
      unfold settled. rewrite Hsrc. exists db. split; [|now symmetry].
      unfold rep_stat, stat. now rewrite Hfb.
    + apply (propagate_copy r f data w w' Hsrc); [|exact Hq].
      unfold rep_stat, stat. rewrite Hfb. discriminate.
  - apply quiet_ret in Hd as [-> ->].
    apply (propagate_copy r f data w w' Hsrc); [|exact Hq].
    unfold rep_stat, stat. rewrite Erep. discriminate.
Qed.

(** *** What a listing says *)

Lemma find_join w top es x :
  find w top = Some (Dir es) -> find w (join top [x]) = assoc x es.
Proof.
  unfold find, join. cbn [base rel]. unfold vlookup.
  destruct (tree w (base top)) as [n|]; [|discriminate].
  intros H. rewrite lookup_app, H. cbn [lookup]. now destruct (assoc x es).
Qed.

Lemma scandir_some top w dirs files :
  scandir faulty top w = Some (dirs, files) ->
  stat w top = Some KDir /\
  (forall x, In x dirs <-> stat w (join top [x]) = Some KDir) /\
  (forall x, In x files <-> exists data, stat w (join top [x]) = Some (KFile data)).
Proof.
  unfold scandir. destruct (faulty (OpScandir top)); [discriminate|].
  destruct (find w top) as [[data|es]|] eqn:Ef; try discriminate.
  intros H. inversion H; subst. clear H.
  split; [unfold stat; now rewrite Ef|].
  split; intros x; rewrite filter_In; unfold stat; rewrite (find_join _ _ _ x Ef).
  - split.
    + intros [_ H]. now destruct (assoc x es) as [[?|?]|].
    + intros H. destruct (assoc x es) as [[?|?]|] eqn:Ex; try discriminate.
      split; [eapply assoc_In; eauto|reflexivity].
  - split.
    + intros [Hin H]. apply In_assoc in Hin as [c Hc]. rewrite Hc in *.
      destruct c as [d|?]; [now exists d|discriminate].
    + intros [data H]. destruct (assoc x es) as [[d|?]|] eqn:Ex; try discriminate.
      split; [eapply assoc_In; eauto|reflexivity].
Qed.

Lemma scandir_dir top w :
  faulty (OpScandir top) = None -> stat w top = Some KDir ->
  exists dirs files, scandir faulty top w = Some (dirs, files).
Proof.
  intros Hf Hs. apply stat_find_dir in Hs as [es Hs].
  unfold scandir. rewrite Hf, Hs. eauto.
Qed.

Lemma scandir_none top w :
  faulty (OpScandir top) = None -> scandir faulty top w = None ->
  stat w top <> Some KDir.
Proof.
  intros Hf H Hs. destruct (scandir_dir top w Hf Hs) as (dirs & files & E).
  congruence.
Qed.

(** Every name under a listed directory is in the listing. *)
Lemma scandir_all top w dirs files x :
  scandir faulty top w = Some (dirs, files) ->
  stat w (join top [x]) <> None -> In x (files ++ dirs).
Proof.
  intros H Hx. apply scandir_some in H as (_ & Hd & Hf).
  apply in_or_app.
  destruct (stat w (join top [x])) as [[data|]|] eqn:E; [left|right|congruence].
  - apply Hf. eauto.
  - now apply Hd.
Qed.

Lemma propagate_steps r dirs files :
  propagate faulty source_root replica_root (Path Source r) dirs files =
  (for_each dirs (propagate_dir_step faulty r) ;;
   for_each files (propagate_file_step faulty r))%monad.
Proof. reflexivity. Qed.

Lemma grows_walk_propagate fuel top :
  keeps grows (walk faulty fuel top (propagate faulty source_root replica_root)).
Proof.
  apply keeps_walk; [apply grows_refl|apply grows_trans|].
  intros. apply grows_propagate.
Qed.

(** The first loop over the source tree below [r]: every path there is
    settled. *)
Lemma walk_propagate fuel : forall r w w',
  listable faulty ->
  src_stat w r = Some KDir ->
  (forall q, src_stat w (r ++ q) <> None -> length q < fuel) ->
  quiet (walk faulty fuel (Path Source r)
           (propagate faulty source_root replica_root)) w tt w' ->
  propagated w w' /\
  forall q, q <> [] -> src_stat w (r ++ q) <> None -> settled w' (r ++ q).
Proof.
  induction fuel as [|fuel IH]; intros r w w' Hlist Hdir Hbound Hq.
  { exfalso. specialize (Hbound []). rewrite app_nil_r in Hbound.
    assert (length (@nil name) < 0) by (apply Hbound; congruence). simpl in *. lia. }
  cbn [walk] in Hq.
  apply quiet_bind in Hq as (listing & w0 & Hl & Hq);
    [|keeps_tac; auto using grows_propagate, grows_walk_propagate..].
  apply quiet_gets in Hl as [-> ->].
  destruct (scandir faulty (Path Source r) w) as [[dirs files]|] eqn:Escan.
  2:{ exfalso. now apply (scandir_none (Path Source r) w (Hlist _) Escan). }
  apply scandir_some in Escan as Hscan. destruct Hscan as (_ & Hdirs & Hfiles).
  unfold join in Hdirs, Hfiles. cbn [base rel] in Hdirs, Hfiles.
  apply quiet_bind in Hq as ([] & w1 & Hbody & Hwalks);
    [|keeps_tac; auto using grows_propagate, grows_walk_propagate..].
  rewrite propagate_steps in Hbody.
  apply quiet_bind in Hbody as ([] & wa & Hmk & Hcp);
    [|keeps_tac; auto using grows_propagate_dir_step, grows_propagate_file_step..].
  (* directories *)
  destruct (for_each_quiet propagated
              (fun d w => src_stat w (r ++ [d]) = Some KDir)
              (fun d w => settled w (r ++ [d]))
              (propagate_dir_step faulty r)
              propagated_refl propagated_trans) with (xs := dirs) (w := w) (w' := wa)
    as [HR1 HP1]; auto.
  { intros d u u' H [Hs _]. now rewrite Hs. }
  { intros d u u'. apply settled_stable. }
  { apply grows_propagate_dir_step. }
  { intros d u u' _. apply propagate_dir. }
  { intros d Hd. now apply Hdirs. }
  (* files *)
  destruct (for_each_quiet propagated
              (fun f w => exists data, src_stat w (r ++ [f]) = Some (KFile data))
              (fun f w => settled w (r ++ [f]))
              (propagate_file_step faulty r)
              propagated_refl propagated_trans) with (xs := files) (w := wa) (w' := w1)
    as [HR2 HP2]; auto.
  { intros f u u' [data H] [Hs _]. exists data. now rewrite Hs. }
  { intros f u u'. apply settled_stable. }
  { apply grows_propagate_file_step. }
  { intros f u u' _ [data H]. now apply propagate_file with (data := data). }
  { intros f Hf. apply Hfiles in Hf. destruct HR1 as [Hs _].
    destruct Hf as [data Hf]. exists data. unfold src_stat. unfold src_stat in Hs.
    now rewrite Hs. }
  (* the directories below *)
  pose proof (propagated_trans _ _ _ HR1 HR2) as HR12.
  destruct (for_each_quiet propagated
              (fun d w => src_stat w (r ++ [d]) = Some KDir /\
                          forall q, src_stat w ((r ++ [d]) ++ q) <> None -> length q < fuel)
              (fun d w => forall q, q <> [] -> src_stat w ((r ++ [d]) ++ q) <> None ->
                                    settled w ((r ++ [d]) ++ q))
              (fun d => walk faulty fuel (join (Path Source r) [d])
                          (propagate faulty source_root replica_root))
              propagated_refl propagated_trans) with (xs := dirs) (w := w1) (w' := w')
    as [HR3 HP3]; auto.
  { intros d u u' [H1 H2] [Hs _]. split; [now rewrite Hs|].
    intros q. rewrite Hs. apply H2. }
  { intros d u u' H HR q Hq' Hsq. destruct HR as [Hs Hr].
    eapply settled_stable; [|split; eauto]. apply H; [exact Hq'|]. now rewrite <- Hs. }
  { intros d. apply grows_walk_propagate. }
  { intros d u u' _ [H1 H2] Hrun. cbn [join base rel] in Hrun.
    destruct (IH (r ++ [d]) u u' Hlist H1 H2 Hrun) as [HR HP]. split; [exact HR|].
    intros q Hq' Hsq. destruct HR as [Hs _]. rewrite Hs in Hsq. now apply HP. }
  { intros d Hd. destruct HR12 as [Hs _]. split.
    - rewrite Hs. now apply Hdirs.
    - intros q. rewrite Hs, <- app_assoc. intros H. apply Hbound in H.
      simpl in H. lia. }
  pose proof (propagated_trans _ _ _ HR12 HR3) as HR.
  split; [exact HR|].
  intros q Hq' Hsq. destruct q as [|x q]; [congruence|].
  change (x :: q) with ([x] ++ q) in *. rewrite app_assoc in *.
  destruct (src_stat w (r ++ [x])) as [[data|]|] eqn:Ex.
  - (* a file *)
    destruct q as [|y q].
    + rewrite app_nil_r. eapply settled_stable; [|exact HR3].
      apply HP2. apply Hfiles. eauto.
    + pose proof (src_stat_parent w (r ++ [x]) (y :: q) Hsq ltac:(discriminate)).
      congruence.
  - (* a directory *)
    destruct q as [|y q].
    + rewrite app_nil_r. eapply settled_stable; [|exact HR3].
      eapply settled_stable; [|exact HR2]. apply HP1. now apply Hdirs.
    + apply HP3; [now apply Hdirs|discriminate|].
      destruct HR as [Hs _]. now rewrite Hs.
  - destruct q as [|y q]; [rewrite app_nil_r in Hsq; congruence|].
    pose proof (src_stat_parent w (r ++ [x]) (y :: q) Hsq ltac:(discriminate)).
    congruence.
Qed.

(** *** The second loop *)

Lemma pruned_refl w : pruned w w.
Proof. split; auto. Qed.

Lemma pruned_trans a b c : pruned a b -> pruned b c -> pruned a c.
Proof.
  intros [Hs1 Hr1] [Hs2 Hr2]. split.
  - intros q. now rewrite Hs2.
  - intros q.
    destruct (Hr2 q) as [H2|(H2 & q1 & Hp & Hn)].
    + destruct (Hr1 q) as [H1|(H1 & q1 & Hp & Hn)].
      * left. congruence.
      * right. split; [congruence|eauto].
    + right. split; [exact H2|]. exists q1. split; [exact Hp|]. now rewrite <- Hs1.
Qed.

Lemma pruned_same_trees w w' : same_trees w w' -> pruned w w'.
Proof.
  intros H. split; intros q; [|left]; apply stat_same_trees; exact H.
Qed.

(** What the second pass leaves was there before. *)
Lemma pruned_kept w w' q :
  pruned w w' -> rep_stat w' q <> None -> rep_stat w' q = rep_stat w q.
Proof. intros [_ Hr] H. destruct (Hr q) as [H1|[H1 _]]; congruence. Qed.

Lemma pruned_gone w w' q :
  pruned w w' -> rep_stat w q = None -> rep_stat w' q = None.
Proof. intros [_ Hr] H. destruct (Hr q) as [H1|[H1 _]]; congruence. Qed.

Lemma clean_stable r w w' : clean w r -> pruned w w' -> clean w' r.
Proof.
  intros Hc Hp q Hq Hrep. destruct Hp as [Hs Hr]. rewrite Hs.
  apply Hc; [exact Hq|].
  destruct (Hr (r ++ q)) as [H1|[H1 _]]; congruence.
Qed.

Lemma grows_prune_step r x : keeps grows (prune_step faulty r x).
Proof. unfold prune_step, prune_delete_step, path_exists, path_isdir. keeps_tac. Qed.

Lemma removed_pruned r x w w1 w' :
  src_stat w (r ++ [x]) = None ->
  removed (Path Replica (r ++ [x])) w w1 ->
  same_trees w1 w' ->
  pruned w w' /\ forall q, rep_stat w' ((r ++ [x]) ++ q) = None.
Proof.
  intros Hsrc Hrm Hsame.
  assert (Hstat : forall p, stat w' p = stat w1 p)
    by (intros p; now apply stat_same_trees).
  split; [split|].
  - intros q. unfold src_stat. now rewrite Hstat, (Hrm (Path Source q)).
  - intros q. unfold rep_stat. rewrite Hstat, (Hrm (Path Replica q)).
    cbn [base rel side_eqb andb].
    destruct (prefixb (r ++ [x]) q) eqn:E; [right|now left].
    split; [reflexivity|]. now exists (r ++ [x]).
  - intros q. unfold rep_stat. rewrite Hstat, (Hrm (Path Replica _)).
    cbn [base rel side_eqb andb]. now rewrite prefixb_app.
Qed.

(** One entry of the second loop. *)
Lemma prune_entry r x w w' :
  quiet (prune_step faulty r x) w tt w' ->
  pruned w w' /\
  (src_stat w (r ++ [x]) = None -> forall q, rep_stat w' ((r ++ [x]) ++ q) = None).
Proof.
  intros Hq. unfold prune_step in Hq.
  apply quiet_try in Hq;
    [|unfold prune_delete_step, path_exists, path_isdir; keeps_tac
     |apply (loud_log_error (Failed_to_delete (Path Replica (r ++ [x]))))].
  unfold prune_delete_step in Hq.
  apply quiet_bind in Hq as (there & w0 & Hex & Hq);
    [|unfold path_exists, path_isdir; keeps_tac..].
  apply quiet_gets in Hex as [-> ->].
  destruct (find w (Path Source (r ++ [x]))) as [c|] eqn:Esrc; cbn [negb] in Hq.
  { apply quiet_ret in Hq as [_ ->]. split; [apply pruned_refl|].
    unfold src_stat, stat. rewrite Esrc. discriminate. }
  assert (Hsrc : src_stat w (r ++ [x]) = None)
    by (unfold src_stat, stat; now rewrite Esrc).
  apply quiet_bind in Hq as (isd & w0 & Hisd & Hq);
    [|unfold path_isdir; keeps_tac..].
  apply quiet_gets in Hisd as [-> ->].
  apply quiet_bind in Hq as ([] & w1 & Hdel & [Hset _]); [|keeps_tac..].
  apply same_trees_set_changes_made in Hset.
  assert (Hgoal : pruned w w' /\ forall q, rep_stat w' ((r ++ [x]) ++ q) = None);
    [|destruct Hgoal; auto].
  destruct (find w (Path Replica (r ++ [x]))) as [[d|es]|].
  - apply quiet_bind in Hdel as ([] & w2 & [Hrm _] & [Hlog _]); [|keeps_tac..].
    apply same_trees_log_info in Hlog.
    apply remove_run in Hrm as [(e & He & _)|(_ & _ & Hrm & _)]; [discriminate|].
    apply (removed_pruned r x w w2 w' Hsrc Hrm).
    destruct Hlog, Hset. split; congruence.
  - apply quiet_bind in Hdel as ([] & w2 & [Hrm _] & [Hlog _]); [|keeps_tac..].
    apply same_trees_log_info in Hlog.
    apply rmtree_run in Hrm as [(e & He & _)|(_ & _ & Hrm & _)]; [discriminate|].
    apply (removed_pruned r x w w2 w' Hsrc Hrm).
    destruct Hlog, Hset. split; congruence.
  - apply quiet_bind in Hdel as ([] & w2 & [Hrm _] & [Hlog _]); [|keeps_tac..].
    apply same_trees_log_info in Hlog.
    apply remove_run in Hrm as [(e & He & _)|(_ & _ & Hrm & _)]; [discriminate|].
    apply (removed_pruned r x w w2 w' Hsrc Hrm).
    destruct Hlog, Hset. split; congruence.
Qed.

Lemma prune_steps r dirs files :
  prune faulty source_root replica_root (Path Replica r) dirs files =
  for_each (files ++ dirs) (prune_step faulty r).
Proof. reflexivity. Qed.

Lemma grows_walk_prune fuel top :
  keeps grows (walk faulty fuel top (prune faulty source_root replica_root)).
Proof.
  apply keeps_walk; [apply grows_refl|apply grows_trans|].
  intros. apply grows_prune.
Qed.

(** The second loop over the replica tree below [r]: what the source does
    not have is gone. *)
Lemma walk_prune fuel : forall r w w',
  listable faulty ->
  (forall q, rep_stat w (r ++ q) <> None -> length q < fuel) ->
  quiet (walk faulty fuel (Path Replica r)
           (prune faulty source_root replica_root)) w tt w' ->
  pruned w w' /\ clean w' r.
Proof.
  induction fuel as [|fuel IH]; intros r w w' Hlist Hbound Hq.
  { apply quiet_ret in Hq as [_ ->]. split; [apply pruned_refl|].
    intros q _ H. apply Hbound in H. lia. }
  cbn [walk] in Hq.
  apply quiet_bind in Hq as (listing & w0 & Hl & Hq);
    [|keeps_tac; auto using grows_prune, grows_walk_prune..].
  apply quiet_gets in Hl as [-> ->].
  destruct (scandir faulty (Path Replica r) w) as [[dirs files]|] eqn:Escan.
  2:{ apply quiet_ret in Hq as [_ ->]. split; [apply pruned_refl|].
      intros q Hq' H. exfalso.
      apply (scandir_none (Path Replica r) w (Hlist _) Escan).
      now apply (rep_stat_parent w r q). }
  apply scandir_some in Escan as Hscan. destruct Hscan as (_ & Hdirs & _).
  unfold join in Hdirs. cbn [base rel] in Hdirs.
  apply quiet_bind in Hq as ([] & w1 & Hbody & Hwalks);
    [|keeps_tac; auto using grows_prune, grows_walk_prune..].
  rewrite prune_steps in Hbody.
  destruct (for_each_quiet pruned
              (fun _ _ => True)
              (fun x w => src_stat w (r ++ [x]) = None ->
                          forall q, rep_stat w ((r ++ [x]) ++ q) = None)
              (prune_step faulty r)
              pruned_refl pruned_trans) with (xs := files ++ dirs) (w := w) (w' := w1)
    as [HR1 HP1].
  { trivial. }
  { intros x u u' H HR Hs q. destruct HR as [Hs' Hr']. rewrite Hs' in Hs.
    eapply pruned_gone; [split; eauto|]. now apply H. }
  { apply grows_prune_step. }
  { intros x u u' _ _ Hrun. destruct (prune_entry _ _ _ _ Hrun) as [HR HP].
    split; [exact HR|]. intros Hs. apply HP. destruct HR as [Hs' _].
    now rewrite <- Hs'. }
  { trivial. }
  { exact Hbody. }
  destruct (for_each_quiet pruned
              (fun d w => forall q, rep_stat w ((r ++ [d]) ++ q) <> None -> length q < fuel)
              (fun d w => clean w (r ++ [d]))
              (fun d => walk faulty fuel (join (Path Replica r) [d])
                          (prune faulty source_root replica_root))
              pruned_refl pruned_trans) with (xs := dirs) (w := w1) (w' := w')
    as [HR2 HP2].
  { intros d u u' H HR q Hq'. apply H. rewrite <- (pruned_kept _ _ _ HR Hq'). exact Hq'. }
  { intros d u u'. apply clean_stable. }
  { intros d. apply grows_walk_prune. }
  { intros d u u' _ H Hrun. cbn [join base rel] in Hrun. now apply IH. }
  { intros d _ q Hq'. rewrite (pruned_kept _ _ _ HR1 Hq') in Hq'.
    rewrite <- app_assoc in Hq'. apply Hbound in Hq'. simpl in Hq'. lia. }
  { exact Hwalks. }
  pose proof (pruned_trans _ _ _ HR1 HR2) as HR.
  split; [exact HR|].
  intros q Hq' Hrep. destruct q as [|x q]; [congruence|].
  change (x :: q) with ([x] ++ q) in *. rewrite app_assoc in *.
  assert (Hw : rep_stat w ((r ++ [x]) ++ q) <> None)
    by (rewrite <- (pruned_kept _ _ _ HR Hrep); exact Hrep).
  assert (Hx : rep_stat w (r ++ [x]) <> None).
  { destruct q as [|y q]; [now rewrite app_nil_r in Hw|].
    rewrite (rep_stat_parent w (r ++ [x]) (y :: q) Hw); discriminate. }
  assert (Hin : In x (files ++ dirs)) by (apply (scandir_all _ _ _ _ _ Escan); exact Hx).
  assert (Hsrc : src_stat w' (r ++ [x]) <> None).
  { intros Hn. apply Hrep. eapply pruned_gone; [exact HR2|].
    apply (HP1 x Hin). destruct HR2 as [Hs _]. now rewrite <- Hs. }
  destruct q as [|y q]; [now rewrite app_nil_r|].
  apply HP2; [|discriminate|exact Hrep].
  apply Hdirs. apply (rep_stat_parent w (r ++ [x]) (y :: q) Hw). discriminate.
Qed.

End Passes.

(** ** The whole function *)

Section Whole.

Variable faulty : op -> option exn.

Lemma sync_folders_steps :
  sync_folders faulty source_root replica_root =
  (log_info Starting_synchronization ;;
   set_changes_made false ;;
   returned <-
     try_except
       (for_each [(source_root, "source"%string); (replica_root, "replica"%string)]
          (fun '(folder, which) => ensure_root faulty folder which) ;;
        ret None)
       (fun e =>
          log_error (Failed_to_create_directories replica_root source_root e) ;;
          flag <- gets changes_made ;;
          ret (Some (PyBool flag))) ;;
   match returned with
   | Some v => ret v
   | None => finish faulty
   end)%monad.
Proof. reflexivity. Qed.

(** Making a root: it is there and nothing happens; or it is missing and
    is made; or it is missing and making it fails. *)
Lemma ensure_root_run s which w :
  (tree w s <> None /\
   ensure_root faulty (Path s []) which w = (inr tt, w)) \/
  (tree w s = None /\ faulty (OpMakedirs (Path s [])) = None /\
   ensure_root faulty (Path s []) which w = (inr tt, root_made s which w)) \/
  (tree w s = None /\
   exists e, faulty (OpMakedirs (Path s [])) = Some e /\
             ensure_root faulty (Path s []) which w = (inl e, w)).
Proof.
  unfold ensure_root, path_exists. rewrite bind_gets.
  unfold find. cbn [base rel vlookup].
  destruct (tree w s) as [n|] eqn:Et.
  { left. split; [discriminate|]. simpl. now destruct n. }
  right. simpl. cbn [negb].
  unfold makedirs, fault.
  destruct (faulty (OpMakedirs (Path s []))) as [e|] eqn:Ef.
  - right. split; [reflexivity|]. exists e. split; reflexivity.
  - left. split; [reflexivity|]. split; [reflexivity|].
    unfold bind, ret, find. cbn [base rel]. rewrite Et. simpl.
    unfold log_info, set_changes_made, root_made, add_journal, set_tree.
    destruct s; simpl; reflexivity.
Qed.

Lemma grows_ensure_root folder which : keeps grows (ensure_root faulty folder which).
Proof. unfold ensure_root, path_exists. keeps_tac. Qed.

Lemma grows_both_loops : keeps grows (both_loops faulty).
Proof. unfold both_loops. keeps_tac; auto using grows_propagate, grows_prune. Qed.

Lemma grows_finish : keeps grows (finish faulty).
Proof. unfold finish. keeps_tac. Qed.

Lemma height_fuel o q : vstat o q <> None ->
  length q < match o with Some n => S (height n) | None => 1 end.
Proof.
  destruct o as [n|]; [|intros H; now contradiction H].
  intros H. assert (H0 : lookup n q <> None).
  { unfold vstat, vlookup in H. destruct (lookup n q); [discriminate|].
    now contradiction H. }
  pose proof (height_bound q n H0). lia.
Qed.

(** The two loops, when they log no error. *)
Lemma both_loops_quiet w w' :
  listable faulty ->
  src_stat w [] = Some KDir -> rep_stat w [] = Some KDir ->
  quiet (both_loops faulty) w tt w' ->
  exists w1,
    propagated w w1 /\ (forall q, src_stat w q <> None -> settled w1 q) /\
    pruned w1 w' /\ clean w' [].
Proof.
  intros Hlist Hsrc Hrep Hq. unfold both_loops in Hq.
  apply quiet_bind in Hq as ([] & w1 & H1 & H2);
    [|keeps_tac; auto using grows_propagate, grows_prune..].
  unfold os_walk in H1, H2.
  apply quiet_bind in H1 as (fuel1 & u1 & Hf1 & H1);
    [|keeps_tac; auto using grows_propagate..].
  apply quiet_gets in Hf1 as [-> ->].
  apply quiet_bind in H2 as (fuel2 & u2 & Hf2 & H2);
    [|keeps_tac; auto using grows_prune..].
  apply quiet_gets in Hf2 as [-> ->].
  apply (walk_propagate faulty _ [] w w1 Hlist Hsrc) in H1.
  2:{ intros q. cbn [app]. unfold src_stat, walk_fuel. cbn [base source_root].
      rewrite stat_vstat. cbn [base rel tree]. apply height_fuel. }
  apply (walk_prune faulty _ [] w1 w' Hlist) in H2.
  2:{ intros q. cbn [app]. unfold rep_stat, walk_fuel. cbn [base replica_root].
      rewrite stat_vstat. cbn [base rel tree]. apply height_fuel. }
  destruct H1 as [HR1 HP1], H2 as [HR2 HP2].
  exists w1. repeat split; try assumption; try apply HR1; try apply HR2.
  intros q Hq. destruct q as [|x q]; [|apply (HP1 (x :: q)); [discriminate|exact Hq]].
  unfold settled. destruct HR1 as [Hs Hr]. rewrite Hs, Hsrc.
  destruct (Hr []) as [H|[(H & _)|(d & H & _)]]; congruence.
Qed.

(** What the two loops leave: a replica that mirrors the source. *)
Lemma converge w w1 w' :
  src_stat w [] = Some KDir ->
  propagated w w1 -> (forall q, src_stat w q <> None -> settled w1 q) ->
  pruned w1 w' -> clean w' [] ->
  in_sync w' /\ (collision_free w -> identical w').
Proof.
  intros Hroot [Hs1 Hr1] Hset [Hs2 Hr2] Hclean.
  assert (Hsrc : forall q, src_stat w' q = src_stat w q)
    by (intros q; now rewrite Hs2, Hs1).
  assert (Hkeep : forall q, src_stat w q <> None -> rep_stat w' q = rep_stat w1 q).
  { intros q Hq. destruct (Hr2 q) as [H|(_ & q1 & Hp & Hn)]; [exact H|].
    exfalso. rewrite Hs1 in Hn. revert Hn. now apply src_stat_prefix with (q := q). }
  assert (Hnone : forall q, src_stat w q = None -> rep_stat w' q = None).
  { intros q Hq. destruct (rep_stat w' q) eqn:E; [|reflexivity]. exfalso.
    destruct q as [|x q]; [congruence|].
    apply (Hclean (x :: q)); [discriminate|simpl; congruence|].
    simpl. now rewrite Hsrc. }
  split.
  - intros q. unfold same_entry. rewrite Hsrc.
    destruct (src_stat w q) as [[data|]|] eqn:E.
    + rewrite Hkeep by congruence.
      specialize (Hset q). unfold settled in Hset. rewrite Hs1, E in Hset.
      destruct Hset as (data' & -> & Hd); [congruence|]. now symmetry.
    + rewrite Hkeep by congruence.
      specialize (Hset q). unfold settled in Hset. rewrite Hs1, E in Hset.
      rewrite Hset; [exact I|congruence].
    + now rewrite Hnone.
  - intros Hcf q. rewrite Hsrc.
    destruct (src_stat w q) as [[data|]|] eqn:E.
    + rewrite Hkeep by congruence.
      specialize (Hset q). unfold settled in Hset. rewrite Hs1, E in Hset.
      destruct Hset as (data' & Hrep & Hd); [congruence|].
      rewrite Hrep. f_equal. f_equal.
      destruct (Hr1 q) as [H|[(_ & H & _)|(d & H & H')]]; try congruence.
      symmetry. apply (Hcf q data data' E); congruence.
    + rewrite Hkeep by congruence.
      specialize (Hset q). unfold settled in Hset. rewrite Hs1, E in Hset.
      apply Hset. congruence.
    + now apply Hnone.
Qed.

(** *** The roots *)

Lemma ensure_root_ok s which w :
  tree w s <> None \/ faulty (OpMakedirs (Path s [])) = None ->
  ensure_root faulty (Path s []) which w = (inr tt, with_root s which w).
Proof.
  intros H. unfold with_root.
  destruct (ensure_root_run s which w) as [[Ht E]|[(Ht & Hf & E)|(Ht & e & Hf & E)]].
  - rewrite E. now destruct (tree w s).
  - rewrite E. now rewrite Ht.
  - destruct H; congruence.
Qed.

Lemma ensure_root_fails s which w e :
  tree w s = None -> faulty (OpMakedirs (Path s [])) = Some e ->
  ensure_root faulty (Path s []) which w = (inl e, w).
Proof.
  intros Hn He.
  destruct (ensure_root_run s which w) as [[Ht E]|[(Ht & Hf & E)|(Ht & e' & Hf & E)]];
    congruence.
Qed.

Lemma tree_with_root_same s which w : tree (with_root s which w) s = or_empty (tree w s).
Proof. unfold with_root. destruct s; simpl; now destruct w as [[?|] [?|] ? ? ?]. Qed.

Lemma tree_with_root_other s s' which w :
  s <> s' -> tree (with_root s which w) s' = tree w s'.
Proof.
  unfold with_root. intros H.
  destruct s, s'; try congruence; simpl; now destruct w as [[?|] [?|] ? ? ?].
Qed.

Lemma source_with_roots w : source_tree (with_roots w) = or_empty (source_tree w).
Proof.
  unfold with_roots.
  change (source_tree ?x) with (tree x Source).
  rewrite tree_with_root_other by discriminate. now rewrite tree_with_root_same.
Qed.

Lemma replica_with_roots w : replica_tree (with_roots w) = or_empty (replica_tree w).
Proof.
  unfold with_roots.
  change (replica_tree ?x) with (tree x Replica).
  rewrite tree_with_root_same. now rewrite tree_with_root_other by discriminate.
Qed.

Lemma nerr_with_roots w : nerr (with_roots w) = nerr w.
Proof.
  unfold with_roots, with_root, root_made, started, nerr, errors.
  destruct w as [[?|] [?|] l j c]; simpl; rewrite ?filter_app; simpl;
    now rewrite ?app_nil_r.
Qed.

Lemma journal_with_roots w :
  journal (with_roots w) =
  journal w ++
  (match source_tree w with None => [Mkdir source_root] | Some _ => [] end) ++
  (match replica_tree w with None => [Mkdir replica_root] | Some _ => [] end).
Proof.
  unfold with_roots, with_root, root_made, started.
  destruct w as [[?|] [?|] l j c]; simpl; rewrite <- ?app_assoc, ?app_nil_r; reflexivity.
Qed.

Lemma changes_made_with_roots w :
  changes_made (with_roots w) =
  match source_tree w, replica_tree w with
  | Some _, Some _ => false
  | _, _ => true
  end.
Proof.
  unfold with_roots, with_root, root_made, started.
  now destruct w as [[?|] [?|] l j c].
Qed.

Lemma ensure_roots_steps :
  for_each [(source_root, "source"%string); (replica_root, "replica"%string)]
    (fun '(folder, which) => ensure_root faulty folder which) =
  (ensure_root faulty source_root "source" ;;
   ensure_root faulty replica_root "replica" ;;
   ret tt)%monad.
Proof. reflexivity. Qed.

(** When both roots are there or can be made, the loops run. *)
Lemma sync_folders_roots_ok w :
  source_tree w <> None \/ faulty (OpMakedirs source_root) = None ->
  replica_tree w <> None \/ faulty (OpMakedirs replica_root) = None ->
  sync_folders faulty source_root replica_root w = finish faulty (with_roots w).
Proof.
  intros Hs Hr. rewrite sync_folders_steps.
  change ((log_info Starting_synchronization ;; set_changes_made false ;; ?k) w)
    with (k (started w)).
  set (ws := with_root Source "source" (started w)).
  assert (E1 : ensure_root faulty source_root "source" (started w) = (inr tt, ws))
    by (apply ensure_root_ok; exact Hs).
  assert (E2 : ensure_root faulty replica_root "replica" ws = (inr tt, with_roots w)).
  { apply ensure_root_ok. unfold ws. rewrite tree_with_root_other by discriminate.
    exact Hr. }
  rewrite (bind_inr _ _ _ None (with_roots w)); [reflexivity|].
  apply try_inr. rewrite ensure_roots_steps.
  rewrite (bind_inr _ _ _ tt (with_roots w)); [reflexivity|].
  rewrite (bind_inr _ _ _ _ _ E1), (bind_inr _ _ _ _ _ E2). reflexivity.
Qed.

(** When the source root is missing and cannot be made. *)
Lemma sync_folders_source_fails w e :
  source_tree w = None -> faulty (OpMakedirs source_root) = Some e ->
  sync_folders faulty source_root replica_root w =
  (inr (PyBool false), roots_failed e (started w)).
Proof.
  intros Hn He. rewrite sync_folders_steps.
  change ((log_info Starting_synchronization ;; set_changes_made false ;; ?k) w)
    with (k (started w)).
  assert (E1 : ensure_root faulty source_root "source" (started w) = (inl e, started w))
    by (apply ensure_root_fails; assumption).
  rewrite (bind_inr _ _ _ (Some (PyBool false)) (roots_failed e (started w)));
    [reflexivity|].
  rewrite (try_inl _ _ _ e (started w)); [reflexivity|].
  rewrite ensure_roots_steps.
  apply bind_inl. now apply bind_inl.
Qed.

(** When the replica root is missing and cannot be made. *)
Lemma sync_folders_replica_fails w e :
  source_tree w <> None \/ faulty (OpMakedirs source_root) = None ->
  replica_tree w = None -> faulty (OpMakedirs replica_root) = Some e ->
  sync_folders faulty source_root replica_root w =
  (inr (PyBool (match source_tree w with None => true | Some _ => false end)),
   roots_failed e (with_root Source "source" (started w))).
Proof.
  intros Hs Hn He. rewrite sync_folders_steps.
  change ((log_info Starting_synchronization ;; set_changes_made false ;; ?k) w)
    with (k (started w)).
  set (ws := with_root Source "source" (started w)).
  assert (E1 : ensure_root faulty source_root "source" (started w) = (inr tt, ws))
    by (apply ensure_root_ok; exact Hs).
  assert (E2 : ensure_root faulty replica_root "replica" ws = (inl e, ws)).
  { apply ensure_root_fails; [|exact He]. unfold ws.
    now rewrite tree_with_root_other by discriminate. }
  assert (Hflag : changes_made ws = match source_tree w with None => true | Some _ => false end).
  { unfold ws, with_root, root_made, started. now destruct w as [[?|] ? ? ? ?]. }
  rewrite (bind_inr _ _ _ (Some (PyBool (changes_made ws))) (roots_failed e ws));
    [now rewrite Hflag|].
  rewrite (try_inl _ _ _ e ws); [reflexivity|].
  rewrite ensure_roots_steps.
  apply bind_inl. rewrite (bind_inr _ _ _ _ _ E1). now apply bind_inl.
Qed.

(** *** The end of the function *)

(** The loops never raise past their handler, and the function ends with
    its last records and [None]. *)
Lemma finish_run w :
  exists w1,
    try_except (both_loops faulty)
      (fun e => log_error (Error_during_synchronization e)) w = (inr tt, w1) /\
    finish faulty w = (inr PyNone, finished w1).
Proof.
  destruct (try_except (both_loops faulty)
              (fun e => log_error (Error_during_synchronization e)) w)
    as [[e|[]] w1] eqn:E.
  - exfalso. unfold try_except in E.
    destruct (both_loops faulty w) as [[e'|[]] w2]; discriminate.
  - exists w1. split; [reflexivity|]. unfold finish.
    rewrite (bind_inr _ _ _ _ _ E). rewrite bind_gets.
    unfold finished. destruct w1 as [st rt l j []]; cbn; rewrite <- ?app_assoc; reflexivity.
Qed.

Lemma nerr_finished w : nerr (finished w) = nerr w.
Proof.
  unfold nerr, errors, finished. cbn [log]. rewrite !filter_app.
  destruct (changes_made w); simpl; now rewrite ?app_nil_r.
Qed.

Lemma same_trees_finished w : same_trees w (finished w).
Proof. now split. Qed.

Lemma nerr_roots_failed e w : nerr (roots_failed e w) = S (nerr w).
Proof.
  unfold nerr, errors, roots_failed. cbn [log]. rewrite filter_app, length_app.
  simpl. lia.
Qed.

Lemma nerr_started w : nerr (started w) = nerr w.
Proof.
  unfold nerr, errors, started. cbn [log]. rewrite filter_app. simpl.
  now rewrite app_nil_r.
Qed.

Lemma nerr_with_root s which w : nerr (with_root s which w) = nerr w.
Proof.
  unfold with_root, root_made, nerr, errors.
  destruct (tree w s); [reflexivity|]. cbn [log]. rewrite filter_app. simpl.
  now rewrite app_nil_r.
Qed.

Lemma in_sync_same_trees w w' : same_trees w w' -> in_sync w -> in_sync w'.
Proof.
  intros H Hs q. unfold src_stat, rep_stat. rewrite !(stat_same_trees _ _ _ H).
  apply Hs.
Qed.

Lemma identical_same_trees w w' : same_trees w w' -> identical w -> identical w'.
Proof.
  intros H Hs q. unfold src_stat, rep_stat. rewrite !(stat_same_trees _ _ _ H).
  apply Hs.
Qed.

Lemma stat_root_or_empty o :
  dir_or_missing o -> vstat (or_empty o) [] = Some KDir.
Proof. destruct o as [[d|es]|]; simpl; intros H; [contradiction|reflexivity..]. Qed.

Lemma vstat_or_empty o q k :
  vstat (or_empty o) q = Some k -> vstat o q = Some k \/ (o = None /\ k = KDir).
Proof.
  destruct o as [n|]; [now left|]. right. split; [reflexivity|].
  destruct q as [|x q]; simpl in H; [now inversion H|discriminate].
Qed.

Lemma collision_free_with_roots w : collision_free w -> collision_free (with_roots w).
Proof.
  intros H q a b. unfold src_stat, rep_stat. rewrite !stat_vstat. cbn [base rel tree].
  rewrite source_with_roots, replica_with_roots. intros Ha Hb.
  apply vstat_or_empty in Ha as [Ha|[_ Ha]]; [|discriminate].
  apply vstat_or_empty in Hb as [Hb|[_ Hb]]; [|discriminate].
  now apply (H q).
Qed.

(** The three ways the roots can go. *)
Lemma roots_cases w :
  (source_tree w = None /\ exists e, faulty (OpMakedirs source_root) = Some e) \/
  ((source_tree w <> None \/ faulty (OpMakedirs source_root) = None) /\
   replica_tree w = None /\ exists e, faulty (OpMakedirs replica_root) = Some e) \/
  ((source_tree w <> None \/ faulty (OpMakedirs source_root) = None) /\
   (replica_tree w <> None \/ faulty (OpMakedirs replica_root) = None)).
Proof.
  destruct (source_tree w) as [sn|] eqn:Es.
  - right. destruct (replica_tree w) as [rn|] eqn:Er.
    + right. split; left; discriminate.
    + destruct (faulty (OpMakedirs replica_root)) as [e|] eqn:Ef.
      * left. split; [left; discriminate|]. split; [reflexivity|eauto].
      * right. split; [left; discriminate|now right].
  - destruct (faulty (OpMakedirs source_root)) as [e|] eqn:Efs; [left; eauto|].
    right. destruct (replica_tree w) as [rn|] eqn:Er.
    + right. split; [now right|left; discriminate].
    + destruct (faulty (OpMakedirs replica_root)) as [e|] eqn:Ef.
      * left. split; [now right|]. split; [reflexivity|eauto].
      * right. split; now right.
Qed.

(** A call that logs no error: it ends with [None], and the replica
    mirrors the source. *)
Lemma sync_folders_quiet w v w' :
  listable faulty ->
  dir_or_missing (source_tree w) -> dir_or_missing (replica_tree w) ->
  quiet (sync_folders faulty source_root replica_root) w v w' ->
  v = PyNone /\ in_sync w' /\ (collision_free w -> identical w') /\
  exists w1, quiet (both_loops faulty) (with_roots w) tt w1 /\ w' = finished w1.
Proof.
  intros Hlist Hsd Hrd [Hrun Herr].
  destruct (roots_cases w) as [(Hn & e & He)|[(Hs & Hn & e & He)|(Hs & Hr)]].
  - exfalso. rewrite (sync_folders_source_fails w e Hn He) in Hrun.
    inversion Hrun; subst. rewrite nerr_roots_failed, nerr_started in Herr. lia.
  - exfalso. rewrite (sync_folders_replica_fails w e Hs Hn He) in Hrun.
    inversion Hrun; subst.
    rewrite nerr_roots_failed, nerr_with_root, nerr_started in Herr. lia.
  - rewrite (sync_folders_roots_ok w Hs Hr) in Hrun.
    destruct (finish_run (with_roots w)) as (w1 & Htry & Hfin).
    rewrite Hfin in Hrun. inversion Hrun; subst v w'. clear Hrun.
    rewrite nerr_finished, <- (nerr_with_roots w) in Herr.
    assert (Hq : quiet (both_loops faulty) (with_roots w) tt w1).
    { apply quiet_try with (h := fun e => log_error (Error_during_synchronization e)).
      - apply grows_both_loops.
      - apply (loud_log_error Error_during_synchronization).
      - now split. }
    assert (Hsrc : src_stat (with_roots w) [] = Some KDir).
    { unfold src_stat. rewrite stat_vstat. cbn [base rel tree].
      rewrite source_with_roots. now apply stat_root_or_empty. }
    assert (Hrep : rep_stat (with_roots w) [] = Some KDir).
    { unfold rep_stat. rewrite stat_vstat. cbn [base rel tree].
      rewrite replica_with_roots. now apply stat_root_or_empty. }
    destruct (both_loops_quiet _ _ Hlist Hsrc Hrep Hq) as (w2 & HP1 & Hset & HP2 & Hcl).
    destruct (converge _ _ _ Hsrc HP1 Hset HP2 Hcl) as [Hsync Hid].
    split; [reflexivity|]. split; [|split].
    + eapply in_sync_same_trees; [apply same_trees_finished|exact Hsync].
    + intros Hcf. eapply identical_same_trees; [apply same_trees_finished|].
      now apply Hid, collision_free_with_roots.
    + now exists w1.
Qed.

End Whole.

(** ** A replica that mirrors the source is left alone *)

Lemma for_each_idle {A} (xs : list A) (body : A -> M unit) w :
  (forall x, In x xs -> body x w = (inr tt, w)) ->
  for_each xs body w = (inr tt, w).
Proof.
  induction xs as [|x xs IH]; intros H; [reflexivity|].
  cbn [for_each]. rewrite (bind_inr _ _ _ tt w) by (apply H; now left).
  apply IH. intros y Hy. apply H. now right.
Qed.

Lemma makedirs_idle p w :
  stat w p = Some KDir -> makedirs no_faults p w = (inr tt, w).
Proof.
  intros H. unfold makedirs, fault, no_faults. rewrite bind_ret_l.
  assert (Hm : exists n', vmkdirs (tree w (base p)) (rel p) = inr n').
  { rewrite stat_vstat in H. destruct (tree w (base p)) as [n|]; [|discriminate].
    now apply mkdirs_present. }
  destruct Hm as [n' ->].
  apply stat_find_dir in H as [es ->]. reflexivity.
Qed.

Lemma calculate_md5_idle p w data :
  stat w p = Some (KFile data) ->
  calculate_md5 no_faults p w = (inr (Some (md5_hex data)), w).
Proof.
  intros H. apply calculate_md5_readable. split; [|split; reflexivity].
  now apply stat_find_file.
Qed.

Lemma in_sync_dir w q :
  in_sync w -> src_stat w q = Some KDir -> rep_stat w q = Some KDir.
Proof.
  intros H Hs. specialize (H q). rewrite Hs in H.
  destruct (rep_stat w q) as [[?|]|]; [contradiction|reflexivity|contradiction].
Qed.

Lemma in_sync_file w q data :
  in_sync w -> src_stat w q = Some (KFile data) ->
  exists data', rep_stat w q = Some (KFile data') /\ md5_hex data = md5_hex data'.
Proof.
  intros H Hs. specialize (H q). rewrite Hs in H.
  destruct (rep_stat w q) as [[d|]|]; try contradiction.
  exists d. split; [reflexivity|exact H].
Qed.

Lemma in_sync_there w q :
  in_sync w -> rep_stat w q <> None -> src_stat w q <> None.
Proof.
  intros H Hr Hs. specialize (H q). rewrite Hs in H.
  destruct (rep_stat w q) as [[?|]|]; [contradiction..|congruence].
Qed.

Lemma propagate_dir_idle r d w :
  in_sync w -> src_stat w (r ++ [d]) = Some KDir ->
  propagate_dir_step no_faults r d w = (inr tt, w).
Proof.
  intros Hs Hd. unfold propagate_dir_step. apply try_inr.
  apply makedirs_idle. now apply in_sync_dir.
Qed.

Lemma propagate_file_idle r f data w :
  in_sync w -> src_stat w (r ++ [f]) = Some (KFile data) ->
  propagate_file_step no_faults r f w = (inr tt, w).
Proof.
  intros Hs Hf. destruct (in_sync_file _ _ _ Hs Hf) as (data' & Hr & Hd).
  unfold propagate_file_step, path_exists. rewrite bind_gets.
  unfold rep_stat in Hr. apply stat_find_file in Hr as Hfind. rewrite Hfind.
  cbn [negb].
  rewrite (bind_inr _ _ _ false w); [reflexivity|].
  rewrite (bind_inr _ _ _ _ _ (calculate_md5_idle _ _ _ Hf)).
  rewrite (bind_inr _ _ _ _ _ (calculate_md5_idle _ _ _ Hr)).
  unfold ret. cbn [opt_string_eqb]. rewrite Hd, String.eqb_refl. reflexivity.
Qed.

Lemma walk_propagate_idle fuel : forall r w,
  in_sync w ->
  walk no_faults fuel (Path Source r)
    (propagate no_faults source_root replica_root) w = (inr tt, w).
Proof.
  induction fuel as [|fuel IH]; intros r w Hs; [reflexivity|].
  cbn [walk]. rewrite bind_gets.
  destruct (scandir no_faults (Path Source r) w) as [[dirs files]|] eqn:Escan;
    [|reflexivity].
  apply scandir_some in Escan as (_ & Hdirs & Hfiles).
  unfold join in Hdirs, Hfiles. cbn [base rel] in Hdirs, Hfiles.
  rewrite (bind_inr _ _ _ tt w).
  - apply for_each_idle. intros d _. cbn [join base rel]. now apply IH.
  - rewrite propagate_steps. rewrite (bind_inr _ _ _ tt w).
    + apply for_each_idle. intros f Hf. apply Hfiles in Hf as [data Hf].
      now apply propagate_file_idle with (data := data).
    + apply for_each_idle. intros d Hd. apply propagate_dir_idle; [exact Hs|].
      now apply Hdirs.
Qed.

Lemma in_sync_covered w : in_sync w -> covered w.
Proof. intros H q. now apply in_sync_there. Qed.

Lemma prune_idle faulty r x w :
  covered w -> rep_stat w (r ++ [x]) <> None ->
  prune_step faulty r x w = (inr tt, w).
Proof.
  intros Hs Hr. apply Hs in Hr.
  unfold prune_step. apply try_inr.
  unfold prune_delete_step, path_exists. rewrite bind_gets.
  unfold src_stat, stat in Hr.
  destruct (find w (Path Source (r ++ [x]))); [reflexivity|now contradiction Hr].
Qed.

(** The second loop on a replica that has nothing to remove. *)
Lemma walk_prune_idle faulty fuel : forall r w,
  covered w ->
  walk faulty fuel (Path Replica r)
    (prune faulty source_root replica_root) w = (inr tt, w).
Proof.
  induction fuel as [|fuel IH]; intros r w Hs; [reflexivity|].
  cbn [walk]. rewrite bind_gets.
  destruct (scandir faulty (Path Replica r) w) as [[dirs files]|] eqn:Escan;
    [|reflexivity].
  apply scandir_some in Escan as (_ & Hdirs & Hfiles).
  unfold join in Hdirs, Hfiles. cbn [base rel] in Hdirs, Hfiles.
  rewrite (bind_inr _ _ _ tt w).
  - apply for_each_idle. intros d _. cbn [join base rel]. now apply IH.
  - rewrite prune_steps. apply for_each_idle. intros x Hx.
    apply prune_idle; [exact Hs|].
    apply in_app_or in Hx as [Hx|Hx].
    + apply Hfiles in Hx as [data Hx]. unfold rep_stat. congruence.
    + apply Hdirs in Hx. unfold rep_stat. congruence.
Qed.

Lemma both_loops_idle w : in_sync w -> both_loops no_faults w = (inr tt, w).
Proof.
  intros Hs. unfold both_loops, os_walk.
  rewrite (bind_inr _ _ _ tt w).
  - rewrite bind_gets. now apply walk_prune_idle, in_sync_covered.
  - rewrite bind_gets. now apply walk_propagate_idle.
Qed.

(** A call on a replica that mirrors the source only writes its three
    records. *)
Lemma sync_folders_idle w :
  in_sync w -> source_tree w <> None -> replica_tree w <> None ->
  sync_folders no_faults source_root replica_root w =
  (inr PyNone, finished (started w)).
Proof.
  intros Hs Hsrc Hrep.
  rewrite sync_folders_roots_ok by (left; assumption).
  assert (Hroots : with_roots w = started w).
  { unfold with_roots, with_root, started.
    destruct w as [[sn|] [rn|] l j c]; simpl in *; congruence. }
  rewrite Hroots.
  destruct (finish_run no_faults (started w)) as (w1 & Htry & ->).
  rewrite (try_inr _ _ _ tt (started w)) in Htry.
  - now inversion Htry.
  - apply both_loops_idle. eapply in_sync_same_trees; [|exact Hs]. now split.
Qed.

(** ** The flag *)

Lemma flag_kept_refl w : flag_kept w w.
Proof. now intros H. Qed.

Lemma flag_kept_trans a b c : flag_kept a b -> flag_kept b c -> flag_kept a c.
Proof. unfold flag_kept. auto. Qed.

Lemma flag_kept_same_locals w w' : same_locals w w' -> flag_kept w w'.
Proof. intros [_ H] Hf. congruence. Qed.

Section Flag.

Variable faulty : op -> option exn.

Lemma flag_log_info m : keeps flag_kept (log_info m).
Proof. intros w r w' H. now inversion H. Qed.

Lemma flag_log_error m : keeps flag_kept (log_error m).
Proof. intros w r w' H. now inversion H. Qed.

Lemma flag_set_true : keeps flag_kept (set_changes_made true).
Proof. intros w r w' H. now inversion H. Qed.

Lemma flag_makedirs p : keeps flag_kept (makedirs faulty p).
Proof.
  intros w r w' H. apply makedirs_run in H as [(e & _ & ->)|(_ & H & _)].
  - apply flag_kept_refl.
  - now apply flag_kept_same_locals.
Qed.

Lemma flag_copy2 s d : keeps flag_kept (copy2 faulty s d).
Proof.
  intros w r w' H. apply copy2_run in H as [(e & _ & ->)|(_ & H & _)].
  - apply flag_kept_refl.
  - now apply flag_kept_same_locals.
Qed.

Lemma flag_remove p : keeps flag_kept (remove faulty p).
Proof.
  intros w r w' H. apply remove_run in H as [(e & _ & ->)|(_ & H & _)].
  - apply flag_kept_refl.
  - now apply flag_kept_same_locals.
Qed.

Lemma flag_rmtree p : keeps flag_kept (rmtree faulty p).
Proof.
  intros w r w' H. apply rmtree_run in H as [(e & _ & ->)|(_ & H & _)].
  - apply flag_kept_refl.
  - now apply flag_kept_same_locals.
Qed.

Lemma flag_calculate_md5 p : keeps flag_kept (calculate_md5 faulty p).
Proof.
  intros w r w' H.
  destruct (calculate_md5_spec faulty p w) as [(data & _ & E)|(e & E)];
    rewrite E in H; inversion H; subst; now intros Hf.
Qed.

End Flag.

#[local] Hint Resolve flag_kept_refl flag_kept_trans flag_log_info flag_log_error
  flag_set_true flag_makedirs flag_copy2 flag_remove flag_rmtree
  flag_calculate_md5 : keeps.

Lemma flag_both_loops faulty : keeps flag_kept (both_loops faulty).
Proof.
  unfold both_loops. keeps_tac.
Qed.

(** ** Runs without failures *)

(** A loop whose every step returns. *)
Section TotalLoops.

Context {A : Type}.
Variable R : state -> state -> Prop.
Variables Pre Post : A -> state -> Prop.
Variable body : A -> M unit.

Hypothesis R_refl : forall w, R w w.
Hypothesis R_trans : forall a b c, R a b -> R b c -> R a c.
Hypothesis Pre_stable : forall x w w', Pre x w -> R w w' -> Pre x w'.
Hypothesis Post_stable : forall x w w', Post x w -> R w w' -> Post x w'.

Lemma for_each_total xs :
  (forall x w, In x xs -> Pre x w ->
     exists w', body x w = (inr tt, w') /\ R w w' /\ Post x w') ->
  forall w,
    (forall x, In x xs -> Pre x w) ->
    exists w', for_each xs body w = (inr tt, w') /\ R w w' /\
               forall x, In x xs -> Post x w'.
Proof.
  induction xs as [|x xs IH]; intros Hstep w Hpre.
  - exists w. split; [reflexivity|]. split; [apply R_refl|intros x []].
  - destruct (Hstep x w (or_introl eq_refl) (Hpre x (or_introl eq_refl)))
      as (w1 & E1 & HR1 & HP1).
    destruct (IH (fun y u Hy => Hstep y u (or_intror Hy)) w1) as (w' & E2 & HR2 & HP2).
    { intros y Hy. eapply Pre_stable; [apply Hpre; now right|exact HR1]. }
    exists w'. split; [|split].
    + cbn [for_each]. now rewrite (bind_inr _ _ _ _ _ E1).
    + eapply R_trans; eauto.
    + intros y [<-|Hy]; [eapply Post_stable; eauto|now apply HP2].
Qed.

End TotalLoops.

Lemma within_covered w : within w -> covered w.
Proof.
  intros H q Hq. destruct (rep_stat w q) as [k|] eqn:E; [|congruence].
  rewrite (H q k E). discriminate.
Qed.

Lemma copied_refl w : copied w w.
Proof.
  split; [apply propagated_refl|]. split; [reflexivity|].
  split; [apply flag_kept_refl|auto].
Qed.

Lemma copied_trans a b c : copied a b -> copied b c -> copied a c.
Proof.
  intros (H1 & H2 & H3 & H4) (H1' & H2' & H3' & H4').
  split; [eapply propagated_trans; eauto|]. split; [congruence|].
  split; [eapply flag_kept_trans; eauto|auto].
Qed.

(** A directory of the source that the replica has stays one. *)
Lemma dir_kept w w' q :
  src_stat w q = Some KDir -> rep_stat w q = Some KDir -> propagated w w' ->
  src_stat w' q = Some KDir /\ rep_stat w' q = Some KDir.
Proof.
  intros Hs Hr [Hsrc Hrep]. split; [now rewrite Hsrc|].
  destruct (Hrep q) as [H|[(H & _)|(d & H & _)]]; congruence.
Qed.

(** Without a file on the way, [os.makedirs] succeeds. *)
Lemma makedirs_ok p w :
  (forall q data, prefixb q (rel p) = true ->
                  stat w (Path (base p) q) <> Some (KFile data)) ->
  exists w',
    makedirs no_faults p w = (inr tt, w') /\ same_locals w w' /\
    created p w w' /\ stat w' p = Some KDir.
Proof.
  intros Hfree.
  destruct (makedirs no_faults p w) as [[e|[]] w'] eqn:E.
  - exfalso. unfold makedirs, fault, no_faults in E. rewrite bind_ret_l in E.
    destruct (vmkdirs (tree w (base p)) (rel p)) as [e'|n'] eqn:Em.
    + destruct (tree w (base p)) as [n|] eqn:Et; [|discriminate Em].
      cbn [vmkdirs] in Em. apply mkdirs_error in Em as (q & data & Hq & Hs).
      apply (Hfree q data Hq). rewrite stat_vstat. cbn [base rel].
      rewrite Et. exact Hs.
    + destruct (find w p); discriminate E.
  - exists w'. split; [reflexivity|].
    apply makedirs_run in E as [(e & He & _)|(_ & Hl & Hc & Hd & _)];
      [discriminate|auto].
Qed.

(** A copy to a place that is free or a file, under a directory that is
    there, succeeds. *)
Lemma copy2_ok src dst w data :
  stat w src = Some (KFile data) -> stat w dst <> Some KDir ->
  rel dst <> [] -> stat w (dirname dst) = Some KDir ->
  base src <> base dst ->
  exists w',
    copy2 no_faults src dst w = (inr tt, w') /\ same_locals w w' /\
    written dst data w w'.
Proof.
  intros Hsrc Hdst Hrel Hpar Hbase.
  apply stat_find_file in Hsrc as Hfs.
  assert (Hfd : match find w dst with Some (Dir _) => False | _ => True end).
  { unfold stat in Hdst. destruct (find w dst) as [[?|?]|]; auto. }
  apply stat_find_dir in Hpar as [es Hfp].
  assert (Hneq : path_eqb src dst = false).
  { unfold path_eqb. destruct (side_eqb_spec (base src) (base dst)); [congruence|reflexivity]. }
  assert (Hcheck : parent_check dst w = (inr tt, w)).
  { unfold parent_check. destruct (rel dst); [congruence|]. now rewrite Hfp. }
  destruct (copy2 no_faults src dst w) as [[e|[]] w'] eqn:E.
  - exfalso. unfold copy2, fault, no_faults, path_isdir in E.
    rewrite bind_ret_l, bind_gets in E.
    destruct (find w dst) as [[d|es']|] eqn:Efd; [|contradiction|];
      rewrite Hneq, bind_ret_l, Hfs in E;
      rewrite (bind_inr _ _ _ _ _ Hcheck), Efd in E; discriminate E.
  - exists w'. split; [reflexivity|].
    apply copy2_run in E as [(e & He & _)|(_ & Hl & data' & Hs & _ & Hw & _)];
      [discriminate|].
    assert (Ht : copy_target w src dst = dst).
    { unfold copy_target. destruct (find w dst) as [[d|es']|]; auto. contradiction. }
    rewrite Ht in Hw. rewrite Hsrc in Hs. inversion Hs; subst data'. auto.
Qed.

Lemma within_compatible w : within w -> compatible w.
Proof.
  intros H q. destruct (rep_stat w q) as [k|] eqn:E.
  - rewrite (H q k E). now destruct k.
  - now destruct (src_stat w q) as [[?|]|].
Qed.

Lemma compatible_propagated w w' : propagated w w' -> compatible w -> compatible w'.
Proof.
  intros [Hs Hr] Hc q. specialize (Hc q). rewrite Hs.
  destruct (Hr q) as [H|[(H & H' & H'')|(d & H & H')]].
  - now rewrite H.
  - now rewrite H', H''.
  - now rewrite H', H.
Qed.

(** Above an entry of the source, a compatible replica has no file. *)
Lemma compatible_above w q t data :
  compatible w -> src_stat w (q ++ t) = Some KDir ->
  rep_stat w q <> Some (KFile data).
Proof.
  intros Hc Hsrc Hrep. specialize (Hc q). rewrite Hrep in Hc.
  destruct t as [|x t].
  - rewrite app_nil_r in Hsrc. now rewrite Hsrc in Hc.
  - rewrite (src_stat_parent w q (x :: t)) in Hc; [exact Hc|congruence|discriminate].
Qed.

(** *** The first loop on a replica within the source *)

Lemma propagate_dir_ok r d w :
  compatible w -> src_stat w (r ++ [d]) = Some KDir ->
  exists w',
    propagate_dir_step no_faults r d w = (inr tt, w') /\ copied w w' /\
    rep_stat w' (r ++ [d]) = Some KDir.
Proof.
  intros Hcomp Hsrc.
  destruct (makedirs_ok (Path Replica (r ++ [d])) w) as (w' & E & Hl & Hc & Hd).
  { cbn [base rel]. intros q data Hq.
    destruct (prefixb_true _ _ Hq) as [t Ht]. rewrite Ht in Hsrc.
    apply (compatible_above w q t data Hcomp Hsrc). }
  assert (Hrun : propagate_dir_step no_faults r d w = (inr tt, w'))
    by (unfold propagate_dir_step; now apply try_inr).
  assert (Hn : nerr w' = nerr w) by (apply nerr_same_log, Hl).
  exists w'. split; [exact Hrun|]. split; [|exact Hd].
  destruct (propagate_dir no_faults r d w w' Hsrc) as [Hp _].
  { split; [exact Hrun|lia]. }
  split; [exact Hp|]. split; [exact Hn|]. split; [now apply flag_kept_same_locals|].
  intros Hin q k. unfold rep_stat. rewrite (Hc (Path Replica q)). cbn [base rel side_eqb andb].
  destruct Hp as [Hs _]. rewrite Hs.
  destruct (stat w (Path Replica q)) as [k'|] eqn:Eq.
  - intros H. inversion H; subst. now apply Hin.
  - destruct (prefixb q (r ++ [d])) eqn:Ep; [|discriminate].
    intros H. inversion H; subst.
    destruct (prefixb_true _ _ Ep) as [t Ht].
    destruct t as [|x t].
    + rewrite app_nil_r in Ht. congruence.
    + rewrite Ht in Hsrc. apply (src_stat_parent w q (x :: t)); congruence.
Qed.

Lemma within_propagated w w' : propagated w w' -> within w -> within w'.
Proof.
  intros [Hs Hr] Hin q k. rewrite Hs.
  destruct (Hr q) as [H|[(H & H' & H'')|(d & H & H')]].
  - rewrite H. apply Hin.
  - congruence.
  - congruence.
Qed.

(** A copy over a missing entry or a file, under a directory that is
    there. *)
Lemma propagate_copy_ok r f data w :
  src_stat w (r ++ [f]) = Some (KFile data) ->
  rep_stat w (r ++ [f]) <> Some KDir -> rep_stat w r = Some KDir ->
  exists w', propagate_copy_step no_faults r f w = (inr tt, w') /\ copied w w'.
Proof.
  intros Hsrc Hrep Hpar.
  destruct (copy2_ok (Path Source (r ++ [f])) (Path Replica (r ++ [f])) w data)
    as (w1 & E & Hl & Hw); try assumption.
  { cbn [rel]. now destruct r. }
  { unfold dirname. cbn [base rel]. now rewrite removelast_last. }
  { discriminate. }
  destruct (log_info (Copied_updated_file (Path Source (r ++ [f]))
                        (Path Replica (r ++ [f]))) w1) as [r2 w2] eqn:E2.
  destruct (set_changes_made true w2) as [r3 w3] eqn:E3.
  assert (r2 = inr tt) by (now inversion E2). subst r2.
  assert (r3 = inr tt) by (now inversion E3). subst r3.
  assert (Hcopy : propagate_copy_step no_faults r f w = (inr tt, w3)).
  { unfold propagate_copy_step.
    now rewrite (bind_inr _ _ _ _ _ E), (bind_inr _ _ _ _ _ E2). }
  assert (Hn : nerr w3 = nerr w).
  { apply nerr_log_info in E2 as [_ Hn2].
    assert (Hn3 : nerr w3 = nerr w2) by (inversion E3; reflexivity).
    rewrite Hn3, Hn2. apply nerr_same_log, Hl. }
  exists w3. split; [exact Hcopy|].
  destruct (propagate_copy no_faults r f data w w3 Hsrc Hrep) as [Hp _].
  { split; [exact Hcopy|lia]. }
  split; [exact Hp|]. split; [exact Hn|]. split; [intros _; now inversion E3|].
  now apply within_propagated.
Qed.

Lemma propagate_file_ok r f data w :
  compatible w -> src_stat w (r ++ [f]) = Some (KFile data) ->
  rep_stat w r = Some KDir ->
  exists w', propagate_file_step no_faults r f w = (inr tt, w') /\ copied w w'.
Proof.
  intros Hcomp Hsrc Hpar.
  destruct (rep_stat w (r ++ [f])) as [[data'|]|] eqn:Erep.
  - (* the replica has a file: the digests decide *)
    assert (Hhead :
      propagate_file_step no_faults r f w =
      (if negb (String.eqb (md5_hex data) (md5_hex data'))
       then propagate_copy_step no_faults r f else ret tt) w).
    { unfold propagate_file_step, path_exists. rewrite bind_gets.
      unfold rep_stat in Erep. apply stat_find_file in Erep as Hfind. rewrite Hfind.
      cbn [negb].
      rewrite (bind_inr _ _ _ (negb (String.eqb (md5_hex data) (md5_hex data'))) w);
        [reflexivity|].
      rewrite (bind_inr _ _ _ _ _ (calculate_md5_idle _ _ _ Hsrc)).
      rewrite (bind_inr _ _ _ _ _ (calculate_md5_idle _ _ _ Erep)).
      reflexivity. }
    rewrite Hhead.
    destruct (String.eqb (md5_hex data) (md5_hex data')); cbn [negb].
    + exists w. split; [reflexivity|apply copied_refl].
    + apply (propagate_copy_ok r f data w Hsrc); [congruence|exact Hpar].
  - (* a directory where the source has a file *)
    exfalso. specialize (Hcomp (r ++ [f])). now rewrite Hsrc, Erep in Hcomp.
  - (* the file is copied *)
    destruct (propagate_copy_ok r f data w Hsrc) as (w' & E & Hc);
      [congruence|exact Hpar|].
    exists w'. split; [|exact Hc].
    unfold propagate_file_step, path_exists. rewrite bind_gets.
    unfold rep_stat in Erep. apply stat_find_none in Erep as Hfind. rewrite Hfind.
    cbn [negb]. now rewrite bind_ret_l.
Qed.

Lemma walk_propagate_ok fuel : forall r w,
  compatible w -> src_stat w r = Some KDir -> rep_stat w r = Some KDir ->
  exists w',
    walk no_faults fuel (Path Source r)
      (propagate no_faults source_root replica_root) w = (inr tt, w') /\
    copied w w'.
Proof.
  induction fuel as [|fuel IH]; intros r w Hin Hsrc Hrep.
  { exists w. split; [reflexivity|apply copied_refl]. }
  cbn [walk]. rewrite bind_gets.
  destruct (scandir no_faults (Path Source r) w) as [[dirs files]|] eqn:Escan.
  2:{ exists w. split; [reflexivity|apply copied_refl]. }
  apply scandir_some in Escan as (_ & Hdirs & Hfiles).
  unfold join in Hdirs, Hfiles. cbn [base rel] in Hdirs, Hfiles.
  (* directories *)
  destruct (for_each_total copied
              (fun d w => compatible w /\ src_stat w (r ++ [d]) = Some KDir)
              (fun d w => src_stat w (r ++ [d]) = Some KDir /\
                          rep_stat w (r ++ [d]) = Some KDir)
              (propagate_dir_step no_faults r)
              copied_refl copied_trans) with (xs := dirs) (w := w)
    as (wa & Ea & HRa & HPa).
  { intros d u u' [H1 H2] (Hp & _). split; [now apply (compatible_propagated u u')|].
    destruct Hp as [Hs _]. now rewrite Hs. }
  { intros d u u' [H1 H2] (Hp & _). now apply (dir_kept u u'). }
  { intros d u _ [H1 H2]. destruct (propagate_dir_ok r d u H1 H2) as (u' & E & Hc & Hd).
    exists u'. split; [exact E|]. split; [exact Hc|]. split; [|exact Hd].
    destruct Hc as ([Hs _] & _). now rewrite Hs. }
  { intros d Hd. split; [exact Hin|]. now apply Hdirs. }
  (* files *)
  assert (Hina : compatible wa) by (now apply (compatible_propagated w wa); [apply HRa|]).
  destruct (dir_kept w wa r Hsrc Hrep (proj1 HRa)) as [Hsrca Hrepa].
  destruct (for_each_total copied
              (fun f w => compatible w /\ src_stat w r = Some KDir /\
                          rep_stat w r = Some KDir /\
                          exists data, src_stat w (r ++ [f]) = Some (KFile data))
              (fun _ _ => True)
              (propagate_file_step no_faults r)
              copied_refl copied_trans) with (xs := files) (w := wa)
    as (wb & Eb & HRb & _).
  { intros f u u' (H1 & H2 & H3 & data & H4) (Hp & _).
    destruct (dir_kept u u' r H2 H3 Hp) as [H2' H3'].
    split; [now apply (compatible_propagated u u')|]. split; [exact H2'|]. split; [exact H3'|].
    exists data. destruct Hp as [Hs _]. now rewrite Hs. }
  { trivial. }
  { intros f u _ (H1 & _ & H3 & data & H4).
    destruct (propagate_file_ok r f data u H1 H4 H3) as (u' & E & Hc).
    exists u'. auto. }
  { intros f Hf. split; [exact Hina|]. split; [exact Hsrca|]. split; [exact Hrepa|].
    apply Hfiles in Hf as [data Hf]. exists data.
    destruct HRa as ([Hs _] & _). rewrite Hs. exact Hf. }
  (* the directories below *)
  assert (Hinb : compatible wb) by (now apply (compatible_propagated wa wb); [apply HRb|]).
  destruct (for_each_total copied
              (fun d w => compatible w /\ src_stat w (r ++ [d]) = Some KDir /\
                          rep_stat w (r ++ [d]) = Some KDir)
              (fun _ _ => True)
              (fun d => walk no_faults fuel (join (Path Source r) [d])
                          (propagate no_faults source_root replica_root))
              copied_refl copied_trans) with (xs := dirs) (w := wb)
    as (wc & Ec & HRc & _).
  { intros d u u' (H1 & H2 & H3) (Hp & _).
    destruct (dir_kept u u' _ H2 H3 Hp) as [H2' H3'].
    split; [now apply (compatible_propagated u u')|auto]. }
  { trivial. }
  { intros d u _ (H1 & H2 & H3). cbn [join base rel].
    destruct (IH (r ++ [d]) u H1 H2 H3) as (u' & E & Hc). exists u'. auto. }
  { intros d Hd. split; [exact Hinb|].
    destruct (HPa d Hd) as [H1 H2]. now apply (dir_kept wa wb); [| |apply HRb]. }
  exists wc. split.
  - rewrite (bind_inr _ _ _ tt wb); [exact Ec|].
    rewrite propagate_steps. now rewrite (bind_inr _ _ _ _ _ Ea).
  - eapply copied_trans; [|exact HRc]. eapply copied_trans; eauto.
Qed.

(** *** A replica that was missing *)

Lemma both_loops_fresh w :
  within w -> src_stat w [] = Some KDir -> rep_stat w [] = Some KDir ->
  exists w', both_loops no_faults w = (inr tt, w') /\ copied w w'.
Proof.
  intros Hin Hsrc Hrep.
  destruct (walk_propagate_ok (walk_fuel source_root w) [] w
              (within_compatible w Hin) Hsrc Hrep) as (w' & E & Hc).
  exists w'. split; [|exact Hc].
  unfold both_loops, os_walk. rewrite (bind_inr _ _ _ tt w').
  - rewrite bind_gets. apply walk_prune_idle, within_covered. now apply Hc.
  - rewrite bind_gets. exact E.
Qed.

Lemma within_fresh w :
  dir_or_missing (source_tree w) -> replica_tree w = None -> within (with_roots w).
Proof.
  intros Hd Hn q k. unfold rep_stat, src_stat. rewrite !stat_vstat.
  cbn [base rel tree]. rewrite source_with_roots, replica_with_roots, Hn.
  destruct q as [|x q]; [|discriminate].
  intros H. inversion H; subst. now apply stat_root_or_empty.
Qed.

(** With a missing replica and no failure, the call logs no error. *)
Lemma sync_folders_no_replica w :
  dir_or_missing (source_tree w) -> replica_tree w = None ->
  exists w', quiet (sync_folders no_faults source_root replica_root) w PyNone w'.
Proof.
  intros Hd Hn.
  assert (Hsrc : src_stat (with_roots w) [] = Some KDir).
  { unfold src_stat. rewrite stat_vstat. cbn [base rel tree].
    rewrite source_with_roots. now apply stat_root_or_empty. }
  assert (Hrep : rep_stat (with_roots w) [] = Some KDir).
  { unfold rep_stat. rewrite stat_vstat. cbn [base rel tree].
    now rewrite replica_with_roots, Hn. }
  destruct (both_loops_fresh (with_roots w) (within_fresh w Hd Hn) Hsrc Hrep)
    as (w1 & E & _ & Hnerr & _).
  destruct (finish_run no_faults (with_roots w)) as (w1' & Htry & Hfin).
  rewrite (try_inr _ _ _ _ _ E) in Htry. inversion Htry; subst w1'.
  exists (finished w1). split.
  - rewrite sync_folders_roots_ok by (right; reflexivity). exact Hfin.
  - rewrite nerr_finished, Hnerr, nerr_with_roots. apply le_n.
Qed.

(** *** A source that was missing *)

Lemma cleared_refl w : cleared w w.
Proof. split; [apply pruned_refl|apply flag_kept_refl]. Qed.

Lemma cleared_trans a b c : cleared a b -> cleared b c -> cleared a c.
Proof.
  intros [H1 H2] [H1' H2'].
  split; [eapply pruned_trans; eauto|eapply flag_kept_trans; eauto].
Qed.

Lemma walk_missing faulty fuel top body w :
  stat w top <> Some KDir -> walk faulty fuel top body w = (inr tt, w).
Proof.
  intros H. destruct fuel as [|fuel]; [reflexivity|].
  cbn [walk]. rewrite bind_gets.
  destruct (scandir faulty top w) as [[dirs files]|] eqn:E; [|reflexivity].
  apply scandir_some in E as (Hd & _). congruence.
Qed.

Lemma delete_and_log (c : M unit) m w w1 :
  c w = (inr tt, w1) ->
  ((c ;; log_info m) ;; set_changes_made true) w =
  (inr tt, State (source_tree w1) (replica_tree w1) (log w1 ++ [INFO m])
                 (journal w1) true).
Proof.
  intros E.
  rewrite (bind_inr _ _ _ tt (State (source_tree w1) (replica_tree w1)
                                (log w1 ++ [INFO m]) (journal w1) (changes_made w1)));
    [reflexivity|].
  now rewrite (bind_inr _ _ _ _ _ E).
Qed.

(** What the source does not have is removed, or is gone already. *)
Lemma prune_step_gone r x w :
  src_stat w (r ++ [x]) = None ->
  exists w',
    prune_step no_faults r x w = (inr tt, w') /\ cleared w w' /\
    forall q, rep_stat w' ((r ++ [x]) ++ q) = None.
Proof.
  intros Hsrc. pose proof Hsrc as Hfs. unfold src_stat in Hfs.
  apply stat_find_none in Hfs.
  set (p := Path Replica (r ++ [x])).
  assert (Hhead :
    prune_delete_step no_faults r x w =
    ((if match find w p with Some (Dir _) => true | _ => false end
      then rmtree no_faults p ;; log_info (Deleted_directory p)
      else remove no_faults p ;; log_info (Deleted_file p)) ;;
     set_changes_made true) w).
  { unfold prune_delete_step, path_exists, path_isdir.
    rewrite bind_gets, Hfs. cbn [negb]. now rewrite bind_gets. }
  destruct (find w p) as [[d|es]|] eqn:Efind.
  - (* a file *)
    assert (E : remove no_faults p w =
                (inr tt, add_journal
                           (set_tree w (base p) (vwrite (tree w (base p)) (rel p) None))
                           (Unlink p))).
    { unfold remove, fault, no_faults. now rewrite bind_ret_l, Efind. }
    pose proof E as Hrm.
    apply remove_run in Hrm as [(e & He & _)|(_ & _ & Hrm & _)]; [discriminate|].
    rewrite (delete_and_log _ (Deleted_file p) _ _ E) in Hhead.
    eexists. split; [unfold prune_step; apply try_inr; exact Hhead|].
    destruct (removed_pruned r x w _
                (State (source_tree (add_journal (set_tree w (base p)
                           (vwrite (tree w (base p)) (rel p) None)) (Unlink p)))
                       (replica_tree (add_journal (set_tree w (base p)
                           (vwrite (tree w (base p)) (rel p) None)) (Unlink p)))
                       (log (add_journal (set_tree w (base p)
                           (vwrite (tree w (base p)) (rel p) None)) (Unlink p))
                        ++ [INFO (Deleted_file p)])
                       (journal (add_journal (set_tree w (base p)
                           (vwrite (tree w (base p)) (rel p) None)) (Unlink p)))
                       true) Hsrc Hrm) as [H1 H2]; [now split|].
    split; [split; [exact H1|intros _; reflexivity]|exact H2].
  - (* a directory *)
    assert (E : rmtree no_faults p w =
                (inr tt, add_journal
                           (set_tree w (base p) (vwrite (tree w (base p)) (rel p) None))
                           (Rmtree p))).
    { unfold rmtree, fault, no_faults. now rewrite bind_ret_l, Efind. }
    pose proof E as Hrm.
    apply rmtree_run in Hrm as [(e & He & _)|(_ & _ & Hrm & _)]; [discriminate|].
    rewrite (delete_and_log _ (Deleted_directory p) _ _ E) in Hhead.
    eexists. split; [unfold prune_step; apply try_inr; exact Hhead|].
    destruct (removed_pruned r x w _
                (State (source_tree (add_journal (set_tree w (base p)
                           (vwrite (tree w (base p)) (rel p) None)) (Rmtree p)))
                       (replica_tree (add_journal (set_tree w (base p)
                           (vwrite (tree w (base p)) (rel p) None)) (Rmtree p)))
                       (log (add_journal (set_tree w (base p)
                           (vwrite (tree w (base p)) (rel p) None)) (Rmtree p))
                        ++ [INFO (Deleted_directory p)])
                       (journal (add_journal (set_tree w (base p)
                           (vwrite (tree w (base p)) (rel p) None)) (Rmtree p)))
                       true) Hsrc Hrm) as [H1 H2]; [now split|].
    split; [split; [exact H1|intros _; reflexivity]|exact H2].
  - (* gone already: the removal fails and is logged *)
    assert (E : remove no_faults p w = (inl FileNotFoundError, w)).
    { unfold remove, fault, no_faults. now rewrite bind_ret_l, Efind. }
    assert (Hraise : prune_delete_step no_faults r x w = (inl FileNotFoundError, w)).
    { rewrite Hhead. apply bind_inl. now apply bind_inl. }
    eexists. split; [|split].
    + unfold prune_step.
      rewrite (try_inl _ _ _ FileNotFoundError w Hraise). reflexivity.
    + split; [apply pruned_same_trees; now split|intros H; exact H].
    + intros q. unfold rep_stat. rewrite stat_vstat. cbn [base rel tree replica_tree].
      unfold find in Efind. cbn [base rel p tree] in Efind.
      unfold vstat, vlookup in *.
      destruct (replica_tree w) as [n|]; [|reflexivity].
      apply (nstat_app_None n (r ++ [x]) q). unfold nstat. now rewrite Efind.
Qed.

Lemma os_walk_empty_source w :
  source_tree w = Some (Dir []) ->
  os_walk no_faults source_root (propagate no_faults source_root replica_root) w =
  (inr tt, w).
Proof.
  intros H. unfold os_walk. rewrite bind_gets.
  unfold walk_fuel. cbn [base source_root tree]. rewrite H. cbn [height].
  cbn [walk]. rewrite bind_gets.
  unfold scandir, no_faults, find. cbn [base rel source_root tree vlookup lookup].
  rewrite H. reflexivity.
Qed.

(** With an empty source, the second loop empties the replica. *)
Lemma prune_everything w :
  source_tree w = Some (Dir []) -> rep_stat w [] = Some KDir ->
  exists w',
    os_walk no_faults replica_root (prune no_faults source_root replica_root) w =
      (inr tt, w') /\
    cleared w w' /\ identical w'.
Proof.
  intros Hsrc Hrep.
  assert (Hempty : forall u q, (forall t, src_stat u t = src_stat w t) ->
                               q <> [] -> src_stat u q = None).
  { intros u q Hu Hq. rewrite Hu. unfold src_stat. rewrite stat_vstat.
    cbn [base rel tree]. rewrite Hsrc. destruct q; [congruence|reflexivity]. }
  destruct (scandir_dir no_faults replica_root w eq_refl Hrep) as (dirs & files & Escan).
  destruct (for_each_total cleared
              (fun x u => src_stat u ([] ++ [x]) = None)
              (fun x u => forall q, rep_stat u (([] ++ [x]) ++ q) = None)
              (prune_step no_faults [])
              cleared_refl cleared_trans) with (xs := files ++ dirs) (w := w)
    as (w1 & E1 & HR1 & HP1).
  { intros x u u' H [[Hs _] _]. now rewrite Hs. }
  { intros x u u' H [Hp _] q. eapply pruned_gone; [exact Hp|apply H]. }
  { intros x u _ H. destruct (prune_step_gone [] x u H) as (u' & E & Hc & Hg).
    exists u'. auto. }
  { intros x _. apply (Hempty w); [reflexivity|discriminate]. }
  assert (Hwalks : for_each dirs
            (fun d => walk no_faults (match replica_tree w with
                                      | Some n => height n | None => 0 end)
                        (join replica_root [d])
                        (prune no_faults source_root replica_root)) w1 = (inr tt, w1)).
  { apply for_each_idle. intros d Hd. apply walk_missing.
    unfold join. cbn [base rel replica_root].
    specialize (HP1 d (in_or_app _ _ _ (or_intror Hd)) []).
    rewrite app_nil_r in HP1. unfold rep_stat in HP1. cbn [app] in *. congruence. }
  exists w1. split; [|split; [exact HR1|]].
  - unfold os_walk. rewrite bind_gets.
    unfold walk_fuel. cbn [base replica_root tree].
    unfold rep_stat, stat, find in Hrep. cbn [base rel tree vlookup] in Hrep.
    destruct (replica_tree w) as [n|] eqn:Et; [|discriminate].
    cbn [walk]. rewrite bind_gets.
    change (Path Replica []) with replica_root. rewrite Escan.
    rewrite (bind_inr _ _ _ tt w1); [exact Hwalks|].
    change replica_root with (Path Replica []). now rewrite prune_steps.
  - destruct HR1 as [[Hs Hr] _]. intros q.
    destruct q as [|x q].
    + rewrite Hs. destruct (Hr []) as [H|(_ & q1 & Hp & Hn)].
      * rewrite H, Hrep. unfold src_stat. rewrite stat_vstat. cbn [base rel tree].
        now rewrite Hsrc.
      * exfalso. destruct q1; [|discriminate].
        unfold src_stat in Hn. rewrite stat_vstat in Hn. cbn [base rel tree] in Hn.
        rewrite Hsrc in Hn. discriminate.
    + rewrite (Hempty w1 (x :: q) Hs) by discriminate.
      destruct (rep_stat w [x]) as [k|] eqn:Ex.
      * apply (HP1 x).
        apply (scandir_all no_faults replica_root w dirs files x Escan).
        unfold join. cbn [base rel replica_root app]. unfold rep_stat in Ex. congruence.
      * eapply pruned_gone; [split; eauto|].
        unfold rep_stat in *. rewrite stat_vstat in *. cbn [base rel tree] in *.
        destruct (replica_tree w) as [n|]; [|reflexivity].
        apply (nstat_app_None n [x] q Ex).
Qed.

(** With a missing source and no failure: both roots are made or there,
    and the replica is emptied. *)
Lemma sync_folders_no_source w :
  source_tree w = None -> dir_or_missing (replica_tree w) ->
  exists w',
    sync_folders no_faults source_root replica_root w = (inr PyNone, w') /\
    src_stat w' [] = Some KDir /\ rep_stat w' [] = Some KDir /\
    changes_made w' = true /\ identical w'.
Proof.
  intros Hn Hd.
  assert (Hsrc : source_tree (with_roots w) = Some (Dir []))
    by (now rewrite source_with_roots, Hn).
  assert (Hrep : rep_stat (with_roots w) [] = Some KDir).
  { unfold rep_stat. rewrite stat_vstat. cbn [base rel tree].
    rewrite replica_with_roots. now apply stat_root_or_empty. }
  destruct (prune_everything (with_roots w) Hsrc Hrep) as (w1 & E & [Hp Hf] & Hid).
  assert (Hloops : both_loops no_faults (with_roots w) = (inr tt, w1)).
  { unfold both_loops.
    now rewrite (bind_inr _ _ _ _ _ (os_walk_empty_source _ Hsrc)). }
  destruct (finish_run no_faults (with_roots w)) as (w1' & Htry & Hfin).
  rewrite (try_inr _ _ _ _ _ Hloops) in Htry. inversion Htry; subst w1'.
  exists (finished w1).
  split; [rewrite sync_folders_roots_ok by (right; reflexivity); exact Hfin|].
  assert (Hst : forall p, stat (finished w1) p = stat w1 p)
    by (intros p; apply stat_same_trees, same_trees_finished).
  assert (Hs1 : src_stat w1 [] = Some KDir).
  { destruct Hp as [Hs _]. rewrite Hs. unfold src_stat. rewrite stat_vstat.
    cbn [base rel tree]. now rewrite Hsrc. }
  split; [unfold src_stat; now rewrite Hst|].
  split; [unfold rep_stat; rewrite Hst; fold (rep_stat w1 []); now rewrite Hid|].
  split.
  - change (changes_made (finished w1)) with (changes_made w1). apply Hf.
    rewrite changes_made_with_roots. now rewrite Hn.
  - eapply identical_same_trees; [apply same_trees_finished|exact Hid].
Qed.

(** ** The fuel of the walks is enough *)

Lemma for_each_agree {A} (I : state -> Prop) (f g : A -> M unit) xs :
  (forall x u r u', In x xs -> I u -> f x u = (r, u') -> I u') ->
  (forall x u, In x xs -> I u -> f x u = g x u) ->
  forall w, I w -> for_each xs f w = for_each xs g w.
Proof.
  induction xs as [|x xs IH]; intros Hinv Hfg w Hw; [reflexivity|].
  cbn [for_each]. unfold bind.
  rewrite <- (Hfg x w (or_introl eq_refl) Hw).
  destruct (f x w) as [[e|[]] w1] eqn:E; [reflexivity|].
  apply IH.
  - intros y u r u' Hy. apply Hinv. now right.
  - intros y u Hy. apply Hfg. now right.
  - apply (Hinv x w _ w1 (or_introl eq_refl) Hw E).
Qed.

Lemma bind_agree {A B} (c : M A) (k1 k2 : A -> M B) w :
  (forall a w1, c w = (inr a, w1) -> k1 a w1 = k2 a w1) ->
  bind c k1 w = bind c k2 w.
Proof.
  intros H. unfold bind. destruct (c w) as [[e|a] w1]; [reflexivity|].
  now apply H.
Qed.

Lemma shrinks_refl w : shrinks w w.
Proof. now intros q. Qed.

Lemma shrinks_trans a b c : shrinks a b -> shrinks b c -> shrinks a c.
Proof. unfold shrinks. auto. Qed.

Lemma shrinks_same_trees w w' : same_trees w w' -> shrinks w w'.
Proof. intros H q. unfold rep_stat. now rewrite (stat_same_trees _ _ _ H). Qed.

Lemma shrinks_removed p w w' : removed p w w' -> shrinks w w'.
Proof.
  intros H q. unfold rep_stat. rewrite (H (Path Replica q)).
  destruct (side_eqb (base p) (base (Path Replica q)) &&
            prefixb (rel p) (rel (Path Replica q))); congruence.
Qed.

Section Fuel.

Variable faulty : op -> option exn.

Lemma shrinks_log_info m : keeps shrinks (log_info m).
Proof. intros w r w' H. now apply shrinks_same_trees, (same_trees_log_info m w r). Qed.

Lemma shrinks_log_error m : keeps shrinks (log_error m).
Proof. intros w r w' H. apply shrinks_same_trees. inversion H. now split. Qed.

Lemma shrinks_set_changes_made b : keeps shrinks (set_changes_made b).
Proof.
  intros w r w' H. now apply shrinks_same_trees, (same_trees_set_changes_made b w r).
Qed.

Lemma shrinks_remove p : keeps shrinks (remove faulty p).
Proof.
  intros w r w' H. apply remove_run in H as [(e & _ & ->)|(_ & _ & H & _)].
  - apply shrinks_refl.
  - now apply shrinks_removed with (p := p).
Qed.

Lemma shrinks_rmtree p : keeps shrinks (rmtree faulty p).
Proof.
  intros w r w' H. apply rmtree_run in H as [(e & _ & ->)|(_ & _ & H & _)].
  - apply shrinks_refl.
  - now apply shrinks_removed with (p := p).
Qed.

End Fuel.

#[local] Hint Resolve shrinks_refl shrinks_trans shrinks_log_info shrinks_log_error
  shrinks_set_changes_made shrinks_remove shrinks_rmtree : keeps.

Section FuelEnough.

Variable faulty : op -> option exn.

Lemma shrinks_prune source replica root dirs files :
  keeps shrinks (prune faulty source replica root dirs files).
Proof. unfold prune, path_exists, path_isdir. keeps_tac. Qed.

Lemma shrinks_walk_prune fuel top :
  keeps shrinks (walk faulty fuel top (prune faulty source_root replica_root)).
Proof.
  apply keeps_walk; [apply shrinks_refl|apply shrinks_trans|].
  intros. apply shrinks_prune.
Qed.

Lemma frame_walk_propagate fuel top :
  keeps frame (walk faulty fuel top (propagate faulty source_root replica_root)).
Proof.
  apply keeps_walk; [apply frame_refl|apply frame_trans|].
  intros. apply frame_propagate.
Qed.

Lemma frame_source w w' :
  frame w w' -> source_tree w <> None -> source_tree w' = source_tree w.
Proof. intros [[H|[H _]] _] Hn; congruence. Qed.

(** More fuel than the source tree is high changes nothing in the first
    loop. *)
Lemma walk_propagate_fuel fuel : forall k r w,
  source_tree w <> None ->
  (forall q, src_stat w (r ++ q) <> None -> length q < fuel) ->
  walk faulty (fuel + k) (Path Source r)
    (propagate faulty source_root replica_root) w =
  walk faulty fuel (Path Source r)
    (propagate faulty source_root replica_root) w.
Proof.
  induction fuel as [|fuel IH]; intros k r w Hsrc Hbound.
  { cbn [walk]. apply walk_missing. intros H.
    specialize (Hbound []). rewrite app_nil_r in Hbound.
    assert (length (@nil name) < 0); [apply Hbound; unfold src_stat; congruence|].
    simpl in *. lia. }
  cbn [Nat.add walk]. rewrite !bind_gets.
  destruct (scandir faulty (Path Source r) w) as [[dirs files]|]; [|reflexivity].
  apply bind_agree. intros [] w1 E.
  apply frame_propagate in E. apply frame_source in E; [|exact Hsrc].
  apply for_each_agree with (I := fun u => source_tree u = source_tree w).
  - intros d u res u' _ Hu Hrun. apply frame_walk_propagate in Hrun.
    apply frame_source in Hrun; congruence.
  - intros d u _ Hu. cbn [join base rel]. apply IH; [congruence|].
    intros q. unfold src_stat, stat, find. cbn [base rel tree].
    rewrite Hu, <- app_assoc. intros H.
    specialize (Hbound ([d] ++ q) H). rewrite length_app in Hbound. simpl in Hbound. lia.
  - exact E.
Qed.

(** More fuel than the replica tree is high changes nothing in the second
    loop. *)
Lemma walk_prune_fuel fuel : forall k r w,
  (forall q, rep_stat w (r ++ q) <> None -> length q < fuel) ->
  walk faulty (fuel + k) (Path Replica r)
    (prune faulty source_root replica_root) w =
  walk faulty fuel (Path Replica r)
    (prune faulty source_root replica_root) w.
Proof.
  induction fuel as [|fuel IH]; intros k r w Hbound.
  { cbn [walk]. apply walk_missing. intros H.
    specialize (Hbound []). rewrite app_nil_r in Hbound.
    assert (length (@nil name) < 0); [apply Hbound; unfold rep_stat; congruence|].
    simpl in *. lia. }
  cbn [Nat.add walk]. rewrite !bind_gets.
  destruct (scandir faulty (Path Replica r) w) as [[dirs files]|]; [|reflexivity].
  apply bind_agree. intros [] w1 E.
  apply shrinks_prune in E.
  apply for_each_agree with (I := fun u => shrinks w u).
  - intros d u res u' _ Hu Hrun. apply shrinks_walk_prune in Hrun.
    eapply shrinks_trans; eauto.
  - intros d u _ Hu. cbn [join base rel]. apply IH.
    intros q H. apply Hu in H. rewrite <- app_assoc in H.
    specialize (Hbound ([d] ++ q) H). rewrite length_app in Hbound. simpl in Hbound. lia.
  - exact E.
Qed.

(** [os.walk] is the walk with any fuel above the one it takes. *)
Lemma os_walk_propagate_fuel k w :
  walk faulty (walk_fuel source_root w + k) source_root
    (propagate faulty source_root replica_root) w =
  os_walk faulty source_root (propagate faulty source_root replica_root) w.
Proof.
  unfold os_walk. rewrite bind_gets.
  destruct (source_tree w) as [n|] eqn:Es.
  - apply (walk_propagate_fuel _ k [] w); [congruence|].
    intros q. cbn [app]. unfold src_stat, walk_fuel. cbn [base source_root].
    rewrite stat_vstat. cbn [base rel tree]. apply height_fuel.
  - rewrite !walk_missing; [reflexivity|..];
      unfold stat, find; cbn [base rel source_root tree]; now rewrite Es.
Qed.

Lemma os_walk_prune_fuel k w :
  walk faulty (walk_fuel replica_root w + k) replica_root
    (prune faulty source_root replica_root) w =
  os_walk faulty replica_root (prune faulty source_root replica_root) w.
Proof.
  unfold os_walk. rewrite bind_gets.
  apply (walk_prune_fuel _ k [] w).
  intros q. cbn [app]. unfold rep_stat, walk_fuel. cbn [base replica_root].
  rewrite stat_vstat. cbn [base rel tree]. apply height_fuel.
Qed.

End FuelEnough.

(** ** Directories that list every name once *)

Section Unique.

Lemma distinct_NoDup l : distinct l = true <-> NoDup l.
Proof.
  induction l as [|x l IH]; cbn [distinct].
  - split; [constructor|reflexivity].
  - rewrite andb_true_iff, negb_true_iff, IH. split.
    + intros [Hx Hl]. constructor; [|exact Hl].
      intros Hin. assert (existsb (String.eqb x) l = true); [|congruence].
      apply existsb_exists. exists x. split; [exact Hin|apply String.eqb_refl].
    + intros H. inversion H; subst. split; [|assumption].
      destruct (existsb (String.eqb x) l) eqn:E; [|reflexivity].
      apply existsb_exists in E as (y & Hy & Hxy).
      apply String.eqb_eq in Hxy. subst y. contradiction.
Qed.

Lemma unique_Dir es :
  unique (Dir es) = distinct (map fst es) && forallb (fun e => unique (snd e)) es.
Proof.
  cbn [unique]. f_equal.
  induction es as [|[y c] es IH]; [reflexivity|].
  cbn [forallb snd]. now rewrite IH.
Qed.

Lemma names_put x c es :
  NoDup (map fst es) -> NoDup (map fst (put x c es)) /\
  forall y, In y (map fst (put x c es)) <-> y = x \/ In y (map fst es).
Proof.
  induction es as [|[y d] es IH]; cbn [put map fst]; intros H.
  - split; [constructor; [intros []|constructor]|].
    intros y. cbn. intuition congruence.
  - inversion H as [|? ? Hy Hes]; subst.
    destruct (IH Hes) as [IH1 IH2].
    destruct (String.eqb_spec x y) as [->|Hne]; cbn [map fst].
    + split; [now constructor|]. intros z. cbn. intuition congruence.
    + split.
      * constructor; [|exact IH1]. rewrite IH2. intros [E|Hin]; [congruence|contradiction].
      * intros z. cbn [In]. rewrite IH2. intuition congruence.
Qed.

Lemma children_put x c es :
  forallb (fun e => unique (snd e)) es = true -> unique c = true ->
  forallb (fun e => unique (snd e)) (put x c es) = true.
Proof.
  intros H Hc. induction es as [|[y d] es IH]; cbn [put forallb snd].
  - now rewrite Hc.
  - cbn [forallb snd] in H. apply andb_true_iff in H as [Hd Hes].
    destruct (String.eqb x y); cbn [forallb snd].
    + now rewrite Hc, Hes.
    + now rewrite Hd, IH.
Qed.

Lemma names_del x es : NoDup (map fst es) -> NoDup (map fst (del x es)).
Proof.
  unfold del. induction es as [|[y d] es IH]; cbn [filter map fst]; intros H.
  - constructor.
  - inversion H as [|? ? Hy Hes]; subst.
    destruct (negb (String.eqb x y)); cbn [map fst]; [|auto].
    constructor; [|auto].
    intros Hin. apply Hy. apply in_map_iff in Hin as (e & He & Hin).
    apply filter_In in Hin as [Hin _]. apply in_map_iff. eauto.
Qed.

Lemma children_del x es :
  forallb (fun e => unique (snd e)) es = true ->
  forallb (fun e => unique (snd e)) (del x es) = true.
Proof.
  unfold del. intros H. apply forallb_forall. intros e He.
  apply filter_In in He as [He _]. revert e He. now apply forallb_forall.
Qed.

Lemma unique_assoc x es c :
  unique (Dir es) = true -> assoc x es = Some c -> unique c = true.
Proof.
  rewrite unique_Dir, andb_true_iff. intros [_ H].
  induction es as [|[y d] es IH]; cbn [assoc]; [discriminate|].
  cbn [forallb snd] in H. apply andb_true_iff in H as [Hd Hes].
  destruct (String.eqb x y); [|auto]. intros E. inversion E; subst. exact Hd.
Qed.

Lemma unique_put x c es :
  unique (Dir es) = true -> unique c = true -> unique (Dir (put x c es)) = true.
Proof.
  rewrite !unique_Dir, !andb_true_iff. intros [Hn Hc] Hu.
  split; [|now apply children_put].
  apply distinct_NoDup. apply names_put. now apply distinct_NoDup.
Qed.

Lemma unique_del x es :
  unique (Dir es) = true -> unique (Dir (del x es)) = true.
Proof.
  rewrite !unique_Dir, !andb_true_iff. intros [Hn Hc].
  split; [|now apply children_del].
  apply distinct_NoDup. apply names_del. now apply distinct_NoDup.
Qed.

Lemma unique_lookup p : forall n c,
  unique n = true -> lookup n p = Some c -> unique c = true.
Proof.
  induction p as [|x p IH]; intros n c Hn; cbn [lookup].
  - intros E. inversion E; subst. assumption.
  - destruct n as [data|es]; [discriminate|].
    destruct (assoc x es) as [d|] eqn:Ex; [|discriminate].
    apply IH. eapply unique_assoc; eauto.
Qed.

Lemma unique_write p : forall n c,
  unique n = true ->
  match c with Some c' => unique c' = true | None => True end ->
  unique (write n p c) = true.
Proof.
  induction p as [|x p IH]; intros n c Hn Hc.
  - now destruct n.
  - destruct n as [data|es]; [exact Hn|].
    destruct p as [|y p].
    + cbn [write]. destruct c as [c'|]; [now apply unique_put|now apply unique_del].
    + rewrite write_cons_cons.
      destruct (assoc x es) as [d|] eqn:Ex; [|exact Hn].
      apply unique_put; [exact Hn|]. apply IH; [|exact Hc].
      eapply unique_assoc; eauto.
Qed.

Lemma unique_mkchain p : unique (mkchain p) = true.
Proof. induction p as [|x p IH]; [reflexivity|]. cbn. now rewrite IH. Qed.

Lemma unique_mkdirs p : forall n n',
  unique n = true -> mkdirs n p = inr n' -> unique n' = true.
Proof.
  induction p as [|x p IH]; intros n n' Hn; destruct n as [data|es]; cbn [mkdirs];
    try discriminate.
  - intros E. inversion E; subst. assumption.
  - destruct (assoc x es) as [c|] eqn:Ex.
    + destruct (mkdirs c p) as [e|c'] eqn:Ec; [discriminate|].
      intros E. inversion E; subst. apply unique_put; [exact Hn|].
      eapply IH; [|exact Ec]. eapply unique_assoc; eauto.
    + intros E. inversion E; subst. apply unique_put; [exact Hn|apply unique_mkchain].
Qed.

End Unique.

(** ** The replica stays tidy *)

Lemma tidy_kept_refl w : tidy_kept w w.
Proof. now intros H. Qed.

Lemma tidy_kept_trans a b c : tidy_kept a b -> tidy_kept b c -> tidy_kept a c.
Proof. unfold tidy_kept. auto. Qed.

Lemma tidy_same_trees w w' : same_trees w w' -> tidy_kept w w'.
Proof. intros [_ H]. unfold tidy_kept, tidy. now rewrite H. Qed.

Lemma unique_vwrite o p c :
  unique_root o -> unique_root c -> unique_root (vwrite o p c).
Proof.
  intros Ho Hc. destruct p as [|x p]; [exact Hc|].
  destruct o as [n|]; [|exact I].
  cbn [vwrite option_map unique_root]. now apply unique_write.
Qed.

Lemma unique_vmkdirs o p n' :
  unique_root o -> vmkdirs o p = inr n' -> unique n' = true.
Proof.
  destruct o as [n|]; cbn [vmkdirs unique_root].
  - apply unique_mkdirs.
  - intros _ E. inversion E. apply unique_mkchain.
Qed.

Section Tidy.

Variable faulty : op -> option exn.

Lemma tidy_log_info m : keeps tidy_kept (log_info m).
Proof. intros w r w' H. now inversion H. Qed.

Lemma tidy_log_error m : keeps tidy_kept (log_error m).
Proof. intros w r w' H. now inversion H. Qed.

Lemma tidy_set_changes_made b : keeps tidy_kept (set_changes_made b).
Proof. intros w r w' H. now inversion H. Qed.

Lemma tidy_calculate_md5 p : keeps tidy_kept (calculate_md5 faulty p).
Proof.
  intros w r w' H.
  destruct (calculate_md5_spec faulty p w) as [(data & _ & E)|(e & E)];
    rewrite E in H; inversion H; subst; now intros Hf.
Qed.

Lemma tidy_remove p : keeps tidy_kept (remove faulty p).
Proof.
  intros w r w' H Hw. unfold remove, bind, fault in H.
  destruct (faulty (OpRemove p)); [inversion H; now subst|].
  cbn [ret] in H.
  destruct (find w p) as [[data|es]|]; inversion H; subst; try exact Hw.
  destruct p as [[] q]; [exact Hw|].
  apply unique_vwrite; [exact Hw|exact I].
Qed.

Lemma tidy_rmtree p : keeps tidy_kept (rmtree faulty p).
Proof.
  intros w r w' H Hw. unfold rmtree, bind, fault in H.
  destruct (faulty (OpRmtree p)); [inversion H; now subst|].
  cbn [ret] in H.
  destruct (find w p) as [[data|es]|]; inversion H; subst; try exact Hw.
  destruct p as [[] q]; [exact Hw|].
  apply unique_vwrite; [exact Hw|exact I].
Qed.

Lemma tidy_makedirs p : keeps tidy_kept (makedirs faulty p).
Proof.
  intros w r w' H Hw. unfold makedirs, bind, fault in H.
  destruct (faulty (OpMakedirs p)); [inversion H; now subst|].
  cbn [ret] in H.
  destruct (vmkdirs (tree w (base p)) (rel p)) as [e|n'] eqn:Em;
    [inversion H; now subst|].
  destruct (find w p); inversion H; subst; [exact Hw|].
  destruct p as [[] q]; [exact Hw|].
  apply (unique_vmkdirs (replica_tree w) q n' Hw Em).
Qed.

Lemma tidy_copy2 s d : keeps tidy_kept (copy2 faulty s d).
Proof.
  intros w r w' H Hw. unfold copy2, bind, fault, path_isdir, gets in H.
  destruct (faulty (OpCopy s d)); [inversion H; now subst|].
  cbn [ret] in H.
  set (dst := if match find w d with Some (Dir _) => true | _ => false end
              then join d (basename s) else d) in H.
  destruct (path_eqb s dst); [inversion H; now subst|]. cbn [ret] in H.
  destruct (find w s) as [[data|es]|]; [|inversion H; now subst..].
  destruct (parent_check dst w) as [[e|[]] w1] eqn:Ep.
  - assert (w1 = w); [|inversion H; now subst].
    unfold parent_check in Ep. destruct (rel dst); [discriminate|].
    destruct (find w (dirname dst)) as [[?|?]|]; now inversion Ep.
  - assert (w1 = w); [|subst w1].
    { unfold parent_check in Ep. destruct (rel dst); [now inversion Ep|].
      destruct (find w (dirname dst)) as [[?|?]|]; now inversion Ep. }
    destruct (find w dst) as [[?|?]|]; inversion H; subst; try exact Hw.
    + destruct (base dst); [exact Hw|]. now apply unique_vwrite.
    + destruct (base dst); [exact Hw|]. now apply unique_vwrite.
Qed.

End Tidy.

#[local] Hint Resolve tidy_kept_refl tidy_kept_trans tidy_log_info tidy_log_error
  tidy_set_changes_made tidy_calculate_md5 tidy_remove tidy_rmtree tidy_makedirs
  tidy_copy2 : keeps.

Lemma tidy_both_loops faulty : keeps tidy_kept (both_loops faulty).
Proof. unfold both_loops. keeps_tac. Qed.

(** ** Calls that succeed *)

Lemma NoDup_partition {A} (f : A -> bool) l :
  NoDup l -> NoDup (filter (fun x => negb (f x)) l ++ filter f l).
Proof.
  induction l as [|x l IH]; intros H; [constructor|].
  inversion H as [|? ? Hx Hl]; subst. specialize (IH Hl).
  assert (Hnot : ~ In x (filter (fun x => negb (f x)) l ++ filter f l)).
  { intros Hin. apply Hx. apply in_app_or in Hin as [Hin|Hin];
      apply filter_In in Hin; tauto. }
  cbn [filter]. destruct (f x); cbn [negb].
  - apply (NoDup_Add (a := x) (l := filter (fun x => negb (f x)) l ++ filter f l)).
    + apply Add_app.
    + now split.
  - cbn [app]. now constructor.
Qed.

Lemma prefixb_sibling r x y : x <> y -> prefixb (r ++ [x]) (r ++ [y]) = false.
Proof.
  intros Hne. induction r as [|z r IH]; cbn [app prefixb].
  - apply String.eqb_neq in Hne. now rewrite Hne.
  - now rewrite String.eqb_refl, IH.
Qed.

Lemma scandir_distinct r w dirs files :
  tidy w -> scandir no_faults (Path Replica r) w = Some (dirs, files) ->
  NoDup (files ++ dirs).
Proof.
  intros Ht. unfold scandir, no_faults.
  destruct (find w (Path Replica r)) as [[data|es]|] eqn:Ef; try discriminate.
  intros H. inversion H; subst. clear H.
  apply NoDup_partition, distinct_NoDup.
  unfold find in Ef. cbn [base rel tree] in Ef. unfold tidy in Ht.
  destruct (replica_tree w) as [n|]; [|discriminate].
  pose proof (unique_lookup r n (Dir es) Ht Ef) as Hu.
  rewrite unique_Dir in Hu. now apply andb_true_iff in Hu.
Qed.

(** An entry that is there is kept or deleted, and nothing is logged as
    an error; the other entries of the directory stay. *)
Lemma prune_step_ok r x w :
  rep_stat w (r ++ [x]) <> None ->
  exists w',
    prune_step no_faults r x w = (inr tt, w') /\ nerr w' = nerr w /\
    forall y, y <> x -> rep_stat w' (r ++ [y]) = rep_stat w (r ++ [y]).
Proof.
  intros Hrep.
  destruct (find w (Path Source (r ++ [x]))) as [c|] eqn:Hfs.
  { exists w. split; [|auto]. unfold prune_step. apply try_inr.
    unfold prune_delete_step, path_exists. rewrite bind_gets, Hfs. reflexivity. }
  set (p := Path Replica (r ++ [x])).
  assert (Hhead :
    prune_delete_step no_faults r x w =
    ((if match find w p with Some (Dir _) => true | _ => false end
      then rmtree no_faults p ;; log_info (Deleted_directory p)
      else remove no_faults p ;; log_info (Deleted_file p)) ;;
     set_changes_made true) w).
  { unfold prune_delete_step, path_exists, path_isdir.
    rewrite bind_gets, Hfs. cbn [negb]. now rewrite bind_gets. }
  assert (Hkeep : forall m w1,
    removed p w w1 -> log w1 = log w ->
    nerr (State (source_tree w1) (replica_tree w1) (log w1 ++ [INFO m])
                (journal w1) true) = nerr w /\
    forall y, y <> x ->
      rep_stat (State (source_tree w1) (replica_tree w1) (log w1 ++ [INFO m])
                      (journal w1) true) (r ++ [y]) = rep_stat w (r ++ [y])).
  { intros m w1 Hrm Hlog. split.
    - unfold nerr, errors. cbn [log]. rewrite Hlog, filter_app. cbn [filter is_error].
      now rewrite app_nil_r.
    - intros y Hy.
      transitivity (rep_stat w1 (r ++ [y])); [reflexivity|].
      unfold rep_stat. rewrite (Hrm (Path Replica (r ++ [y]))).
      cbn [p base rel side_eqb andb]. now rewrite (prefixb_sibling r x y) by congruence. }
  destruct (find w p) as [[d|es]|] eqn:Efind.
  - assert (E : remove no_faults p w =
                (inr tt, add_journal
                           (set_tree w (base p) (vwrite (tree w (base p)) (rel p) None))
                           (Unlink p))).
    { unfold remove, fault, no_faults. now rewrite bind_ret_l, Efind. }
    pose proof E as Hrm.
    apply remove_run in Hrm as [(e & He & _)|(_ & [Hlog _] & Hrm & _)]; [discriminate|].
    rewrite (delete_and_log _ (Deleted_file p) _ _ E) in Hhead.
    eexists. split; [unfold prune_step; apply try_inr; exact Hhead|].
    now apply Hkeep.
  - assert (E : rmtree no_faults p w =
                (inr tt, add_journal
                           (set_tree w (base p) (vwrite (tree w (base p)) (rel p) None))
                           (Rmtree p))).
    { unfold rmtree, fault, no_faults. now rewrite bind_ret_l, Efind. }
    pose proof E as Hrm.
    apply rmtree_run in Hrm as [(e & He & _)|(_ & [Hlog _] & Hrm & _)]; [discriminate|].
    rewrite (delete_and_log _ (Deleted_directory p) _ _ E) in Hhead.
    eexists. split; [unfold prune_step; apply try_inr; exact Hhead|].
    now apply Hkeep.
  - exfalso. apply Hrep. unfold rep_stat, stat. fold p. now rewrite Efind.
Qed.

Lemma swept_refl w : swept w w.
Proof. split; [reflexivity|apply tidy_kept_refl]. Qed.

Lemma swept_trans a b c : swept a b -> swept b c -> swept a c.
Proof.
  intros [H1 H2] [H1' H2']. split; [congruence|eapply tidy_kept_trans; eauto].
Qed.

(** The loop over the names of one directory of the replica, each listed
    once and there. *)
Lemma prune_loop_ok r names : forall w,
  NoDup names -> (forall x, In x names -> rep_stat w (r ++ [x]) <> None) ->
  exists w', for_each names (prune_step no_faults r) w = (inr tt, w') /\ swept w w'.
Proof.
  induction names as [|x names IH]; intros w Hnd Hall.
  { exists w. split; [reflexivity|apply swept_refl]. }
  inversion Hnd as [|? ? Hx Hnames]; subst.
  destruct (prune_step_ok r x w (Hall x (or_introl eq_refl))) as (w1 & E1 & Hn1 & Hk1).
  destruct (IH w1 Hnames) as (w' & E & Hs).
  { intros y Hy. rewrite Hk1; [apply Hall; now right|]. intros ->. contradiction. }
  exists w'. split.
  - cbn [for_each]. now rewrite (bind_inr _ _ _ _ _ E1).
  - apply (swept_trans w w1 w'); [|exact Hs]. split; [exact Hn1|].
    assert (Hk : keeps tidy_kept (prune_step no_faults r x))
      by (unfold prune_step, prune_delete_step, path_exists, path_isdir; keeps_tac).
    exact (Hk _ _ _ E1).
Qed.

(** The second loop over a tidy replica logs no error. *)
Lemma walk_prune_ok fuel : forall r w,
  tidy w ->
  exists w',
    walk no_faults fuel (Path Replica r)
      (prune no_faults source_root replica_root) w = (inr tt, w') /\
    swept w w'.
Proof.
  induction fuel as [|fuel IH]; intros r w Ht.
  { exists w. split; [reflexivity|apply swept_refl]. }
  cbn [walk]. rewrite bind_gets.
  destruct (scandir no_faults (Path Replica r) w) as [[dirs files]|] eqn:Escan.
  2:{ exists w. split; [reflexivity|apply swept_refl]. }
  pose proof (scandir_distinct r w dirs files Ht Escan) as Hnd.
  destruct (prune_loop_ok r (files ++ dirs) w Hnd) as (w1 & E1 & Hs1).
  { intros x Hx. apply scandir_some in Escan as (_ & Hdirs & Hfiles).
    unfold join in Hdirs, Hfiles. cbn [base rel] in Hdirs, Hfiles.
    unfold rep_stat. apply in_app_or in Hx as [Hx|Hx].
    - apply Hfiles in Hx as [data Hx]. congruence.
    - apply Hdirs in Hx. congruence. }
  destruct (for_each_total swept (fun _ u => tidy u) (fun _ _ => True)
              (fun d => walk no_faults fuel (join (Path Replica r) [d])
                          (prune no_faults source_root replica_root))
              swept_refl swept_trans) with (xs := dirs) (w := w1)
    as (w2 & E2 & Hs2 & _).
  { intros d u u' Hu [_ Hk]. now apply Hk. }
  { trivial. }
  { intros d u _ Hu. cbn [join base rel].
    destruct (IH (r ++ [d]) u Hu) as (u' & E & Hs). exists u'. auto. }
  { intros d _. now apply Hs1. }
  exists w2. split; [|eapply swept_trans; eauto].
  rewrite (bind_inr _ _ _ tt w1); [exact E2|]. now rewrite prune_steps.
Qed.

(** Both loops, with no failing operation, on a tidy replica that is
    compatible with the source. *)
Lemma both_loops_ok w :
  compatible w -> tidy w ->
  src_stat w [] = Some KDir -> rep_stat w [] = Some KDir ->
  exists w', both_loops no_faults w = (inr tt, w') /\ nerr w' = nerr w.
Proof.
  intros Hc Ht Hsrc Hrep.
  destruct (walk_propagate_ok (walk_fuel source_root w) [] w Hc Hsrc Hrep)
    as (w1 & E1 & _ & Hn1 & _).
  assert (Hrun1 : os_walk no_faults source_root
                    (propagate no_faults source_root replica_root) w = (inr tt, w1))
    by (unfold os_walk; now rewrite bind_gets).
  assert (Ht1 : tidy w1).
  { assert (Hk : keeps tidy_kept
                   (os_walk no_faults source_root
                      (propagate no_faults source_root replica_root)))
      by keeps_tac.
    exact (Hk _ _ _ Hrun1 Ht). }
  destruct (walk_prune_ok (walk_fuel replica_root w1) [] w1 Ht1) as (w2 & E2 & Hn2 & _).
  exists w2. split; [|congruence].
  unfold both_loops. rewrite (bind_inr _ _ _ _ _ Hrun1).
  unfold os_walk. now rewrite bind_gets.
Qed.

Lemma compatible_with_roots w :
  dir_or_missing (source_tree w) -> dir_or_missing (replica_tree w) ->
  compatible w -> compatible (with_roots w).
Proof.
  intros Hs Hr H q. specialize (H q). revert H.
  unfold src_stat, rep_stat. rewrite !stat_vstat. cbn [base rel tree].
  rewrite source_with_roots, replica_with_roots.
  destruct (source_tree w) as [sn|], (replica_tree w) as [rn|]; cbn [or_empty];
    [auto|intros _..].
  - destruct q as [|x q].
    + destruct sn; [contradiction|exact I].
    + cbn [vstat vlookup lookup assoc option_map].
      now destruct (vstat (Some sn) (x :: q)) as [[?|]|].
  - destruct q as [|x q].
    + destruct rn; [contradiction|exact I].
    + reflexivity.
  - now destruct q.
Qed.

Lemma tidy_with_roots w : tidy w -> tidy (with_roots w).
Proof.
  unfold tidy. rewrite replica_with_roots.
  now destruct (replica_tree w).
Qed.

(** With no failing operation, on a tidy replica compatible with the
    source, the call logs no error. *)
Lemma sync_folders_succeeds w :
  dir_or_missing (source_tree w) -> dir_or_missing (replica_tree w) ->
  compatible w -> tidy w ->
  exists w', quiet (sync_folders no_faults source_root replica_root) w PyNone w'.
Proof.
  intros Hs Hr Hc Ht.
  assert (Hsrc : src_stat (with_roots w) [] = Some KDir).
  { unfold src_stat. rewrite stat_vstat. cbn [base rel tree].
    rewrite source_with_roots. now apply stat_root_or_empty. }
  assert (Hrep : rep_stat (with_roots w) [] = Some KDir).
  { unfold rep_stat. rewrite stat_vstat. cbn [base rel tree].
    rewrite replica_with_roots. now apply stat_root_or_empty. }
  destruct (both_loops_ok (with_roots w) (compatible_with_roots w Hs Hr Hc)
              (tidy_with_roots w Ht) Hsrc Hrep) as (w1 & E & Hnerr).
  destruct (finish_run no_faults (with_roots w)) as (w1' & Htry & Hfin).
  rewrite (try_inr _ _ _ _ _ E) in Htry. inversion Htry; subst w1'.
  exists (finished w1). split.
  - rewrite sync_folders_roots_ok by (right; reflexivity). exact Hfin.
  - rewrite nerr_finished, Hnerr, nerr_with_roots. apply le_n.
Qed.

(** So a call does mirror the source, whenever no operation fails, the
    replica is tidy and no path is a file on one side and a directory on
    the other. *)
Lemma sync_folders_mirrors w :
  dir_or_missing (source_tree w) -> dir_or_missing (replica_tree w) ->
  compatible w -> tidy w ->
  exists w',
    sync_folders no_faults source_root replica_root w = (inr PyNone, w') /\
    nerr w' = nerr w /\ in_sync w' /\ (collision_free w -> identical w').
Proof.
  intros Hs Hr Hc Ht.
  destruct (sync_folders_succeeds w Hs Hr Hc Ht) as (w' & Hq).
  assert (Hl : listable no_faults) by (intros p; reflexivity).
  destruct (sync_folders_quiet no_faults w PyNone w' Hl Hs Hr Hq) as (_ & H1 & H2 & _).
  exists w'. split; [apply Hq|]. split; [|now split].
  apply Nat.le_antisymm; [apply Hq|].
  assert (Hg : keeps grows (sync_folders no_faults source_root replica_root))
    by (unfold sync_folders; keeps_tac).
  exact (Hg _ _ _ (proj1 Hq)).
Qed.

(** ** Where the code leaves the specification *)

Section Defects.

Variable faulty : op -> option exn.

(** The end of the function returns [None], whatever [changes_made] is. *)
Lemma sync_folders_returns_None w :
  source_tree w <> None \/ faulty (OpMakedirs source_root) = None ->
  replica_tree w <> None \/ faulty (OpMakedirs replica_root) = None ->
  fst (sync_folders faulty source_root replica_root w) = inr PyNone.
Proof.
  intros Hs Hr. rewrite (sync_folders_roots_ok faulty w Hs Hr).
  destruct (finish_run faulty (with_roots w)) as (w1 & _ & ->). reflexivity.
Qed.

Lemma calculate_md5_open_fails p e w :
  faulty (OpOpen p) = Some e ->
  calculate_md5 faulty p w = (inr None, md5_failed p e w).
Proof.
  intros He. unfold calculate_md5.
  rewrite (try_inl _ _ _ e w); [reflexivity|].
  apply bind_inl. unfold open_rb, fault. now rewrite He.
Qed.

(** When the replica file is there and neither file can be opened, the
    two digests are [None], and nothing is copied. *)
Lemma both_digests_fail r f w c e1 e2 :
  find w (Path Replica (r ++ [f])) = Some c ->
  faulty (OpOpen (Path Source (r ++ [f]))) = Some e1 ->
  faulty (OpOpen (Path Replica (r ++ [f]))) = Some e2 ->
  propagate_file_step faulty r f w =
  (inr tt, md5_failed (Path Replica (r ++ [f])) e2
             (md5_failed (Path Source (r ++ [f])) e1 w)).
Proof.
  intros Hc H1 H2. unfold propagate_file_step, path_exists.
  rewrite bind_gets, Hc. cbn [negb].
  rewrite (bind_inr _ _ _ false
             (md5_failed (Path Replica (r ++ [f])) e2
                (md5_failed (Path Source (r ++ [f])) e1 w))); [reflexivity|].
  rewrite (bind_inr _ _ _ _ _ (calculate_md5_open_fails _ e1 w H1)).
  rewrite (bind_inr _ _ _ _ _ (calculate_md5_open_fails _ e2 _ H2)).
  reflexivity.
Qed.

(** When only one digest is [None], the copy is tried. *)
Lemma one_digest_fails r f w data e :
  find w (Path Replica (r ++ [f])) = Some (File data) ->
  faulty (OpOpen (Path Source (r ++ [f]))) = Some e ->
  readable faulty w (Path Replica (r ++ [f])) data ->
  propagate_file_step faulty r f w =
  propagate_copy_step faulty r f
    (md5_failed (Path Source (r ++ [f])) e w).
Proof.
  intros Hc H1 (Hf & Ho & Hr). unfold propagate_file_step, path_exists.
  rewrite bind_gets, Hc. cbn [negb].
  rewrite (bind_inr _ _ _ true (md5_failed (Path Source (r ++ [f])) e w));
    [reflexivity|].
  rewrite (bind_inr _ _ _ _ _ (calculate_md5_open_fails _ e w H1)).
  rewrite (bind_inr _ _ _ (Some (md5_hex data))
             (md5_failed (Path Source (r ++ [f])) e w)); [reflexivity|].
  apply calculate_md5_readable. split; [|now split].
  unfold find in *. destruct w; exact Hf.
Qed.

(** A copy that raises is not handled in the loop over the files. *)
Lemma failed_copy_raises r f w e :
  find w (Path Replica (r ++ [f])) = None ->
  copy2 faulty (Path Source (r ++ [f])) (Path Replica (r ++ [f])) w = (inl e, w) ->
  propagate_file_step faulty r f w = (inl e, w).
Proof.
  intros Hc He. unfold propagate_file_step, path_exists.
  rewrite bind_gets, Hc. cbn [negb]. rewrite bind_ret_l.
  unfold propagate_copy_step. now apply bind_inl.
Qed.

Lemma for_each_raises {A} (x : A) xs (body : A -> M unit) w e w' :
  body x w = (inl e, w') -> for_each (x :: xs) body w = (inl e, w').
Proof. intros H. cbn [for_each]. now apply bind_inl. Qed.

(** What raises out of the loops ends them both: the handler logs it and
    the function goes to its end. *)
Lemma finish_after_raise w e w1 :
  both_loops faulty w = (inl e, w1) ->
  finish faulty w = (inr PyNone, finished (loops_failed e w1)).
Proof.
  intros H. destruct (finish_run faulty w) as (w1' & Htry & ->).
  rewrite (try_inl _ _ _ _ _ H) in Htry. now inversion Htry.
Qed.

End Defects.

(** ** A source without entries *)

Lemma no_member_nil {A} (l : list A) : (forall x, ~ In x l) -> l = [].
Proof. destruct l as [|x l]; [reflexivity|]. intros H. destruct (H x). now left. Qed.

Section Bare.

Variable faulty : op -> option exn.

(** The first loop has nothing to do. *)
Lemma os_walk_bare_source w :
  bare_source w ->
  os_walk faulty source_root (propagate faulty source_root replica_root) w = (inr tt, w).
Proof.
  intros Hb. unfold os_walk. rewrite bind_gets.
  assert (Hfuel : exists fuel, walk_fuel source_root w = S fuel).
  { unfold walk_fuel. destruct (tree w (base source_root)); eauto. }
  destruct Hfuel as [fuel ->]. cbn [walk]. rewrite bind_gets.
  destruct (scandir faulty source_root w) as [[dirs files]|] eqn:Escan; [|reflexivity].
  apply scandir_some in Escan as (_ & Hd & Hf).
  assert (dirs = []) as ->.
  { apply no_member_nil. intros x Hx. apply Hd in Hx.
    change (src_stat w [x] = Some KDir) in Hx. rewrite Hb in Hx; discriminate. }
  assert (files = []) as ->.
  { apply no_member_nil. intros x Hx. apply Hf in Hx as [data Hx].
    change (src_stat w [x] = Some (KFile data)) in Hx. rewrite Hb in Hx; discriminate. }
  reflexivity.
Qed.

End Bare.

(** The second loop removes every entry of the replica. *)
Lemma prune_bare_source w :
  bare_source w -> src_stat w [] <> None -> rep_stat w [] = Some KDir ->
  exists w',
    os_walk no_faults replica_root (prune no_faults source_root replica_root) w =
      (inr tt, w') /\
    cleared w w' /\ empty_replica w' /\ rep_stat w' [] = Some KDir.
Proof.
  intros Hb Hsrc Hrep.
  assert (Hempty : forall u q, (forall t, src_stat u t = src_stat w t) ->
                               q <> [] -> src_stat u q = None).
  { intros u q Hu Hq. rewrite Hu. now apply Hb. }
  destruct (scandir_dir no_faults replica_root w eq_refl Hrep) as (dirs & files & Escan).
  destruct (for_each_total cleared
              (fun x u => src_stat u ([] ++ [x]) = None)
              (fun x u => forall q, rep_stat u (([] ++ [x]) ++ q) = None)
              (prune_step no_faults [])
              cleared_refl cleared_trans) with (xs := files ++ dirs) (w := w)
    as (w1 & E1 & HR1 & HP1).
  { intros x u u' H [[Hs _] _]. now rewrite Hs. }
  { intros x u u' H [Hp _] q. eapply pruned_gone; [exact Hp|apply H]. }
  { intros x u _ H. destruct (prune_step_gone [] x u H) as (u' & E & Hc & Hg).
    exists u'. auto. }
  { intros x _. apply (Hempty w); [reflexivity|discriminate]. }
  assert (Hwalks : for_each dirs
            (fun d => walk no_faults (match replica_tree w with
                                      | Some n => height n | None => 0 end)
                        (join replica_root [d])
                        (prune no_faults source_root replica_root)) w1 = (inr tt, w1)).
  { apply for_each_idle. intros d Hd. apply walk_missing.
    unfold join. cbn [base rel replica_root].
    specialize (HP1 d (in_or_app _ _ _ (or_intror Hd)) []).
    rewrite app_nil_r in HP1. unfold rep_stat in HP1. cbn [app] in *. congruence. }
  exists w1. split; [|split; [exact HR1|split]].
  - unfold os_walk. rewrite bind_gets.
    unfold walk_fuel. cbn [base replica_root tree].
    unfold rep_stat, stat, find in Hrep. cbn [base rel tree vlookup] in Hrep.
    destruct (replica_tree w) as [n|] eqn:Et; [|discriminate].
    cbn [walk]. rewrite bind_gets.
    change (Path Replica []) with replica_root. rewrite Escan.
    rewrite (bind_inr _ _ _ tt w1); [exact Hwalks|].
    change replica_root with (Path Replica []). now rewrite prune_steps.
  - destruct HR1 as [[Hs Hr] _]. intros q Hq.
    destruct q as [|x q]; [congruence|].
    destruct (rep_stat w [x]) as [k|] eqn:Ex.
    + apply (HP1 x).
      apply (scandir_all no_faults replica_root w dirs files x Escan).
      unfold join. cbn [base rel replica_root app]. unfold rep_stat in Ex. congruence.
    + eapply pruned_gone; [split; eauto|].
      unfold rep_stat in *. rewrite stat_vstat in *. cbn [base rel tree] in *.
      destruct (replica_tree w) as [n|]; [|reflexivity].
      apply (nstat_app_None n [x] q Ex).
  - destruct HR1 as [[Hs Hr] _].
    destruct (Hr []) as [H|(_ & q1 & Hp & Hn)]; [congruence|].
    exfalso. destruct q1; [|discriminate]. now apply Hsrc.
Qed.

Lemma bare_with_roots w : bare_source w -> bare_source (with_roots w).
Proof.
  intros Hb q Hq. specialize (Hb q Hq). revert Hb.
  unfold src_stat. rewrite !stat_vstat. cbn [base rel tree].
  rewrite source_with_roots.
  destruct (source_tree w) as [n|]; [auto|]. intros _.
  destruct q; [congruence|reflexivity].
Qed.

(** ** Folders anywhere in the file system *)

Lemma side_eqb_refl s : side_eqb s s = true.
Proof. now destruct s. Qed.

Lemma side_eqb_sym a b : side_eqb a b = side_eqb b a.
Proof. now destruct a, b. Qed.

Lemma prefixb_trans p : forall q r,
  prefixb p q = true -> prefixb q r = true -> prefixb p r = true.
Proof.
  induction p as [|x p IH]; intros q r Hpq Hqr; [reflexivity|].
  destruct q as [|y q]; [discriminate|]. destruct r as [|z r]; [discriminate|].
  cbn [prefixb] in *.
  apply andb_true_iff in Hpq as [Hxy Hpq]. apply andb_true_iff in Hqr as [Hyz Hqr].
  apply String.eqb_eq in Hxy, Hyz. subst.
  rewrite String.eqb_refl. cbn [andb]. now apply (IH q r).
Qed.

(** Two paths above one path: one is above the other. *)
Lemma prefixb_comparable p : forall q r,
  prefixb p r = true -> prefixb q r = true ->
  prefixb p q = true \/ prefixb q p = true.
Proof.
  induction p as [|x p IH]; intros q r Hp Hq; [now left|].
  destruct q as [|y q]; [now right|]. destruct r as [|z r]; [discriminate|].
  cbn [prefixb] in *.
  apply andb_true_iff in Hp as [Hxz Hp]. apply andb_true_iff in Hq as [Hyz Hq].
  apply String.eqb_eq in Hxz, Hyz. subst.
  rewrite String.eqb_refl. cbn [andb]. now apply (IH q r).
Qed.

Lemma under_refl a : under a a = true.
Proof. unfold under. now rewrite side_eqb_refl, prefixb_refl. Qed.

Lemma under_trans a b c : under a b = true -> under b c = true -> under a c = true.
Proof.
  unfold under. intros H1 H2.
  apply andb_true_iff in H1 as [Hs1 Hp1]. apply andb_true_iff in H2 as [Hs2 Hp2].
  destruct (side_eqb_spec (base a) (base b)) as [E1|]; [|discriminate].
  destruct (side_eqb_spec (base b) (base c)) as [E2|]; [|discriminate].
  rewrite E1, E2, side_eqb_refl. cbn [andb]. now apply (prefixb_trans _ (rel b)).
Qed.

Lemma under_join a cs : under a (join a cs) = true.
Proof. unfold under, join. cbn [base rel]. now rewrite side_eqb_refl, prefixb_app. Qed.

Lemma under_below a p cs : under a p = true -> under a (join p cs) = true.
Proof. intros H. apply (under_trans a p); [exact H|apply under_join]. Qed.

Lemma under_comparable a b c :
  under a c = true -> under b c = true -> under a b = true \/ under b a = true.
Proof.
  unfold under. intros H1 H2.
  apply andb_true_iff in H1 as [Hs1 Hp1]. apply andb_true_iff in H2 as [Hs2 Hp2].
  destruct (side_eqb_spec (base a) (base c)) as [E1|]; [|discriminate].
  destruct (side_eqb_spec (base b) (base c)) as [E2|]; [|discriminate].
  rewrite E1, E2, side_eqb_refl. cbn [andb]. now apply (prefixb_comparable _ _ (rel c)).
Qed.

Lemma under_antisym a b : under a b = true -> under b a = true -> a = b.
Proof.
  unfold under. intros H1 H2.
  apply andb_true_iff in H1 as [Hs1 Hp1]. apply andb_true_iff in H2 as [_ Hp2].
  destruct (side_eqb_spec (base a) (base b)) as [E|]; [|discriminate].
  destruct (prefixb_true _ _ Hp1) as [r Hr]. rewrite Hr in Hp2.
  destruct a as [sa ra], b as [sb rb]. cbn [base rel] in *. subst sb rb.
  destruct r as [|x r]; [now rewrite app_nil_r|].
  exfalso. clear -Hp2. induction ra as [|y ra IH]; [discriminate|].
  cbn [app prefixb] in Hp2. apply andb_true_iff in Hp2 as [_ Hp2]. now apply IH.
Qed.

Lemma copy_target_under r w src dst :
  under r dst = true -> under r (copy_target w src dst) = true.
Proof.
  intros H. unfold copy_target.
  destruct (find w dst) as [[?|?]|]; try exact H. now apply under_below.
Qed.

Lemma permitted_weaken source replica a b m :
  (stat b source = None -> under replica source = false -> stat a source = None) ->
  permitted source replica b m -> permitted source replica a m.
Proof.
  intros H [Hm|[Hm Hn]]; [now left|].
  destruct (under replica source) eqn:E.
  - left. subst m. exact E.
  - right. split; [exact Hm|]. now apply H.
Qed.

Lemma fenced_refl source replica w : fenced source replica w w.
Proof.
  split; [intros p _; now left|].
  exists []. split; [now rewrite app_nil_r|constructor].
Qed.

Lemma fenced_trans source replica a b c :
  fenced source replica a b -> fenced source replica b c -> fenced source replica a c.
Proof.
  intros [Hs1 (j1 & Hj1 & Ha1)] [Hs2 (j2 & Hj2 & Ha2)]. split.
  - intros p Hp.
    destruct (Hs1 p Hp) as [E1|(N1 & D1 & U1)], (Hs2 p Hp) as [E2|(N2 & D2 & U2)].
    + left. congruence.
    + right. split; [congruence|]. now split.
    + right. split; [exact N1|]. split; [congruence|exact U1].
    + congruence.
  - exists (j1 ++ j2). split; [now rewrite Hj2, Hj1, app_assoc|].
    apply Forall_app. split; [exact Ha1|].
    eapply Forall_impl; [|exact Ha2].
    intros m. apply permitted_weaken. intros Hn Hu.
    destruct (Hs1 source Hu) as [E|(N & _)]; congruence.
Qed.

(** A step that changes no entry outside the replica folder and adds the
    permitted mutations [j]. *)
Lemma fenced_step source replica w w' j :
  (forall p, under replica p = false -> stat w' p = stat w p) ->
  journal w' = journal w ++ j -> Forall (permitted source replica w) j ->
  fenced source replica w w'.
Proof.
  intros Hs Hj Ha. split; [intros p Hp; left; now apply Hs|]. now exists j.
Qed.

Lemma fenced_same_trees source replica w w' :
  same_trees w w' -> journal w' = journal w -> fenced source replica w w'.
Proof.
  intros Ht Hj. apply fenced_step with (j := []).
  - intros p _. now apply stat_same_trees.
  - now rewrite app_nil_r.
  - constructor.
Qed.

Section Fence.

Variable faulty : op -> option exn.
Variables source replica : path.

Lemma fenced_log_info m : keeps (fenced source replica) (log_info m).
Proof. intros w r w' H. inversion H; subst. now apply fenced_same_trees. Qed.

Lemma fenced_log_error m : keeps (fenced source replica) (log_error m).
Proof. intros w r w' H. inversion H; subst. now apply fenced_same_trees. Qed.

Lemma fenced_set_changes_made b : keeps (fenced source replica) (set_changes_made b).
Proof. intros w r w' H. inversion H; subst. now apply fenced_same_trees. Qed.

Lemma fenced_calculate_md5 p : keeps (fenced source replica) (calculate_md5 faulty p).
Proof.
  intros w r w' H.
  destruct (calculate_md5_spec faulty p w) as [(data & _ & E)|(e & E)];
    rewrite E in H; inversion H; subst.
  - apply fenced_refl.
  - now apply fenced_same_trees.
Qed.

(** A directory made: what appears is at or above it. *)
Lemma fenced_created p w w' j :
  created p w w' ->
  (under replica p = true \/ p = source) ->
  journal w' = journal w ++ j -> Forall (permitted source replica w) j ->
  fenced source replica w w'.
Proof.
  intros Hc Hp Hj Ha. split; [|now exists j].
  intros q Hq. rewrite (Hc q).
  destruct (stat w q) as [k|] eqn:E; [now left|].
  rewrite side_eqb_sym. fold (under q p).
  destruct (under q p) eqn:Eqp; [|now left].
  right. split; [reflexivity|]. split; [reflexivity|].
  destruct Hp as [Hp| ->]; [|now left].
  destruct (under_comparable _ _ _ Eqp Hp) as [H|H]; [now right|congruence].
Qed.

Lemma fenced_makedirs p :
  under replica p = true -> keeps (fenced source replica) (makedirs faulty p).
Proof.
  intros Hp w r w' H.
  apply makedirs_run in H as [(e & _ & ->)|(_ & _ & Hc & _ & [->|(_ & Hj & _)])];
    try apply fenced_refl.
  apply (fenced_created p w w' [Mkdir p]); auto.
  constructor; [now left|constructor].
Qed.

Lemma fenced_makedirs_source : keeps (fenced source replica) (makedirs faulty source).
Proof.
  intros w r w' H.
  apply makedirs_run in H as [(e & _ & ->)|(_ & _ & Hc & _ & [->|(Hn & Hj & _)])];
    try apply fenced_refl.
  apply (fenced_created source w w' [Mkdir source]); auto.
  constructor; [now right|constructor].
Qed.

Lemma fenced_copy2 s d :
  under replica d = true -> keeps (fenced source replica) (copy2 faulty s d).
Proof.
  intros Hd w r w' H.
  apply copy2_run in H as [(e & _ & ->)|(_ & _ & data & _ & _ & [_ Ho] & Hj & _)];
    try apply fenced_refl.
  pose proof (copy_target_under replica w s d Hd) as Ht.
  apply fenced_step with (j := [WriteFile (copy_target w s d) data]); auto.
  - intros p Hp. apply Ho. intros ->. congruence.
  - constructor; [now left|constructor].
Qed.

Lemma fenced_removed p w w' m :
  removed p w w' -> under replica p = true -> target m = p ->
  journal w' = journal w ++ [m] -> fenced source replica w w'.
Proof.
  intros Hr Hp Hm Hj. apply fenced_step with (j := [m]); auto.
  - intros q Hq. rewrite (Hr q). fold (under p q).
    destruct (under p q) eqn:E; [|reflexivity].
    rewrite (under_trans _ _ _ Hp E) in Hq. discriminate.
  - constructor; [left; now rewrite Hm|constructor].
Qed.

Lemma fenced_remove p :
  under replica p = true -> keeps (fenced source replica) (remove faulty p).
Proof.
  intros Hp w r w' H.
  apply remove_run in H as [(e & _ & ->)|(_ & _ & Hr & Hj & _)];
    [apply fenced_refl|].
  now apply (fenced_removed p w w' (Unlink p)).
Qed.

Lemma fenced_rmtree p :
  under replica p = true -> keeps (fenced source replica) (rmtree faulty p).
Proof.
  intros Hp w r w' H.
  apply rmtree_run in H as [(e & _ & ->)|(_ & _ & Hr & Hj & _)];
    [apply fenced_refl|].
  now apply (fenced_removed p w w' (Rmtree p)).
Qed.

End Fence.

(** A walk stays at or below its top. *)
Lemma keeps_walk_under (R : state -> state -> Prop) faulty top body :
  (forall w, R w w) -> (forall a b c, R a b -> R b c -> R a c) ->
  (forall root dirs files, under top root = true -> keeps R (body root dirs files)) ->
  forall fuel start, under top start = true -> keeps R (walk faulty fuel start body).
Proof.
  intros R_refl R_trans Hb.
  induction fuel as [|fuel IH]; intros start Hstart; cbn [walk].
  - now apply keeps_ret.
  - apply keeps_bind; [exact R_trans|now apply keeps_gets|].
    intros [[dirs files]|]; [|now apply keeps_ret].
    apply keeps_bind; [exact R_trans|now apply Hb|].
    intros _. apply keeps_for_each; [exact R_refl|exact R_trans|].
    intros d _. apply IH. now apply under_below.
Qed.

Lemma keeps_os_walk_under (R : state -> state -> Prop) faulty top body :
  (forall w, R w w) -> (forall a b c, R a b -> R b c -> R a c) ->
  (forall root dirs files, under top root = true -> keeps R (body root dirs files)) ->
  keeps R (os_walk faulty top body).
Proof.
  intros R_refl R_trans Hb. unfold os_walk.
  apply keeps_bind; [exact R_trans|now apply keeps_gets|].
  intros fuel. apply (keeps_walk_under R faulty top); auto using under_refl.
Qed.

#[local] Hint Resolve fenced_refl fenced_trans fenced_log_info fenced_log_error
  fenced_set_changes_made fenced_calculate_md5 fenced_makedirs fenced_makedirs_source
  fenced_copy2 fenced_remove fenced_rmtree : keeps.
#[local] Hint Resolve under_refl under_join under_below : keeps.

Section FenceProgram.

Variable faulty : op -> option exn.
Variables source replica : path.

Lemma fenced_propagate root dirs files :
  keeps (fenced source replica) (propagate faulty source replica root dirs files).
Proof. unfold propagate, path_exists. keeps_tac. Qed.

Lemma fenced_prune root dirs files :
  under replica root = true ->
  keeps (fenced source replica) (prune faulty source replica root dirs files).
Proof. intros Hroot. unfold prune, path_exists, path_isdir. keeps_tac. Qed.

(** Every run of [sync_folders], on any two folders, stays within the
    fence. *)
Lemma fenced_sync_folders :
  keeps (fenced source replica) (sync_folders faulty source replica).
Proof.
  pose proof fenced_propagate as Hp.
  assert (Hw : keeps (fenced source replica)
                 (os_walk faulty replica (prune faulty source replica))).
  { apply keeps_os_walk_under; [apply fenced_refl|apply fenced_trans|].
    intros root dirs files. apply fenced_prune. }
  unfold sync_folders, path_exists.
  keeps_tac.
Qed.

End FenceProgram.


(** ** Folders with parents above them *)

Lemma vlookup_app o p q :
  vlookup o (p ++ q) =
  match vlookup o p with
  | Some c => lookup c q
  | None => None
  end.
Proof. destruct o as [n|]; [apply lookup_app|reflexivity]. Qed.

Lemma skipn_length_app {A} (p r : list A) : skipn (length p) (p ++ r) = r.
Proof. induction p as [|x p IH]; [reflexivity|exact IH]. Qed.

(** Writing below [p] rewrites the node at [p]. *)
Lemma lookup_write_below p : forall n d t c,
  lookup n p = Some d -> t <> [] ->
  lookup (write n (p ++ t) c) p = Some (write d t c).
Proof.
  induction p as [|x p IH]; intros n d t c Hl Ht.
  - cbn [app lookup] in *. congruence.
  - destruct n as [data|es]; [discriminate Hl|]. cbn [lookup] in Hl.
    destruct (assoc x es) as [c0|] eqn:Ex; [|discriminate Hl].
    assert (Hne : p ++ t <> []) by (destruct p; [exact Ht|discriminate]).
    cbn [app]. destruct (p ++ t) as [|y l] eqn:El; [congruence|].
    rewrite write_cons_cons, Ex. cbn [lookup]. rewrite assoc_put_eq.
    rewrite <- El. now apply IH.
Qed.

Lemma vwrite_below o p d t c :
  vlookup o p = Some d -> t <> [] ->
  vlookup (vwrite o (p ++ t) c) p = Some (write d t c).
Proof.
  intros Hl Ht. destruct o as [n|]; [|discriminate Hl]. cbn [vlookup] in Hl.
  assert (Hne : p ++ t <> []) by (destruct p; [exact Ht|discriminate]).
  unfold vwrite. destruct (p ++ t) as [|y l] eqn:El; [congruence|].
  cbn [option_map vlookup]. rewrite <- El. now apply lookup_write_below.
Qed.

(** Making directories below [p] rewrites the node at [p]. *)
Lemma mkdirs_below p : forall n d t,
  lookup n p = Some d ->
  match mkdirs d t with
  | inl e => mkdirs n (p ++ t) = inl e
  | inr d' => exists n', mkdirs n (p ++ t) = inr n' /\ lookup n' p = Some d'
  end.
Proof.
  induction p as [|x p IH]; intros n d t Hl.
  - cbn [app lookup] in *. inversion Hl; subst.
    destruct (mkdirs d t) as [e|d']; [reflexivity|]. now exists d'.
  - destruct n as [data|es]; [discriminate Hl|]. cbn [lookup] in Hl.
    destruct (assoc x es) as [c0|] eqn:Ex; [|discriminate Hl].
    specialize (IH c0 d t Hl). cbn [app mkdirs]. rewrite Ex.
    destruct (mkdirs d t) as [e|d'].
    + now rewrite IH.
    + destruct IH as (n' & -> & Hn'). eexists. split; [reflexivity|].
      cbn [lookup]. now rewrite assoc_put_eq.
Qed.

Lemma height_lookup p : forall n d, lookup n p = Some d -> height d <= height n.
Proof.
  induction p as [|x p IH]; intros n d Hl.
  - cbn [lookup] in Hl. inversion Hl. lia.
  - destruct n as [data|es]; [discriminate Hl|]. cbn [lookup] in Hl.
    destruct (assoc x es) as [c0|] eqn:Ex; [|discriminate Hl].
    pose proof (height_child _ _ _ Ex). specialize (IH _ _ Hl). lia.
Qed.

Lemma removelast_app_ne {A} (p t : list A) :
  t <> [] -> removelast (p ++ t) = p ++ removelast t.
Proof. intros H. now apply removelast_app. Qed.

Lemma rev_app_head {A} (p t : list A) x l :
  rev t = x :: l -> exists l', rev (p ++ t) = x :: l'.
Proof. intros H. rewrite rev_app_distr, H. cbn [app]. eauto. Qed.

Section Below.

Variables ps pr : list name.

Lemma lift_join p cs : lift ps pr (join p cs) = join (lift ps pr p) cs.
Proof. unfold lift, join. cbn [base rel]. now rewrite app_assoc. Qed.

Lemma lift_source_root : lift ps pr source_root = Path Source ps.
Proof. unfold lift. cbn [base rel source_root]. now rewrite app_nil_r. Qed.

Lemma lift_replica_root : lift ps pr replica_root = Path Replica pr.
Proof. unfold lift. cbn [base rel replica_root]. now rewrite app_nil_r. Qed.

Lemma seen_tree u v s :
  seen ps pr u v ->
  vlookup (tree u s) (match s with Source => ps | Replica => pr end) = tree v s.
Proof. intros (_ & _ & Hs & Hr). now destruct s. Qed.

Lemma find_lift u v p : seen ps pr u v -> find u (lift ps pr p) = find v p.
Proof.
  intros H. unfold find, lift. cbn [base rel].
  rewrite vlookup_app, (seen_tree u v (base p) H).
  now destruct (tree v (base p)).
Qed.

Lemma basename_lift p : rel p <> [] -> basename (lift ps pr p) = basename p.
Proof.
  intros H. unfold basename, lift. cbn [rel].
  destruct (rev (rel p)) as [|x l] eqn:E.
  - exfalso. apply H. apply (f_equal (@rev name)) in E.
    now rewrite rev_involutive in E.
  - destruct (rev_app_head (match base p with Source => ps | Replica => pr end)
                _ _ _ E) as [l' ->]. reflexivity.
Qed.

Lemma dirname_lift p : rel p <> [] -> dirname (lift ps pr p) = lift ps pr (dirname p).
Proof.
  intros H. unfold dirname, lift. cbn [base rel]. now rewrite removelast_app_ne.
Qed.

(** *** Computations in step *)

Lemma alike_ret {A} (a : A) : alike ps pr (ret a) (ret a).
Proof. intros u v H. now split. Qed.

Lemma alike_raise {A} e : alike ps pr (@raise A e) (raise e).
Proof. intros u v H. now split. Qed.

Lemma alike_bind {A B} (c c' : M A) (k k' : A -> M B) :
  alike ps pr c c' -> (forall a, alike ps pr (k a) (k' a)) -> alike ps pr (bind c k) (bind c' k').
Proof.
  intros Hc Hk u v H. unfold bind. destruct (Hc u v H) as [Hr Hs].
  destruct (c u) as [[e|a] u1], (c' v) as [[e'|a'] v1]; cbn [fst snd] in *;
    try discriminate.
  - inversion Hr; subst e'. now split.
  - inversion Hr; subst a'. now apply Hk.
Qed.

Lemma alike_try {A} (c c' : M A) h h' :
  alike ps pr c c' -> (forall e, alike ps pr (h e) (h' e)) ->
  alike ps pr (try_except c h) (try_except c' h').
Proof.
  intros Hc Hh u v H. unfold try_except. destruct (Hc u v H) as [Hr Hs].
  destruct (c u) as [[e|a] u1], (c' v) as [[e'|a'] v1]; cbn [fst snd] in *;
    try discriminate.
  - inversion Hr; subst e'. now apply Hh.
  - inversion Hr; subst a'. now split.
Qed.

Lemma alike_for_each {A} (xs : list A) (body body' : A -> M unit) :
  (forall x, alike ps pr (body x) (body' x)) -> alike ps pr (for_each xs body) (for_each xs body').
Proof.
  intros Hb. induction xs as [|x xs IH]; cbn [for_each].
  - apply alike_ret.
  - apply alike_bind; [apply Hb|intros _; exact IH].
Qed.

Lemma alike_gets {A} (f g : state -> A) :
  (forall u v, seen ps pr u v -> f u = g v) -> alike ps pr (gets f) (gets g).
Proof. intros Hfg u v H. unfold gets. cbn [fst snd]. split; [f_equal; auto|exact H]. Qed.

Lemma alike_log_info m m' : alike ps pr (log_info m) (log_info m').
Proof. intros u v H. split; [reflexivity|exact H]. Qed.

Lemma alike_log_error m m' : alike ps pr (log_error m) (log_error m').
Proof. intros u v H. split; [reflexivity|exact H]. Qed.

Lemma alike_set_changes_made b : alike ps pr (set_changes_made b) (set_changes_made b).
Proof. intros u v H. split; [reflexivity|exact H]. Qed.

Lemma alike_path_exists p : alike ps pr (path_exists (lift ps pr p)) (path_exists p).
Proof.
  apply alike_gets. intros u v H. now rewrite (find_lift u v p H).
Qed.

Lemma alike_path_isdir p : alike ps pr (path_isdir (lift ps pr p)) (path_isdir p).
Proof.
  apply alike_gets. intros u v H. now rewrite (find_lift u v p H).
Qed.

Lemma alike_scandir p :
  alike ps pr (gets (scandir no_faults (lift ps pr p))) (gets (scandir no_faults p)).
Proof.
  apply alike_gets. intros u v H. unfold scandir, no_faults.
  now rewrite (find_lift u v p H).
Qed.

(** An entry set or cleared below the replica folder. *)
Lemma seen_write u v t c m m' :
  seen ps pr u v -> t <> [] ->
  seen ps pr
    (add_journal (set_tree u Replica (vwrite (tree u Replica) (pr ++ t) c)) m)
    (add_journal (set_tree v Replica (vwrite (tree v Replica) t c)) m').
Proof.
  intros (Hs & Hr & Es & Er) Ht.
  destruct (replica_tree v) as [d|] eqn:Ev; [|congruence].
  unfold seen, find, add_journal, set_tree.
  cbn [source_tree replica_tree tree base rel]. rewrite Ev.
  split; [exact Hs|]. split.
  - unfold vwrite. destruct t; [congruence|discriminate].
  - split; [exact Es|].
    unfold find in Er. cbn [base rel tree] in Er.
    rewrite (vwrite_below _ _ _ _ _ Er Ht).
    unfold vwrite. destruct t; [congruence|reflexivity].
Qed.

Lemma alike_calculate_md5 p :
  alike ps pr (calculate_md5 no_faults (lift ps pr p)) (calculate_md5 no_faults p).
Proof.
  intros u v H. pose proof (find_lift u v p H) as Hf.
  destruct (find v p) as [[data|es]|] eqn:Ev.
  - rewrite (calculate_md5_readable no_faults (lift ps pr p) u data),
            (calculate_md5_readable no_faults p v data);
      [now split|repeat split; auto..].
  - destruct (calculate_md5_spec no_faults (lift ps pr p) u) as [(data & Hd & _)|(e & ->)];
      [congruence|].
    destruct (calculate_md5_spec no_faults p v) as [(data & Hd & _)|(e' & ->)];
      [congruence|].
    split; [reflexivity|exact H].
  - destruct (calculate_md5_spec no_faults (lift ps pr p) u) as [(data & Hd & _)|(e & ->)];
      [congruence|].
    destruct (calculate_md5_spec no_faults p v) as [(data & Hd & _)|(e' & ->)];
      [congruence|].
    split; [reflexivity|exact H].
Qed.

Lemma alike_makedirs p :
  base p = Replica -> alike ps pr (makedirs no_faults (lift ps pr p)) (makedirs no_faults p).
Proof.
  intros Hb u v H. pose proof (find_lift u v p H) as Hf.
  destruct H as (Hs & Hr & Es & Er).
  unfold makedirs, fault, no_faults. rewrite !bind_ret_l.
  rewrite Hf. unfold lift. rewrite Hb. cbn [base rel].
  unfold find in Er. cbn [base rel tree] in Er.
  destruct (replica_tree v) as [d|] eqn:Ev; [|congruence].
  cbn [tree]. rewrite Ev. cbn [vmkdirs].
  destruct (replica_tree u) as [n|] eqn:Eu; [|discriminate Er].
  cbn [vlookup vmkdirs] in *.
  pose proof (mkdirs_below pr n d (rel p) Er) as Hm.
  destruct (mkdirs d (rel p)) as [e|d'].
  - rewrite Hm. cbn [fst snd]. split; [reflexivity|].
    unfold seen, find. cbn [base rel tree]. now rewrite Eu, Ev.
  - destruct Hm as (n' & -> & Hn').
    destruct (find v p); cbn [fst snd]; (split; [reflexivity|]).
    + unfold seen, find. cbn [base rel tree]. now rewrite Eu, Ev.
    + unfold seen, find, add_journal, set_tree.
      cbn [source_tree replica_tree tree base rel vlookup].
      split; [exact Hs|]. split; [discriminate|]. split; [exact Es|exact Hn'].
Qed.

Lemma alike_remove p :
  base p = Replica -> rel p <> [] ->
  alike ps pr (remove no_faults (lift ps pr p)) (remove no_faults p).
Proof.
  intros Hb Hp u v H. pose proof (find_lift u v p H) as Hf.
  unfold remove, fault, no_faults. rewrite !bind_ret_l. rewrite Hf.
  destruct (find v p) as [[data|es]|]; cbn [fst snd];
    (split; [reflexivity|]); try exact H.
  unfold lift. rewrite Hb. cbn [base rel]. now apply seen_write.
Qed.

Lemma alike_rmtree p :
  base p = Replica -> rel p <> [] ->
  alike ps pr (rmtree no_faults (lift ps pr p)) (rmtree no_faults p).
Proof.
  intros Hb Hp u v H. pose proof (find_lift u v p H) as Hf.
  unfold rmtree, fault, no_faults. rewrite !bind_ret_l. rewrite Hf.
  destruct (find v p) as [[data|es]|]; cbn [fst snd];
    (split; [reflexivity|]); try exact H.
  unfold lift. rewrite Hb. cbn [base rel]. now apply seen_write.
Qed.

Lemma alike_fault o o' : alike ps pr (fault no_faults o) (fault no_faults o').
Proof. intros u v H. now split. Qed.

Lemma alike_parent_check p :
  rel p <> [] -> alike ps pr (parent_check (lift ps pr p)) (parent_check p).
Proof.
  intros Hp u v H. unfold parent_check.
  pose proof (dirname_lift p Hp) as Hd.
  pose proof (find_lift u v (dirname p) H) as Hf. rewrite <- Hd in Hf.
  destruct (rel p) as [|x l] eqn:E; [congruence|].
  assert (Hne : exists y l', rel (lift ps pr p) = y :: l').
  { unfold lift. cbn [rel]. rewrite E.
    destruct (match base p with Source => ps | Replica => pr end); cbn [app]; eauto. }
  destruct Hne as (y & l' & ->). rewrite Hf.
  destruct (find v (dirname p)) as [[data|es]|]; now split.
Qed.

(** The copy itself, once the target is known. *)
Lemma alike_copy_into s d :
  base d = Replica -> rel d <> [] ->
  alike ps pr
    (fun w =>
       match find w (lift ps pr s) with
       | None => (inl FileNotFoundError, w)
       | Some (Dir _) => (inl IsADirectoryError, w)
       | Some (File data) =>
           (parent_check (lift ps pr d) ;;
            fun w =>
              match find w (lift ps pr d) with
              | Some (Dir _) => (inl IsADirectoryError, w)
              | _ =>
                  (inr tt,
                   add_journal
                     (set_tree w (base (lift ps pr d))
                        (vwrite (tree w (base (lift ps pr d))) (rel (lift ps pr d))
                           (Some (File data))))
                     (WriteFile (lift ps pr d) data))
              end) w
       end)
    (fun w =>
       match find w s with
       | None => (inl FileNotFoundError, w)
       | Some (Dir _) => (inl IsADirectoryError, w)
       | Some (File data) =>
           (parent_check d ;;
            fun w =>
              match find w d with
              | Some (Dir _) => (inl IsADirectoryError, w)
              | _ =>
                  (inr tt,
                   add_journal
                     (set_tree w (base d)
                        (vwrite (tree w (base d)) (rel d) (Some (File data))))
                     (WriteFile d data))
              end) w
       end).
Proof.
  intros Hb Hd u v H. cbn beta. rewrite (find_lift u v s H).
  destruct (find v s) as [[data|es]|]; [|now split..].
  apply alike_bind; [now apply alike_parent_check| |exact H].
  intros _ u1 v1 H1. cbn beta. rewrite (find_lift u1 v1 d H1).
  assert (Hw : seen ps pr
            (add_journal
               (set_tree u1 (base (lift ps pr d))
                  (vwrite (tree u1 (base (lift ps pr d))) (rel (lift ps pr d))
                     (Some (File data))))
               (WriteFile (lift ps pr d) data))
            (add_journal
               (set_tree v1 (base d) (vwrite (tree v1 (base d)) (rel d) (Some (File data))))
               (WriteFile d data))).
  { unfold lift. rewrite Hb. cbn [base rel]. now apply seen_write. }
  destruct (find v1 d) as [[data'|es']|]; cbn [fst snd]; split;
    try reflexivity; assumption.
Qed.

Lemma alike_copy2 s d :
  base s = Source -> base d = Replica -> rel s <> [] -> rel d <> [] ->
  alike ps pr (copy2 no_faults (lift ps pr s) (lift ps pr d)) (copy2 no_faults s d).
Proof.
  intros Hs Hd Hrs Hrd. unfold copy2.
  apply alike_bind; [apply alike_fault|intros _].
  apply alike_bind; [apply alike_path_isdir|intros isd]. cbv zeta.
  rewrite (basename_lift s Hrs), <- lift_join.
  assert (Ht : (if isd then lift ps pr (join d (basename s)) else lift ps pr d) =
               lift ps pr (if isd then join d (basename s) else d))
    by (now destruct isd).
  rewrite Ht. clear Ht.
  set (d' := if isd then join d (basename s) else d).
  assert (Hb : base d' = Replica) by (unfold d'; now destruct isd).
  assert (Hr : rel d' <> []).
  { unfold d'. destruct isd; [|exact Hrd]. unfold join. cbn [rel].
    destruct (rel d); [congruence|discriminate]. }
  assert (Ho : path_eqb (lift ps pr s) (lift ps pr d') = false)
    by (unfold path_eqb, lift; cbn [base]; now rewrite Hs, Hb).
  assert (Hi : path_eqb s d' = false)
    by (unfold path_eqb; now rewrite Hs, Hb).
  rewrite Ho, Hi.
  apply alike_bind; [apply alike_ret|intros _].
  now apply alike_copy_into.
Qed.

(** *** The two loops in step *)

Lemma alike_propagate_dir r d :
  alike ps pr
    (try_except
       (makedirs no_faults (join (join (Path Replica pr) r) [d]))
       (fun e => log_error (Failed_to_create_directory (join (Path Replica pr) r) d e)))
    (propagate_dir_step no_faults r d).
Proof.
  unfold propagate_dir_step.
  apply alike_try; [|intros e; apply alike_log_error].
  assert (E : join (join (Path Replica pr) r) [d] =
              lift ps pr (Path Replica (r ++ [d])))
    by (unfold lift, join; cbn [base rel]; now rewrite app_assoc).
  rewrite E. now apply alike_makedirs.
Qed.

Lemma alike_propagate r dirs files :
  alike ps pr
    (propagate no_faults (Path Source ps) (Path Replica pr) (Path Source (ps ++ r))
       dirs files)
    (propagate no_faults source_root replica_root (Path Source r) dirs files).
Proof.
  rewrite propagate_steps. unfold propagate.
  assert (Hrel : relpath (Path Source (ps ++ r)) (Path Source ps) = r)
    by (unfold relpath; cbn [rel]; apply skipn_length_app).
  rewrite Hrel. cbv zeta.
  apply alike_bind; [|intros _].
  { apply alike_for_each. intros d. apply alike_propagate_dir. }
  apply alike_for_each. intros f. unfold propagate_file_step, propagate_copy_step.
  assert (E1 : join (Path Source (ps ++ r)) [f] = lift ps pr (Path Source (r ++ [f])))
    by (unfold lift, join; cbn [base rel]; now rewrite app_assoc).
  assert (E2 : join (join (Path Replica pr) r) [f] = lift ps pr (Path Replica (r ++ [f])))
    by (unfold lift, join; cbn [base rel]; now rewrite app_assoc).
  rewrite E1, E2.
  apply alike_bind; [apply alike_path_exists|intros there].
  apply alike_bind; [|intros differs].
  - destruct (negb there); [apply alike_ret|].
    apply alike_bind; [apply alike_calculate_md5|intros a].
    apply alike_bind; [apply alike_calculate_md5|intros b]. apply alike_ret.
  - destruct differs; [|apply alike_ret].
    apply alike_bind; [|intros _].
    + apply alike_copy2; try reflexivity; cbn [rel]; now destruct r.
    + apply alike_bind; [apply alike_log_info|intros _].
      apply alike_set_changes_made.
Qed.

Lemma alike_prune r dirs files :
  alike ps pr
    (prune no_faults (Path Source ps) (Path Replica pr) (Path Replica (pr ++ r))
       dirs files)
    (prune no_faults source_root replica_root (Path Replica r) dirs files).
Proof.
  rewrite prune_steps. unfold prune.
  assert (Hrel : relpath (Path Replica (pr ++ r)) (Path Replica pr) = r)
    by (unfold relpath; cbn [rel]; apply skipn_length_app).
  rewrite Hrel. cbv zeta.
  apply alike_for_each. intros x.
  unfold prune_step, prune_delete_step.
  assert (E1 : join (join (Path Source ps) r) [x] = lift ps pr (Path Source (r ++ [x])))
    by (unfold lift, join; cbn [base rel]; now rewrite app_assoc).
  assert (E2 : join (Path Replica (pr ++ r)) [x] = lift ps pr (Path Replica (r ++ [x])))
    by (unfold lift, join; cbn [base rel]; now rewrite app_assoc).
  rewrite E1, E2.
  assert (Hne : r ++ [x] <> []) by (now destruct r).
  apply alike_try; [|intros e; apply alike_log_error].
  apply alike_bind; [apply alike_path_exists|intros there].
  destruct (negb there); [|apply alike_ret].
  apply alike_bind; [apply alike_path_isdir|intros isd].
  apply alike_bind; [|intros _; apply alike_set_changes_made].
  destruct isd.
  - apply alike_bind; [now apply alike_rmtree|intros _; apply alike_log_info].
  - apply alike_bind; [now apply alike_remove|intros _; apply alike_log_info].
Qed.

Lemma alike_walk (bo bi : path -> list name -> list name -> M unit) s :
  (forall r dirs files,
     alike ps pr (bo (lift ps pr (Path s r)) dirs files) (bi (Path s r) dirs files)) ->
  forall fuel r,
    alike ps pr (walk no_faults fuel (lift ps pr (Path s r)) bo)
                (walk no_faults fuel (Path s r) bi).
Proof.
  intros Hb. induction fuel as [|fuel IH]; intros r; cbn [walk].
  - apply alike_ret.
  - apply alike_bind; [apply alike_scandir|].
    intros [[dirs files]|]; [|apply alike_ret].
    apply alike_bind; [apply Hb|intros _].
    apply alike_for_each. intros d. rewrite <- lift_join. apply IH.
Qed.

(** The fuel that [os.walk] takes from the whole tree is enough for the
    folder. *)
Lemma seen_fuel u v s :
  seen ps pr u v ->
  exists k,
    walk_fuel (lift ps pr (Path s [])) u = walk_fuel (Path s []) v + k.
Proof.
  intros H. pose proof (seen_tree u v s H) as Ht.
  assert (Hv : tree v s <> None) by (destruct H as (H1 & H2 & _); now destruct s).
  unfold walk_fuel, lift. cbn [base rel].
  destruct (tree v s) as [d|]; [|congruence].
  destruct (tree u s) as [n|]; [|discriminate Ht]. cbn [vlookup] in Ht.
  pose proof (height_lookup _ _ _ Ht).
  exists (height n - height d). lia.
Qed.

Lemma os_walk_run faulty top body w :
  os_walk faulty top body w = walk faulty (walk_fuel top w) top body w.
Proof. unfold os_walk. now rewrite bind_gets. Qed.

Lemma alike_loops :
  alike ps pr (loops no_faults (Path Source ps) (Path Replica pr)) (both_loops no_faults).
Proof.
  unfold loops, both_loops. rewrite <- lift_source_root, <- lift_replica_root.
  apply alike_bind; [|intros _].
  - intros u v H. rewrite (os_walk_run _ _ _ u).
    destruct (seen_fuel u v Source H) as [k Hk].
    change (Path Source []) with source_root in Hk. rewrite Hk. clear Hk.
    rewrite <- (os_walk_propagate_fuel no_faults k v).
    apply (alike_walk _ _ Source); [|exact H]. intros r dirs files.
    rewrite lift_source_root, lift_replica_root. apply alike_propagate.
  - intros u v H. rewrite (os_walk_run _ _ _ u).
    destruct (seen_fuel u v Replica H) as [k Hk].
    change (Path Replica []) with replica_root in Hk. rewrite Hk. clear Hk.
    rewrite <- (os_walk_prune_fuel no_faults k v).
    apply (alike_walk _ _ Replica); [|exact H]. intros r dirs files.
    rewrite lift_source_root, lift_replica_root. apply alike_prune.
Qed.

End Below.

(** *** Making a folder with its parents *)

Lemma stat_below_none w s p q :
  stat w (Path s p) = None -> stat w (Path s (p ++ q)) = None.
Proof.
  rewrite !stat_vstat. cbn [base rel]. unfold vstat, vlookup.
  destruct (tree w s) as [n|]; [|reflexivity].
  apply (nstat_app_None n p q).
Qed.

(** Above a directory there are directories only. *)
Lemma dir_above w p q : stat w p = Some KDir -> under q p = true -> stat w q = Some KDir.
Proof.
  unfold under. intros Hp Hq. apply andb_true_iff in Hq as [Hs Hq].
  destruct (side_eqb_spec (base q) (base p)) as [E|]; [|discriminate].
  destruct (prefixb_true _ _ Hq) as [t Ht].
  destruct t as [|x t].
  - rewrite app_nil_r in Ht. destruct p, q. cbn [base rel] in *. congruence.
  - rewrite stat_vstat in *. rewrite E. rewrite Ht in Hp.
    apply (vstat_parent _ _ (x :: t)); [congruence|discriminate].
Qed.

Lemma prefixb_app_self p : forall q, q <> [] -> prefixb (p ++ q) p = false.
Proof.
  induction p as [|x p IH]; intros q Hq.
  - destruct q; [congruence|reflexivity].
  - cbn [app prefixb]. rewrite (IH q Hq). apply andb_false_r.
Qed.

Lemma created_existing p w : stat w p = Some KDir -> created p w w.
Proof.
  intros Hp q. destruct (stat w q) as [k|] eqn:E; [reflexivity|].
  rewrite side_eqb_sym. fold (under q p).
  destruct (under q p) eqn:Eu; [|reflexivity].
  rewrite (dir_above w p q Hp Eu) in E. discriminate.
Qed.

(** The step of the first [try] on one folder, when nothing fails and no
    regular file is in the way: the folder is there afterwards, with
    every parent, and the flag is set when it was made. *)
Lemma ensure_root_made p which w :
  passable w p ->
  exists w',
    ensure_root no_faults p which w = (inr tt, w') /\
    created p w w' /\ stat w' p = Some KDir /\
    changes_made w' =
      changes_made w || match stat w p with None => true | Some _ => false end.
Proof.
  intros Hpass. unfold ensure_root, path_exists. rewrite bind_gets.
  destruct (find w p) as [c|] eqn:Ef; cbn [negb].
  - assert (Hp : stat w p = Some KDir).
    { unfold stat. rewrite Ef. destruct c as [data|es]; [|reflexivity].
      exfalso. apply (Hpass (rel p) data (prefixb_refl _)).
      rewrite path_eta. unfold stat. now rewrite Ef. }
    exists w. split; [reflexivity|]. split; [now apply created_existing|].
    split; [exact Hp|]. rewrite Hp. now rewrite orb_false_r.
  - assert (Hn : stat w p = None) by (unfold stat; now rewrite Ef).
    destruct (makedirs_ok p w Hpass) as (w1 & E & [Hl Hf] & Hc & Hd).
    rewrite (bind_inr _ _ _ _ _ E). cbn.
    eexists. split; [reflexivity|].
    split; [exact Hc|]. split; [exact Hd|].
    cbn [changes_made]. rewrite Hn. now rewrite orb_true_r.
Qed.

Lemma passable_created p q w w' : created q w w' -> passable w p -> passable w' p.
Proof.
  intros Hc Hp t data Ht E. rewrite (Hc _) in E.
  destruct (stat w (Path (base p) t)) as [k|] eqn:Es.
  - inversion E; subst k. now apply (Hp t data Ht).
  - destruct (side_eqb (base q) (base (Path (base p) t)) &&
              prefixb (rel (Path (base p) t)) (rel q)); discriminate.
Qed.

Lemma stat_started w p : stat (started w) p = stat w p.
Proof. reflexivity. Qed.

Section Made.

Variable faulty : op -> option exn.
Variables source replica : path.

Lemma sync_folders_parts :
  sync_folders faulty source replica =
  (log_info Starting_synchronization ;;
   set_changes_made false ;;
   returned <-
     try_except
       ((ensure_root faulty source "source" ;;
         ensure_root faulty replica "replica" ;;
         ret tt) ;;
        ret None)
       (fun e =>
          log_error (Failed_to_create_directories replica source e) ;;
          flag <- gets changes_made ;;
          ret (Some (PyBool flag))) ;;
   match returned with
   | Some v => ret v
   | None =>
       try_except (loops faulty source replica)
         (fun e => log_error (Error_during_synchronization e)) ;;
       flag <- gets changes_made ;;
       (if negb flag then log_info No_changes_made else ret tt) ;;
       log_info Synchronization_completed ;;
       ret PyNone
   end)%monad.
Proof. reflexivity. Qed.

Lemma flag_loops : keeps flag_kept (loops faulty source replica).
Proof. unfold loops, propagate, prune, path_exists, path_isdir. keeps_tac. Qed.

Lemma fenced_loops : keeps (fenced source replica) (loops faulty source replica).
Proof.
  unfold loops. apply keeps_bind; [apply fenced_trans| |intros _].
  - apply keeps_os_walk; [apply fenced_refl|apply fenced_trans|].
    intros root dirs files _. apply fenced_propagate.
  - apply keeps_os_walk_under; [apply fenced_refl|apply fenced_trans|].
    intros root dirs files. apply fenced_prune.
Qed.

(** The call, when both folders are there or have been made and the two
    loops return with the flag set. *)
Lemma sync_folders_made w w1 w2 u :
  ensure_root faulty source "source" (started w) = (inr tt, w1) ->
  ensure_root faulty replica "replica" w1 = (inr tt, w2) ->
  loops faulty source replica w2 = (inr tt, u) ->
  changes_made u = true ->
  sync_folders faulty source replica w =
  (inr PyNone,
   State (source_tree u) (replica_tree u)
         (log u ++ [INFO Synchronization_completed]) (journal u) true).
Proof.
  intros E1 E2 E3 Hf. rewrite sync_folders_parts.
  change ((log_info Starting_synchronization ;; set_changes_made false ;; ?k) w)
    with (k (started w)).
  rewrite (bind_inr _ _ _ None w2).
  2:{ apply try_inr. rewrite (bind_inr _ _ _ tt w2); [reflexivity|].
      rewrite (bind_inr _ _ _ _ _ E1), (bind_inr _ _ _ _ _ E2). reflexivity. }
  rewrite (bind_inr _ _ _ tt u) by (now apply try_inr).
  rewrite bind_gets, Hf. cbn. now rewrite Hf.
Qed.

(** Below the source folder nothing changes when the folders are apart. *)
Lemma fenced_source w w' p :
  fenced source replica w w' -> apart source replica ->
  under source p = true -> p <> source -> stat w' p = stat w p.
Proof.
  intros [Hst _] [Hsr Hrs] Hp Hne.
  assert (Hout : under replica p = false).
  { destruct (under replica p) eqn:Erp; [|reflexivity].
    destruct (under_comparable _ _ _ Hp Erp); congruence. }
  destruct (Hst p Hout) as [H|(_ & _ & [H|H])]; [exact H|exfalso..].
  - apply Hne. now apply under_antisym.
  - rewrite (under_trans _ _ _ Hp H) in Hsr. discriminate.
Qed.

End Made.

(** *** A call on a folder that is missing *)

(** After the folders have been made, one of them is empty: the two
    loops return and leave the replica identical to the source. *)
Lemma both_loops_after_making v :
  src_stat v [] = Some KDir -> rep_stat v [] = Some KDir ->
  bare_source v \/ empty_replica v ->
  exists v', both_loops no_faults v = (inr tt, v') /\ identical v'.
Proof.
  intros Hsrc Hrep [Hb|He].
  - destruct (prune_bare_source v Hb) as (v' & E & [[Hs _] _] & Hempty & Hroot);
      [congruence|exact Hrep|].
    exists v'. split.
    + unfold both_loops.
      now rewrite (bind_inr _ _ _ _ _ (os_walk_bare_source no_faults v Hb)).
    + intros q. rewrite Hs. destruct q as [|x q]; [congruence|].
      rewrite Hempty, Hb by discriminate. reflexivity.
  - assert (Hin : within v).
    { intros q k Hq. destruct q as [|x q]; [congruence|].
      rewrite He in Hq by discriminate. discriminate. }
    destruct (both_loops_fresh v Hin Hsrc Hrep) as (v' & E & _ & Hn & _).
    exists v'. split; [exact E|].
    assert (Hq : quiet (both_loops no_faults) v tt v') by (split; [exact E|lia]).
    destruct (both_loops_quiet no_faults v v' (fun _ => eq_refl) Hsrc Hrep Hq)
      as (v1 & HP1 & Hset & HP2 & Hcl).
    apply (converge v v1 v' Hsrc HP1 Hset HP2 Hcl).
    intros q a b _ Hb. destruct q as [|x q]; [congruence|].
    rewrite He in Hb by discriminate. discriminate.
Qed.

Section MissingFolder.

Variables ps pr : list name.

Lemma seen_stat u v p : seen ps pr u v -> stat u (lift ps pr p) = stat v p.
Proof. intros H. unfold stat. now rewrite (find_lift ps pr u v p H). Qed.

Lemma seen_zoom u :
  stat u (Path Source ps) = Some KDir -> stat u (Path Replica pr) = Some KDir ->
  seen ps pr u (zoom ps pr u).
Proof.
  unfold stat, seen, zoom. cbn [source_tree replica_tree].
  intros Hs Hr.
  destruct (find u (Path Source ps)); [|discriminate].
  destruct (find u (Path Replica pr)); [|discriminate].
  repeat split; discriminate.
Qed.

(** A call on two folders of which one is missing, when nothing fails
    and no regular file is in the way of either. *)
Lemma missing_folder_made w :
  passable w (Path Source ps) -> passable w (Path Replica pr) ->
  stat w (Path Source ps) = None \/ stat w (Path Replica pr) = None ->
  exists w',
    sync_folders no_faults (Path Source ps) (Path Replica pr) w = (inr PyNone, w') /\
    (forall q, prefixb q ps = true -> stat w' (Path Source q) = Some KDir) /\
    (forall q, prefixb q pr = true -> stat w' (Path Replica q) = Some KDir) /\
    changes_made w' = true /\
    (forall q, q <> [] ->
       stat w' (Path Source (ps ++ q)) = stat w (Path Source (ps ++ q))) /\
    (forall q, stat w' (Path Replica (pr ++ q)) = stat w' (Path Source (ps ++ q))).
Proof.
  intros HpS HpR Hmiss.
  set (S := Path Source ps) in *. set (R := Path Replica pr) in *.
  destruct (ensure_root_made S "source" (started w) HpS) as (w1 & E1 & Hc1 & Hd1 & Hf1).
  destruct (ensure_root_made R "replica" w1 (passable_created R S _ _ Hc1 HpR))
    as (w2 & E2 & Hc2 & Hd2 & Hf2).
  (* the source side is as the first step left it *)
  assert (Hsrc2 : forall q, stat w2 (Path Source q) = stat w1 (Path Source q)).
  { intros q. rewrite (Hc2 (Path Source q)). cbn [base R side_eqb andb].
    now destruct (stat w1 (Path Source q)). }
  (* the replica side is untouched by the first step *)
  assert (Hrep1 : forall q, stat w1 (Path Replica q) = stat w (Path Replica q)).
  { intros q. rewrite (Hc1 (Path Replica q)). cbn [base S side_eqb andb].
    rewrite stat_started. now destruct (stat w (Path Replica q)). }
  assert (HS2 : stat w2 S = Some KDir) by (unfold S; now rewrite Hsrc2).
  assert (Hflag : changes_made w2 = true).
  { rewrite Hf2, Hf1. rewrite stat_started. fold R. unfold R at 1. rewrite Hrep1. fold R.
    destruct Hmiss as [-> | ->]; [now rewrite orb_true_r|apply orb_true_r]. }
  pose proof (seen_zoom w2 HS2 Hd2) as Hseen.
  set (v := zoom ps pr w2) in *.
  assert (Hvs : forall p, stat v p = stat w2 (lift ps pr p))
    by (intros p; symmetry; now apply seen_stat).
  assert (Hv : bare_source v \/ empty_replica v).
  { destruct Hmiss as [Hn|Hn]; [left|right]; intros q Hq.
    - unfold src_stat. rewrite Hvs. unfold lift. cbn [base rel].
      rewrite Hsrc2, (Hc1 (Path Source (ps ++ q))), stat_started.
      rewrite (stat_below_none w Source ps q Hn).
      cbn [base rel S side_eqb andb]. now rewrite (prefixb_app_self ps q Hq).
    - unfold rep_stat. rewrite Hvs. unfold lift. cbn [base rel].
      rewrite (Hc2 (Path Replica (pr ++ q))), Hrep1.
      rewrite (stat_below_none w Replica pr q Hn).
      cbn [base rel R side_eqb andb]. now rewrite (prefixb_app_self pr q Hq). }
  assert (Hvsrc : src_stat v [] = Some KDir).
  { unfold src_stat. rewrite Hvs. change (Path Source []) with source_root.
    now rewrite (lift_source_root ps pr). }
  assert (Hvrep : rep_stat v [] = Some KDir).
  { unfold rep_stat. rewrite Hvs. change (Path Replica []) with replica_root.
    now rewrite (lift_replica_root ps pr). }
  destruct (both_loops_after_making v Hvsrc Hvrep Hv) as (v' & Ev & Hid).
  destruct (alike_loops ps pr w2 v Hseen) as [Hr Hseen'].
  fold S R in Hr, Hseen'. rewrite Ev in Hr, Hseen'. cbn [fst snd] in Hr, Hseen'.
  destruct (loops no_faults S R w2) as [res u] eqn:E3. cbn [fst snd] in Hr, Hseen'.
  subst res.
  assert (Hfu : changes_made u = true)
    by (apply (flag_loops no_faults S R w2 _ u E3); exact Hflag).
  pose proof (sync_folders_made no_faults S R w w1 w2 u E1 E2 E3 Hfu) as Erun.
  assert (Hus : forall p, stat u (lift ps pr p) = stat v' p)
    by (intros p; now apply seen_stat).
  destruct (fenced_loops no_faults S R w2 _ u E3) as [Hfence _].
  assert (Hkept : forall q, stat u (Path Source q) = stat w2 (Path Source q) \/
                            stat w2 (Path Source q) = None).
  { intros q. destruct (Hfence (Path Source q) eq_refl) as [H|(H & _)]; auto. }
  assert (HSu : stat u S = Some KDir).
  { destruct (Hkept ps) as [H|H]; fold S in H; congruence. }
  assert (HRu : stat u R = Some KDir).
  { unfold R. rewrite <- (lift_replica_root ps pr), Hus.
    change (stat v' replica_root) with (rep_stat v' []). rewrite Hid.
    unfold src_stat. change (Path Source []) with source_root.
    now rewrite <- Hus, (lift_source_root ps pr). }
  eexists. split; [exact Erun|].
  match goal with
  | |- context [stat ?w' _] =>
      assert (Hst : forall p, stat w' p = stat u p) by reflexivity
  end.
  split; [|split; [|split; [reflexivity|split]]].
  - intros q Hq. rewrite Hst.
    assert (Hd : stat w2 (Path Source q) = Some KDir).
    { apply (dir_above w2 S); [exact HS2|].
      unfold under, S. cbn [base rel side_eqb andb]. exact Hq. }
    destruct (Hkept q) as [H|H]; congruence.
  - intros q Hq. rewrite Hst.
    apply (dir_above u R); [exact HRu|].
    unfold under, R. cbn [base rel side_eqb andb]. exact Hq.
  - intros q Hq. 
    apply (fenced_source (Path Source ps) (Path Replica pr) w).
    + exact (fenced_sync_folders no_faults S R w _ _ Erun).
    + split; reflexivity.
    + unfold under. cbn [base rel side_eqb andb]. apply prefixb_app.
    + intros H. inversion H as [H']. rewrite <- (app_nil_r ps) in H' at 2.
      apply app_inv_head in H'. congruence.
  - intros q. rewrite !Hst.
    change (Path Replica (pr ++ q)) with (lift ps pr (Path Replica q)).
    change (Path Source (ps ++ q)) with (lift ps pr (Path Source q)).
    rewrite !Hus. apply Hid.
Qed.

End MissingFolder.

(** Two ways to see that nothing is in the way of a folder: it is a
    directory; or a directory above it has no entry of the next name. *)
Lemma passable_dir w p : stat w p = Some KDir -> passable w p.
Proof.
  intros Hp q data Hq E.
  rewrite (dir_above w p (Path (base p) q) Hp) in E; [discriminate|].
  unfold under. cbn [base rel]. now rewrite side_eqb_refl.
Qed.

Lemma passable_missing w s p t :
  stat w (Path s p) = Some KDir ->
  match t with [] => True | x :: _ => stat w (Path s (p ++ [x])) = None end ->
  passable w (Path s (p ++ t)).
Proof.
  intros Hp Ht q data Hq E. cbn [base rel] in *.
  destruct (prefixb_comparable _ _ _ Hq (prefixb_app p t)) as [H|H].
  - rewrite (dir_above w (Path s p) (Path s q) Hp) in E; [discriminate|].
    unfold under. cbn [base rel]. now rewrite side_eqb_refl.
  - destruct (prefixb_true _ _ H) as [r ->].
    destruct t as [|x t].
    + rewrite app_nil_r in Hq. destruct r as [|y r].
      * rewrite app_nil_r in E. congruence.
      * now rewrite prefixb_app_self in Hq.
    + destruct r as [|y r]; [rewrite app_nil_r in E; congruence|].
      assert (y = x) as ->.
      { clear -Hq. induction p as [|z p IH]; cbn [app prefixb] in Hq;
          apply andb_true_iff in Hq as [H1 H2]; [now apply String.eqb_eq in H1|auto]. }
      change (x :: r) with ([x] ++ r) in E. rewrite app_assoc in E.
      rewrite (stat_below_none w s (p ++ [x]) r Ht) in E. discriminate.
Qed.

(* ------------------------------------------------------------------ *)
(** * The claims *)
(* ------------------------------------------------------------------ *)

Local Open Scope string_scope.

(** ** C1: convergence *)

(** C1, as amended. After a call of [sync_folders] that logs no error and
    in which no directory listing fails, on two roots that are directories
    or missing: for every relative path, the replica has an entry exactly
    when the source has one, of the same type, and for files with the same
    MD5 digest; the contents are byte-identical when no source file and
    the replica file at its place differ under one digest. *)
Theorem sync_folders_converges faulty w v w' :
  listable faulty ->
  dir_or_missing (source_tree w) -> dir_or_missing (replica_tree w) ->
  quiet (sync_folders faulty source_root replica_root) w v w' ->
  in_sync w' /\ (collision_free w -> identical w').
Proof.
  intros Hlist Hs Hr Hq.
  destruct (sync_folders_quiet faulty w v w' Hlist Hs Hr Hq) as (_ & H1 & H2 & _).
  now split.
Qed.

Lemma ex_update_collision_free : collision_free ex_update.
Proof.
  intros q a b Ha Hb Hd.
  destruct q as [|x [|y q]]; try discriminate.
  - unfold src_stat, rep_stat, stat, find in Ha, Hb. cbn in Ha, Hb.
    destruct (String.eqb x "a.txt"); [|discriminate].
    inversion Ha; inversion Hb; subst. vm_compute in Hd. discriminate.
  - unfold src_stat, stat, find in Ha. cbn in Ha.
    destruct (String.eqb x "a.txt"); discriminate.
Qed.

Lemma sync_folders_converges_witness :
  listable no_faults /\
  dir_or_missing (source_tree ex_update) /\
  dir_or_missing (replica_tree ex_update) /\
  quiet (sync_folders no_faults source_root replica_root) ex_update PyNone ex_update_after /\
  in_sync ex_update_after /\ (collision_free ex_update -> identical ex_update_after).
Proof.
  assert (Hl : listable no_faults) by (intros p; reflexivity).
  assert (Hq : quiet (sync_folders no_faults source_root replica_root)
                 ex_update PyNone ex_update_after).
  { split; [vm_compute; reflexivity|vm_compute; apply le_n]. }
  split; [exact Hl|]. split; [exact I|]. split; [exact I|]. split; [exact Hq|].
  apply (sync_folders_converges no_faults ex_update PyNone ex_update_after Hl I I Hq).
Defined.

(** Calls that log no error are the rule, not the exception: by
    [sync_folders_mirrors] every call in which no operation fails is one,
    when the replica lists each name once and no path is a file on one
    side and a directory on the other. *)

(** C1, as stated, fails: a call that logs no error leaves a replica file
    that differs from the source file, when the two have one MD5 digest. *)
Lemma convergence_counterexample :
  quiet (sync_folders no_faults source_root replica_root)
        ex_collision PyNone ex_collision_after /\
  errors ex_collision_after = [] /\
  src_stat ex_collision_after ["f"] = Some (KFile collide_a) /\
  rep_stat ex_collision_after ["f"] = Some (KFile collide_b) /\
  collide_a <> collide_b /\
  ~ identical ex_collision_after.
Proof.
  assert (Hne : collide_a <> collide_b) by (vm_compute; discriminate).
  split; [split; [vm_compute; reflexivity|vm_compute; apply le_n]|].
  split; [reflexivity|]. split; [reflexivity|]. split; [reflexivity|].
  split; [exact Hne|].
  intros H. specialize (H ["f"]). vm_compute in H. apply Hne. now inversion H.
Qed.

(** ** C2: the returned value *)

(** C2, which fails. Unless making a root fails, the call returns [None],
    whatever was done. At the failing input a file is copied and two
    entries are deleted, [changes_made] is set, and the call returns
    [None]; and where a directory is made in the first loop,
    [changes_made] is not set. *)
Theorem changes_made_not_returned :
  (forall faulty w,
     (exists e, root_creation_fails faulty w e) \/
     fst (sync_folders faulty source_root replica_root w) = inr PyNone) /\
  (let '(r, w') := sync_folders no_faults source_root replica_root ex_update in
   r = inr PyNone /\ changes_made w' = true /\
   journal w' = [WriteFile (Path Replica ["a.txt"]) (bytes_of "v2");
                 Unlink (Path Replica ["b.txt"]);
                 Rmtree (Path Replica ["subdir"])]) /\
  (let '(r, w') := sync_folders no_faults source_root replica_root ex_in_step in
   r = inr PyNone /\ changes_made w' = false /\ journal w' = []) /\
  (let '(r, w') := sync_folders no_faults source_root replica_root ex_new_dir in
   r = inr PyNone /\ changes_made w' = false /\
   journal w' = [Mkdir (Path Replica ["d"])]).
Proof.
  split.
  - intros faulty w.
    destruct (roots_cases faulty w) as [(Hn & e & He)|[(Hs & Hn & e & He)|(Hs & Hr)]].
    + left. exists e. now left.
    + left. exists e. now right.
    + right. now apply sync_folders_returns_None.
  - vm_compute. repeat split.
Qed.

(** ** C3: digests that both fail *)

(** C3, at the failing input: the replica file exists and neither digest
    can be computed; the two [None] compare equal, nothing is copied and
    the replica keeps its old content. *)
Theorem both_digests_fail_no_copy :
  let '(r, w') :=
    sync_folders both_unreadable source_root replica_root ex_both_unreadable in
  r = inr PyNone /\
  journal w' = [] /\
  src_stat w' ["a.txt"] = Some (KFile (bytes_of "new")) /\
  rep_stat w' ["a.txt"] = Some (KFile (bytes_of "old")) /\
  errors w' =
    [ERROR (Failed_to_calculate_md5 (Path Source ["a.txt"]) PermissionError);
     ERROR (Failed_to_calculate_md5 (Path Replica ["a.txt"]) PermissionError)].
Proof. vm_compute. repeat split. Qed.

(** ** C4: one failing copy *)

(** C4, at the failing input: the copy of one unreadable file raises out
    of the first loop; the file under [sub] is not copied and the stale
    file of the replica is not removed. *)
Theorem one_failure_ends_the_pass :
  let '(r, w') :=
    sync_folders one_unreadable source_root replica_root ex_one_unreadable in
  r = inr PyNone /\
  errors w' = [ERROR (Error_during_synchronization PermissionError)] /\
  src_stat w' ["sub"; "b.txt"] = Some (KFile (bytes_of "b")) /\
  rep_stat w' ["sub"; "b.txt"] = None /\
  src_stat w' ["stale.txt"] = None /\
  rep_stat w' ["stale.txt"] = Some (KFile (bytes_of "s")).
Proof. vm_compute. repeat split. Qed.

(** ** C5: idempotence *)

Lemma quiet_roots faulty w v w' :
  listable faulty ->
  dir_or_missing (source_tree w) -> dir_or_missing (replica_tree w) ->
  quiet (sync_folders faulty source_root replica_root) w v w' ->
  source_tree w' <> None /\ replica_tree w' <> None.
Proof.
  intros Hlist Hs Hr Hq.
  destruct (sync_folders_quiet faulty w v w' Hlist Hs Hr Hq)
    as (_ & Hsync & _ & w1 & Hloops & ->).
  assert (Hsrc : src_stat (with_roots w) [] = Some KDir).
  { unfold src_stat. rewrite stat_vstat. cbn [base rel tree].
    rewrite source_with_roots. now apply stat_root_or_empty. }
  assert (Hrep : rep_stat (with_roots w) [] = Some KDir).
  { unfold rep_stat. rewrite stat_vstat. cbn [base rel tree].
    rewrite replica_with_roots. now apply stat_root_or_empty. }
  destruct (both_loops_quiet faulty _ _ Hlist Hsrc Hrep Hloops)
    as (w2 & [Hs1 _] & _ & [Hs2 _] & _).
  assert (Hsrc' : src_stat (finished w1) [] = Some KDir).
  { unfold src_stat. rewrite (stat_same_trees _ _ _ (same_trees_finished w1)).
    fold (src_stat w1 []). now rewrite Hs2, Hs1. }
  pose proof (in_sync_dir _ _ Hsync Hsrc') as Hrep'.
  unfold src_stat, stat, find in Hsrc'. unfold rep_stat, stat, find in Hrep'.
  cbn [base rel tree] in Hsrc', Hrep'.
  split; intros Hn; rewrite Hn in *; discriminate.
Qed.

(** C5, as amended. After a call that logs no error (with no failing
    directory listing, on roots that are directories or missing), a second
    call in which no operation fails makes no mutation: the trees and the
    journal are as the first call left them, [changes_made] is false and
    the log gets the three records of a pass without changes. *)
Theorem sync_folders_idempotent faulty w v w' :
  listable faulty ->
  dir_or_missing (source_tree w) -> dir_or_missing (replica_tree w) ->
  quiet (sync_folders faulty source_root replica_root) w v w' ->
  exists w'',
    sync_folders no_faults source_root replica_root w' = (inr PyNone, w'') /\
    source_tree w'' = source_tree w' /\ replica_tree w'' = replica_tree w' /\
    journal w'' = journal w' /\ changes_made w'' = false /\
    log w'' = (log w' ++ [INFO Starting_synchronization; INFO No_changes_made;
                          INFO Synchronization_completed])%list.
Proof.
  intros Hlist Hs Hr Hq.
  destruct (quiet_roots faulty w v w' Hlist Hs Hr Hq) as [Hsrc Hrep].
  destruct (sync_folders_quiet faulty w v w' Hlist Hs Hr Hq) as (_ & Hsync & _).
  exists (finished (started w')). split; [now apply sync_folders_idle|].
  unfold finished, started. cbn. rewrite <- app_assoc. auto.
Qed.

Lemma sync_folders_idempotent_witness :
  listable no_faults /\
  dir_or_missing (source_tree ex_update) /\
  dir_or_missing (replica_tree ex_update) /\
  quiet (sync_folders no_faults source_root replica_root) ex_update PyNone ex_update_after /\
  exists w'',
    sync_folders no_faults source_root replica_root ex_update_after = (inr PyNone, w'') /\
    source_tree w'' = source_tree ex_update_after /\
    replica_tree w'' = replica_tree ex_update_after /\
    journal w'' = journal ex_update_after /\ changes_made w'' = false /\
    log w'' = (log ex_update_after ++
               [INFO Starting_synchronization; INFO No_changes_made;
                INFO Synchronization_completed])%list.
Proof.
  assert (Hl : listable no_faults) by (intros p; reflexivity).
  assert (Hq : quiet (sync_folders no_faults source_root replica_root)
                 ex_update PyNone ex_update_after).
  { split; [vm_compute; reflexivity|vm_compute; apply le_n]. }
  split; [exact Hl|]. split; [exact I|]. split; [exact I|]. split; [exact Hq|].
  apply (sync_folders_idempotent no_faults ex_update PyNone ex_update_after Hl I I Hq).
Defined.

(** C5, as stated, fails: where the source has a file and the replica a
    directory, the second call copies and removes again, sets
    [changes_made], and returns [None]. *)
Lemma idempotence_counterexample :
  sync_folders no_faults source_root replica_root ex_conflict =
    (inr PyNone, ex_conflict_once) /\
  sync_folders no_faults source_root replica_root ex_conflict_once =
    (inr PyNone, ex_conflict_twice) /\
  journal ex_conflict_twice =
    (journal ex_conflict_once ++
     [WriteFile (Path Replica ["a"; "a"]) (bytes_of "x");
      Unlink (Path Replica ["a"; "a"])])%list /\
  changes_made ex_conflict_twice = true /\
  inr PyNone <> @inr exn pyval (PyBool false).
Proof. vm_compute. repeat split. discriminate. Qed.

(** ** C6: the digest of the whole content *)

(** C6. For a file that can be opened and read, [calculate_md5], which
    feeds the hash object chunk after chunk of 4096 bytes, returns the
    digest of the whole content fed in one step; so two readable files
    with the same bytes get the same digest, whatever the paths and the
    states. *)
Theorem calculate_md5_whole_content faulty w p data :
  readable faulty w p data ->
  calculate_md5 faulty p w = (inr (Some (md5_hex data)), w) /\
  forall faulty' w' p',
    readable faulty' w' p' data ->
    fst (calculate_md5 faulty' p' w') = fst (calculate_md5 faulty p w).
Proof.
  intros H. split; [now apply calculate_md5_readable|].
  intros faulty' w' p' H'.
  now rewrite (calculate_md5_readable _ _ _ _ H), (calculate_md5_readable _ _ _ _ H').
Qed.

Lemma calculate_md5_whole_content_witness :
  readable no_faults ex_long_file (Path Source ["long"]) (repeat "A"%byte 5000) /\
  calculate_md5 no_faults (Path Source ["long"]) ex_long_file =
    (inr (Some (md5_hex (repeat "A"%byte 5000))), ex_long_file).
Proof.
  assert (H : readable no_faults ex_long_file (Path Source ["long"])
                (repeat "A"%byte 5000)).
  { split; [reflexivity|]. split; [reflexivity|]. intros pos. reflexivity. }
  split; [exact H|].
  exact (proj1 (calculate_md5_whole_content no_faults ex_long_file
                  (Path Source ["long"]) (repeat "A"%byte 5000) H)).
Defined.

Example md5_two_chunks :
  fst (calculate_md5 no_faults (Path Source ["long"]) ex_long_file) =
  inr (Some "1811ed45a571e515ed0faefc29f27026").
Proof. vm_compute. reflexivity. Qed.

Example md5_collision : md5_hex collide_a = md5_hex collide_b.
Proof. vm_compute. reflexivity. Qed.

Example md5_collision_digest : md5_hex collide_a = "79054025255fb1a26e4bc422aef54eb4".
Proof. vm_compute. reflexivity. Qed.

(** ** C7: missing folders *)

(** C7. When the source folder or the replica folder of a call is
    missing, with or without the directories above it, no regular file
    stands in the way of either and no operation fails, the call does not
    fail. It returns; each folder is a directory afterwards, and so is
    every directory above it; [changes_made] is set; every entry below
    the source folder is as it was before the call; and the replica
    folder holds what the source folder holds, entry by entry and byte by
    byte. *)
Theorem missing_root_is_made ps pr w :
  passable w (Path Source ps) -> passable w (Path Replica pr) ->
  stat w (Path Source ps) = None \/ stat w (Path Replica pr) = None ->
  exists w',
    sync_folders no_faults (Path Source ps) (Path Replica pr) w = (inr PyNone, w') /\
    (forall q, prefixb q ps = true -> stat w' (Path Source q) = Some KDir) /\
    (forall q, prefixb q pr = true -> stat w' (Path Replica q) = Some KDir) /\
    changes_made w' = true /\
    (forall q, q <> [] ->
       stat w' (Path Source (ps ++ q)%list) = stat w (Path Source (ps ++ q)%list)) /\
    (forall q, stat w' (Path Replica (pr ++ q)%list) = stat w' (Path Source (ps ++ q)%list)).
Proof. exact (missing_folder_made ps pr w). Qed.

Lemma missing_root_is_made_witness :
  passable ex_deep (Path Source ["home"; "docs"]) /\
  passable ex_deep (Path Replica ["mnt"; "backup"; "docs"]) /\
  (stat ex_deep (Path Source ["home"; "docs"]) = None \/
   stat ex_deep (Path Replica ["mnt"; "backup"; "docs"]) = None) /\
  exists w',
    sync_folders no_faults (Path Source ["home"; "docs"])
      (Path Replica ["mnt"; "backup"; "docs"]) ex_deep = (inr PyNone, w') /\
    (forall q, prefixb q ["home"; "docs"] = true ->
               stat w' (Path Source q) = Some KDir) /\
    (forall q, prefixb q ["mnt"; "backup"; "docs"] = true ->
               stat w' (Path Replica q) = Some KDir) /\
    changes_made w' = true /\
    (forall q, q <> [] ->
       stat w' (Path Source (["home"; "docs"] ++ q)%list) =
       stat ex_deep (Path Source (["home"; "docs"] ++ q)%list)) /\
    (forall q, stat w' (Path Replica (["mnt"; "backup"; "docs"] ++ q)%list) =
               stat w' (Path Source (["home"; "docs"] ++ q)%list)).
Proof.
  assert (Hs : passable ex_deep (Path Source ["home"; "docs"])).
  { apply passable_dir. reflexivity. }
  assert (Hr : passable ex_deep (Path Replica ["mnt"; "backup"; "docs"])).
  { apply (passable_missing ex_deep Replica ["mnt"] ["backup"; "docs"]); reflexivity. }
  assert (Hm : stat ex_deep (Path Source ["home"; "docs"]) = None \/
               stat ex_deep (Path Replica ["mnt"; "backup"; "docs"]) = None)
    by (right; reflexivity).
  split; [exact Hs|]. split; [exact Hr|]. split; [exact Hm|].
  exact (missing_root_is_made ["home"; "docs"] ["mnt"; "backup"; "docs"] ex_deep Hs Hr Hm).
Defined.

(** The replica folder of the example after the call, made with its
    parent [backup] and holding the copies. *)
Example missing_parents_made :
  replica_tree (snd (sync_folders no_faults (Path Source ["home"; "docs"])
                       (Path Replica ["mnt"; "backup"; "docs"]) ex_deep)) =
  Some (Dir [("mnt",
              Dir [("backup",
                    Dir [("docs",
                          Dir [("sub", Dir [("b.txt", File (bytes_of "b"))]);
                               ("a.txt", File (bytes_of "a"))])])])]).
Proof. vm_compute. reflexivity. Qed.

(** ** C8: a root that cannot be made *)




(** ** C9: calculate_md5 raises nothing *)

(** C9. For every path and state, whatever fails, [calculate_md5]
    returns: a digest of 32 hexadecimal characters and the state as it
    was, or [None] and the state with one more error record. *)
Theorem calculate_md5_total faulty p w :
  exists r w',
    calculate_md5 faulty p w = (inr r, w') /\
    match r with
    | Some d => String.length d = 32 /\ w' = w
    | None => exists e, w' = md5_failed p e w
    end.
Proof.
  destruct (calculate_md5_spec faulty p w) as [(data & _ & E)|(e & E)].
  - exists (Some (md5_hex data)), w. split; [exact E|].
    split; [apply MD5Facts.hexdigest_length|reflexivity].
  - exists None, (md5_failed p e w). split; [exact E|]. now exists e.
Qed.

(** ** C10: the frame *)

(** C10, as amended. For any two folders of which neither is the other
    nor lies inside it, and whatever fails: a call of [sync_folders]
    leaves every entry below the source folder as it was, file contents
    included; the source folder itself is as it was, or was missing and
    is a directory now; and every mutation of the call is at or below the
    replica folder, but the making of a source folder that was missing. *)
Theorem sync_folders_frame faulty source replica w :
  apart source replica ->
  (forall p, under source p = true -> p <> source ->
     stat (snd (sync_folders faulty source replica w)) p = stat w p) /\
  (stat (snd (sync_folders faulty source replica w)) source = stat w source \/
   stat w source = None /\
   stat (snd (sync_folders faulty source replica w)) source = Some KDir) /\
  exists j,
    journal (snd (sync_folders faulty source replica w)) = (journal w ++ j)%list /\
    Forall (permitted source replica w) j.
Proof.
  intros [Hsr Hrs].
  destruct (sync_folders faulty source replica w) as [r w'] eqn:E. cbn [snd].
  destruct (fenced_sync_folders faulty source replica w r w' E) as [Hst Hj].
  split; [|split; [|exact Hj]].
  - intros p Hp Hne.
    assert (Hout : under replica p = false).
    { destruct (under replica p) eqn:Erp; [|reflexivity].
      destruct (under_comparable _ _ _ Hp Erp); congruence. }
    destruct (Hst p Hout) as [H|(_ & _ & [H|H])]; [exact H|exfalso..].
    + apply Hne. now apply under_antisym.
    + rewrite (under_trans _ _ _ Hp H) in Hsr. discriminate.
  - destruct (Hst source Hrs) as [H|(Hn & Hd & _)]; auto.
Qed.

Lemma sync_folders_frame_witness :
  apart (Path Replica ["data"]) (Path Replica ["backup"]) /\
  (forall p, under (Path Replica ["data"]) p = true -> p <> Path Replica ["data"] ->
     stat (snd (sync_folders undeletable (Path Replica ["data"])
                  (Path Replica ["backup"]) ex_one_volume)) p =
     stat ex_one_volume p) /\
  (stat (snd (sync_folders undeletable (Path Replica ["data"])
                (Path Replica ["backup"]) ex_one_volume)) (Path Replica ["data"]) =
   stat ex_one_volume (Path Replica ["data"]) \/
   stat ex_one_volume (Path Replica ["data"]) = None /\
   stat (snd (sync_folders undeletable (Path Replica ["data"])
                (Path Replica ["backup"]) ex_one_volume)) (Path Replica ["data"]) =
   Some KDir) /\
  exists j,
    journal (snd (sync_folders undeletable (Path Replica ["data"])
                    (Path Replica ["backup"]) ex_one_volume)) =
      (journal ex_one_volume ++ j)%list /\
    Forall (permitted (Path Replica ["data"]) (Path Replica ["backup"]) ex_one_volume) j.
Proof.
  assert (H : apart (Path Replica ["data"]) (Path Replica ["backup"]))
    by (split; reflexivity).
  split; [exact H|].
  exact (sync_folders_frame undeletable (Path Replica ["data"])
           (Path Replica ["backup"]) ex_one_volume H).
Defined.

(** C10, as stated, fails when the source folder lies inside the replica
    folder: the first loop copies [src/a.txt] to [a.txt], and the second
    loop, which finds no [src/src] in the source, removes [src], the
    source folder itself, with the file in it. *)
Lemma frame_counterexample :
  stat ex_nested (Path Replica ["src"; "a.txt"]) = Some (KFile (bytes_of "a")) /\
  fst (sync_folders no_faults (Path Replica ["src"]) (Path Replica []) ex_nested) =
    inr PyNone /\
  journal (snd (sync_folders no_faults (Path Replica ["src"]) (Path Replica [])
                  ex_nested)) =
    [WriteFile (Path Replica ["a.txt"]) (bytes_of "a"); Rmtree (Path Replica ["src"])] /\
  stat (snd (sync_folders no_faults (Path Replica ["src"]) (Path Replica []) ex_nested))
       (Path Replica ["src"]) = None /\
  stat (snd (sync_folders no_faults (Path Replica ["src"]) (Path Replica []) ex_nested))
       (Path Replica ["src"; "a.txt"]) = None.
Proof. repeat split; reflexivity. Qed.

(* ------------------------------------------------------------------ *)
(** * Further properties of the code *)
(* ------------------------------------------------------------------ *)

Local Close Scope string_scope.

(** ** The log and the flag account for the mutations *)

Lemma pick_app {A B} (f : A -> option B) l1 l2 :
  pick f (l1 ++ l2) = pick f l1 ++ pick f l2.
Proof.
  induction l1 as [|x l1 IH]; [reflexivity|].
  cbn [app pick]. destruct (f x); [|exact IH]. cbn [app]. now rewrite IH.
Qed.

Lemma accounted_refl w : accounted w w.
Proof.
  exists [], []. rewrite !app_nil_r. cbn [existsb]. now rewrite orb_false_r.
Qed.

Lemma accounted_trans a b c : accounted a b -> accounted b c -> accounted a c.
Proof.
  intros (l1 & j1 & Hl1 & Hj1 & Ht1 & Hf1) (l2 & j2 & Hl2 & Hj2 & Ht2 & Hf2).
  exists (l1 ++ l2), (j1 ++ j2).
  rewrite Hl2, Hl1, Hj2, Hj1, <- !app_assoc.
  split; [reflexivity|]. split; [reflexivity|]. split.
  - unfold told, performed in *. now rewrite !pick_app, Ht1, Ht2.
  - now rewrite Hf2, Hf1, existsb_app, orb_assoc.
Qed.

Lemma accounted_same w w' :
  log w' = log w -> journal w' = journal w -> changes_made w' = changes_made w ->
  accounted w w'.
Proof.
  intros Hl Hj Hf. exists [], []. rewrite !app_nil_r. cbn [existsb].
  now rewrite orb_false_r.
Qed.

(** A record that tells of no action. *)
Lemma accounted_said w r :
  action_of_record r = None ->
  accounted w (State (source_tree w) (replica_tree w) (log w ++ [r])
                     (journal w) (changes_made w)).
Proof.
  intros Hr. exists [r], []. rewrite app_nil_r. cbn [log journal changes_made existsb].
  split; [reflexivity|]. split; [reflexivity|]. split.
  - unfold told. cbn [pick]. now rewrite Hr.
  - now rewrite orb_false_r.
Qed.

(** A mutation that is an action, its record, and the flag. *)
Lemma accounted_acted w w1 m mu a :
  same_locals w w1 -> journal w1 = journal w ++ [mu] ->
  action_of_mutation mu = Some a -> action_of_record (INFO m) = Some a ->
  accounted w (State (source_tree w1) (replica_tree w1) (log w1 ++ [INFO m])
                     (journal w1) true).
Proof.
  intros [Hl _] Hj Hmu Hm. exists [INFO m], [mu]. cbn [log journal changes_made].
  rewrite Hl. split; [reflexivity|]. split; [exact Hj|]. split.
  - unfold told, performed. cbn [pick]. now rewrite Hmu, Hm.
  - unfold counted. cbn [existsb]. rewrite Hmu. cbn [orb]. now rewrite orb_true_r.
Qed.

(** A directory made below a root: a mutation that is no action. *)
Lemma accounted_mkdir w w' p :
  same_locals w w' -> journal w' = journal w ++ [Mkdir p] -> rel p <> [] ->
  accounted w w'.
Proof.
  intros [Hl Hf] Hj Hp. exists [], [Mkdir p]. rewrite app_nil_r.
  split; [exact Hl|]. split; [exact Hj|]. split.
  - unfold told, performed. cbn [pick action_of_mutation].
    destruct (rel p); [congruence|reflexivity].
  - unfold counted. cbn [existsb action_of_mutation].
    destruct (rel p); [congruence|]. cbn [orb]. now rewrite orb_false_r.
Qed.

Section Accounting.

Variable faulty : op -> option exn.

Lemma accounted_log_info m :
  action_of_record (INFO m) = None -> keeps accounted (log_info m).
Proof. intros Hm w r w' H. inversion H; subst. now apply accounted_said. Qed.

Lemma accounted_log_error m : keeps accounted (log_error m).
Proof. intros w r w' H. inversion H; subst. now apply accounted_said. Qed.

Lemma accounted_calculate_md5 p : keeps accounted (calculate_md5 faulty p).
Proof.
  intros w r w' H.
  destruct (calculate_md5_spec faulty p w) as [(data & _ & E)|(e & E)];
    rewrite E in H; inversion H; subst.
  - apply accounted_refl.
  - now apply accounted_said.
Qed.

(** An action of the code: the call that mutates, its record, the flag.
    When the call raises, neither the record nor the flag follows. *)
Lemma accounted_action (c : M unit) m a :
  (forall w r w', c w = (r, w') ->
     (exists e, r = inl e /\ w' = w) \/
     (r = inr tt /\ same_locals w w' /\
      exists mu, journal w' = journal w ++ [mu] /\ action_of_mutation mu = Some a)) ->
  action_of_record (INFO m) = Some a ->
  keeps accounted ((c ;; log_info m) ;; set_changes_made true).
Proof.
  intros Hc Hm w r w' H. unfold bind in H.
  destruct (c w) as [[e|[]] w1] eqn:E;
    destruct (Hc _ _ _ E) as [(e' & He & ->)|(He & Hl & mu & Hj & Hmu)];
    try discriminate.
  - inversion H; subst. apply accounted_refl.
  - cbn in H. inversion H; subst. now apply (accounted_acted w w1 m mu a).
Qed.

Lemma accounted_copy2 src dst m :
  action_of_record (INFO m) = Some CopiedFile ->
  keeps accounted ((copy2 faulty src dst ;; log_info m) ;; set_changes_made true).
Proof.
  intros Hm. apply (accounted_action _ m CopiedFile); [|exact Hm].
  intros w r w' H.
  apply copy2_run in H as [H|(Hr & Hl & data & _ & _ & _ & Hj & _)]; [now left|].
  right. split; [exact Hr|]. split; [exact Hl|]. eauto.
Qed.

Lemma accounted_remove p :
  keeps accounted ((remove faulty p ;; log_info (Deleted_file p)) ;;
                   set_changes_made true).
Proof.
  apply (accounted_action _ _ (RemovedFile p)); [|reflexivity].
  intros w r w' H.
  apply remove_run in H as [H|(Hr & Hl & _ & Hj & _)]; [now left|].
  right. split; [exact Hr|]. split; [exact Hl|]. eauto.
Qed.

Lemma accounted_rmtree p :
  keeps accounted ((rmtree faulty p ;; log_info (Deleted_directory p)) ;;
                   set_changes_made true).
Proof.
  apply (accounted_action _ _ (RemovedTree p)); [|reflexivity].
  intros w r w' H.
  apply rmtree_run in H as [H|(Hr & Hl & _ & Hj & _)]; [now left|].
  right. split; [exact Hr|]. split; [exact Hl|]. eauto.
Qed.

Lemma bind_assoc {A B C} (c : M A) (k : A -> M B) (h : B -> M C) :
  forall w, bind (bind c k) h w = bind c (fun a => bind (k a) h) w.
Proof.
  intros w. unfold bind. destruct (c w) as [[e|a] w1]; reflexivity.
Qed.

Lemma accounted_propagate_copy_step r f :
  keeps accounted (propagate_copy_step faulty r f).
Proof.
  intros w res w' H. unfold propagate_copy_step in H.
  rewrite <- bind_assoc in H. revert w res w' H.
  now apply accounted_copy2.
Qed.

Lemma accounted_propagate_dir_step r d :
  keeps accounted (propagate_dir_step faulty r d).
Proof.
  unfold propagate_dir_step.
  apply keeps_try; [apply accounted_trans| |].
  - intros w res w' H.
    apply makedirs_run in H as [(e & _ & ->)|(_ & Hl & _ & _ & [->|(_ & Hj & _)])].
    + apply accounted_refl.
    + apply accounted_refl.
    + apply (accounted_mkdir w w' _ Hl Hj). cbn [rel]. now destruct r.
  - intros e. apply accounted_log_error.
Qed.

Lemma accounted_ensure_root s which :
  keeps accounted (ensure_root faulty (Path s []) which).
Proof.
  intros w r w' H.
  destruct (ensure_root_run faulty s which w)
    as [(_ & E)|[(_ & _ & E)|(_ & e & _ & E)]]; rewrite E in H; inversion H; subst.
  - apply accounted_refl.
  - unfold root_made.
    apply (accounted_acted w
             (State (match s with Source => Some (Dir []) | Replica => source_tree w end)
                    (match s with Replica => Some (Dir []) | Source => replica_tree w end)
                    (log w) (journal w ++ [Mkdir (Path s [])]) (changes_made w))
             (Created_directory which (Path s [])) (Mkdir (Path s [])) (MadeRoot (Path s [])));
      [now split|reflexivity..].
  - apply accounted_refl.
Qed.

End Accounting.

#[local] Hint Resolve accounted_refl accounted_trans accounted_log_error
  accounted_calculate_md5 accounted_propagate_copy_step accounted_propagate_dir_step
  accounted_remove accounted_rmtree : keeps.

Section AccountingProgram.

Variable faulty : op -> option exn.

Lemma accounted_propagate_file_step r f :
  keeps accounted (propagate_file_step faulty r f).
Proof. unfold propagate_file_step, path_exists. keeps_tac. Qed.

Lemma accounted_prune_step r x : keeps accounted (prune_step faulty r x).
Proof.
  unfold prune_step, prune_delete_step, path_exists, path_isdir.
  apply keeps_try; [apply accounted_trans| |keeps_tac].
  apply keeps_bind; [apply accounted_trans|keeps_tac|].
  intros there. destruct (negb there); [|keeps_tac].
  apply keeps_bind; [apply accounted_trans|keeps_tac|].
  intros [|]; keeps_tac.
Qed.

Lemma accounted_propagate root dirs files :
  base root = Source ->
  keeps accounted (propagate faulty source_root replica_root root dirs files).
Proof.
  destruct root as [s r]. cbn [base]. intros ->. rewrite propagate_steps.
  apply keeps_bind; [apply accounted_trans| |];
    intros; apply keeps_for_each;
    first [apply accounted_refl | apply accounted_trans | intros x _ ];
    [apply accounted_propagate_dir_step|apply accounted_propagate_file_step].
Qed.

Lemma accounted_prune root dirs files :
  base root = Replica ->
  keeps accounted (prune faulty source_root replica_root root dirs files).
Proof.
  destruct root as [s r]. cbn [base]. intros ->. rewrite prune_steps.
  apply keeps_for_each;
    first [apply accounted_refl | apply accounted_trans | intros x _ ].
  apply accounted_prune_step.
Qed.

Lemma accounted_both_loops : keeps accounted (both_loops faulty).
Proof.
  unfold both_loops. apply keeps_bind; [apply accounted_trans| |intros _].
  - apply keeps_os_walk; [apply accounted_refl|apply accounted_trans|].
    intros root dirs files H. now apply accounted_propagate.
  - apply keeps_os_walk; [apply accounted_refl|apply accounted_trans|].
    intros root dirs files H. now apply accounted_prune.
Qed.

Lemma accounted_finish : keeps accounted (finish faulty).
Proof.
  unfold finish.
  apply keeps_bind; [apply accounted_trans| |intros _].
  - apply keeps_try; [apply accounted_trans|apply accounted_both_loops|].
    intros e. apply accounted_log_error.
  - apply keeps_bind; [apply accounted_trans|now apply keeps_gets, accounted_refl|].
    intros flag.
    apply keeps_bind; [apply accounted_trans| |intros _].
    + destruct (negb flag); [now apply accounted_log_info|].
      apply keeps_ret, accounted_refl.
    + apply keeps_bind; [apply accounted_trans|now apply accounted_log_info|].
      intros _. apply keeps_ret, accounted_refl.
Qed.

Lemma accounted_with_root s which w : accounted w (with_root s which w).
Proof.
  unfold with_root. destruct (tree w s) eqn:Et; [apply accounted_refl|].
  destruct (ensure_root_run faulty s which w) as [(H & _)|[(_ & _ & E)|(_ & e & _ & E)]].
  - congruence.
  - exact (accounted_ensure_root faulty s which _ _ _ E).
  - unfold root_made.
    apply (accounted_acted w
             (State (match s with Source => Some (Dir []) | Replica => source_tree w end)
                    (match s with Replica => Some (Dir []) | Source => replica_tree w end)
                    (log w) (journal w ++ [Mkdir (Path s [])]) (changes_made w))
             (Created_directory which (Path s [])) (Mkdir (Path s [])) (MadeRoot (Path s [])));
      [now split|reflexivity..].
Qed.

(** From the first record on, a call accounts for what it does. *)
Lemma sync_folders_accounted w r w' :
  sync_folders faulty source_root replica_root w = (r, w') ->
  exists l j,
    log w' = log w ++ INFO Starting_synchronization :: l /\
    journal w' = journal w ++ j /\
    told l = performed j /\ changes_made w' = existsb counted j.
Proof.
  intros H.
  assert (Hfrom : accounted (started w) w').
  { destruct (roots_cases faulty w) as [(Hn & e & He)|[(Hs & Hn & e & He)|(Hs & Hr)]].
    - rewrite (sync_folders_source_fails faulty w e Hn He) in H. inversion H; subst.
      now apply accounted_said.
    - rewrite (sync_folders_replica_fails faulty w e Hs Hn He) in H. inversion H; subst.
      eapply accounted_trans; [apply accounted_with_root|now apply accounted_said].
    - rewrite (sync_folders_roots_ok faulty w Hs Hr) in H.
      eapply accounted_trans; [|exact (accounted_finish _ _ _ H)].
      unfold with_roots.
      eapply accounted_trans; apply accounted_with_root. }
  destruct Hfrom as (l & j & Hl & Hj & Ht & Hf).
  exists l, j. cbn [started log journal changes_made] in *.
  rewrite Hl, <- app_assoc. auto.
Qed.

End AccountingProgram.

Lemma bind_ret_inr {A B} (c : M A) (b : B) w o w1 :
  (c ;; ret b) w = (inr o, w1) -> o = b.
Proof.
  unfold bind. destruct (c w) as [[e|a] w']; intros H; now inversion H.
Qed.

(** Up to its closing print, a call on any two folders raises nothing:
    it ends in the handler of the first [try], which returns the flag, or
    at the end of the function. *)
Lemma sync_folders_ends faulty source replica w :
  exists v w',
    sync_folders faulty source replica w = (inr v, w') /\
    ((v = PyNone /\
      last (log w') (INFO Starting_synchronization) = INFO Synchronization_completed) \/
     (exists b e,
        v = PyBool b /\
        last (log w') (INFO Starting_synchronization) =
          ERROR (Failed_to_create_directories replica source e))).
Proof.
  rewrite sync_folders_parts.
  change ((log_info Starting_synchronization ;; set_changes_made false ;; ?k) w)
    with (k (started w)).
  unfold bind at 1.
  destruct (try_except
              ((ensure_root faulty source "source" ;;
                ensure_root faulty replica "replica" ;; ret tt) ;; ret None)
              (fun e =>
                 log_error (Failed_to_create_directories replica source e) ;;
                 flag <- gets changes_made ;; ret (Some (PyBool flag)))
              (started w)) as [[e|returned] w1] eqn:E.
  - exfalso. unfold try_except in E.
    destruct (((ensure_root faulty source "source" ;;
                ensure_root faulty replica "replica" ;; ret tt) ;; ret None)
                (started w)) as [[e'|o] w0]; discriminate.
  - unfold try_except in E.
    destruct (((ensure_root faulty source "source" ;;
                ensure_root faulty replica "replica" ;; ret tt) ;; ret None)
                (started w)) as [[e'|o] w0] eqn:E0.
    + inversion E; subst. eexists _, _. split; [reflexivity|].
      right. eexists _, e'. split; [reflexivity|]. cbn [log]. apply last_last.
    + inversion E; subst. clear E.
      assert (returned = None) as -> by (exact (bind_ret_inr _ _ _ _ _ E0)).
      unfold bind at 1.
      destruct (try_except (loops faulty source replica)
                  (fun e => log_error (Error_during_synchronization e)) w1)
        as [[e|[]] u] eqn:E1.
      * exfalso. unfold try_except in E1.
        destruct (loops faulty source replica w1) as [[?|?] ?]; discriminate.
      * rewrite bind_gets.
        destruct (changes_made u) eqn:Ef; cbn;
          (eexists _, _; split; [reflexivity|]); left; (split; [reflexivity|]);
          cbn [log]; apply last_last.
Qed.






(** ** What a call never removes *)

Lemma guarded_refl w : guarded w w.
Proof. intros q H. now split. Qed.

Lemma guarded_trans a b c : guarded a b -> guarded b c -> guarded a c.
Proof.
  intros H1 H2 q Hq. destruct (H1 q Hq) as [Hs1 Hr1].
  destruct (H2 q Hs1) as [Hs2 Hr2]. split; [exact Hs2|].
  intros Hr. rewrite <- (Hr1 Hr). apply Hr2.
  specialize (Hr1 Hr). destruct (rep_stat a q) as [[?|]|]; [| |congruence];
    destruct (rep_stat b q) as [[?|]|]; discriminate.
Qed.

(** Entries that stay, each with its type. *)
Lemma guarded_kept w w' :
  (forall p, stat w p <> None -> entry_type (stat w' p) = entry_type (stat w p)) ->
  guarded w w'.
Proof.
  intros H q Hq. split.
  - specialize (H (Path Source q) Hq). unfold src_stat in *.
    destruct (stat w (Path Source q)) as [[?|]|]; [| |congruence];
      destruct (stat w' (Path Source q)) as [[?|]|]; discriminate.
  - intros Hr. exact (H (Path Replica q) Hr).
Qed.

Lemma guarded_same_trees w w' : same_trees w w' -> guarded w w'.
Proof. intros H. apply guarded_kept. intros p _. now rewrite (stat_same_trees _ _ _ H). Qed.

Lemma gone_refl p w : gone p w w.
Proof. intros q. now left. Qed.

Lemma gone_trans p a b c : gone p a b -> gone p b c -> gone p a c.
Proof.
  intros H1 H2 q. destruct (H2 q) as [E2|H]; [|now right].
  rewrite E2. apply H1.
Qed.

Lemma gone_same_trees p w w' : same_trees w w' -> gone p w w'.
Proof. intros H q. left. now apply stat_same_trees. Qed.

Lemma gone_removed p w w' : removed p w w' -> gone p w w'.
Proof.
  intros H q. rewrite (H q).
  destruct (side_eqb_spec (base p) (base q)) as [E|E]; cbn [andb]; [|now left].
  destruct (prefixb (rel p) (rel q)); [right|now left]. auto.
Qed.

Section Guard.

Variable faulty : op -> option exn.

Lemma guarded_log_info m : keeps guarded (log_info m).
Proof. intros w r w' H. now apply guarded_same_trees, (same_trees_log_info m w r). Qed.

Lemma guarded_log_error m : keeps guarded (log_error m).
Proof. intros w r w' H. inversion H; subst. now apply guarded_same_trees. Qed.

Lemma guarded_set_changes_made b : keeps guarded (set_changes_made b).
Proof.
  intros w r w' H. now apply guarded_same_trees, (same_trees_set_changes_made b w r).
Qed.

Lemma guarded_calculate_md5 p : keeps guarded (calculate_md5 faulty p).
Proof.
  intros w r w' H.
  destruct (calculate_md5_spec faulty p w) as [(data & _ & E)|(e & E)];
    rewrite E in H; inversion H; subst.
  - apply guarded_refl.
  - now apply guarded_same_trees.
Qed.

(** [os.makedirs] only adds directories. *)
Lemma guarded_makedirs p : keeps guarded (makedirs faulty p).
Proof.
  intros w r w' H.
  apply makedirs_run in H as [(e & _ & ->)|(_ & _ & Hc & _)]; [apply guarded_refl|].
  apply guarded_kept. intros q Hq. rewrite (Hc q).
  destruct (stat w q); [reflexivity|congruence].
Qed.

(** [shutil.copy2] writes a file where none was, or over a file. *)
Lemma guarded_copy2 src dst : keeps guarded (copy2 faulty src dst).
Proof.
  intros w r w' H.
  apply copy2_run in H as [(e & _ & ->)|(_ & _ & data & _ & Hnd & [Hw Ho] & _)];
    [apply guarded_refl|].
  apply guarded_kept. intros q Hq.
  set (t := copy_target w src dst) in *.
  destruct (side_eqb_spec (base q) (base t)) as [Eb|Eb].
  - destruct (list_eq_dec string_dec (rel q) (rel t)) as [Er|Er].
    + assert (q = t) by (destruct q, t; cbn in *; congruence). subst q.
      rewrite Hw. destruct (stat w t) as [[?|]|]; [reflexivity|congruence..].
    + rewrite Ho; [reflexivity|]. intros ->. congruence.
  - rewrite Ho; [reflexivity|]. intros ->. congruence.
Qed.

Lemma gone_log_info p m : keeps (gone p) (log_info m).
Proof. intros w r w' H. now apply gone_same_trees, (same_trees_log_info m w r). Qed.

Lemma gone_set_changes_made p b : keeps (gone p) (set_changes_made b).
Proof.
  intros w r w' H. now apply gone_same_trees, (same_trees_set_changes_made b w r).
Qed.

Lemma gone_remove p : keeps (gone p) (remove faulty p).
Proof.
  intros w r w' H. apply remove_run in H as [(e & _ & ->)|(_ & _ & H & _)].
  - apply gone_refl.
  - now apply gone_removed.
Qed.

Lemma gone_rmtree p : keeps (gone p) (rmtree faulty p).
Proof.
  intros w r w' H. apply rmtree_run in H as [(e & _ & ->)|(_ & _ & H & _)].
  - apply gone_refl.
  - now apply gone_removed.
Qed.

End Guard.

#[local] Hint Resolve guarded_refl guarded_trans guarded_log_info guarded_log_error
  guarded_set_changes_made guarded_calculate_md5 guarded_makedirs guarded_copy2
  gone_refl gone_trans gone_log_info gone_set_changes_made gone_remove gone_rmtree
  : keeps.

Section GuardProgram.

Variable faulty : op -> option exn.

(** What the second loop removes is at or below a name the source does
    not have. *)
Lemma guarded_gone r x w w' :
  src_stat w (r ++ [x]) = None -> gone (Path Replica (r ++ [x])) w w' -> guarded w w'.
Proof.
  intros Hsrc Hg q Hq. split.
  - destruct (Hg (Path Source q)) as [E|(_ & Hb & _)]; [|discriminate Hb].
    unfold src_stat. now rewrite E.
  - intros Hr. destruct (Hg (Path Replica q)) as [E|(_ & _ & Hp)].
    + unfold rep_stat. now rewrite E.
    + exfalso. cbn [rel] in Hp. now apply (src_stat_prefix w _ _ Hp Hq).
Qed.

Lemma guarded_prune_delete_step r x : keeps guarded (prune_delete_step faulty r x).
Proof.
  intros w res w' H. unfold prune_delete_step, path_exists in H.
  rewrite bind_gets in H.
  destruct (find w (Path Source (r ++ [x]))) as [c|] eqn:Hfs; cbn [negb] in H.
  { inversion H; subst. apply guarded_refl. }
  apply (guarded_gone r x); [unfold src_stat; now apply stat_find_none|].
  revert w res w' H Hfs.
  assert (Hk : keeps (gone (Path Replica (r ++ [x])))
                 (isd <- path_isdir (Path Replica (r ++ [x])) ;;
                  (if (isd : bool)
                   then rmtree faulty (Path Replica (r ++ [x])) ;;
                        log_info (Deleted_directory (Path Replica (r ++ [x])))
                   else remove faulty (Path Replica (r ++ [x])) ;;
                        log_info (Deleted_file (Path Replica (r ++ [x])))) ;;
                  set_changes_made true))
    by (unfold path_isdir; keeps_tac).
  intros w res w' H _. exact (Hk w res w' H).
Qed.

Lemma guarded_prune_step r x : keeps guarded (prune_step faulty r x).
Proof.
  unfold prune_step.
  apply keeps_try; [apply guarded_trans|apply guarded_prune_delete_step|].
  intros e. apply guarded_log_error.
Qed.

Lemma guarded_prune root dirs files :
  base root = Replica ->
  keeps guarded (prune faulty source_root replica_root root dirs files).
Proof.
  destruct root as [s r]. cbn [base]. intros ->. rewrite prune_steps.
  apply keeps_for_each;
    first [apply guarded_refl | apply guarded_trans | intros x _ ].
  apply guarded_prune_step.
Qed.

Lemma guarded_propagate root dirs files :
  keeps guarded (propagate faulty source_root replica_root root dirs files).
Proof. unfold propagate, path_exists. keeps_tac. Qed.

Lemma guarded_both_loops : keeps guarded (both_loops faulty).
Proof.
  unfold both_loops. apply keeps_bind; [apply guarded_trans| |intros _].
  - apply keeps_os_walk; [apply guarded_refl|apply guarded_trans|].
    intros root dirs files _. apply guarded_propagate.
  - apply keeps_os_walk; [apply guarded_refl|apply guarded_trans|].
    intros root dirs files H. now apply guarded_prune.
Qed.

Lemma guarded_sync_folders :
  keeps guarded (sync_folders faulty source_root replica_root).
Proof.
  rewrite sync_folders_steps. unfold ensure_root, finish, path_exists.
  pose proof guarded_both_loops as Hloops.
  keeps_tac.
Qed.

End GuardProgram.

Lemma entry_type_none o : entry_type o = None <-> o = None.
Proof. destruct o as [[?|]|]; split; intros H; try discriminate; reflexivity. Qed.

Lemma kept_refl w : kept w w.
Proof. now intros p _. Qed.

Lemma kept_trans a b c : kept a b -> kept b c -> kept a c.
Proof.
  intros H1 H2 p Hp. rewrite <- (H1 p Hp). apply H2.
  intros Hn. specialize (H1 p Hp). rewrite Hn in H1.
  symmetry in H1. now apply entry_type_none in H1.
Qed.

Lemma kept_same_trees w w' : same_trees w w' -> kept w w'.
Proof. intros H p _. now rewrite (stat_same_trees _ _ _ H). Qed.

Lemma guarded_at_refl source replica w : guarded_at source replica w w.
Proof. intros q H. now split. Qed.

Lemma guarded_at_trans source replica a b c :
  guarded_at source replica a b -> guarded_at source replica b c ->
  guarded_at source replica a c.
Proof.
  intros H1 H2 q Hq. destruct (H1 q Hq) as [Hs1 Hr1].
  destruct (H2 q Hs1) as [Hs2 Hr2]. split; [exact Hs2|].
  intros Hr. rewrite <- (Hr1 Hr). apply Hr2.
  intros Hn. specialize (Hr1 Hr). rewrite Hn in Hr1.
  symmetry in Hr1. now apply entry_type_none in Hr1.
Qed.

Lemma guarded_at_kept source replica w w' : kept w w' -> guarded_at source replica w w'.
Proof.
  intros H q Hq. split; [|intros Hr; now apply H].
  intros Hn. specialize (H _ Hq). rewrite Hn in H.
  symmetry in H. now apply entry_type_none in H.
Qed.

Lemma prefixb_app_cancel p : forall a b, prefixb (p ++ a) (p ++ b) = prefixb a b.
Proof.
  induction p as [|x p IH]; intros a b; [reflexivity|].
  cbn [app prefixb]. now rewrite String.eqb_refl, IH.
Qed.

(** What the second loop removes, below folders that are apart, is at or
    below a name the source folder does not have. *)
Lemma guarded_at_gone source replica r x w w' :
  apart source replica ->
  stat w (join (join source r) [x]) = None ->
  gone (join (join replica r) [x]) w w' ->
  guarded_at source replica w w'.
Proof.
  intros [Hsr Hrs] Hsrc Hg q Hq. split.
  - destruct (Hg (join source q)) as [E|(_ & Hb & Hp)]; [now rewrite E|].
    exfalso. cbn [join base rel] in Hb, Hp.
    assert (Hu : under replica (join source q) = true).
    { unfold under. cbn [join base rel]. rewrite <- Hb, side_eqb_refl. cbn [andb].
      apply (prefixb_trans _ ((rel replica ++ r) ++ [x])); [|exact Hp].
      rewrite <- app_assoc. apply prefixb_app. }
    destruct (under_comparable _ _ _ (under_join source q) Hu); congruence.
  - intros Hr. destruct (Hg (join replica q)) as [E|(_ & _ & Hp)]; [now rewrite E|].
    exfalso. cbn [join base rel] in Hp.
    rewrite <- app_assoc, prefixb_app_cancel in Hp.
    destruct (prefixb_true _ _ Hp) as [t ->].
    apply Hq. unfold join in *. cbn [base rel] in *.
    replace (rel source ++ (r ++ [x]) ++ t) with (((rel source ++ r) ++ [x]) ++ t)
      by (now rewrite <- !app_assoc).
    now apply stat_below_none.
Qed.

Section GuardAt.

Variable faulty : op -> option exn.

Lemma kept_log_info m : keeps kept (log_info m).
Proof. intros w r w' H. now apply kept_same_trees, (same_trees_log_info m w r). Qed.

Lemma kept_log_error m : keeps kept (log_error m).
Proof. intros w r w' H. inversion H; subst. now apply kept_same_trees. Qed.

Lemma kept_set_changes_made b : keeps kept (set_changes_made b).
Proof.
  intros w r w' H. now apply kept_same_trees, (same_trees_set_changes_made b w r).
Qed.

Lemma kept_calculate_md5 p : keeps kept (calculate_md5 faulty p).
Proof.
  intros w r w' H.
  destruct (calculate_md5_spec faulty p w) as [(data & _ & E)|(e & E)];
    rewrite E in H; inversion H; subst.
  - apply kept_refl.
  - now apply kept_same_trees.
Qed.

Lemma kept_makedirs p : keeps kept (makedirs faulty p).
Proof.
  intros w r w' H.
  apply makedirs_run in H as [(e & _ & ->)|(_ & _ & Hc & _)]; [apply kept_refl|].
  intros q Hq. rewrite (Hc q). destruct (stat w q); [reflexivity|congruence].
Qed.

Lemma kept_copy2 src dst : keeps kept (copy2 faulty src dst).
Proof.
  intros w r w' H.
  apply copy2_run in H as [(e & _ & ->)|(_ & _ & data & _ & Hnd & [Hw Ho] & _)];
    [apply kept_refl|].
  intros q Hq. set (t := copy_target w src dst) in *.
  destruct (side_eqb_spec (base q) (base t)) as [Eb|Eb].
  - destruct (list_eq_dec string_dec (rel q) (rel t)) as [Er|Er].
    + assert (q = t) by (destruct q, t; cbn in *; congruence). subst q.
      rewrite Hw. destruct (stat w t) as [[?|]|]; [reflexivity|congruence..].
    + rewrite Ho; [reflexivity|]. intros ->. congruence.
  - rewrite Ho; [reflexivity|]. intros ->. congruence.
Qed.

End GuardAt.

#[local] Hint Resolve kept_refl kept_trans kept_log_info kept_log_error
  kept_set_changes_made kept_calculate_md5 kept_makedirs kept_copy2 : keeps.

Section GuardAtProgram.

Variable faulty : op -> option exn.
Variables source replica : path.
Hypothesis Hapart : apart source replica.

Lemma kept_propagate root dirs files :
  keeps kept (propagate faulty source replica root dirs files).
Proof. unfold propagate, path_exists. keeps_tac. Qed.

Lemma guarded_at_prune root dirs files :
  under replica root = true ->
  keeps (guarded_at source replica) (prune faulty source replica root dirs files).
Proof.
  intros Hroot. unfold under in Hroot.
  apply andb_true_iff in Hroot as [Hb Hp].
  destruct (side_eqb_spec (base replica) (base root)) as [Eb|]; [|discriminate].
  destruct (prefixb_true _ _ Hp) as [r Hr].
  assert (Eroot : root = join replica r)
    by (destruct root; unfold join; cbn [base rel] in *; congruence).
  subst root. unfold prune.
  assert (Hrel : relpath (join replica r) replica = r)
    by (unfold relpath, join; cbn [rel]; apply skipn_length_app).
  rewrite Hrel. cbv zeta.
  apply keeps_for_each; [apply guarded_at_refl|apply guarded_at_trans|].
  intros x _.
  apply keeps_try; [apply guarded_at_trans| |].
  2:{ intros e w res w' H. inversion H; subst.
      now apply guarded_at_kept, kept_same_trees. }
  intros w res w' H. unfold path_exists in H. rewrite bind_gets in H.
  destruct (find w (join (join source r) [x])) as [c|] eqn:Hfs; cbn [negb] in H.
  { inversion H; subst. apply guarded_at_refl. }
  apply (guarded_at_gone source replica r x); [exact Hapart|now apply stat_find_none|].
  revert w res w' H Hfs.
  assert (Hk : keeps (gone (join (join replica r) [x]))
                 (isd <- path_isdir (join (join replica r) [x]) ;;
                  (if (isd : bool)
                   then rmtree faulty (join (join replica r) [x]) ;;
                        log_info (Deleted_directory (join (join replica r) [x]))
                   else remove faulty (join (join replica r) [x]) ;;
                        log_info (Deleted_file (join (join replica r) [x]))) ;;
                  set_changes_made true))
    by (unfold path_isdir; keeps_tac).
  intros w res w' H _. exact (Hk w res w' H).
Qed.

Lemma guarded_at_sync_folders :
  keeps (guarded_at source replica) (sync_folders faulty source replica).
Proof.
  assert (Hk : forall A (c : M A), keeps kept c -> keeps (guarded_at source replica) c).
  { intros A c Hc w r w' H. apply guarded_at_kept. exact (Hc w r w' H). }
  rewrite sync_folders_parts.
  assert (Hloops : keeps (guarded_at source replica) (loops faulty source replica)).
  { unfold loops. apply keeps_bind; [apply guarded_at_trans| |intros _].
    - apply Hk. apply keeps_os_walk; [apply kept_refl|apply kept_trans|].
      intros root dirs files _. apply kept_propagate.
    - apply keeps_os_walk_under; [apply guarded_at_refl|apply guarded_at_trans|].
      intros root dirs files. apply guarded_at_prune. }
  assert (Hroot : forall folder which,
             keeps (guarded_at source replica) (ensure_root faulty folder which)).
  { intros folder which. apply Hk. unfold ensure_root, path_exists. keeps_tac. }
  assert (Hinfo : forall m, keeps (guarded_at source replica) (log_info m))
    by (intros m; apply Hk, kept_log_info).
  assert (Herr : forall m, keeps (guarded_at source replica) (log_error m))
    by (intros m; apply Hk, kept_log_error).
  assert (Hset : forall b, keeps (guarded_at source replica) (set_changes_made b))
    by (intros b; apply Hk, kept_set_changes_made).
  pose proof (guarded_at_refl source replica) as Hrefl.
  pose proof (guarded_at_trans source replica) as Htrans.
  keeps_tac.
Qed.

End GuardAtProgram.

(** X4. When no operation fails, a call on two folders of which neither
    is the other nor lies inside it never removes an entry of the replica
    folder whose path the source folder has, nor changes its type: a file
    stays a file and a directory a directory, whatever the two folders
    hold (so a file on one side and a directory on the other are never
    put right). *)
Theorem replica_entries_survive source replica w q :
  apart source replica ->
  stat w (join source q) <> None -> stat w (join replica q) <> None ->
  entry_type (stat (snd (sync_folders no_faults source replica w)) (join replica q)) =
    entry_type (stat w (join replica q)).
Proof.
  intros Ha Hs Hr.
  destruct (sync_folders no_faults source replica w) as [r w'] eqn:E. cbn [snd].
  now apply (guarded_at_sync_folders no_faults source replica Ha w r w' E q Hs).
Qed.

Lemma replica_entries_survive_witness :
  apart source_root replica_root /\
  stat ex_conflict (join source_root ["a"%string]) <> None /\
  stat ex_conflict (join replica_root ["a"%string]) <> None /\
  entry_type (stat (snd (sync_folders no_faults source_root replica_root ex_conflict))
                   (join replica_root ["a"%string])) =
    entry_type (stat ex_conflict (join replica_root ["a"%string])).
Proof.
  assert (Ha : apart source_root replica_root) by (split; reflexivity).
  assert (Hs : stat ex_conflict (join source_root ["a"%string]) <> None)
    by (vm_compute; discriminate).
  assert (Hr : stat ex_conflict (join replica_root ["a"%string]) <> None)
    by (vm_compute; discriminate).
  split; [exact Ha|]. split; [exact Hs|]. split; [exact Hr|].
  exact (replica_entries_survive source_root replica_root ex_conflict ["a"%string]
           Ha Hs Hr).
Defined.

(** ** Calls that change nothing *)

Lemma in_sync_same w : source_tree w = replica_tree w -> in_sync w.
Proof.
  intros H q. unfold src_stat, rep_stat, stat, find. cbn [base rel tree]. rewrite H.
  destruct (option_map kind_of (vlookup (replica_tree w) q)) as [[data|]|];
    cbn [same_entry]; auto.
Qed.

(** X5. On a replica that mirrors the source already (entry for entry,
    files with the same digest), a call in which no operation fails makes
    no mutation, leaves [changes_made] [False] and logs three records:
    the start, "No changes made in synchronization." and the end. *)
Theorem mirrored_replica_left_alone w :
  in_sync w -> source_tree w <> None -> replica_tree w <> None ->
  exists w',
    sync_folders no_faults source_root replica_root w = (inr PyNone, w') /\
    source_tree w' = source_tree w /\ replica_tree w' = replica_tree w /\
    journal w' = journal w /\ changes_made w' = false /\
    log w' = log w ++ [INFO Starting_synchronization; INFO No_changes_made;
                       INFO Synchronization_completed].
Proof.
  intros Hs Hsrc Hrep. exists (finished (started w)).
  split; [now apply sync_folders_idle|].
  unfold finished, started. cbn. rewrite <- app_assoc. auto.
Qed.

Lemma mirrored_replica_left_alone_witness :
  in_sync ex_in_step /\ source_tree ex_in_step <> None /\
  replica_tree ex_in_step <> None /\
  exists w',
    sync_folders no_faults source_root replica_root ex_in_step = (inr PyNone, w') /\
    source_tree w' = source_tree ex_in_step /\
    replica_tree w' = replica_tree ex_in_step /\
    journal w' = journal ex_in_step /\ changes_made w' = false /\
    log w' = log ex_in_step ++
             [INFO Starting_synchronization; INFO No_changes_made;
              INFO Synchronization_completed].
Proof.
  assert (Hi : in_sync ex_in_step) by (apply in_sync_same; reflexivity).
  assert (Hs : source_tree ex_in_step <> None) by discriminate.
  assert (Hr : replica_tree ex_in_step <> None) by discriminate.
  split; [exact Hi|]. split; [exact Hs|]. split; [exact Hr|].
  exact (mirrored_replica_left_alone ex_in_step Hi Hs Hr).
Defined.

Section Unlisted.

Variable faulty : op -> option exn.

(** [os.walk] passes over a directory it cannot list, and says nothing. *)
Lemma walk_unlisted fuel top body w :
  scandir faulty top w = None -> walk faulty fuel top body w = (inr tt, w).
Proof.
  intros H. destruct fuel as [|fuel]; [reflexivity|].
  cbn [walk]. now rewrite bind_gets, H.
Qed.

Lemma both_loops_unlisted w :
  scandir faulty source_root w = None -> scandir faulty replica_root w = None ->
  both_loops faulty w = (inr tt, w).
Proof.
  intros Hs Hr. unfold both_loops, os_walk.
  rewrite (bind_inr _ _ _ tt w).
  - rewrite bind_gets. now apply walk_unlisted.
  - rewrite bind_gets. now apply walk_unlisted.
Qed.

End Unlisted.

(** X6. A root that cannot be listed is passed over in silence: when the
    listing of both roots fails, the call copies and removes nothing, logs
    no error, and reports "No changes made in synchronization.", whatever
    the two trees hold. *)
Theorem unlisted_roots_pass_in_silence faulty w e1 e2 :
  source_tree w <> None -> replica_tree w <> None ->
  faulty (OpScandir source_root) = Some e1 ->
  faulty (OpScandir replica_root) = Some e2 ->
  exists w',
    sync_folders faulty source_root replica_root w = (inr PyNone, w') /\
    source_tree w' = source_tree w /\ replica_tree w' = replica_tree w /\
    journal w' = journal w /\ changes_made w' = false /\
    log w' = log w ++ [INFO Starting_synchronization; INFO No_changes_made;
                       INFO Synchronization_completed].
Proof.
  intros Hsrc Hrep H1 H2. exists (finished (started w)). split.
  - rewrite sync_folders_roots_ok by (left; assumption).
    assert (Hroots : with_roots w = started w).
    { unfold with_roots, with_root, started.
      destruct w as [[sn|] [rn|] l j c]; cbn in *; congruence. }
    rewrite Hroots.
    destruct (finish_run faulty (started w)) as (w1 & Htry & ->).
    rewrite (try_inr _ _ _ tt (started w)) in Htry; [now inversion Htry|].
    apply both_loops_unlisted; unfold scandir; [now rewrite H1|now rewrite H2].
  - unfold finished, started. cbn. rewrite <- app_assoc. auto.
Qed.

Lemma unlisted_roots_pass_in_silence_witness :
  source_tree ex_update <> None /\ replica_tree ex_update <> None /\
  unlistable (OpScandir source_root) = Some PermissionError /\
  unlistable (OpScandir replica_root) = Some PermissionError /\
  exists w',
    sync_folders unlistable source_root replica_root ex_update = (inr PyNone, w') /\
    source_tree w' = source_tree ex_update /\
    replica_tree w' = replica_tree ex_update /\
    journal w' = journal ex_update /\ changes_made w' = false /\
    log w' = log ex_update ++
             [INFO Starting_synchronization; INFO No_changes_made;
              INFO Synchronization_completed].
Proof.
  assert (Hs : source_tree ex_update <> None) by discriminate.
  assert (Hr : replica_tree ex_update <> None) by discriminate.
  split; [exact Hs|]. split; [exact Hr|]. split; [reflexivity|]. split; [reflexivity|].
  exact (unlisted_roots_pass_in_silence unlistable ex_update PermissionError
           PermissionError Hs Hr eq_refl eq_refl).
Defined.

(** ** Calls that succeed, and what they leave *)

Lemma errors_same w w' l :
  log w' = log w ++ l -> nerr w' = nerr w -> errors w' = errors w.
Proof.
  unfold nerr, errors. intros -> H. rewrite filter_app in *.
  rewrite length_app in H.
  destruct (filter is_error l); [now rewrite app_nil_r|].
  cbn [length] in H. lia.
Qed.

(** X7. One call suffices. When no operation fails, the replica lists
    each name once and no path is a file on one side and a directory on
    the other, a call returns [None], adds no error to the log and leaves
    a replica that mirrors the source: entry for entry, files with the
    same digest, and byte for byte when no two files at one place had
    different bytes and one digest. *)
Theorem one_call_mirrors w :
  dir_or_missing (source_tree w) -> dir_or_missing (replica_tree w) ->
  compatible w -> tidy w ->
  exists w',
    sync_folders no_faults source_root replica_root w = (inr PyNone, w') /\
    errors w' = errors w /\ in_sync w' /\ (collision_free w -> identical w').
Proof.
  intros Hs Hr Hc Ht.
  destruct (sync_folders_mirrors w Hs Hr Hc Ht) as (w' & E & Hn & Hsync & Hid).
  exists w'. split; [exact E|]. split; [|now split].
  destruct (frame_sync_folders no_faults w _ _ E) as (_ & [l Hl] & _).
  now apply (errors_same w w' l).
Qed.

Lemma one_call_mirrors_witness :
  dir_or_missing (source_tree ex_no_replica) /\
  dir_or_missing (replica_tree ex_no_replica) /\
  compatible ex_no_replica /\ tidy ex_no_replica /\
  exists w',
    sync_folders no_faults source_root replica_root ex_no_replica = (inr PyNone, w') /\
    errors w' = errors ex_no_replica /\ in_sync w' /\
    (collision_free ex_no_replica -> identical w').
Proof.
  assert (Hc : compatible ex_no_replica).
  { intros q. unfold rep_stat, stat, find. cbn [base rel tree ex_no_replica initial
      replica_tree vlookup option_map].
    now destruct (src_stat _ q) as [[?|]|]. }
  split; [exact I|]. split; [exact I|]. split; [exact Hc|]. split; [exact I|].
  exact (one_call_mirrors ex_no_replica I I Hc I).
Defined.

(** ** A source without entries: the call *)

(** X8. A source with no entry below its root (a missing or empty folder,
    or a path that is no folder at all) empties the replica: when no
    operation fails, the call returns [None] and nothing is left below
    the replica root. *)
Theorem bare_source_empties_replica w :
  bare_source w -> dir_or_missing (replica_tree w) ->
  exists w',
    sync_folders no_faults source_root replica_root w = (inr PyNone, w') /\
    empty_replica w' /\ rep_stat w' [] = Some KDir.
Proof.
  intros Hb Hd.
  assert (Hsrc : src_stat (with_roots w) [] <> None).
  { unfold src_stat. rewrite stat_vstat. cbn [base rel tree].
    rewrite source_with_roots. now destruct (source_tree w). }
  assert (Hrep : rep_stat (with_roots w) [] = Some KDir).
  { unfold rep_stat. rewrite stat_vstat. cbn [base rel tree].
    rewrite replica_with_roots. now apply stat_root_or_empty. }
  destruct (prune_bare_source (with_roots w) (bare_with_roots w Hb) Hsrc Hrep)
    as (w1 & E & _ & Hempty & Hroot).
  assert (Hloops : both_loops no_faults (with_roots w) = (inr tt, w1)).
  { unfold both_loops.
    now rewrite (bind_inr _ _ _ _ _
                   (os_walk_bare_source no_faults _ (bare_with_roots w Hb))). }
  destruct (finish_run no_faults (with_roots w)) as (w1' & Htry & Hfin).
  rewrite (try_inr _ _ _ _ _ Hloops) in Htry. inversion Htry; subst w1'.
  exists (finished w1). split; [|split].
  - rewrite sync_folders_roots_ok by (right; reflexivity). exact Hfin.
  - intros q Hq. unfold rep_stat.
    rewrite (stat_same_trees _ _ _ (same_trees_finished w1)). now apply Hempty.
  - unfold rep_stat. now rewrite (stat_same_trees _ _ _ (same_trees_finished w1)).
Qed.

Lemma bare_source_empties_replica_witness :
  bare_source ex_source_is_file /\ dir_or_missing (replica_tree ex_source_is_file) /\
  exists w',
    sync_folders no_faults source_root replica_root ex_source_is_file =
      (inr PyNone, w') /\
    empty_replica w' /\ rep_stat w' [] = Some KDir.
Proof.
  assert (Hb : bare_source ex_source_is_file).
  { intros q Hq. destruct q; [congruence|reflexivity]. }
  split; [exact Hb|]. split; [exact I|].
  exact (bare_source_empties_replica ex_source_is_file Hb I).
Defined.

(** ** Where the bytes of the replica come from *)

Lemma sourced_refl w : sourced w w.
Proof. split; auto. Qed.

Lemma sourced_trans a b c : sourced a b -> sourced b c -> sourced a c.
Proof.
  intros [Hs1 Hr1] [Hs2 Hr2]. split; [auto|].
  intros q data H.
  destruct (Hr2 q data H) as [H'|[H'|(r & f & -> & H')]].
  - now apply Hr1.
  - right. left. now apply Hs1.
  - right. right. exists r, f. split; [reflexivity|now apply Hs1].
Qed.

(** No file appears: files stay or go. *)
Lemma sourced_no_new_file w w' :
  (forall p data, stat w' p = Some (KFile data) -> stat w p = Some (KFile data)) ->
  sourced w w'.
Proof.
  intros H. split; intros q data Hq; [|left]; now apply H.
Qed.

Lemma sourced_same_trees w w' : same_trees w w' -> sourced w w'.
Proof.
  intros H. apply sourced_no_new_file. intros p data.
  now rewrite (stat_same_trees _ _ _ H).
Qed.

Lemma basename_last s r f : basename (Path s (r ++ [f])) = [f].
Proof. unfold basename. cbn [rel]. now rewrite rev_unit. Qed.

Section Sourced.

Variable faulty : op -> option exn.

Lemma sourced_log_info m : keeps sourced (log_info m).
Proof. intros w r w' H. now apply sourced_same_trees, (same_trees_log_info m w r). Qed.

Lemma sourced_log_error m : keeps sourced (log_error m).
Proof. intros w r w' H. inversion H; subst. now apply sourced_same_trees. Qed.

Lemma sourced_set_changes_made b : keeps sourced (set_changes_made b).
Proof.
  intros w r w' H. now apply sourced_same_trees, (same_trees_set_changes_made b w r).
Qed.

Lemma sourced_calculate_md5 p : keeps sourced (calculate_md5 faulty p).
Proof.
  intros w r w' H.
  destruct (calculate_md5_spec faulty p w) as [(data & _ & E)|(e & E)];
    rewrite E in H; inversion H; subst.
  - apply sourced_refl.
  - now apply sourced_same_trees.
Qed.

Lemma sourced_makedirs p : keeps sourced (makedirs faulty p).
Proof.
  intros w r w' H.
  apply makedirs_run in H as [(e & _ & ->)|(_ & _ & Hc & _)]; [apply sourced_refl|].
  apply sourced_no_new_file. intros q data. rewrite (Hc q).
  destruct (stat w q); [auto|].
  destruct (side_eqb (base p) (base q) && prefixb (rel q) (rel p)); discriminate.
Qed.

Lemma sourced_remove p : keeps sourced (remove faulty p).
Proof.
  intros w r w' H.
  apply remove_run in H as [(e & _ & ->)|(_ & _ & Hc & _)]; [apply sourced_refl|].
  apply sourced_no_new_file. intros q data. rewrite (Hc q).
  destruct (side_eqb (base p) (base q) && prefixb (rel p) (rel q)); [discriminate|auto].
Qed.

Lemma sourced_rmtree p : keeps sourced (rmtree faulty p).
Proof.
  intros w r w' H.
  apply rmtree_run in H as [(e & _ & ->)|(_ & _ & Hc & _)]; [apply sourced_refl|].
  apply sourced_no_new_file. intros q data. rewrite (Hc q).
  destruct (side_eqb (base p) (base q) && prefixb (rel p) (rel q)); [discriminate|auto].
Qed.

(** The copy of the first loop: to the place of the source file, or into
    the directory that stands there. *)
Lemma sourced_copy r f :
  keeps sourced (copy2 faulty (Path Source (r ++ [f])) (Path Replica (r ++ [f]))).
Proof.
  intros w res w' H.
  apply copy2_run in H as [(e & _ & ->)|(_ & _ & data & Hs & _ & [Hw Ho] & _)];
    [apply sourced_refl|].
  assert (Ht : exists t,
             copy_target w (Path Source (r ++ [f])) (Path Replica (r ++ [f])) =
               Path Replica t /\
             (t = r ++ [f] \/ t = r ++ [f; f])).
  { unfold copy_target.
    destruct (find w (Path Replica (r ++ [f]))) as [[?|?]|]; eauto.
    unfold join. rewrite basename_last. cbn [base rel].
    rewrite <- app_assoc. eauto. }
  destruct Ht as (t & Ht & Hcases). rewrite Ht in *. split.
  - intros q d. unfold src_stat. rewrite Ho; [auto|discriminate].
  - intros q d. unfold rep_stat.
    destruct (list_eq_dec string_dec q t) as [->|Hne].
    + rewrite Hw. intros E. inversion E; subst d. right.
      destruct Hcases as [->| ->]; [now left|right; eauto].
    + rewrite Ho; [auto|congruence].
Qed.

End Sourced.

#[local] Hint Resolve sourced_refl sourced_trans sourced_log_info sourced_log_error
  sourced_set_changes_made sourced_calculate_md5 sourced_makedirs sourced_remove
  sourced_rmtree sourced_copy : keeps.

Section SourcedProgram.

Variable faulty : op -> option exn.

Lemma sourced_propagate root dirs files :
  base root = Source ->
  keeps sourced (propagate faulty source_root replica_root root dirs files).
Proof.
  destruct root as [s r]. cbn [base]. intros ->. rewrite propagate_steps.
  unfold propagate_dir_step, propagate_file_step, propagate_copy_step, path_exists.
  keeps_tac.
Qed.

Lemma sourced_prune root dirs files :
  keeps sourced (prune faulty source_root replica_root root dirs files).
Proof. unfold prune, path_exists, path_isdir. keeps_tac. Qed.

Lemma sourced_both_loops : keeps sourced (both_loops faulty).
Proof.
  unfold both_loops. apply keeps_bind; [apply sourced_trans| |intros _].
  - apply keeps_os_walk; [apply sourced_refl|apply sourced_trans|].
    intros root dirs files H. now apply sourced_propagate.
  - apply keeps_os_walk; [apply sourced_refl|apply sourced_trans|].
    intros root dirs files _. apply sourced_prune.
Qed.

Lemma sourced_sync_folders :
  keeps sourced (sync_folders faulty source_root replica_root).
Proof.
  rewrite sync_folders_steps. unfold ensure_root, finish, path_exists.
  pose proof sourced_both_loops as Hloops.
  keeps_tac.
Qed.

End SourcedProgram.

(** X9. When [shutil.copy2] does not fail halfway, whatever else fails,
    a call writes nothing into the replica but the bytes of source files:
    a file of the replica after the call holds the bytes it held before,
    or those of the source file at the same path; or it is the copy that
    [shutil.copy2] puts, under the name [f], into a directory standing
    where the source has the file [f]. *)
Theorem replica_bytes_come_from_source faulty w q data :
  copies_whole faulty ->
  rep_stat (snd (sync_folders faulty source_root replica_root w)) q =
    Some (KFile data) ->
  rep_stat w q = Some (KFile data) \/
  src_stat w q = Some (KFile data) \/
  exists r f, q = r ++ [f; f] /\ src_stat w (r ++ [f]) = Some (KFile data).
Proof.
  intros _.
  destruct (sync_folders faulty source_root replica_root w) as [r w'] eqn:E.
  cbn [snd]. apply (sourced_sync_folders faulty w r w' E).
Qed.

Lemma replica_bytes_come_from_source_witness :
  copies_whole undeletable /\
  rep_stat (snd (sync_folders undeletable source_root replica_root ex_update))
           ["a.txt"%string] = Some (KFile (bytes_of "v2")) /\
  (rep_stat ex_update ["a.txt"%string] = Some (KFile (bytes_of "v2")) \/
   src_stat ex_update ["a.txt"%string] = Some (KFile (bytes_of "v2")) \/
   exists r f, ["a.txt"%string] = r ++ [f; f] /\
               src_stat ex_update (r ++ [f]) = Some (KFile (bytes_of "v2"))).
Proof.
  assert (Hc : copies_whole undeletable) by (intros src dst; reflexivity).
  assert (H : rep_stat (snd (sync_folders undeletable source_root replica_root ex_update))
                       ["a.txt"%string] = Some (KFile (bytes_of "v2")))
    by (vm_compute; reflexivity).
  split; [exact Hc|]. split; [exact H|].
  exact (replica_bytes_come_from_source undeletable ex_update ["a.txt"%string]
           (bytes_of "v2") Hc H).
Defined.

(** ** setup_logging *)

Lemma prefixb_longer p x : prefixb (p ++ [x]) p = false.
Proof.
  induction p as [|y p IH]; [reflexivity|].
  cbn [app prefixb]. now rewrite String.eqb_refl, IH.
Qed.

Lemma removelast_snoc (p : list name) :
  p <> [] -> exists x, p = removelast p ++ [x].
Proof.
  intros H. exists (last p EmptyString). now apply app_removelast_last.
Qed.

Lemma nstat_lookup_dir n p :
  nstat n p = Some KDir <-> exists es, lookup n p = Some (Dir es).
Proof.
  unfold nstat. destruct (lookup n p) as [[d|es]|]; cbn; split;
    try discriminate; eauto; intros [es' H]; discriminate.
Qed.

Section SetupLogging.

Variable host_faulty : host_op -> option exn.

(** Opening the log file, its directory being there. *)
Lemma basicConfig_opens log_file h :
  log_file <> [] -> handler h = None ->
  host_faulty (HostOpen log_file) = None ->
  nstat (disk h) (removelast log_file) = Some KDir ->
  nstat (disk h) log_file <> Some KDir ->
  exists h',
    basicConfig host_faulty log_file h = (inr tt, h') /\
    handler h' = Some log_file /\
    nstat (disk h') log_file =
      match nstat (disk h) log_file with
      | Some k => Some k
      | None => Some (KFile [])
      end /\
    forall q k, nstat (disk h) q = Some k -> nstat (disk h') q = Some k.
Proof.
  intros Hne Hh Hf Hdir Hnd. unfold basicConfig. rewrite Hh, Hf.
  destruct (lookup (disk h) log_file) as [[data|es]|] eqn:El.
  - eexists. split; [reflexivity|]. cbn [handler disk]. split; [reflexivity|].
    split; [|auto]. unfold nstat. now rewrite El.
  - exfalso. apply Hnd. unfold nstat. now rewrite El.
  - apply nstat_lookup_dir in Hdir as Hd. destruct Hd as [es Hd]. rewrite Hd.
    eexists. split; [reflexivity|]. cbn [handler disk]. split; [reflexivity|].
    split.
    + unfold nstat at 1.
      rewrite <- (app_nil_r log_file) at 2.
      rewrite (lookup_write log_file (disk h) (Some (File [])) [] Hne Hdir).
      unfold nstat. now rewrite El.
    + intros q k Hq. rewrite nstat_write_other; [exact Hq|exact Hne|].
      destruct (prefixb log_file q) eqn:Ep; [|reflexivity].
      exfalso. destruct (prefixb_true _ _ Ep) as [t ->].
      assert (Hn : nstat (disk h) log_file = None) by (unfold nstat; now rewrite El).
      rewrite (nstat_app_None _ _ t Hn) in Hq. discriminate.
Qed.

End SetupLogging.

(** X10. [setup_logging] readies the log file. When no regular file
    stands where the directory of the log file or one of its parents
    should be, the log file is no directory, and neither the making of
    the directory nor the opening of the file fails, [setup_logging]
    returns with the root logger writing to the log file: the directory
    is there (made with its parents when it was missing), the log file is
    there (empty when it was missing, with what it held otherwise), and
    every entry that was there is kept. *)
Theorem setup_logging_readies_the_log_file host_faulty log_file h :
  log_file <> [] -> handler h = None ->
  host_faulty (HostMakedirs (removelast log_file)) = None ->
  host_faulty (HostOpen log_file) = None ->
  clear_way (disk h) (removelast log_file) ->
  nstat (disk h) log_file <> Some KDir ->
  exists h',
    setup_logging host_faulty log_file h = (inr tt, h') /\
    handler h' = Some log_file /\
    nstat (disk h') (removelast log_file) = Some KDir /\
    nstat (disk h') log_file =
      match nstat (disk h) log_file with
      | Some k => Some k
      | None => Some (KFile [])
      end /\
    forall q k, nstat (disk h) q = Some k -> nstat (disk h') q = Some k.
Proof.
  intros Hne Hh Hfm Hfo Hway Hnd.
  assert (Hthere : nstat (disk h) (removelast log_file) <> None ->
                   nstat (disk h) (removelast log_file) = Some KDir).
  { intros H. destruct (nstat (disk h) (removelast log_file)) as [[data|]|] eqn:E;
      [|reflexivity|congruence].
    exfalso. apply (Hway (removelast log_file) data (prefixb_refl _) E). }
  assert (Hskip : nstat (disk h) (removelast log_file) = Some KDir ->
            exists h',
              basicConfig host_faulty log_file h = (inr tt, h') /\
              handler h' = Some log_file /\
              nstat (disk h') (removelast log_file) = Some KDir /\
              nstat (disk h') log_file =
                match nstat (disk h) log_file with
                | Some k => Some k
                | None => Some (KFile [])
                end /\
              forall q k, nstat (disk h) q = Some k -> nstat (disk h') q = Some k).
  { intros Hdir.
    destruct (basicConfig_opens host_faulty log_file h Hne Hh Hfo Hdir Hnd)
      as (h' & E & H1 & H2 & H3).
    exists h'. split; [exact E|]. split; [exact H1|]. split; [now apply H3|].
    split; [exact H2|exact H3]. }
  unfold setup_logging. cbv zeta.
  destruct (removelast log_file) as [|x log_dir] eqn:Edir.
  { apply Hskip, Hthere. unfold nstat. cbn [lookup option_map]. discriminate. }
  destruct (lookup (disk h) (x :: log_dir)) as [c|] eqn:El.
  { apply Hskip, Hthere. unfold nstat. rewrite El. discriminate. }
  unfold host_makedirs. rewrite Hfm, El.
  destruct (mkdirs (disk h) (x :: log_dir)) as [e|n'] eqn:Em.
  { exfalso. apply mkdirs_error in Em as (q & data & Hq & Hs).
    exact (Hway q data Hq Hs). }
  assert (Hnone : nstat (disk h) (x :: log_dir) = None)
    by (unfold nstat; now rewrite El).
  destruct (removelast_snoc log_file Hne) as [f Hf]. rewrite Edir in Hf.
  assert (Hfile : nstat (disk h) log_file = None).
  { rewrite Hf. now apply nstat_app_None. }
  assert (Hfile' : nstat n' log_file = None).
  { rewrite (nstat_mkdirs _ _ _ log_file Em), Hfile.
    rewrite Hf at 1. now rewrite prefixb_longer. }
  destruct (basicConfig_opens host_faulty log_file (Host n' (handler h)) Hne Hh Hfo)
    as (h' & E & H1 & H2 & H3); cbn [disk].
  { rewrite Edir. exact (mkdirs_done _ _ _ Em). }
  { rewrite Hfile'. discriminate. }
  exists h'. split; [exact E|]. split; [exact H1|]. cbn [disk] in H2, H3. split.
  { apply H3. exact (mkdirs_done _ _ _ Em). }
  split; [now rewrite H2, Hfile', Hfile|].
  intros q k Hq. apply H3. rewrite (nstat_mkdirs _ _ _ q Em). now rewrite Hq.
Qed.

Lemma setup_logging_readies_the_log_file_witness :
  ex_log_file <> [] /\ handler ex_host = None /\
  no_host_faults (HostMakedirs (removelast ex_log_file)) = None /\
  no_host_faults (HostOpen ex_log_file) = None /\
  clear_way (disk ex_host) (removelast ex_log_file) /\
  nstat (disk ex_host) ex_log_file <> Some KDir /\
  exists h',
    setup_logging no_host_faults ex_log_file ex_host = (inr tt, h') /\
    handler h' = Some ex_log_file /\
    nstat (disk h') (removelast ex_log_file) = Some KDir /\
    nstat (disk h') ex_log_file =
      match nstat (disk ex_host) ex_log_file with
      | Some k => Some k
      | None => Some (KFile [])
      end /\
    forall q k, nstat (disk ex_host) q = Some k -> nstat (disk h') q = Some k.
Proof.
  assert (Hne : ex_log_file <> []) by discriminate.
  assert (Hway : clear_way (disk ex_host) (removelast ex_log_file)).
  { intros q data Hq Hs. apply prefixb_true in Hq as [t Ht].
    destruct q as [|a [|b [|c q]]]; cbn in Ht; try discriminate;
      inversion Ht; subst; vm_compute in Hs; discriminate. }
  assert (Hnd : nstat (disk ex_host) ex_log_file <> Some KDir)
    by (vm_compute; discriminate).
  split; [exact Hne|]. split; [reflexivity|]. split; [reflexivity|].
  split; [reflexivity|]. split; [exact Hway|]. split; [exact Hnd|].
  exact (setup_logging_readies_the_log_file no_host_faults ex_log_file ex_host
           Hne eq_refl eq_refl eq_refl Hway Hnd).
Defined.

Lemma mkdirs_error_kind p : forall n e,
  mkdirs n p = inl e -> lookup n p = None -> e = NotADirectoryError.
Proof.
  induction p as [|x p IH]; intros n e; destruct n as [data|es]; cbn [mkdirs lookup];
    try discriminate.
  - intros H _. now inversion H.
  - destruct (assoc x es) as [c|]; [|discriminate].
    destruct (mkdirs c p) as [e'|c'] eqn:Ec; [|discriminate].
    intros H Hl. inversion H; subst. now apply (IH c).
Qed.

(** X11. A regular file where the directory of the log file, or one of
    its parents, should be stops [setup_logging]: it raises
    [NotADirectoryError] (out of [os.makedirs] or out of the opening of
    the log file), makes nothing, and the root logger gets no handler. *)
Theorem setup_logging_stopped_by_a_file host_faulty log_file h q data :
  log_file <> [] -> handler h = None ->
  host_faulty (HostMakedirs (removelast log_file)) = None ->
  host_faulty (HostOpen log_file) = None ->
  prefixb q (removelast log_file) = true ->
  nstat (disk h) q = Some (KFile data) ->
  setup_logging host_faulty log_file h = (inl NotADirectoryError, h).
Proof.
  intros Hne Hh Hfm Hfo Hq Hs.
  destruct (removelast_snoc log_file Hne) as [f Hf].
  destruct (prefixb_true _ _ Hq) as [t Ht].
  assert (Hopen : nstat (disk h) (removelast log_file) = Some (KFile data) ->
                  basicConfig host_faulty log_file h = (inl NotADirectoryError, h)).
  { intros Hdir. unfold basicConfig. rewrite Hh, Hfo.
    assert (Hl : lookup (disk h) log_file = None).
    { assert (H : nstat (disk h) (removelast log_file ++ [f]) = None)
        by (apply (nstat_app_File _ _ _ data Hdir); discriminate).
      rewrite <- Hf in H. unfold nstat in H.
      destruct (lookup (disk h) log_file); [discriminate|reflexivity]. }
    rewrite Hl. unfold nstat in Hdir.
    destruct (lookup (disk h) (removelast log_file)) as [[d|es]|]; try discriminate.
    reflexivity. }
  unfold setup_logging. cbv zeta.
  destruct (lookup (disk h) (removelast log_file)) as [c|] eqn:El.
  - (* the directory name is taken: by the file *)
    assert (Hdir : nstat (disk h) (removelast log_file) = Some (KFile data)).
    { destruct t as [|y t].
      - rewrite app_nil_r in Ht. now subst q.
      - exfalso.
        assert (H : nstat (disk h) (q ++ y :: t) = None)
          by (apply (nstat_app_File _ _ _ data Hs); discriminate).
        rewrite <- Ht in H. unfold nstat in H. rewrite El in H. discriminate. }
    destruct (removelast log_file); [|rewrite El]; now apply Hopen.
  - destruct (removelast log_file) as [|x log_dir] eqn:Edir.
    { cbn [lookup] in El. discriminate. }
    unfold host_makedirs. rewrite Hfm, El.
    destruct (mkdirs (disk h) (x :: log_dir)) as [e|n'] eqn:Em.
    + now rewrite (mkdirs_error_kind _ _ _ Em El).
    + exfalso. pose proof (mkdirs_done _ _ _ Em) as Hdone.
      pose proof (nstat_mkdirs _ _ _ q Em) as Hkeep. rewrite Hs in Hkeep.
      destruct t as [|y t].
      * rewrite app_nil_r in Ht. subst q. congruence.
      * rewrite Ht in Hdone.
        rewrite (nstat_parent n' q (y :: t)) in Hkeep; [discriminate|congruence|discriminate].
Qed.

Lemma setup_logging_stopped_by_a_file_witness :
  ex_log_file <> [] /\ handler ex_host_blocked = None /\
  no_host_faults (HostMakedirs (removelast ex_log_file)) = None /\
  no_host_faults (HostOpen ex_log_file) = None /\
  prefixb ["var"%string] (removelast ex_log_file) = true /\
  nstat (disk ex_host_blocked) ["var"%string] =
    Some (KFile (bytes_of "not a folder")) /\
  setup_logging no_host_faults ex_log_file ex_host_blocked =
    (inl NotADirectoryError, ex_host_blocked).
Proof.
  assert (Hne : ex_log_file <> []) by discriminate.
  split; [exact Hne|]. split; [reflexivity|]. split; [reflexivity|].
  split; [reflexivity|]. split; [reflexivity|]. split; [reflexivity|].
  exact (setup_logging_stopped_by_a_file no_host_faults ex_log_file ex_host_blocked
           ["var"%string] (bytes_of "not a folder") Hne eq_refl eq_refl eq_refl
           eq_refl eq_refl).
Defined.

(** ** main *)

Section Main.

Variable faulty : op -> option exn.
Variable representable : Z -> bool.

Lemma sync_folders_returns w :
  exists v w', sync_folders faulty source_root replica_root w = (inr v, w').
Proof.
  destruct (roots_cases faulty w) as [(Hn & e & He)|[(Hs & Hn & e & He)|(Hs & Hr)]].
  - rewrite (sync_folders_source_fails faulty w e Hn He). eauto.
  - rewrite (sync_folders_replica_fails faulty w e Hs Hn He). eauto.
  - rewrite (sync_folders_roots_ok faulty w Hs Hr).
    destruct (finish_run faulty (with_roots w)) as (w1 & _ & ->). eauto.
Qed.

(** A round of [main] never takes the handler of its [try]: the call
    returns, and the round goes on to its sleep. *)
Lemma one_pass_run p :
  exists v w',
    sync_folders faulty source_root replica_root (world p) = (inr v, w') /\
    one_pass faulty p =
      (inr tt, Process w' (machine p)
                       (stdout p ++ match v with PyNone => [completed] | PyBool _ => [] end)
                       (naps p)).
Proof.
  destruct (sync_folders_returns (world p)) as (v & w' & E).
  exists v, w'. split; [exact E|]. unfold one_pass. rewrite E.
  destruct v; [reflexivity|]. now rewrite app_nil_r.
Qed.

Lemma sleep_run secs p :
  representable secs = true -> (0 <= secs)%Z ->
  sleep representable secs p =
    (inr tt, Process (world p) (machine p) (stdout p) (naps p ++ [secs])).
Proof.
  intros Hr Hs. unfold sleep. rewrite Hr. cbn [negb].
  destruct (Z.ltb_spec secs 0); [lia|reflexivity].
Qed.

(** The loop goes round as often as asked. *)
Lemma loop_runs rounds secs : forall p,
  representable secs = true -> (0 <= secs)%Z ->
  exists p',
    loop faulty representable rounds secs p = (inr tt, p') /\
    machine p' = machine p /\ naps p' = naps p ++ repeat secs rounds.
Proof.
  induction rounds as [|rounds IH]; intros p Hr Hs.
  { exists p. cbn [loop repeat]. now rewrite app_nil_r. }
  destruct (one_pass_run p) as (v & w' & _ & E1).
  cbn [loop]. unfold and_then at 1. rewrite E1.
  unfold and_then at 1. rewrite (sleep_run secs _ Hr Hs). cbn [world machine stdout naps].
  destruct (IH (Process w' (machine p)
                  (stdout p ++ match v with PyNone => [completed] | PyBool _ => [] end)
                  (naps p ++ [secs])) Hr Hs) as (p' & E & Hm & Hn).
  exists p'. split; [exact E|]. split; [exact Hm|].
  rewrite Hn. cbn [naps repeat]. now rewrite <- app_assoc.
Qed.

End Main.

Section MainRuns.

Variable faulty : op -> option exn.
Variable host_faulty : host_op -> option exn.
Variable int : string -> option Z.
Variable components : string -> list name.
Variable representable : Z -> bool.

(** [main] from the loop on, when its arguments pass. *)
Lemma main_enters_loop argv rounds p secs h' :
  5 <= length argv -> int (nth 3 argv EmptyString) = Some secs ->
  setup_logging host_faulty (components (nth 4 argv EmptyString)) (machine p) =
    (inr tt, h') ->
  main faulty host_faulty int components representable argv rounds p =
  loop faulty representable rounds secs (Process (world p) h' (stdout p) (naps p)).
Proof.
  intros Hlen Hint Hsetup. unfold main.
  rewrite (proj2 (Nat.ltb_ge _ _) Hlen), Hint. cbv zeta.
  unfold and_then. now rewrite Hsetup.
Qed.

End MainRuns.



Lemma errors_finished_started w : errors (finished (started w)) = errors w.
Proof.
  unfold errors, finished, started. cbn [log changes_made].
  rewrite !filter_app. cbn [filter is_error app]. now rewrite !app_nil_r.
Qed.

(** Rounds on a replica that mirrors the source change nothing. *)
Lemma loop_idle representable rounds secs : forall p,
  in_sync (world p) ->
  source_tree (world p) <> None -> replica_tree (world p) <> None ->
  representable secs = true -> (0 <= secs)%Z ->
  exists p',
    loop no_faults representable rounds secs p = (inr tt, p') /\
    source_tree (world p') = source_tree (world p) /\
    replica_tree (world p') = replica_tree (world p) /\
    journal (world p') = journal (world p) /\
    errors (world p') = errors (world p).
Proof.
  induction rounds as [|rounds IH]; intros p Hsync Hsrc Hrep Hr Hs.
  { exists p. cbn [loop]. auto. }
  pose proof (sync_folders_idle (world p) Hsync Hsrc Hrep) as E.
  assert (Hsync' : in_sync (finished (started (world p))))
    by (eapply in_sync_same_trees; [|exact Hsync]; now split).
  destruct (IH (Process (finished (started (world p))) (machine p)
                  (stdout p ++ [completed]) (naps p ++ [secs]))
              Hsync' Hsrc Hrep Hr Hs)
    as (p' & E' & H1 & H2 & H3 & H4).
  exists p'. split.
  - cbn [loop]. unfold and_then at 1. unfold one_pass. rewrite E.
    unfold and_then at 1. rewrite (sleep_run representable secs _ Hr Hs). exact E'.
  - cbn [world] in *. rewrite H1, H2, H3, H4.
    split; [reflexivity|]. split; [reflexivity|]. split; [reflexivity|].
    apply errors_finished_started.
Qed.



(** X14. [main] checks the number of its arguments and nothing else, and
    only then reads the interval. With fewer than four arguments it
    prints the usage line and exits with status 1; with four of which the
    third is no integer, [int] raises [ValueError], which nothing
    catches, and no usage line is printed. Either way [main] ends before
    logging is set up and before the first pass: the two trees, the log
    and the machine are as they were. *)
Theorem main_turned_away faulty host_faulty int components representable
    argv rounds p :
  length argv < 5 \/ int (nth 3 argv EmptyString) = None ->
  exists s p',
    main faulty host_faulty int components representable argv rounds p = (inl s, p') /\
    world p' = world p /\ machine p' = machine p /\ naps p' = naps p /\
    ((length argv < 5 /\ s = SystemExit 1 /\ stdout p' = stdout p ++ [usage]) \/
     (5 <= length argv /\ s = ValueError /\ stdout p' = stdout p)).
Proof.
  intros H. unfold main.
  destruct (Nat.ltb_spec (length argv) 5) as [Hlt|Hge].
  - eexists _, _. split; [reflexivity|]. cbn [world machine naps stdout print].
    split; [reflexivity|]. split; [reflexivity|]. split; [reflexivity|]. left. auto.
  - destruct H as [H|H]; [lia|]. rewrite H.
    eexists _, _. split; [reflexivity|].
    split; [reflexivity|]. split; [reflexivity|]. split; [reflexivity|]. right. auto.
Qed.

Lemma main_turned_away_witness :
  (length ["sync_folders.py"%string; "source"%string; "replica"%string] < 5 \/
   ex_int (nth 3 ["sync_folders.py"%string; "source"%string; "replica"%string]
             EmptyString) = None) /\
  exists s p',
    main no_faults no_host_faults ex_int ex_components ex_representable
      ["sync_folders.py"%string; "source"%string; "replica"%string] 3 ex_process =
      (inl s, p') /\
    world p' = world ex_process /\ machine p' = machine ex_process /\
    naps p' = naps ex_process /\
    ((length ["sync_folders.py"%string; "source"%string; "replica"%string] < 5 /\
      s = SystemExit 1 /\ stdout p' = stdout ex_process ++ [usage]) \/
     (5 <= length ["sync_folders.py"%string; "source"%string; "replica"%string] /\
      s = ValueError /\ stdout p' = stdout ex_process)).
Proof.
  assert (H : length ["sync_folders.py"%string; "source"%string; "replica"%string] < 5 \/
              ex_int (nth 3 ["sync_folders.py"%string; "source"%string; "replica"%string]
                        EmptyString) = None) by (left; cbn; lia).
  split; [exact H|].
  exact (main_turned_away no_faults no_host_faults ex_int ex_components
           ex_representable _ 3 ex_process H).
Defined.

(** X15. A negative interval is not turned away: [main] sets up logging
    and runs one pass of [sync_folders]; then [time.sleep] raises
    [ValueError], which nothing catches, and [main] ends, whatever the
    number of rounds it was to run. *)
Theorem main_negative_interval faulty host_faulty int components representable
    argv rounds p secs h' :
  5 <= length argv -> int (nth 3 argv EmptyString) = Some secs ->
  (secs < 0)%Z -> representable secs = true ->
  setup_logging host_faulty (components (nth 4 argv EmptyString)) (machine p) =
    (inr tt, h') ->
  exists v w' p',
    sync_folders faulty source_root replica_root (world p) = (inr v, w') /\
    main faulty host_faulty int components representable argv (S rounds) p =
      (inl ValueError, p') /\
    world p' = w' /\ machine p' = h' /\ naps p' = naps p.
Proof.
  intros Hlen Hint Hs Hr Hsetup.
  rewrite (main_enters_loop faulty host_faulty int components representable
             argv (S rounds) p secs h' Hlen Hint Hsetup).
  destruct (one_pass_run faulty (Process (world p) h' (stdout p) (naps p)))
    as (v & w' & E & E1). cbn [world machine stdout naps] in *.
  exists v, w'. eexists. split; [exact E|].
  cbn [loop]. unfold and_then at 1. rewrite E1.
  unfold and_then at 1. unfold sleep. rewrite Hr. cbn [negb].
  destruct (Z.ltb_spec secs 0); [|lia].
  split; [reflexivity|]. cbn [world machine naps]. auto.
Qed.

Lemma main_negative_interval_witness :
  5 <= length ["sync_folders.py"%string; "source"%string; "replica"%string;
               "-5"%string; "sync.log"%string] /\
  ex_int (nth 3 ["sync_folders.py"%string; "source"%string; "replica"%string;
                 "-5"%string; "sync.log"%string] EmptyString) = Some (-5)%Z /\
  (-5 < 0)%Z /\ ex_representable (-5) = true /\
  setup_logging no_host_faults
    (ex_components (nth 4 ["sync_folders.py"%string; "source"%string;
                           "replica"%string; "-5"%string; "sync.log"%string]
                      EmptyString))
    (machine ex_process) =
    (inr tt, Host (Dir [("sync.log"%string, File [])]) (Some ["sync.log"%string])) /\
  exists v w' p',
    sync_folders no_faults source_root replica_root (world ex_process) = (inr v, w') /\
    main no_faults no_host_faults ex_int ex_components ex_representable
      ["sync_folders.py"%string; "source"%string; "replica"%string;
       "-5"%string; "sync.log"%string] 4 ex_process = (inl ValueError, p') /\
    world p' = w' /\
    machine p' = Host (Dir [("sync.log"%string, File [])]) (Some ["sync.log"%string]) /\
    naps p' = naps ex_process.
Proof.
  assert (Hlen : 5 <= length ["sync_folders.py"%string; "source"%string;
                              "replica"%string; "-5"%string; "sync.log"%string])
    by (cbn; lia).
  assert (Hs : (-5 < 0)%Z) by lia.
  split; [exact Hlen|]. split; [reflexivity|]. split; [exact Hs|].
  split; [reflexivity|]. split; [reflexivity|].
  exact (main_negative_interval no_faults no_host_faults ex_int ex_components
           ex_representable _ 3 ex_process (-5)%Z _ Hlen eq_refl Hs eq_refl eq_refl).
Defined.

(** ** Removals that fail *)

Lemma bind_ext {A B} (c c' : M A) (k k' : A -> M B) w :
  c w = c' w -> (forall a u, k a u = k' a u) -> bind c k w = bind c' k' w.
Proof.
  intros Hc Hk. unfold bind. rewrite Hc.
  destruct (c' w) as [[e|a] u]; [reflexivity|apply Hk].
Qed.

Lemma try_ext {A} (c c' : M A) (h h' : exn -> M A) w :
  c w = c' w -> (forall e u, h e u = h' e u) -> try_except c h w = try_except c' h' w.
Proof.
  intros Hc Hh. unfold try_except. rewrite Hc.
  destruct (c' w) as [[e|a] u]; [apply Hh|reflexivity].
Qed.

Lemma for_each_ext {A} (f g : A -> M unit) xs :
  (forall x u, f x u = g x u) -> forall w, for_each xs f w = for_each xs g w.
Proof.
  intros H. induction xs as [|x xs IH]; intros w; [reflexivity|].
  cbn [for_each]. apply bind_ext; [apply H|]. intros _. apply IH.
Qed.

Section OnlyRemovalsFail.

Variable faulty : op -> option exn.
Hypothesis calm : only_removals_fail faulty.

Lemma fault_calm o w :
  is_removal o = false -> fault faulty o w = fault no_faults o w.
Proof. intros H. unfold fault. now rewrite (calm o H). Qed.

Lemma makedirs_calm p w : makedirs faulty p w = makedirs no_faults p w.
Proof. unfold makedirs. apply bind_ext; [now apply fault_calm|reflexivity]. Qed.

Lemma copy2_calm s d w : copy2 faulty s d w = copy2 no_faults s d w.
Proof. unfold copy2. apply bind_ext; [now apply fault_calm|reflexivity]. Qed.

Lemma read_chunks_calm fuel p data : forall pos h w,
  read_chunks faulty fuel p data pos h w = read_chunks no_faults fuel p data pos h w.
Proof.
  induction fuel as [|fuel IH]; intros pos h w; [reflexivity|].
  cbn [read_chunks]. apply bind_ext.
  - unfold read. apply bind_ext; [now apply fault_calm|reflexivity].
  - intros [|b chunk] u; [reflexivity|apply IH].
Qed.

Lemma calculate_md5_calm p w : calculate_md5 faulty p w = calculate_md5 no_faults p w.
Proof.
  unfold calculate_md5. apply try_ext; [|reflexivity]. cbv zeta.
  apply bind_ext.
  - unfold open_rb. apply bind_ext; [now apply fault_calm|reflexivity].
  - intros data u. apply bind_ext; [apply read_chunks_calm|reflexivity].
Qed.

Lemma scandir_calm top w : scandir faulty top w = scandir no_faults top w.
Proof. unfold scandir. now rewrite (calm (OpScandir top)). Qed.

Lemma propagate_calm root dirs files w :
  propagate faulty source_root replica_root root dirs files w =
  propagate no_faults source_root replica_root root dirs files w.
Proof.
  unfold propagate. cbv zeta. apply bind_ext.
  - apply for_each_ext. intros d u. apply try_ext; [apply makedirs_calm|reflexivity].
  - intros _ u. apply for_each_ext. intros f v.
    apply bind_ext; [reflexivity|]. intros there v1.
    apply bind_ext.
    + destruct (negb there); [reflexivity|].
      apply bind_ext; [apply calculate_md5_calm|]. intros a v2.
      apply bind_ext; [apply calculate_md5_calm|reflexivity].
    + intros [|] v2; [|reflexivity].
      apply bind_ext; [apply copy2_calm|reflexivity].
Qed.

Lemma walk_propagate_calm fuel : forall top w,
  walk faulty fuel top (propagate faulty source_root replica_root) w =
  walk no_faults fuel top (propagate no_faults source_root replica_root) w.
Proof.
  induction fuel as [|fuel IH]; intros top w; [reflexivity|].
  cbn [walk]. rewrite !bind_gets, scandir_calm.
  destruct (scandir no_faults top w) as [[dirs files]|]; [|reflexivity].
  apply bind_ext; [apply propagate_calm|].
  intros _ u. apply for_each_ext. intros d v. apply IH.
Qed.

End OnlyRemovalsFail.

Lemma removal_errors_refl w : removal_errors w w.
Proof. exists []. rewrite app_nil_r. split; [reflexivity|intros r []]. Qed.

Lemma removal_errors_trans a b c :
  removal_errors a b -> removal_errors b c -> removal_errors a c.
Proof.
  intros (l1 & Hl1 & H1) (l2 & Hl2 & H2). exists (l1 ++ l2).
  rewrite Hl2, Hl1, <- app_assoc. split; [reflexivity|].
  intros r Hr. apply in_app_or in Hr as [Hr|Hr]; auto.
Qed.

(** A run that adds records and no error. *)
Lemma removal_errors_none w w' l :
  log w' = log w ++ l -> nerr w' = nerr w -> removal_errors w w'.
Proof.
  intros Hl Hn. exists l. split; [exact Hl|]. intros r Hr He. exfalso.
  unfold nerr, errors in Hn. rewrite Hl, filter_app, length_app in Hn.
  assert (Hin : In r (filter is_error l)) by (apply filter_In; now split).
  destruct (filter is_error l); [destruct Hin|]. cbn [length] in Hn. lia.
Qed.

Lemma removal_errors_same_log w w' : log w' = log w -> removal_errors w w'.
Proof. intros H. exists []. rewrite app_nil_r. split; [exact H|intros r []]. Qed.

(** What the second loop removes is at or below a name the source does
    not have. *)
Lemma pruned_of_gone r x w w' :
  src_stat w (r ++ [x]) = None -> gone (Path Replica (r ++ [x])) w w' -> pruned w w'.
Proof.
  intros Hsrc Hg. split; intros q.
  - destruct (Hg (Path Source q)) as [E|(_ & Hb & _)]; [exact E|discriminate Hb].
  - destruct (Hg (Path Replica q)) as [E|(E & _ & Hp)]; [now left|].
    right. split; [exact E|]. exists (r ++ [x]). now split.
Qed.

Lemma settled_pruned w w' q : settled w q -> pruned w w' -> settled w' q.
Proof.
  unfold settled. intros H [Hs Hr]. rewrite Hs.
  destruct (src_stat w q) as [k|] eqn:Esrc; [|exact I].
  assert (Hrep : rep_stat w' q = rep_stat w q).
  { destruct (Hr q) as [E|(_ & q1 & Hp & Hn)]; [exact E|].
    exfalso. apply (src_stat_prefix w q1 q Hp); congruence. }
  now rewrite Hrep.
Qed.

Section FailedRemovals.

Variable faulty : op -> option exn.

Lemma removal_errors_log_info m : keeps removal_errors (log_info m).
Proof.
  intros w r w' H. inversion H; subst. exists [INFO m]. split; [reflexivity|].
  intros r' [<-|[]]. discriminate.
Qed.

Lemma removal_errors_failed p e : keeps removal_errors (log_error (Failed_to_delete p e)).
Proof.
  intros w r w' H. inversion H; subst. exists [ERROR (Failed_to_delete p e)].
  split; [reflexivity|]. now intros r' [<-|[]].
Qed.

Lemma removal_errors_set_changes_made b : keeps removal_errors (set_changes_made b).
Proof. intros w r w' H. inversion H; subst. now apply removal_errors_same_log. Qed.

Lemma removal_errors_remove p : keeps removal_errors (remove faulty p).
Proof.
  intros w r w' H. apply remove_run in H as [(e & _ & ->)|(_ & [Hl _] & _)].
  - apply removal_errors_refl.
  - now apply removal_errors_same_log.
Qed.

Lemma removal_errors_rmtree p : keeps removal_errors (rmtree faulty p).
Proof.
  intros w r w' H. apply rmtree_run in H as [(e & _ & ->)|(_ & [Hl _] & _)].
  - apply removal_errors_refl.
  - now apply removal_errors_same_log.
Qed.

End FailedRemovals.

#[local] Hint Resolve removal_errors_refl removal_errors_trans removal_errors_log_info
  removal_errors_failed removal_errors_set_changes_made removal_errors_remove
  removal_errors_rmtree : keeps.

Section SecondLoop.

Variable faulty : op -> option exn.

Lemma removal_errors_prune root dirs files :
  keeps removal_errors (prune faulty source_root replica_root root dirs files).
Proof. unfold prune, path_exists, path_isdir. keeps_tac. Qed.

Lemma pruned_prune_delete_step r x : keeps pruned (prune_delete_step faulty r x).
Proof.
  intros w res w' H. unfold prune_delete_step, path_exists in H.
  rewrite bind_gets in H.
  destruct (find w (Path Source (r ++ [x]))) as [c|] eqn:Hfs; cbn [negb] in H.
  { inversion H; subst. apply pruned_refl. }
  apply (pruned_of_gone r x); [unfold src_stat; now apply stat_find_none|].
  assert (Hk : keeps (gone (Path Replica (r ++ [x])))
                 (isd <- path_isdir (Path Replica (r ++ [x])) ;;
                  (if (isd : bool)
                   then rmtree faulty (Path Replica (r ++ [x])) ;;
                        log_info (Deleted_directory (Path Replica (r ++ [x])))
                   else remove faulty (Path Replica (r ++ [x])) ;;
                        log_info (Deleted_file (Path Replica (r ++ [x])))) ;;
                  set_changes_made true))
    by (unfold path_isdir; keeps_tac).
  exact (Hk w res w' H).
Qed.

Lemma pruned_prune_step r x : keeps pruned (prune_step faulty r x).
Proof.
  unfold prune_step.
  apply keeps_try; [apply pruned_trans|apply pruned_prune_delete_step|].
  intros e w res w' H. inversion H; subst. now apply pruned_same_trees.
Qed.

Lemma pruned_prune root dirs files :
  base root = Replica ->
  keeps pruned (prune faulty source_root replica_root root dirs files).
Proof.
  destruct root as [s r]. cbn [base]. intros ->. rewrite prune_steps.
  apply keeps_for_each;
    first [apply pruned_refl | apply pruned_trans | intros x _ ].
  apply pruned_prune_step.
Qed.

(** The second loop raises nothing: each removal has its handler. *)
Lemma prune_returns root dirs files w :
  exists w', prune faulty source_root replica_root root dirs files w = (inr tt, w').
Proof.
  unfold prune. cbv zeta. generalize (files ++ dirs). intros xs. revert w.
  induction xs as [|x xs IH]; intros w; [now exists w|].
  cbn [for_each]. unfold bind at 1. unfold try_except at 1.
  match goal with
  | |- context [match ?c w with _ => _ end] => destruct (c w) as [[e|[]] u]
  end.
  - unfold log_error. apply IH.
  - apply IH.
Qed.

Lemma walk_prune_returns fuel : forall top w,
  exists w', walk faulty fuel top (prune faulty source_root replica_root) w = (inr tt, w').
Proof.
  induction fuel as [|fuel IH]; intros top w; [now exists w|].
  cbn [walk]. rewrite bind_gets.
  destruct (scandir faulty top w) as [[dirs files]|]; [|now exists w].
  destruct (prune_returns top dirs files w) as (w1 & E1).
  rewrite (bind_inr _ _ _ _ _ E1).
  generalize w1. clear E1. induction dirs as [|d dirs IHd]; intros u; [now exists u|].
  cbn [for_each]. destruct (IH (join top [d]) u) as (u' & E).
  rewrite (bind_inr _ _ _ _ _ E). apply IHd.
Qed.

End SecondLoop.

Lemma log_with_roots w : exists l, log (with_roots w) = log w ++ l.
Proof.
  unfold with_roots, with_root, root_made, started.
  destruct w as [[?|] [?|] l j c]; cbn; rewrite <- ?app_assoc; eauto.
Qed.

Lemma settled_same_trees w w' q : same_trees w w' -> settled w q -> settled w' q.
Proof.
  intros H. unfold settled, src_stat, rep_stat.
  now rewrite !(stat_same_trees _ _ _ H).
Qed.


